(** * LINNE: bit utilities, M/S transform, preemphasis and the LPC core

    A shallow embedding of [libs/linne_internal/src/linne_utility.c] and
    [libs/lpc/src/lpc.c], followed by the properties proved about it.

    Conventions of the embedding.
    - [int32_t] values are integers of [Z] kept in the signed 32-bit range by
      [Int32.wrap]; [uint32_t] values are kept in range by [UInt32.wrap].
    - C buffers are lists.  Every access goes through [rd] / [wr], which
      yield [Undefined] outside the buffer.
    - [assert] is part of the source: a failing assertion is the outcome
      [AssertFail]. *)

From Stdlib Require Import ZArith List Lia Bool Arith.
From Stdlib Require Import Floats.
From Stdlib Require Import Reals Lra Machin.
Import ListNotations.
Local Open Scope Z_scope.

(* ================================================================== *)
(** * Part I: the embedding                                            *)
(* ================================================================== *)

(** ** Machine integers *)

Module Int32.
(** Reduction of an integer to the signed 32-bit range (two's complement). *)
Definition wrap (z : Z) : Z := (z + 2 ^ 31) mod 2 ^ 32 - 2 ^ 31.
Definition in_range (z : Z) : Prop := - 2 ^ 31 <= z < 2 ^ 31.
Definition add (a b : Z) : Z := wrap (a + b).
Definition sub (a b : Z) : Z := wrap (a - b).
Definition mul (a b : Z) : Z := wrap (a * b).
(** [a >> s] on a signed value: arithmetic shift, i.e. floor division. *)
Definition sar (a s : Z) : Z := Z.shiftr a s.
(** [a << s] on a signed value, reduced to 32 bits: the meaning of both
    shifts at the counts from 0 to 31.  [LPC_Predict] and [LPC_Synthesize],
    which shift by an argument, go through [LPC.c_shl] and [LPC.c_sar], where
    a count of 32 or more is undefined; the other callers shift by a constant
    or, for the [qmax] of the quantizer, by [nbits_precision - 1], which is
    read at precisions of up to 32 bits only. *)
Definition shl (a s : Z) : Z := wrap (Z.shiftl a s).
End Int32.

Module UInt32.
Definition wrap (z : Z) : Z := z mod 2 ^ 32.
Definition in_range (z : Z) : Prop := 0 <= z < 2 ^ 32.
Definition add (a b : Z) : Z := wrap (a + b).
Definition sub (a b : Z) : Z := wrap (a - b).
Definition shr (a s : Z) : Z := Z.shiftr a s.
Definition or (a b : Z) : Z := Z.lor a b.
(** An index computed in [uint32_t] arithmetic from sample counts. *)
Definition index (z : Z) : nat := Z.to_nat (wrap z).
End UInt32.

Module UInt16.
Definition wrap (z : Z) : Z := z mod 2 ^ 16.
Definition in_range (z : Z) : Prop := 0 <= z < 2 ^ 16.
End UInt16.

Module UInt8.
Definition in_range (z : Z) : Prop := 0 <= z < 2 ^ 8.
End UInt8.

(** [~a] and [a << s] on [uint32_t]. *)
Definition u32_not (a : Z) : Z := UInt32.wrap (Z.lnot a).
Definition u32_shl (a s : Z) : Z := UInt32.wrap (Z.shiftl a s).

(** ** Outcomes of a run *)

Inductive outcome (A : Type) : Type :=
| Ret (a : A)      (* the function returned *)
| AssertFail       (* an [assert] of the source failed *)
| Undefined.       (* an access outside a buffer, or another undefined step *)
Arguments Ret {A} a.
Arguments AssertFail {A}.
Arguments Undefined {A}.

Definition bind {A B : Type} (m : outcome A) (k : A -> outcome B) : outcome B :=
  match m with
  | Ret a => k a
  | AssertFail => AssertFail
  | Undefined => Undefined
  end.

Declare Scope outcome_scope.
Delimit Scope outcome_scope with outcome.
Notation "x <- m ;; k" := (bind m (fun x => k))
  (at level 61, m at next level, right associativity) : outcome_scope.
Notation "' p <- m ;; k" := (bind m (fun x => match x with p => k end))
  (at level 61, p pattern, m at next level, right associativity) : outcome_scope.
Notation "m ;;; k" := (bind m (fun _ => k))
  (at level 61, right associativity) : outcome_scope.
Local Open Scope outcome_scope.

Definition c_assert (b : bool) : outcome unit :=
  if b then Ret tt else AssertFail.

(** ** Buffers *)

Fixpoint upd {A : Type} (l : list A) (i : nat) (v : A) : list A :=
  match l, i with
  | [], _ => []
  | _ :: t, O => v :: t
  | h :: t, S i' => h :: upd t i' v
  end.

(** [b[i]] as an rvalue. *)
Definition rd {A : Type} (b : list A) (i : nat) : outcome A :=
  match nth_error b i with
  | Some v => Ret v
  | None => Undefined
  end.

(** [b[i] = v]. *)
Definition wr {A : Type} (b : list A) (i : nat) (v : A) : outcome (list A) :=
  if (i <? length b)%nat then Ret (upd b i v) else Undefined.

(** ** Counted loops

    [for_loop n i body s] runs [body i], [body (i+1)], ... [n] times;
    [for_range lo hi] is [for (i = lo; i < hi; i++)]. *)

Fixpoint for_loop {S : Type} (n : nat) (i : nat)
    (body : nat -> S -> outcome S) (s : S) : outcome S :=
  match n with
  | O => Ret s
  | Datatypes.S n' => s' <- body i s ;; for_loop n' (Datatypes.S i) body s'
  end.

Definition for_range {S : Type} (lo hi : nat)
    (body : nat -> S -> outcome S) (s : S) : outcome S :=
  for_loop (hi - lo) lo body s.

(** A loop a [return] or [break] may leave: a round yields [inl x] to leave
    with [x], or [inr s] to go on with state [s]. *)
Fixpoint for_loop_exit {S X : Type} (n : nat) (i : nat)
    (body : nat -> S -> outcome (X + S)) (s : S) : outcome (X + S) :=
  match n with
  | O => Ret (inr s)
  | Datatypes.S n' =>
      r <- body i s ;;
      match r with
      | inl x => Ret (inl x)
      | inr s' => for_loop_exit n' (Datatypes.S i) body s'
      end
  end.

(** ** [linne_utility.c] *)

Module LINNEUtility.

(** The table of the CRC-16 of each byte, [st_crc16_ibm_byte_table]. *)
Definition st_crc16_ibm_byte_table : list Z :=
  [0x0000; 0xc0c1; 0xc181; 0x0140; 0xc301; 0x03c0; 0x0280; 0xc241;
   0xc601; 0x06c0; 0x0780; 0xc741; 0x0500; 0xc5c1; 0xc481; 0x0440;
   0xcc01; 0x0cc0; 0x0d80; 0xcd41; 0x0f00; 0xcfc1; 0xce81; 0x0e40;
   0x0a00; 0xcac1; 0xcb81; 0x0b40; 0xc901; 0x09c0; 0x0880; 0xc841;
   0xd801; 0x18c0; 0x1980; 0xd941; 0x1b00; 0xdbc1; 0xda81; 0x1a40;
   0x1e00; 0xdec1; 0xdf81; 0x1f40; 0xdd01; 0x1dc0; 0x1c80; 0xdc41;
   0x1400; 0xd4c1; 0xd581; 0x1540; 0xd701; 0x17c0; 0x1680; 0xd641;
   0xd201; 0x12c0; 0x1380; 0xd341; 0x1100; 0xd1c1; 0xd081; 0x1040;
   0xf001; 0x30c0; 0x3180; 0xf141; 0x3300; 0xf3c1; 0xf281; 0x3240;
   0x3600; 0xf6c1; 0xf781; 0x3740; 0xf501; 0x35c0; 0x3480; 0xf441;
   0x3c00; 0xfcc1; 0xfd81; 0x3d40; 0xff01; 0x3fc0; 0x3e80; 0xfe41;
   0xfa01; 0x3ac0; 0x3b80; 0xfb41; 0x3900; 0xf9c1; 0xf881; 0x3840;
   0x2800; 0xe8c1; 0xe981; 0x2940; 0xeb01; 0x2bc0; 0x2a80; 0xea41;
   0xee01; 0x2ec0; 0x2f80; 0xef41; 0x2d00; 0xedc1; 0xec81; 0x2c40;
   0xe401; 0x24c0; 0x2580; 0xe541; 0x2700; 0xe7c1; 0xe681; 0x2640;
   0x2200; 0xe2c1; 0xe381; 0x2340; 0xe101; 0x21c0; 0x2080; 0xe041;
   0xa001; 0x60c0; 0x6180; 0xa141; 0x6300; 0xa3c1; 0xa281; 0x6240;
   0x6600; 0xa6c1; 0xa781; 0x6740; 0xa501; 0x65c0; 0x6480; 0xa441;
   0x6c00; 0xacc1; 0xad81; 0x6d40; 0xaf01; 0x6fc0; 0x6e80; 0xae41;
   0xaa01; 0x6ac0; 0x6b80; 0xab41; 0x6900; 0xa9c1; 0xa881; 0x6840;
   0x7800; 0xb8c1; 0xb981; 0x7940; 0xbb01; 0x7bc0; 0x7a80; 0xba41;
   0xbe01; 0x7ec0; 0x7f80; 0xbf41; 0x7d00; 0xbdc1; 0xbc81; 0x7c40;
   0xb401; 0x74c0; 0x7580; 0xb541; 0x7700; 0xb7c1; 0xb681; 0x7640;
   0x7200; 0xb2c1; 0xb381; 0x7340; 0xb101; 0x71c0; 0x7080; 0xb041;
   0x5000; 0x90c1; 0x9181; 0x5140; 0x9301; 0x53c0; 0x5280; 0x9241;
   0x9601; 0x56c0; 0x5780; 0x9741; 0x5500; 0x95c1; 0x9481; 0x5440;
   0x9c01; 0x5cc0; 0x5d80; 0x9d41; 0x5f00; 0x9fc1; 0x9e81; 0x5e40;
   0x5a00; 0x9ac1; 0x9b81; 0x5b40; 0x9901; 0x59c0; 0x5880; 0x9841;
   0x8801; 0x48c0; 0x4980; 0x8941; 0x4b00; 0x8bc1; 0x8a81; 0x4a40;
   0x4e00; 0x8ec1; 0x8f81; 0x4f40; 0x8d01; 0x4dc0; 0x4c80; 0x8c41;
   0x4400; 0x84c1; 0x8581; 0x4540; 0x8701; 0x47c0; 0x4680; 0x8641;
   0x8201; 0x42c0; 0x4380; 0x8341; 0x4100; 0x81c1; 0x8081; 0x4040].

(** [st_nlz10_table]; 99 is its [UNUSED]. *)
Definition st_nlz10_table : list Z :=
  [    32;     20;     19;     99;     99;     18;     99;      7;
       10;     17;     99;     99;     14;     99;      6;     99;
       99;      9;     99;     16;     99;     99;      1;     26;
       99;     13;     99;     99;     24;      5;     99;     99;
       99;     21;     99;      8;     11;     99;     15;     99;
       99;     99;     99;      2;     27;      0;     25;     99;
       22;     99;     12;     99;     99;      3;     28;     99;
       23;     99;      4;     29;     99;     99;     30;     31].

(** One round of the loop of [LINNEUtility_CalculateCRC16]:
    [crc16 = (crc16 >> 8) ^ st_crc16_ibm_byte_table[(crc16 ^ byte) & 0xFF]],
    stored back to a [uint16_t]. *)
Definition CRC16_round (crc16 byte : Z) : outcome Z :=
  t <- rd st_crc16_ibm_byte_table
          (Z.to_nat (Z.land (Z.lxor crc16 byte) 0xFF)) ;;
  Ret (UInt16.wrap (Z.lxor (Z.shiftr crc16 8) t)).

(** [LINNEUtility_CalculateCRC16] on a buffer of bytes. *)
Definition LINNEUtility_CalculateCRC16 (data : list Z) (data_size : nat)
  : outcome Z :=
  for_range 0 data_size
    (fun i crc16 => byte <- rd data i ;; CRC16_round crc16 byte)
    0.

(** [LINNEUtility_NLZSoft] *)
Definition LINNEUtility_NLZSoft (x : Z) : outcome Z :=
  let x := UInt32.or x (UInt32.shr x 1) in
  let x := UInt32.or x (UInt32.shr x 2) in
  let x := UInt32.or x (UInt32.shr x 4) in
  let x := UInt32.or x (UInt32.shr x 8) in
  let x := Z.land x (u32_not (UInt32.shr x 16)) in
  let x := UInt32.sub (u32_shl x 9) x in
  let x := UInt32.sub (u32_shl x 11) x in
  let x := UInt32.sub (u32_shl x 14) x in
  rd st_nlz10_table (Z.to_nat (UInt32.shr x 26)).

(** [LINNEUtility_RoundUp2PoweredSoft] *)
Definition LINNEUtility_RoundUp2PoweredSoft (val : Z) : Z :=
  let val := UInt32.sub val 1 in
  let val := UInt32.or val (UInt32.shr val 1) in
  let val := UInt32.or val (UInt32.shr val 2) in
  let val := UInt32.or val (UInt32.shr val 4) in
  let val := UInt32.or val (UInt32.shr val 8) in
  let val := UInt32.or val (UInt32.shr val 16) in
  UInt32.add val 1.

(** The two channels [buffer[0]], [buffer[1]] of the in-place transforms. *)
Definition stereo : Type := (list Z * list Z)%type.

Definition MSConversion_body (smpl : nat) (buffer : stereo) : outcome stereo :=
  let '(b0, b1) := buffer in
  l <- rd b0 smpl ;;
  r <- rd b1 smpl ;;
  b1 <- wr b1 smpl (Int32.sub r l) ;;
  s <- rd b1 smpl ;;
  l <- rd b0 smpl ;;
  b0 <- wr b0 smpl (Int32.add l (Int32.sar s 1)) ;;
  Ret (b0, b1).

(** [LINNEUtility_MSConversion] : LR -> MS, in place. *)
Definition LINNEUtility_MSConversion (buffer : stereo) (num_samples : nat)
  : outcome stereo :=
  for_range 0 num_samples MSConversion_body buffer.

Definition LRConversion_body (smpl : nat) (buffer : stereo) : outcome stereo :=
  let '(b0, b1) := buffer in
  m <- rd b0 smpl ;;
  s <- rd b1 smpl ;;
  b0 <- wr b0 smpl (Int32.sub m (Int32.sar s 1)) ;;
  s <- rd b1 smpl ;;
  l <- rd b0 smpl ;;
  b1 <- wr b1 smpl (Int32.add s l) ;;
  Ret (b0, b1).

(** [LINNEUtility_LRConversion] : MS -> LR, in place. *)
Definition LINNEUtility_LRConversion (buffer : stereo) (num_samples : nat)
  : outcome stereo :=
  for_range 0 num_samples LRConversion_body buffer.

(** [struct LINNEPreemphasisFilter] *)
Record LINNEPreemphasisFilter : Type := mkPreem { prev : Z; coef : Z }.

Definition LINNEPreemphasisFilter_Initialize : LINNEPreemphasisFilter :=
  {| prev := 0; coef := 0 |}.

Section Preemphasis.
(** The macro of [linne_internal.h], a header outside the sources at
    hand: the fixed-point position of the filter coefficient. *)
Variable LINNE_PREEMPHASIS_COEF_SHIFT : Z.

Definition emphasis_term (prev coef : Z) : Z :=
  Int32.sar (Int32.mul prev coef) LINNE_PREEMPHASIS_COEF_SHIFT.

Definition Preemphasis_body (coef : Z) (smpl : nat) (st : Z * list Z)
  : outcome (Z * list Z) :=
  let '(prev, buffer) := st in
  tmp <- rd buffer smpl ;;
  buffer <- wr buffer smpl (Int32.sub tmp (emphasis_term prev coef)) ;;
  Ret (tmp, buffer).

(** [LINNEPreemphasisFilter_Preemphasis] *)
Definition LINNEPreemphasisFilter_Preemphasis
    (preem : LINNEPreemphasisFilter) (buffer : list Z) (num_samples : nat)
  : outcome (LINNEPreemphasisFilter * list Z) :=
  ' (p, buffer) <- for_range 0 num_samples (Preemphasis_body (coef preem))
                     (prev preem, buffer) ;;
  Ret ({| prev := p; coef := coef preem |}, buffer).

Definition Deemphasis_body (coef : Z) (smpl : nat) (buffer : list Z)
  : outcome (list Z) :=
  cur <- rd buffer smpl ;;
  before <- rd buffer (smpl - 1) ;;
  wr buffer smpl (Int32.add cur (emphasis_term before coef)).

(** [LINNEPreemphasisFilter_Deemphasis] *)
Definition LINNEPreemphasisFilter_Deemphasis
    (preem : LINNEPreemphasisFilter) (buffer : list Z) (num_samples : nat)
  : outcome (LINNEPreemphasisFilter * list Z) :=
  first <- rd buffer 0 ;;
  buffer <- wr buffer 0
              (Int32.add first (emphasis_term (prev preem) (coef preem))) ;;
  buffer <- for_range 1 num_samples (Deemphasis_body (coef preem)) buffer ;;
  last <- rd buffer (UInt32.index (Z.of_nat num_samples - 1)) ;;
  Ret ({| prev := last; coef := coef preem |}, buffer).
End Preemphasis.

End LINNEUtility.

(** ** [lpc.c] *)

(** [memcpy(dst, src, n * sizeof(elem))] / [memmove] on buffers of one
    element type; a source such as [&v[1]] is [skipn 1 v]. *)
Definition memcpy {A : Type} (dst src : list A) (n : nat) : outcome (list A) :=
  if ((n <=? length dst) && (n <=? length src))%nat
  then Ret (firstn n src ++ skipn n dst)
  else Undefined.

(** [m[i][j]] as an rvalue and [m[i][j] = v], for a matrix given by rows. *)
Definition rd2 {A : Type} (m : list (list A)) (i j : nat) : outcome A :=
  row <- rd m i ;; rd row j.

Definition wr2 {A : Type} (m : list (list A)) (i j : nat) (v : A)
  : outcome (list (list A)) :=
  row <- rd m i ;; row <- wr row j v ;; wr m i row.

(** *** The arithmetic of [double]

    The analysis code is written once over the operations it uses on
    [double], so that it can be run on IEEE binary64 numbers and reasoned
    about in exact real arithmetic. *)

Class DoubleOps (D : Type) : Type := {
  d_of_Z : Z -> D;          (* an integral literal, or an integer converted *)
  d_add : D -> D -> D;
  d_sub : D -> D -> D;
  d_mul : D -> D -> D;
  d_div : D -> D -> D;
  d_opp : D -> D;           (* unary minus *)
  d_abs : D -> D;           (* [fabs] *)
  d_ltb : D -> D -> bool;   (* [<] *)
  d_leb : D -> D -> bool;   (* [<=] *)
  d_pi : D;                 (* [LPC_PI] *)
  d_flt_epsilon : D         (* [FLT_EPSILON] of [float.h] *)
}.

(** The two functions of [math.h] the window code calls. *)
Class Libm (D : Type) : Type := {
  c_sin : D -> D;
  c_pow : D -> D -> D
}.

Declare Scope double_scope.
Delimit Scope double_scope with D.
Notation "x +! y" := (d_add x y) (at level 50, left associativity) : double_scope.
Notation "x -! y" := (d_sub x y) (at level 50, left associativity) : double_scope.
Notation "x *! y" := (d_mul x y) (at level 40, left associativity) : double_scope.
Notation "x /! y" := (d_div x y) (at level 40, left associativity) : double_scope.
Notation "x <! y" := (d_ltb x y) (at level 70, no associativity) : double_scope.
Notation "x <=! y" := (d_leb x y) (at level 70, no associativity) : double_scope.
Local Open Scope double_scope.

Module LPC.

(** [LPCApiResult], [LPCWindowType] of [lpc.h], as [lpc.c] uses them.
    [LPC_WINDOWTYPE_other] stands for any value that is none of the three
    enumerators (the [default] branch of [LPC_ApplyWindow]). *)
Inductive LPCApiResult : Type :=
| LPC_APIRESULT_OK
| LPC_APIRESULT_INVALID_ARGUMENT
| LPC_APIRESULT_EXCEED_MAX_ORDER
| LPC_APIRESULT_EXCEED_MAX_NUM_SAMPLES
| LPC_APIRESULT_FAILED_TO_CALCULATION.

Inductive LPCWindowType : Type :=
| LPC_WINDOWTYPE_RECTANGULAR
| LPC_WINDOWTYPE_SIN
| LPC_WINDOWTYPE_WELCH
| LPC_WINDOWTYPE_other.

(** [LPCError] *)
Inductive LPCError : Type :=
| LPC_ERROR_OK
| LPC_ERROR_NG
| LPC_ERROR_SINGULAR_MATRIX
| LPC_ERROR_INVALID_ARGUMENT.

Definition is_OK (e : LPCError) : bool :=
  match e with LPC_ERROR_OK => true | _ => false end.

Section Analysis.
Context {D : Type} {ops : DoubleOps D} {libm : Libm D}.

(** [struct LPCCalculator]: the bounds and the scratch buffers (the two
    bookkeeping fields of the allocator are left out). *)
Record LPCCalculator : Type := mkLPCCalculator {
  max_order : nat;
  max_num_buffer_samples : nat;
  a_vec : list D;
  u_vec : list D;
  v_vec : list D;
  r_mat : list (list D);
  auto_corr : list D;
  lpc_coef : list D;
  parcor_coef : list D;
  buffer : list D
}.

Definition set_a_vec (l : LPCCalculator) (v : list D) : LPCCalculator :=
  mkLPCCalculator (max_order l) (max_num_buffer_samples l) v (u_vec l) (v_vec l)
    (r_mat l) (auto_corr l) (lpc_coef l) (parcor_coef l) (buffer l).
Definition set_u_vec (l : LPCCalculator) (v : list D) : LPCCalculator :=
  mkLPCCalculator (max_order l) (max_num_buffer_samples l) (a_vec l) v (v_vec l)
    (r_mat l) (auto_corr l) (lpc_coef l) (parcor_coef l) (buffer l).
Definition set_v_vec (l : LPCCalculator) (v : list D) : LPCCalculator :=
  mkLPCCalculator (max_order l) (max_num_buffer_samples l) (a_vec l) (u_vec l) v
    (r_mat l) (auto_corr l) (lpc_coef l) (parcor_coef l) (buffer l).
Definition set_r_mat (l : LPCCalculator) (m : list (list D)) : LPCCalculator :=
  mkLPCCalculator (max_order l) (max_num_buffer_samples l) (a_vec l) (u_vec l)
    (v_vec l) m (auto_corr l) (lpc_coef l) (parcor_coef l) (buffer l).
Definition set_auto_corr (l : LPCCalculator) (v : list D) : LPCCalculator :=
  mkLPCCalculator (max_order l) (max_num_buffer_samples l) (a_vec l) (u_vec l)
    (v_vec l) (r_mat l) v (lpc_coef l) (parcor_coef l) (buffer l).
Definition set_lpc_coef (l : LPCCalculator) (v : list D) : LPCCalculator :=
  mkLPCCalculator (max_order l) (max_num_buffer_samples l) (a_vec l) (u_vec l)
    (v_vec l) (r_mat l) (auto_corr l) v (parcor_coef l) (buffer l).
Definition set_parcor_coef (l : LPCCalculator) (v : list D) : LPCCalculator :=
  mkLPCCalculator (max_order l) (max_num_buffer_samples l) (a_vec l) (u_vec l)
    (v_vec l) (r_mat l) (auto_corr l) (lpc_coef l) v (buffer l).
Definition set_buffer (l : LPCCalculator) (v : list D) : LPCCalculator :=
  mkLPCCalculator (max_order l) (max_num_buffer_samples l) (a_vec l) (u_vec l)
    (v_vec l) (r_mat l) (auto_corr l) (lpc_coef l) (parcor_coef l) v.

(** [struct LPCCalculatorConfig] *)
Record LPCCalculatorConfig : Type := mkLPCCalculatorConfig {
  config_max_order : nat;
  config_max_num_samples : nat
}.

(** The layout [LPCCalculator_Create] gives the work area, as buffer sizes.
    The work area is not cleared; [junk] is what it happens to hold.  Each
    buffer is a list of the cells asked for; [calculator_in_area] below
    gives [buffer], the last one, the cells the work area has behind it. *)
Definition calculator_layout (config : LPCCalculatorConfig) (junk : D)
  : LPCCalculator :=
  let m := config_max_order config in
  {| max_order := m;
     max_num_buffer_samples := config_max_num_samples config;
     a_vec := repeat junk (m + 2);
     u_vec := repeat junk (m + 2);
     v_vec := repeat junk (m + 2);
     r_mat := repeat (repeat junk (m + 1)) (m + 1);
     auto_corr := repeat junk (m + 1);
     lpc_coef := repeat junk (m + 1);
     parcor_coef := repeat junk (m + 1);
     buffer := repeat junk (config_max_num_samples config) |}.

(** [LPCCalculator_Create]: [None] is the [NULL] it returns. *)
Definition LPCCalculator_Create (config : LPCCalculatorConfig) (junk : D)
  : option LPCCalculator :=
  if ((config_max_order config =? 0)
      || (config_max_num_samples config =? 0))%nat then None
  else Some (calculator_layout config junk).

(** What [LPCCalculator_Create] establishes about a calculator. *)
Definition calculator_sized (l : LPCCalculator) : Prop :=
  (0 < max_order l)%nat /\ (0 < max_num_buffer_samples l)%nat /\
  length (a_vec l) = (max_order l + 2)%nat /\
  length (u_vec l) = (max_order l + 2)%nat /\
  length (v_vec l) = (max_order l + 2)%nat /\
  length (r_mat l) = (max_order l + 1)%nat /\
  Forall (fun row => length row = (max_order l + 1)%nat) (r_mat l) /\
  length (auto_corr l) = (max_order l + 1)%nat /\
  length (lpc_coef l) = (max_order l + 1)%nat /\
  length (parcor_coef l) = (max_order l + 1)%nat /\
  length (buffer l) = max_num_buffer_samples l.

(** A sample count or index converted to [double]. *)
Definition d_of_u32 (z : Z) : D := d_of_Z (UInt32.wrap z).

(** [LPC_ApplyWindow].  Its pointer arguments are never [NULL] at its one
    call site, so the model takes the buffers themselves. *)
Definition LPC_ApplyWindow (window_type : LPCWindowType) (input : list D)
    (num_samples : nat) (output : list D) : outcome (LPCError * list D) :=
  let n := Z.of_nat num_samples in
  match window_type with
  | LPC_WINDOWTYPE_RECTANGULAR =>
      output <- memcpy output input num_samples ;;
      Ret (LPC_ERROR_OK, output)
  | LPC_WINDOWTYPE_SIN =>
      output <- for_range 0 num_samples
        (fun smpl output =>
           x <- rd input smpl ;;
           wr output smpl
              (x *! c_sin ((d_pi *! d_of_u32 (Z.of_nat smpl)) /! d_of_u32 (n - 1))))
        output ;;
      Ret (LPC_ERROR_OK, output)
  | LPC_WINDOWTYPE_WELCH =>
      let divisor := d_of_Z 4 *! c_pow (d_of_u32 (n - 1)) (d_of_Z (-2)) in
      output <- for_range 0 (num_samples / 2)
        (fun smpl output =>
           let weight := divisor *! d_of_u32 (Z.of_nat smpl)
                                 *! d_of_u32 (n - 1 - Z.of_nat smpl) in
           x <- rd input smpl ;;
           output <- wr output smpl (x *! weight) ;;
           x <- rd input (num_samples - smpl - 1) ;;
           wr output (num_samples - smpl - 1) (x *! weight))
        output ;;
      Ret (LPC_ERROR_OK, output)
  | LPC_WINDOWTYPE_other => Ret (LPC_ERROR_NG, output)
  end.

(** [LPC_CalculateAutoCorrelation].  The buffers are never [NULL] at its
    call sites, so every run that returns returns [LPC_ERROR_OK]; the model
    yields the filled [auto_corr].  Under the assertion none of the
    [uint32_t] expressions wraps, and the counters are natural numbers.  The
    strided loop [for (l = 0; l < Llag2; l += lag2)] makes [L] rounds. *)
Definition LPC_CalculateAutoCorrelation (data : list D) (num_samples : nat)
    (auto_corr : list D) (order : nat) : outcome (list D) :=
  c_assert (order <=? num_samples)%nat ;;;
  auto_corr <- for_range 0 order (fun i ac => wr ac i (d_of_Z 0)) auto_corr ;;
  auto_corr <- for_range 0 num_samples
    (fun i ac =>
       x <- rd data i ;;
       r0 <- rd ac 0 ;;
       wr ac 0 (r0 +! x *! x))
    auto_corr ;;
  for_range 1 order
    (fun lag ac =>
       let lag2 := (2 * lag)%nat in
       let L := if (3 * lag <? num_samples)%nat
                then (1 + (num_samples - 3 * lag) / lag2)%nat else 0%nat in
       let Llag2 := (L * lag2)%nat in
       ac <- for_range 0 lag
         (fun i ac =>
            for_range 0 L
              (fun t ac =>
                 let l := (t * lag2)%nat in
                 x1 <- rd data (l + lag + i) ;;
                 x0 <- rd data (l + i) ;;
                 x2 <- rd data (l + lag2 + i) ;;
                 r <- rd ac lag ;;
                 wr ac lag (r +! x1 *! (x0 +! x2)))
              ac)
         ac ;;
       for_range 0 (num_samples - Llag2 - lag)
         (fun i ac =>
            x1 <- rd data (Llag2 + lag + i) ;;
            x0 <- rd data (Llag2 + i) ;;
            r <- rd ac lag ;;
            wr ac lag (r +! x1 *! x0))
         ac)
    auto_corr.

(** The state of the recursion loop of [LPC_LevinsonDurbinRecursion]. *)
Record levinson_state : Type := mkLevinson {
  ls_a : list D;
  ls_u : list D;
  ls_v : list D;
  ls_parcor : list D;
  ls_ek : D
}.

(** One round [k] of the recursion loop. *)
Definition Levinson_step (auto_corr : list D) (k : nat) (st : levinson_state)
  : outcome levinson_state :=
  gamma <- for_range 0 (k + 1)
    (fun i gamma =>
       a <- rd (ls_a st) i ;;
       r <- rd auto_corr (k + 1 - i) ;;
       Ret (gamma +! a *! r))
    (d_of_Z 0) ;;
  let gamma := gamma /! d_opp (ls_ek st) in
  let ek := ls_ek st *! (d_of_Z 1 -! gamma *! gamma) in
  c_assert (d_of_Z 0 <=! ek) ;;;
  ' (u, v) <- for_range 0 k
    (fun i '(u, v) =>
       a <- rd (ls_a st) (i + 1) ;;
       v <- wr v (k - i) a ;;
       u <- wr u (i + 1) a ;;
       Ret (u, v))
    (ls_u st, ls_v st) ;;
  u <- wr u 0 (d_of_Z 1) ;;
  u <- wr u (k + 1) (d_of_Z 0) ;;
  v <- wr v 0 (d_of_Z 0) ;;
  v <- wr v (k + 1) (d_of_Z 1) ;;
  a <- for_range 0 (k + 2)
    (fun i a =>
       ui <- rd u i ;;
       vi <- rd v i ;;
       wr a i (ui +! gamma *! vi))
    (ls_a st) ;;
  parcor <- wr (ls_parcor st) (k + 1) (d_opp gamma) ;;
  c_assert (d_abs gamma <! d_of_Z 1) ;;;
  Ret (mkLevinson a u v parcor ek).

(** [LPC_LevinsonDurbinRecursion].  Every run that returns returns
    [LPC_ERROR_OK] (the calculator and its buffers are not [NULL]); the model
    yields the calculator after the run. *)
Definition LPC_LevinsonDurbinRecursion (lpcc : LPCCalculator) (coef_order : nat)
  : outcome LPCCalculator :=
  let auto_corr := auto_corr lpcc in
  r0 <- rd auto_corr 0 ;;
  if d_abs r0 <! d_flt_epsilon then
    ' (coef, parcor) <- for_range 0 (coef_order + 1)
      (fun i '(coef, parcor) =>
         parcor <- wr parcor i (d_of_Z 0) ;;
         coef <- wr coef i (d_of_Z 0) ;;
         Ret (coef, parcor))
      (lpc_coef lpcc, parcor_coef lpcc) ;;
    Ret (set_parcor_coef (set_lpc_coef lpcc coef) parcor)
  else
    ' (a, u, v) <- for_range 0 (coef_order + 2)
      (fun i '(a, u, v) =>
         v <- wr v i (d_of_Z 0) ;;
         u <- wr u i (d_of_Z 0) ;;
         a <- wr a i (d_of_Z 0) ;;
         Ret (a, u, v))
      (a_vec lpcc, u_vec lpcc, v_vec lpcc) ;;
    a <- wr a 0 (d_of_Z 1) ;;
    ek <- rd auto_corr 0 ;;
    r1 <- rd auto_corr 1 ;;
    r0 <- rd auto_corr 0 ;;
    a <- wr a 1 (d_opp r1 /! r0) ;;
    parcor <- wr (parcor_coef lpcc) 0 (d_of_Z 0) ;;
    r1 <- rd auto_corr 1 ;;
    parcor <- wr parcor 1 (r1 /! ek) ;;
    r1 <- rd auto_corr 1 ;;
    a1 <- rd a 1 ;;
    let ek := ek +! r1 *! a1 in
    u <- wr u 0 (d_of_Z 1) ;;
    u <- wr u 1 (d_of_Z 0) ;;
    v <- wr v 0 (d_of_Z 0) ;;
    v <- wr v 1 (d_of_Z 1) ;;
    st <- for_range 1 coef_order (Levinson_step auto_corr)
            (mkLevinson a u v parcor ek) ;;
    coef <- memcpy (lpc_coef lpcc) (ls_a st) (coef_order + 1) ;;
    Ret (set_parcor_coef
           (set_lpc_coef
              (set_v_vec (set_u_vec (set_a_vec lpcc (ls_a st)) (ls_u st)) (ls_v st))
              coef)
           (ls_parcor st)).

(** [LPC_CalculateCoef].  The error tests after the calls of
    [LPC_CalculateAutoCorrelation] and [LPC_LevinsonDurbinRecursion] cannot
    fire (see there). *)
Definition LPC_CalculateCoef (lpcc : LPCCalculator) (data : list D)
    (num_samples coef_order : nat) (window_type : LPCWindowType)
  : outcome (LPCError * LPCCalculator) :=
  ' (err, windowed) <- LPC_ApplyWindow window_type data num_samples (buffer lpcc) ;;
  let lpcc := set_buffer lpcc windowed in
  if negb (is_OK err) then Ret (LPC_ERROR_NG, lpcc)
  else
    ac <- LPC_CalculateAutoCorrelation (buffer lpcc) num_samples
            (auto_corr lpcc) (coef_order + 1) ;;
    let lpcc := set_auto_corr lpcc ac in
    if (num_samples <? coef_order)%nat then
      ' (coef, parcor) <- for_range 0 (coef_order + 1)
        (fun ord '(coef, parcor) =>
           parcor <- wr parcor ord (d_of_Z 0) ;;
           coef <- wr coef ord (d_of_Z 0) ;;
           Ret (coef, parcor))
        (lpc_coef lpcc, parcor_coef lpcc) ;;
      Ret (LPC_ERROR_OK, set_parcor_coef (set_lpc_coef lpcc coef) parcor)
    else
      lpcc <- LPC_LevinsonDurbinRecursion lpcc coef_order ;;
      Ret (LPC_ERROR_OK, lpcc).

(** [LPCCalculator_CalculateLPCCoefficients].  [data] and [coef] are [None]
    when the pointer is [NULL]; the result carries the calculator and the
    [coef] buffer after the call. *)
Definition LPCCalculator_CalculateLPCCoefficients (lpcc : LPCCalculator)
    (data : option (list D)) (num_samples : nat) (coef : option (list D))
    (coef_order : nat) (window_type : LPCWindowType)
  : outcome (LPCApiResult * LPCCalculator * option (list D)) :=
  match data, coef with
  | Some data, Some coef =>
      if (max_order lpcc <? coef_order)%nat
      then Ret (LPC_APIRESULT_EXCEED_MAX_ORDER, lpcc, Some coef)
      else if (max_num_buffer_samples lpcc <? num_samples)%nat
      then Ret (LPC_APIRESULT_EXCEED_MAX_NUM_SAMPLES, lpcc, Some coef)
      else
        ' (err, lpcc) <- LPC_CalculateCoef lpcc data num_samples coef_order
                           window_type ;;
        if negb (is_OK err)
        then Ret (LPC_APIRESULT_FAILED_TO_CALCULATION, lpcc, Some coef)
        else
          coef <- memcpy coef (skipn 1 (lpc_coef lpcc)) coef_order ;;
          Ret (LPC_APIRESULT_OK, lpcc, Some coef)
  | _, _ => Ret (LPC_APIRESULT_INVALID_ARGUMENT, lpcc, coef)
  end.

(** One round [k] of the order loop of [LPC_CalculateCoefBurg]. *)
Definition Burg_step (cov : list (list D)) (k : nat) (a : list D)
  : outcome (list D) :=
  ' (FkpBk, sum) <- for_range 0 (k + 1)
    (fun i '(FkpBk, sum) =>
       ai <- rd a i ;;
       cii <- rd2 cov i i ;;
       ckk <- rd2 cov (k + 1 - i) (k + 1 - i) ;;
       let FkpBk := FkpBk +! ai *! ai *! (cii +! ckk) in
       sum <- for_range (i + 1) (k + 1)
         (fun j sum =>
            aj <- rd a j ;;
            cij <- rd2 cov i j ;;
            ckk <- rd2 cov (k + 1 - i) (k + 1 - j) ;;
            Ret (sum +! ai *! aj *! (cij +! ckk)))
         sum ;;
       Ret (FkpBk, sum))
    (d_of_Z 0, d_of_Z 0) ;;
  let FkpBk := FkpBk +! d_of_Z 2 *! sum in
  Ck <- for_range 0 (k + 1)
    (fun i Ck =>
       for_range 0 (k + 1)
         (fun j Ck =>
            ai <- rd a i ;;
            aj <- rd a j ;;
            c <- rd2 cov i (k + 1 - j) ;;
            Ret (Ck +! ai *! aj *! c))
         Ck)
    (d_of_Z 0) ;;
  let mu := d_of_Z (-2) *! Ck /! FkpBk in
  c_assert (d_abs mu <=! d_of_Z 1) ;;;
  for_range 0 ((k + 1) / 2 + 1)
    (fun i a =>
       tmp1 <- rd a i ;;
       tmp2 <- rd a (k + 1 - i) ;;
       a <- wr a i (tmp1 +! mu *! tmp2) ;;
       wr a (k + 1 - i) (mu *! tmp1 +! tmp2))
    a.

(** [LPC_CalculateCoefBurg] (the branch compiled in).  The output pointer
    [&cov[i][i]] is the tail of row [i] from column [i]. *)
Definition LPC_CalculateCoefBurg (lpcc : LPCCalculator) (data : list D)
    (num_samples coef_order : nat) : outcome (LPCError * LPCCalculator) :=
  cov <- for_range 0 (coef_order + 1)
    (fun i cov =>
       row <- rd cov i ;;
       tail <- LPC_CalculateAutoCorrelation data (num_samples - i)
                 (skipn i row) (coef_order + 1 - i) ;;
       cov <- wr cov i (firstn i row ++ tail) ;;
       for_range (i + 1) (coef_order + 1)
         (fun j cov => c <- rd2 cov i j ;; wr2 cov j i c)
         cov)
    (r_mat lpcc) ;;
  a <- for_range 0 (coef_order + 1) (fun i a => wr a i (d_of_Z 0)) (a_vec lpcc) ;;
  a <- wr a 0 (d_of_Z 1) ;;
  a <- for_range 0 coef_order (Burg_step cov) a ;;
  coef <- memcpy (lpc_coef lpcc) (skipn 1 a) coef_order ;;
  Ret (LPC_ERROR_OK, set_lpc_coef (set_a_vec (set_r_mat lpcc cov) a) coef).

(** [LPCCalculator_CalculateLPCCoefficientsBurg].  [lpcc], [data] and [coef]
    are [None] when the pointer is [NULL]. *)
Definition LPCCalculator_CalculateLPCCoefficientsBurg
    (lpcc : option LPCCalculator) (data : option (list D)) (num_samples : nat)
    (coef : option (list D)) (coef_order : nat)
  : outcome (LPCApiResult * option LPCCalculator * option (list D)) :=
  match lpcc, data, coef with
  | Some lpcc, Some data, Some coef =>
      if (max_order lpcc <? coef_order)%nat
      then Ret (LPC_APIRESULT_EXCEED_MAX_ORDER, Some lpcc, Some coef)
      else
        ' (err, lpcc) <- LPC_CalculateCoefBurg lpcc data num_samples coef_order ;;
        if negb (is_OK err)
        then Ret (LPC_APIRESULT_FAILED_TO_CALCULATION, Some lpcc, Some coef)
        else
          coef <- memcpy coef (lpc_coef lpcc) coef_order ;;
          Ret (LPC_APIRESULT_OK, Some lpcc, Some coef)
  | _, _, _ => Ret (LPC_APIRESULT_INVALID_ARGUMENT, lpcc, coef)
  end.

End Analysis.
Arguments LPCCalculator D : clear implicits.
Arguments levinson_state D : clear implicits.
Arguments LPCCalculatorConfig : clear implicits.
Arguments mkLPCCalculatorConfig : clear implicits.


(** [a << s] and [a >> s] on [int32_t] with a count [s] that is a run-time
    value: a count of 32 (the width of the left operand) or more is
    undefined. *)
Definition c_shl (a s : Z) : outcome Z :=
  if (0 <=? s) && (s <? 32) then Ret (Int32.shl a s) else Undefined.

Definition c_sar (a s : Z) : outcome Z :=
  if (0 <=? s) && (s <? 32) then Ret (Int32.sar a s) else Undefined.

(** The inner loop of both functions:
    [predict = 1 << (coef_rshift - 1);
     for (ord = 0; ord < taps; ord++) predict += coef[ord] * data[smpl - ord - 1];] *)
Definition predict_sum (data coef : list Z) (coef_rshift : Z)
    (smpl taps : nat) : outcome Z :=
  predict <- c_shl 1 (coef_rshift - 1) ;;
  for_range 0 taps
    (fun ord predict =>
       c <- rd coef ord ;;
       d <- rd data (smpl - ord - 1) ;;
       Ret (Int32.add predict (Int32.mul c d)))
    predict.

(** [residual[smpl] += (predict >> coef_rshift)] with [predict] from [data]. *)
Definition Predict_body (data coef : list Z) (coef_rshift : Z)
    (taps : nat) (smpl : nat) (residual : list Z) : outcome (list Z) :=
  predict <- predict_sum data coef coef_rshift smpl taps ;;
  predict <- c_sar predict coef_rshift ;;
  r <- rd residual smpl ;;
  wr residual smpl (Int32.add r predict).

(** [LPC_Predict].  A pointer argument is [None] when it is [NULL]. *)
Definition LPC_Predict (data : option (list Z)) (num_samples : nat)
    (coef : option (list Z)) (coef_order : nat)
    (residual : option (list Z)) (coef_rshift : Z)
  : outcome (LPCApiResult * option (list Z)) :=
  match data, coef, residual with
  | Some data, Some coef, Some residual =>
      if coef_rshift =? 0 then Ret (LPC_APIRESULT_INVALID_ARGUMENT, Some residual)
      else
        residual <- memcpy residual data num_samples ;;
        residual <- for_range 1 coef_order
                      (fun smpl => Predict_body data coef coef_rshift smpl smpl)
                      residual ;;
        residual <- for_range coef_order num_samples
                      (fun smpl => Predict_body data coef coef_rshift coef_order smpl)
                      residual ;;
        Ret (LPC_APIRESULT_OK, Some residual)
  | _, _, _ => Ret (LPC_APIRESULT_INVALID_ARGUMENT, residual)
  end.

(** [data[smpl] -= (predict >> coef_rshift)] with [predict] from [data] itself. *)
Definition Synthesize_body (coef : list Z) (coef_rshift : Z)
    (taps : nat) (smpl : nat) (data : list Z) : outcome (list Z) :=
  predict <- predict_sum data coef coef_rshift smpl taps ;;
  predict <- c_sar predict coef_rshift ;;
  d <- rd data smpl ;;
  wr data smpl (Int32.sub d predict).

(** [LPC_Synthesize], in place. *)
Definition LPC_Synthesize (data : option (list Z)) (num_samples : nat)
    (coef : option (list Z)) (coef_order : nat) (coef_rshift : Z)
  : outcome (LPCApiResult * option (list Z)) :=
  match data, coef with
  | Some data, Some coef =>
      if coef_rshift =? 0 then Ret (LPC_APIRESULT_INVALID_ARGUMENT, Some data)
      else
        data <- for_range 1 coef_order
                  (fun smpl => Synthesize_body coef coef_rshift smpl smpl) data ;;
        data <- for_range coef_order num_samples
                  (fun smpl => Synthesize_body coef coef_rshift coef_order smpl) data ;;
        Ret (LPC_APIRESULT_OK, Some data)
  | _, _ => Ret (LPC_APIRESULT_INVALID_ARGUMENT, data)
  end.

End LPC.

(** ** The two arithmetics *)

(** IEEE binary64, the [double] of the source. *)
Definition float_of_Z (z : Z) : float :=
  match z with
  | Z0 => 0%float
  | Zpos _ => PrimFloat.of_uint63 (Uint63.of_Z z)
  | Zneg _ => PrimFloat.opp (PrimFloat.of_uint63 (Uint63.of_Z (- z)))
  end.

#[export] Instance double_ops : DoubleOps float := {|
  d_of_Z := float_of_Z;
  d_add := PrimFloat.add;
  d_sub := PrimFloat.sub;
  d_mul := PrimFloat.mul;
  d_div := PrimFloat.div;
  d_opp := PrimFloat.opp;
  d_abs := PrimFloat.abs;
  d_ltb := PrimFloat.ltb;
  d_leb := PrimFloat.leb;
  d_pi := 0x1.921fb54442d18p+1%float;
  d_flt_epsilon := 0x1p-23%float
|}.

(** Exact real arithmetic.  The constants are the binary64 numbers of the
    source taken as reals: [LPC_PI] is [0x1.921fb54442d18p+1], the double
    nearest to pi. *)
Definition LPC_PI : R := (7074237752028440 / 2 ^ 51)%R.

Definition Rltb (x y : R) : bool := if Rlt_dec x y then true else false.
Definition Rleb (x y : R) : bool := if Rle_dec x y then true else false.

#[export] Instance real_ops : DoubleOps R := {|
  d_of_Z := IZR;
  d_add := Rplus;
  d_sub := Rminus;
  d_mul := Rmult;
  d_div := Rdiv;
  d_opp := Ropp;
  d_abs := Rabs;
  d_ltb := Rltb;
  d_leb := Rleb;
  d_pi := LPC_PI;
  d_flt_epsilon := (/ 2 ^ 23)%R
|}.

#[export] Instance real_libm : Libm R := {|
  c_sin := sin;
  c_pow := Rpower
|}.

(** ** [lpc.c]: the auxiliary-function estimator, on binary64 *)

Module AuxiliaryFunction.
Import LPC.
Local Open Scope float_scope.

Section AF.
Context {libm : Libm float}.

(** [LPCAF_RESIDUAL_EPSILON] ([1e-6]), [FLT_MAX], and the [1e-8] the entry
    point passes as [obj_epsilon], as binary64 numbers. *)
Definition LPCAF_RESIDUAL_EPSILON : float := 0x1.0c6f7a0b5ed8dp-20.
Definition FLT_MAX : float := 0x1.fffffep+127.
Definition AF_OBJ_EPSILON : float := 0x1.5798ee2308c3ap-27.

(** The Cholesky factorisation loop of [LPC_CholeskyDecomposition]: [inl] is
    its [return LPC_ERROR_SINGULAR_MATRIX], with the buffers as they are
    then. *)
Definition Cholesky_factor_round (dim : nat) (i : nat)
    (st : list (list float) * list float)
  : outcome (list (list float) * list float + list (list float) * list float) :=
  let '(Amat, inv_diag) := st in
  sum <- rd2 Amat i i ;;
  sum <- for_range 0 i
    (fun t sum =>
       let k := (i - 1 - t)%nat in
       aik <- rd2 Amat i k ;;
       Ret (sum - aik * aik))
    sum ;;
  if sum <=? 0 then Ret (inl (Amat, inv_diag))
  else
    inv_diag <- wr inv_diag i (c_pow sum (-0.5)) ;;
    Amat <- for_range (i + 1) dim
      (fun j Amat =>
         sum <- rd2 Amat i j ;;
         sum <- for_range 0 i
           (fun t sum =>
              let k := (i - 1 - t)%nat in
              aik <- rd2 Amat i k ;;
              ajk <- rd2 Amat j k ;;
              Ret (sum - aik * ajk))
           sum ;;
         d <- rd inv_diag i ;;
         wr2 Amat j i (sum * d))
      Amat ;;
    Ret (inr (Amat, inv_diag)).

(** [LPC_CholeskyDecomposition]: the error code, and [Amat], [xvec],
    [inv_diag] after the call. *)
Definition LPC_CholeskyDecomposition (Amat : list (list float)) (dim : nat)
    (xvec bvec inv_diag : list float)
  : outcome (LPCError * list (list float) * list float * list float) :=
  r <- for_loop_exit dim 0 (Cholesky_factor_round dim) (Amat, inv_diag) ;;
  match r with
  | inl (Amat, inv_diag) =>
      Ret (LPC_ERROR_SINGULAR_MATRIX, Amat, xvec, inv_diag)
  | inr (Amat, inv_diag) =>
      xvec <- for_range 0 dim
        (fun i xvec =>
           sum <- rd bvec i ;;
           sum <- for_range 0 i
             (fun t sum =>
                let j := (i - 1 - t)%nat in
                aij <- rd2 Amat i j ;;
                xj <- rd xvec j ;;
                Ret (sum - aij * xj))
             sum ;;
           d <- rd inv_diag i ;;
           wr xvec i (sum * d))
        xvec ;;
      xvec <- for_range 0 dim
        (fun t xvec =>
           let i := (dim - 1 - t)%nat in
           sum <- rd xvec i ;;
           sum <- for_range (i + 1) dim
             (fun j sum =>
                aji <- rd2 Amat j i ;;
                xj <- rd xvec j ;;
                Ret (sum - aji * xj))
             sum ;;
           d <- rd inv_diag i ;;
           wr xvec i (sum * d))
        xvec ;;
      Ret (LPC_ERROR_OK, Amat, xvec, inv_diag)
  end.

(** [LPCAF_CalculateCoefMatrixAndVector] (the branch compiled in): [r_mat],
    [r_vec] and [*pobj_value] after the call; it returns [LPC_ERROR_OK]. *)
Definition LPCAF_CalculateCoefMatrixAndVector (data : list float)
    (num_samples : nat) (a_vec : list float) (r_mat : list (list float))
    (r_vec : list float) (coef_order : nat)
  : outcome (list (list float) * list float * float) :=
  c_assert (coef_order <? num_samples)%nat ;;;
  ' (r_mat, r_vec) <- for_range 0 coef_order
    (fun i '(r_mat, r_vec) =>
       r_vec <- wr r_vec i 0 ;;
       r_mat <- for_range 0 coef_order (fun j r_mat => wr2 r_mat i j 0) r_mat ;;
       Ret (r_mat, r_vec))
    (r_mat, r_vec) ;;
  ' (r_mat, r_vec, obj_value) <- for_range coef_order num_samples
    (fun smpl '(r_mat, r_vec, obj_value) =>
       residual <- rd data smpl ;;
       residual <- for_range 0 coef_order
         (fun i residual =>
            a <- rd a_vec i ;;
            d <- rd data (smpl - i - 1) ;;
            Ret (residual + a * d))
         residual ;;
       let residual := abs residual in
       let obj_value := obj_value + residual in
       let residual := if residual <? LPCAF_RESIDUAL_EPSILON
                       then LPCAF_RESIDUAL_EPSILON else residual in
       let inv_residual := 1 / residual in
       ' (r_mat, r_vec) <- for_range 0 coef_order
         (fun i '(r_mat, r_vec) =>
            r <- rd r_vec i ;;
            ds <- rd data smpl ;;
            di <- rd data (smpl - i - 1) ;;
            r_vec <- wr r_vec i (r - ds * di * inv_residual) ;;
            r_mat <- for_range i coef_order
              (fun j r_mat =>
                 m <- rd2 r_mat i j ;;
                 di <- rd data (smpl - i - 1) ;;
                 dj <- rd data (smpl - j - 1) ;;
                 wr2 r_mat i j (m + di * dj * inv_residual))
              r_mat ;;
            Ret (r_mat, r_vec))
         (r_mat, r_vec) ;;
       Ret (r_mat, r_vec, obj_value))
    (r_mat, r_vec, 0) ;;
  r_mat <- for_range 0 coef_order
    (fun i r_mat =>
       for_range (i + 1) coef_order
         (fun j r_mat => m <- rd2 r_mat i j ;; wr2 r_mat j i m)
         r_mat)
    r_mat ;;
  Ret (r_mat, r_vec,
       obj_value / d_of_u32 (Z.of_nat num_samples - Z.of_nat coef_order)).

(** The state of the iteration of [LPC_CalculateCoefAF], and the two ways a
    round leaves it: the [return] on a singular matrix, and the [break]. *)
Record af_state : Type := mkAF {
  af_lpcc : LPCCalculator float;
  af_prev_obj_value : float
}.

Inductive af_exit : Type :=
| AF_return (lpcc : LPCCalculator float)
| AF_break (lpcc : LPCCalculator float).

Definition AF_round (data : list float) (num_samples coef_order : nat)
    (obj_epsilon : float) (itr : nat) (st : af_state)
  : outcome (af_exit + af_state) :=
  let lpcc := af_lpcc st in
  ' (r_mat, r_vec, obj_value) <-
    LPCAF_CalculateCoefMatrixAndVector data num_samples (a_vec lpcc)
      (r_mat lpcc) (u_vec lpcc) coef_order ;;
  let lpcc := set_u_vec (set_r_mat lpcc r_mat) r_vec in
  ' (err, r_mat, xvec, inv_diag) <-
    LPC_CholeskyDecomposition (r_mat) coef_order (a_vec lpcc) (u_vec lpcc)
      (v_vec lpcc) ;;
  let lpcc := set_v_vec (set_a_vec (set_r_mat lpcc r_mat) xvec) inv_diag in
  match err with
  | LPC_ERROR_SINGULAR_MATRIX =>
      coef <- for_range 0 coef_order (fun i coef => wr coef i 0) (lpc_coef lpcc) ;;
      Ret (inl (AF_return (set_lpc_coef lpcc coef)))
  | _ =>
      c_assert (is_OK err) ;;;
      if abs (af_prev_obj_value st - obj_value) <? obj_epsilon
      then Ret (inl (AF_break lpcc))
      else Ret (inr (mkAF lpcc obj_value))
  end.

(** [LPC_CalculateCoefAF] *)
Definition LPC_CalculateCoefAF (lpcc : LPCCalculator float) (data : list float)
    (num_samples coef_order max_num_iteration : nat) (obj_epsilon : float)
    (window_type : LPCWindowType) : outcome (LPCError * LPCCalculator float) :=
  ' (err, lpcc) <- LPC_CalculateCoef lpcc data num_samples coef_order window_type ;;
  if negb (is_OK err) then Ret (err, lpcc)
  else
    a <- memcpy (a_vec lpcc) (skipn 1 (lpc_coef lpcc)) coef_order ;;
    let lpcc := set_a_vec lpcc a in
    r0 <- rd (auto_corr lpcc) 0 ;;
    if abs r0 <? d_flt_epsilon then
      coef <- for_range 0 (coef_order + 1) (fun i coef => wr coef i 0)
                (lpc_coef lpcc) ;;
      Ret (LPC_ERROR_OK, set_lpc_coef lpcc coef)
    else
      r <- for_loop_exit max_num_iteration 0
             (AF_round data num_samples coef_order obj_epsilon)
             (mkAF lpcc FLT_MAX) ;;
      match r with
      | inl (AF_return lpcc) => Ret (LPC_ERROR_OK, lpcc)
      | inl (AF_break lpcc) | inr (mkAF lpcc _) =>
          coef <- memcpy (lpc_coef lpcc) (a_vec lpcc) coef_order ;;
          Ret (LPC_ERROR_OK, set_lpc_coef lpcc coef)
      end.

(** [LPCCalculator_CalculateLPCCoefficientsAF].  [lpcc], [data] and [coef]
    are [None] when the pointer is [NULL]. *)
Definition LPCCalculator_CalculateLPCCoefficientsAF
    (lpcc : option (LPCCalculator float)) (data : option (list float))
    (num_samples : nat) (coef : option (list float))
    (coef_order max_num_iteration : nat) (window_type : LPCWindowType)
  : outcome (LPCApiResult * option (LPCCalculator float) * option (list float)) :=
  match lpcc, data, coef with
  | Some lpcc, Some data, Some coef =>
      if (max_order lpcc <? coef_order)%nat
      then Ret (LPC_APIRESULT_EXCEED_MAX_ORDER, Some lpcc, Some coef)
      else
        ' (err, lpcc) <- LPC_CalculateCoefAF lpcc data num_samples coef_order
                           max_num_iteration AF_OBJ_EPSILON window_type ;;
        if negb (is_OK err)
        then Ret (LPC_APIRESULT_FAILED_TO_CALCULATION, Some lpcc, Some coef)
        else
          coef <- memcpy coef (lpc_coef lpcc) coef_order ;;
          Ret (LPC_APIRESULT_OK, Some lpcc, Some coef)
  | _, _, _ => Ret (LPC_APIRESULT_INVALID_ARGUMENT, lpcc, coef)
  end.

End AF.
End AuxiliaryFunction.

(** ** [lpc.c]: the coefficient quantizer, on binary64 *)

Module Quantizer.
Import LPC.
Local Open Scope float_scope.

(** [floor] of [math.h]: exact on a binary64 number [(-1)^s * m * 2^e]. *)
Definition c_floor (f : float) : float :=
  match Prim2SF f with
  | S754_finite s m e =>
      if (0 <=? e)%Z then f
      else
        let q := Z.shiftr (Zpos m) (- e) in
        if (Zpos m =? Z.shiftl q (- e))%Z then f
        else if s then float_of_Z (- (q + 1)) else float_of_Z q
  | _ => f
  end.

(** [LPC_Round] *)
Definition LPC_Round (d : float) : float :=
  if 0 <=? d then c_floor (d + 0.5) else - c_floor (- d + 0.5).

(** [(int32_t)d]: truncation; outside the range of [int32_t] (and on an
    infinity or a NaN) the conversion is undefined. *)
Definition double_to_int32 (d : float) : outcome Z :=
  match Prim2SF d with
  | S754_zero _ => Ret 0%Z
  | S754_finite s m e =>
      let mag := if (0 <=? e)%Z then Z.shiftl (Zpos m) e
                 else Z.shiftr (Zpos m) (- e) in
      let z := if s then (- mag)%Z else mag in
      if ((- 2 ^ 31 <=? z) && (z <? 2 ^ 31))%Z then Ret z else Undefined
  | _ => Undefined
  end.

(** [pow(2.0, k)] for an integer [k]: a power of two, exact in binary64
    (0 or infinity beyond the exponent range). *)
Definition c_pow2 (k : Z) : float := Z.ldexp 1 k.

(** The exponent [frexp(d, &e)] stores for a finite [d]; for an infinity or
    a NaN the C library leaves it unspecified. *)
Definition c_frexp_exponent (d : float) : outcome Z :=
  match Prim2SF d with
  | S754_finite _ _ _ => Ret (snd (Z.frexp d))
  | S754_zero _ => Ret 0%Z
  | _ => Undefined
  end.

(** The first loop: the largest [fabs(double_coef[ord])]. *)
Definition coef_max_abs (double_coef : list float) (coef_order : nat)
  : outcome float :=
  for_range 0 coef_order
    (fun ord max =>
       c <- rd double_coef ord ;;
       Ret (if max <? abs c then abs c else max))
    0.

(** The saturation of a rounded coefficient. *)
Definition saturate (qmax qtmp : Z) : Z :=
  if (qmax <=? qtmp)%Z then Int32.sub qmax 1
  else if (qtmp <? Int32.wrap (- qmax))%Z then Int32.wrap (- qmax)
  else qtmp.

(** [memset(int_coef, 0, sizeof(int32_t) * coef_order)] *)
Definition memset0 (int_coef : list Z) (n : nat) : outcome (list Z) :=
  if (n <=? length int_coef)%nat
  then Ret (repeat 0%Z n ++ skipn n int_coef) else Undefined.

(** The threshold [pow(2.0, -(int32_t)(nbits_precision - 1))]. *)
Definition zero_threshold (nbits_precision : Z) : float :=
  c_pow2 (Int32.wrap (- Int32.wrap (UInt32.sub nbits_precision 1))).

(** One round of the quantization loop, [ord] going down from
    [coef_order - 1]. *)
Definition quantize_step (double_coef : list float) (coef_order : nat)
    (qmax rshift : Z) (i : nat) (st : float * list Z)
  : outcome (float * list Z) :=
  let '(qerror, int_coef) := st in
  let ord := (coef_order - 1 - i)%nat in
  c <- rd double_coef ord ;;
  let qerror := qerror + c * c_pow2 rshift in
  qtmp <- double_to_int32 (LPC_Round qerror) ;;
  let qtmp := saturate qmax qtmp in
  let qerror := qerror - float_of_Z qtmp in
  int_coef <- wr int_coef ord qtmp ;;
  Ret (qerror, int_coef).

(** [LPC_QuantizeCoefficients].  A pointer argument is [None] when it is
    [NULL]; [coef_rshift] is the cell the shift is stored to. *)
Definition LPC_QuantizeCoefficients (double_coef : option (list float))
    (coef_order : nat) (nbits_precision : Z)
    (int_coef : option (list Z)) (coef_rshift : option Z)
  : outcome (LPCApiResult * option (list Z) * option Z) :=
  let qmax := Int32.shl 1 (UInt32.sub nbits_precision 1) in
  match double_coef, int_coef, coef_rshift with
  | Some double_coef, Some int_coef, Some _ =>
      if (nbits_precision =? 0)%Z
      then Ret (LPC_APIRESULT_INVALID_ARGUMENT, Some int_coef, coef_rshift)
      else
        max <- coef_max_abs double_coef coef_order ;;
        if max <=? zero_threshold nbits_precision then
          int_coef <- memset0 int_coef coef_order ;;
          Ret (LPC_APIRESULT_OK, Some int_coef, Some nbits_precision)
        else
          ndigit <- c_frexp_exponent max ;;
          let nbits_precision := UInt32.sub nbits_precision 1 in
          c_assert (ndigit <? Int32.wrap nbits_precision)%Z ;;;
          let rshift := UInt32.wrap (Int32.sub (Int32.wrap nbits_precision) ndigit) in
          ' (_, int_coef) <- for_range 0 coef_order
                               (quantize_step double_coef coef_order qmax rshift)
                               (0, int_coef) ;;
          Ret (LPC_APIRESULT_OK, Some int_coef, Some rshift)
  | _, _, _ => Ret (LPC_APIRESULT_INVALID_ARGUMENT, int_coef, coef_rshift)
  end.

End Quantizer.

(** ** [linne_utility.c]: the preemphasis coefficient, on binary64 *)

Module PreemphasisCoefficient.
Import LINNEUtility Quantizer.
Local Open Scope float_scope.

(** [LINNEUtility_Round], the same expression as [LPC_Round]. *)
Definition LINNEUtility_Round (d : float) : float :=
  if 0 <=? d then c_floor (d + 0.5) else - c_floor (- d + 0.5).

Section Coefficient.
(** The macro of [linne_internal.h] again. *)
Variable LINNE_PREEMPHASIS_COEF_SHIFT : Z.

(** The correlation loop: [corr[0]], [corr[1]] and [curr] after it.  Its
    bound [num_samples - 1] is computed in [uint32_t]. *)
Definition correlation (buffer : list Z) (num_samples : nat)
  : outcome (float * float * float) :=
  first <- rd buffer 0 ;;
  for_range 0 (UInt32.index (Z.of_nat num_samples - 1))
    (fun smpl '(corr0, corr1, curr) =>
       s <- rd buffer (smpl + 1) ;;
       let succ := float_of_Z s in
       Ret (corr0 + curr * curr, corr1 + curr * succ, succ))
    (0, 0, float_of_Z first).

(** [LINNEPreemphasisFilter_CalculateCoefficient]; [1e-6] is the binary64
    number the literal denotes. *)
Definition LINNEPreemphasisFilter_CalculateCoefficient
    (preem : LINNEPreemphasisFilter) (buffer : list Z) (num_samples : nat)
  : outcome LINNEPreemphasisFilter :=
  ' (corr0, corr1, _) <- correlation buffer num_samples ;;
  let corr1 := corr1 / corr0 in
  if (corr0 <? 0x1.0c6f7a0b5ed8dp-20) || (corr1 <? 0)
  then Ret {| prev := prev preem; coef := 0 |}
  else
    coef <- double_to_int32
              (LINNEUtility_Round (corr1 * c_pow2 LINNE_PREEMPHASIS_COEF_SHIFT)) ;;
    let limit := Int32.shl 1 (LINNE_PREEMPHASIS_COEF_SHIFT - 1) in
    let coef := if (limit <=? coef)%Z then Int32.sub limit 1 else coef in
    Ret {| prev := prev preem; coef := coef |}.
End Coefficient.
End PreemphasisCoefficient.

(** ** [lpc.c]: the work area of a calculator

    Addresses are integers; [sizeof(double)] is 8, and the two sizes the ABI
    chooses are variables.  Address arithmetic is taken not to wrap. *)

Module WorkArea.
Import LPC.

Section Layout.
Variable sizeof_LPCCalculator : Z.   (* [sizeof(struct LPCCalculator)] *)
Variable sizeof_pointer : Z.         (* [sizeof(double * )] *)

Definition LPC_ALIGNMENT : Z := 16.

(** [LPC_ROUNDUP(val, n)] *)
Definition LPC_ROUNDUP (val n : Z) : Z := ((val + (n - 1)) / n) * n.

(** [work_size += ...] on [int32_t]: an overflow of the signed addition is
    undefined. *)
Definition work_size_add (work_size term : Z) : outcome Z :=
  if (- 2 ^ 31 <=? work_size + term) && (work_size + term <? 2 ^ 31)
  then Ret (work_size + term) else Undefined.

(** [LPCCalculator_CalculateWorkSize]; [None] is a [NULL] config.  Each term
    is computed in [size_t] from a [uint32_t] count and cast to [int32_t]. *)
Definition LPCCalculator_CalculateWorkSize (config : option (LPCCalculatorConfig))
  : outcome Z :=
  match config with
  | None => Ret (-1)
  | Some config =>
      let m := Z.of_nat (config_max_order config) in
      let n := Z.of_nat (config_max_num_samples config) in
      let work_size := Int32.wrap (sizeof_LPCCalculator + LPC_ALIGNMENT) in
      work_size <- work_size_add work_size (Int32.wrap (8 * UInt32.add m 2 * 3)) ;;
      work_size <- work_size_add work_size (Int32.wrap (8 * UInt32.add m 1)) ;;
      work_size <- work_size_add work_size (Int32.wrap (8 * UInt32.add m 1 * 2)) ;;
      work_size <- work_size_add work_size
                     (Int32.wrap (sizeof_pointer * UInt32.add m 1)) ;;
      work_size <- work_size_add work_size
                     (Int32.wrap (8 * UInt32.add m 1 * UInt32.add m 1)) ;;
      work_size <- work_size_add work_size (Int32.wrap (8 * n)) ;;
      Ret work_size
  end.

(** The fields [LPCCalculator_Create] stores in the handle, with the address
    of the handle itself. *)
Record LPCCalculatorArea : Type := mkArea {
  handle : Z;
  area_max_order : nat;
  area_max_num_buffer_samples : nat;
  area_a_vec : Z;
  area_u_vec : Z;
  area_v_vec : Z;
  area_auto_corr : Z;
  area_lpc_coef : Z;
  area_parcor_coef : Z;
  area_r_mat : Z;
  area_rows : list Z;        (* [r_mat[0]], [r_mat[1]], ... *)
  area_buffer : Z;
  alloced_by_own : bool;
  work : Z
}.

(** [LPCCalculator_Create].  [work] is [None] when it is [NULL];
    [malloc] is what the allocator answers for a size.  The result is the
    handle ([None] for [NULL]) and the block passed to [free] before the
    return, if any ([free(NULL)] frees nothing). *)
Definition LPCCalculator_Create (config : option (LPCCalculatorConfig))
    (work : option Z) (work_size : Z) (malloc : Z -> option Z)
  : outcome (option LPCCalculatorArea * option Z) :=
  ' (proceed, work, work_size, own) <-
    match work with
    | None =>
        if work_size =? 0 then
          size <- LPCCalculator_CalculateWorkSize config ;;
          if size <? 0 then Ret (false, None, size, false)
          else Ret (true, malloc (UInt32.wrap size), size, true)
        else Ret (true, None, work_size, false)
    | Some _ => Ret (true, work, work_size, false)
    end ;;
  if negb proceed then Ret (None, None)
  else
    let freed : option Z := if own then work else None in
    match config, work with
    | Some config, Some work =>
        needed <- LPCCalculator_CalculateWorkSize (Some config) ;;
        if (work_size <? needed)
           || (config_max_order config =? 0)%nat
           || (config_max_num_samples config =? 0)%nat
        then Ret (None, freed)
        else
          let m := Z.of_nat (config_max_order config) in
          let n := Z.of_nat (config_max_num_samples config) in
          let work_ptr := LPC_ROUNDUP work LPC_ALIGNMENT in
          let lpcc := work_ptr in
          let work_ptr := work_ptr + sizeof_LPCCalculator in
          let a_vec := work_ptr in
          let work_ptr := work_ptr + 8 * UInt32.add m 2 in
          let u_vec := work_ptr in
          let work_ptr := work_ptr + 8 * UInt32.add m 2 in
          let v_vec := work_ptr in
          let work_ptr := work_ptr + 8 * UInt32.add m 2 in
          let auto_corr := work_ptr in
          let work_ptr := work_ptr + 8 * UInt32.add m 1 in
          let lpc_coef := work_ptr in
          let work_ptr := work_ptr + 8 * UInt32.add m 1 in
          let parcor_coef := work_ptr in
          let work_ptr := work_ptr + 8 * UInt32.add m 1 in
          let r_mat := work_ptr in
          let work_ptr := work_ptr + sizeof_pointer * UInt32.add m 1 in
          ' (rows, work_ptr) <-
            for_range 0 (Z.to_nat (UInt32.add m 1))
              (fun ord '(rows, work_ptr) =>
                 Ret (rows ++ [work_ptr], work_ptr + 8 * UInt32.add m 1))
              ([], work_ptr) ;;
          let buffer := work_ptr in
          let work_ptr := work_ptr + 8 * n in
          c_assert (work_ptr - work <=? work_size) ;;;
          Ret (Some (mkArea lpcc (config_max_order config)
                       (config_max_num_samples config) a_vec u_vec v_vec
                       auto_corr lpc_coef parcor_coef r_mat rows buffer own
                       work), None)
    | _, _ => Ret (None, freed)
    end.

(** [LPCCalculator_Destroy]: the address it frees, if any. *)
Definition LPCCalculator_Destroy (lpcc : option LPCCalculatorArea) : option Z :=
  match lpcc with
  | Some l => if alloced_by_own l then Some (work l) else None
  | None => None
  end.

End Layout.
End WorkArea.

(** The bytes a calculator for [(max_order, max_num_samples)] takes, the
    16 bytes of alignment slack included. *)
Definition work_area_bytes (sizeof_LPCCalculator sizeof_pointer : Z)
    (config : LPC.LPCCalculatorConfig) : Z :=
  let m := Z.of_nat (LPC.config_max_order config) in
  let n := Z.of_nat (LPC.config_max_num_samples config) in
  sizeof_LPCCalculator + 16
  + 8 * (m + 2) * 3 + 8 * (m + 1) + 8 * (m + 1) * 2
  + sizeof_pointer * (m + 1) + 8 * (m + 1) * (m + 1) + 8 * n.

(** The calculator [LPCCalculator_Create] leaves in a block that ends at
    [area_end], as buffers.  [buffer] is the last slice of the block, and the
    block goes on behind it for what is left of its 16 bytes of alignment
    slack: the cells a copy into [buffer] reaches before it leaves the block
    are those up to [area_end]. *)
Definition calculator_in_area {D : Type} (area : WorkArea.LPCCalculatorArea)
    (area_end : Z) (junk : D) : LPC.LPCCalculator D :=
  LPC.set_buffer
    (LPC.calculator_layout
       (LPC.mkLPCCalculatorConfig (WorkArea.area_max_order area)
          (WorkArea.area_max_num_buffer_samples area)) junk)
    (repeat junk (Z.to_nat ((area_end - WorkArea.area_buffer area) / 8))).

(** ** [lpc.c]: the code-length estimate and the description length *)

(** [log] of [math.h], and the three constants of this code that are not
    integers: [INV_LOGE2] ([1.4426950408889634]),
    [BETA_CONST_FOR_LAPLACE_DIST] ([1.9426950408889634]) and [FLT_MIN] of
    [float.h]. *)
Class LibmLog (D : Type) : Type := {
  c_log : D -> D
}.

Class CodeLengthConstants (D : Type) : Type := {
  d_inv_loge2 : D;
  d_beta_laplace : D;
  d_flt_min : D
}.

(** The constants as binary64 numbers, and the same numbers as reals. *)
#[export] Instance double_constants : CodeLengthConstants float := {|
  d_inv_loge2 := 0x1.71547652b82fep+0%float;
  d_beta_laplace := 0x1.f1547652b82fep+0%float;
  d_flt_min := 0x1p-126%float
|}.

#[export] Instance real_constants : CodeLengthConstants R := {|
  d_inv_loge2 := (6497320848556798 / 2 ^ 52)%R;
  d_beta_laplace := (8749120662242046 / 2 ^ 52)%R;
  d_flt_min := (/ 2 ^ 126)%R
|}.

#[export] Instance real_log : LibmLog R := {|
  c_log := ln
|}.

Module CodeLength.
Import LPC.

Section Estimate.
Context {D : Type} {ops : DoubleOps D} {libm : Libm D} {logm : LibmLog D}
        {consts : CodeLengthConstants D}.

(** [LPC_Log2] *)
Definition LPC_Log2 (d : D) : D := c_log d *! d_inv_loge2.

(** [LPCCalculator_EstimateCodeLength].  A pointer argument is [None] when
    it is [NULL]; the result carries the calculator and the cell
    [*length_per_sample_bits] after the call. *)
Definition LPCCalculator_EstimateCodeLength (lpcc : option (LPCCalculator D))
    (data : option (list D)) (num_samples : nat) (bits_per_sample : Z)
    (coef_order : nat) (length_per_sample_bits : option D)
    (window_type : LPCWindowType)
  : outcome (LPCApiResult * option (LPCCalculator D) * option D) :=
  match lpcc, data, length_per_sample_bits with
  | Some lpcc, Some data, Some cell =>
      ' (err, lpcc) <- LPC_CalculateCoef lpcc data num_samples coef_order
                         window_type ;;
      if negb (is_OK err)
      then Ret (LPC_APIRESULT_FAILED_TO_CALCULATION, Some lpcc, Some cell)
      else
        log2_mean_res_power <- rd (auto_corr lpcc) 0 ;;
        let log2_mean_res_power :=
          log2_mean_res_power
          *! c_pow (d_of_Z 2) (d_of_Z 2 *! d_of_u32 (bits_per_sample - 1)) in
        if d_abs log2_mean_res_power <=! d_flt_min
        then Ret (LPC_APIRESULT_OK, Some lpcc, Some (d_of_Z 0))
        else
          let log2_mean_res_power :=
            LPC_Log2 log2_mean_res_power
            -! LPC_Log2 (d_of_u32 (Z.of_nat num_samples)) in
          log2_var_ratio <- for_range 1 (coef_order + 1)
            (fun ord log2_var_ratio =>
               p <- rd (parcor_coef lpcc) ord ;;
               Ret (log2_var_ratio +! LPC_Log2 (d_of_Z 1 -! p *! p)))
            (d_of_Z 0) ;;
          let length := d_beta_laplace
                        +! (d_of_Z 1 /! d_of_Z 2)
                           *! (log2_mean_res_power +! log2_var_ratio) in
          if length <=! d_of_Z 0
          then Ret (LPC_APIRESULT_OK, Some lpcc, Some (d_of_Z 1))
          else Ret (LPC_APIRESULT_OK, Some lpcc, Some length)
  | _, _, _ => Ret (LPC_APIRESULT_INVALID_ARGUMENT, lpcc, length_per_sample_bits)
  end.

(** [LPCCalculator_CalculateMDL], with the cell [*mdl]. *)
Definition LPCCalculator_CalculateMDL (lpcc : option (LPCCalculator D))
    (data : option (list D)) (num_samples coef_order : nat) (mdl : option D)
    (window_type : LPCWindowType)
  : outcome (LPCApiResult * option (LPCCalculator D) * option D) :=
  match lpcc, data, mdl with
  | Some lpcc, Some data, Some cell =>
      ' (err, lpcc) <- LPC_CalculateCoef lpcc data num_samples coef_order
                         window_type ;;
      if negb (is_OK err)
      then Ret (LPC_APIRESULT_FAILED_TO_CALCULATION, Some lpcc, Some cell)
      else
        tmp <- for_range 1 (coef_order + 1)
          (fun k tmp =>
             p <- rd (parcor_coef lpcc) k ;;
             Ret (tmp +! c_log (d_of_Z 1 -! p *! p)))
          (d_of_Z 0) ;;
        let tmp := tmp *! d_of_u32 (Z.of_nat num_samples) in
        let tmp := tmp +! d_of_u32 (Z.of_nat coef_order)
                          *! c_log (d_of_u32 (Z.of_nat num_samples)) in
        Ret (LPC_APIRESULT_OK, Some lpcc, Some tmp)
  | _, _, _ => Ret (LPC_APIRESULT_INVALID_ARGUMENT, lpcc, mdl)
  end.

End Estimate.
End CodeLength.

(** ** Signs of binary64 numbers (specification level) *)

(** A binary64 number that is not below zero: a zero of either sign, a
    positive number, [+inf], or a NaN. *)
Definition not_negative (x : spec_float) : Prop :=
  match x with
  | S754_infinity s | S754_finite s _ _ => s = false
  | _ => True
  end.

(** ** Silent blocks (specification level) *)

(** A sample of a silent block: [x == 0.0] in the source's terms, that is
    either zero of binary64. *)
Definition zero_sample (x : float) : Prop := x = 0%float \/ x = (-0)%float.

(** A buffer of [len] cells whose first [n] cells hold [+0.0]. *)
Definition cleared (n len : nat) (ac : list float) : Prop :=
  length ac = len /\ forall j, (j < n)%nat -> nth j ac 0%float = 0%float.

(** An [(m+1) x (m+1)] matrix given by rows, and one whose cells [(i, j)]
    with [i <= j <= order] in the first [rows] rows hold [+0.0]. *)
Definition matrix_sized (m : nat) (cov : list (list float)) : Prop :=
  length cov = (m + 1)%nat /\
  forall r, (r <= m)%nat -> length (nth r cov []) = (m + 1)%nat.

Definition upper_cleared (rows order : nat) (cov : list (list float)) : Prop :=
  forall i j, (i < rows)%nat -> (i <= j <= order)%nat ->
              nth j (nth i cov []) 0%float = 0%float.

(** The caller's coefficient buffer [coef] after a call that wrote [order]
    zero coefficients into it. *)
Definition zeroed (order : nat) (coef c : list float) : Prop :=
  length c = length coef /\
  forall j, (j < order)%nat -> nth j c 0%float = 0%float.

(** ** The Welch window (specification level) *)

(** The weight of sample [n] in a block of [N] samples,
    [4 n (N-1-n) / (N-1)^2]. *)
Definition welch_weight (N n : nat) : R :=
  (4 * INR n * INR (N - 1 - n) / (INR (N - 1)) ^ 2)%R.

(** ** Bit utilities and CRC-16 (specification level) *)

(** The bit-serial CRC-16 with the reflected polynomial [0xA001]: one bit,
    one byte, a message; the register starts from 0. *)
Definition crc16_bit (c : Z) : Z :=
  if Z.testbit c 0 then Z.lxor (Z.shiftr c 1) 0xA001 else Z.shiftr c 1.

Definition crc16_byte (c byte : Z) : Z :=
  Nat.iter 8 crc16_bit (Z.lxor c byte).

Definition crc16_serial (data : list Z) : Z := fold_left crc16_byte data 0.

(** [windowed x w y]: bit [i] of [y] is the disjunction of the bits
    [i .. i+w-1] of [x]. *)
Definition windowed (x w y : Z) : Prop :=
  forall i, 0 <= i ->
    (Z.testbit y i = true <-> exists j, 0 <= j < w /\ Z.testbit x (i + j) = true).

(** The weight of sample [n] under the sine window,
    [sin(LPC_PI n / (N-1))]. *)
Definition sin_weight (N n : nat) : R := sin (LPC_PI * INR n / INR (N - 1))%R.

(** ** Exact sums and the biased autocorrelation (specification level) *)

(** [rsum n f] is [f 0 + ... + f (n-1)], accumulated from the left as the
    loops of the source accumulate. *)
Fixpoint rsum (n : nat) (f : nat -> R) : R :=
  match n with
  | O => 0%R
  | Datatypes.S n' => (rsum n' f + f n')%R
  end.

(** The biased sample autocorrelation of the first [N] samples of [data] at
    a lag, [r[lag] = sum_i x[i] * x[i + lag]], as the specification states it. *)
Definition biased_autocorrelation (data : list R) (N lag : nat) : R :=
  rsum (N - lag) (fun j => (nth j data 0 * nth (j + lag) data 0)%R).

(** The normal equations the Levinson-Durbin recursion solves, for an
    autocorrelation sequence [rho] and taps [a 0 .. a k] with [a 0 = 1]:
    row [j] is [sum_i a_i * rho |j - i|]; rows [1 .. k] vanish and row 0 is
    the prediction error [e]. *)
Definition lag_between (j i : nat) : nat := ((j - i) + (i - j))%nat.

Definition normal_row (rho : nat -> R) (a : nat -> R) (k j : nat) : R :=
  rsum (k + 1) (fun i => (a i * rho (lag_between j i))%R).

Definition solves_normal_equations (rho : nat -> R) (a : nat -> R)
    (k : nat) (e : R) : Prop :=
  a 0%nat = 1%R /\
  (forall j, (1 <= j <= k)%nat -> normal_row rho a k j = 0%R) /\
  normal_row rho a k 0 = e.

(** ** [lpc.c]: the Cholesky solver, over the operations of [double]

    The solver of the auxiliary-function estimator again, written over the
    operations it uses so that it can be run in exact arithmetic; on
    binary64 it is the solver above. *)

Module Cholesky.
Import LPC.

Section Solver.
Context {D : Type} {ops : DoubleOps D} {libm : Libm D}.

(** One round [i] of the factorisation loop; [inl] is its
    [return LPC_ERROR_SINGULAR_MATRIX]. *)
Definition Cholesky_factor_round (dim : nat) (i : nat)
    (st : list (list D) * list D)
  : outcome (list (list D) * list D + list (list D) * list D) :=
  let '(Amat, inv_diag) := st in
  sum <- rd2 Amat i i ;;
  sum <- for_range 0 i
    (fun t sum =>
       let k := (i - 1 - t)%nat in
       aik <- rd2 Amat i k ;;
       Ret (sum -! aik *! aik))
    sum ;;
  if sum <=! d_of_Z 0 then Ret (inl (Amat, inv_diag))
  else
    inv_diag <- wr inv_diag i (c_pow sum (d_opp (d_of_Z 1 /! d_of_Z 2))) ;;
    Amat <- for_range (i + 1) dim
      (fun j Amat =>
         sum <- rd2 Amat i j ;;
         sum <- for_range 0 i
           (fun t sum =>
              let k := (i - 1 - t)%nat in
              aik <- rd2 Amat i k ;;
              ajk <- rd2 Amat j k ;;
              Ret (sum -! aik *! ajk))
           sum ;;
         d <- rd inv_diag i ;;
         wr2 Amat j i (sum *! d))
      Amat ;;
    Ret (inr (Amat, inv_diag)).

(** [LPC_CholeskyDecomposition]: the error code, and [Amat], [xvec],
    [inv_diag] after the call. *)
Definition LPC_CholeskyDecomposition (Amat : list (list D)) (dim : nat)
    (xvec bvec inv_diag : list D)
  : outcome (LPCError * list (list D) * list D * list D) :=
  r <- for_loop_exit dim 0 (Cholesky_factor_round dim) (Amat, inv_diag) ;;
  match r with
  | inl (Amat, inv_diag) =>
      Ret (LPC_ERROR_SINGULAR_MATRIX, Amat, xvec, inv_diag)
  | inr (Amat, inv_diag) =>
      xvec <- for_range 0 dim
        (fun i xvec =>
           sum <- rd bvec i ;;
           sum <- for_range 0 i
             (fun t sum =>
                let j := (i - 1 - t)%nat in
                aij <- rd2 Amat i j ;;
                xj <- rd xvec j ;;
                Ret (sum -! aij *! xj))
             sum ;;
           d <- rd inv_diag i ;;
           wr xvec i (sum *! d))
        xvec ;;
      xvec <- for_range 0 dim
        (fun t xvec =>
           let i := (dim - 1 - t)%nat in
           sum <- rd xvec i ;;
           sum <- for_range (i + 1) dim
             (fun j sum =>
                aji <- rd2 Amat j i ;;
                xj <- rd xvec j ;;
                Ret (sum -! aji *! xj))
             sum ;;
           d <- rd inv_diag i ;;
           wr xvec i (sum *! d))
        xvec ;;
      Ret (LPC_ERROR_OK, Amat, xvec, inv_diag)
  end.

End Solver.
End Cholesky.

(** ** Matrices given by rows (specification level) *)

(** The cell [(i, j)] of a matrix, the symmetric matrix its upper triangle
    stands for, and a buffer of at least [n] rows of at least [n] cells. *)
Definition entry (A : list (list R)) (i j : nat) : R := nth j (nth i A []) 0%R.

Definition mirrored (A : list (list R)) (r c : nat) : R :=
  if (r <=? c)%nat then entry A r c else entry A c r.

Definition square (n : nat) (A : list (list R)) : Prop :=
  (n <= length A)%nat /\ forall i, (i < n)%nat -> (n <= length (nth i A []))%nat.

(** What the factorisation loop has made of the matrix [A0] before round
    [i]: the upper triangle is as it was; for every column [k < i] the pivot
    [A0[k][k] - sum_t A[k][t]^2] is positive and [d[k]] is its inverse root,
    and below the diagonal the column holds
    [(A0[k][j] - sum_t A[k][t] A[j][t]) * d[k]]. *)
Definition factored (A0 : list (list R)) (n i : nat)
    (A : list (list R)) (d : list R) : Prop :=
  square n A /\ (n <= length d)%nat /\
  (forall r c, (r <= c)%nat -> (c < n)%nat -> entry A r c = entry A0 r c) /\
  forall k, (k < i)%nat ->
    (0 < nth k d 0)%R /\
    ((entry A0 k k - rsum k (fun t => entry A k t * entry A k t))
     * (nth k d 0 * nth k d 0) = 1)%R /\
    forall j, (k < j < n)%nat ->
      entry A j k
      = ((entry A0 k j - rsum k (fun t => entry A k t * entry A j t))
         * nth k d 0)%R.

(** The quadratic form [v^T M v] over the first [n] indices, and positive
    definiteness of [M] there. *)
Definition quadratic_form (n : nat) (M : nat -> nat -> R) (v : nat -> R) : R :=
  rsum n (fun r => rsum n (fun c => (v r * M r c * v c)%R)).

Definition positive_definite (n : nat) (M : nat -> nat -> R) : Prop :=
  forall v, (exists r, (r < n)%nat /\ v r <> 0%R) ->
            (0 < quadratic_form n M v)%R.

(* ================================================================== *)
(** * Part II: properties                                              *)
(* ================================================================== *)

(** ** Loops and buffers *)

Section LoopFacts.
Context {S : Type}.

Lemma for_loop_invariant (P : nat -> S -> Prop)
    (body : nat -> S -> outcome S) (n i : nat) (s : S) :
  P i s ->
  (forall j t, (i <= j < i + n)%nat -> P j t ->
               exists t', body j t = Ret t' /\ P (Datatypes.S j) t') ->
  exists s', for_loop n i body s = Ret s' /\ P (i + n)%nat s'.
Proof.
  revert i s. induction n as [|n IH]; intros i s Hs Hstep; simpl.
  - exists s. rewrite Nat.add_0_r. auto.
  - destruct (Hstep i s) as [t [Hb Ht]]; [lia | assumption |].
    rewrite Hb. simpl.
    destruct (IH (Datatypes.S i) t Ht) as [s' [Hl Hs']].
    + intros j u Hj Hu. apply Hstep; [lia | assumption].
    + exists s'. split; [assumption |].
      replace (i + Datatypes.S n)%nat with (Datatypes.S i + n)%nat by lia.
      assumption.
Qed.

Lemma for_range_invariant (P : nat -> S -> Prop)
    (body : nat -> S -> outcome S) (lo hi : nat) (s : S) :
  (lo <= hi)%nat ->
  P lo s ->
  (forall j t, (lo <= j < hi)%nat -> P j t ->
               exists t', body j t = Ret t' /\ P (Datatypes.S j) t') ->
  exists s', for_range lo hi body s = Ret s' /\ P hi s'.
Proof.
  intros Hle Hs Hstep. unfold for_range.
  destruct (for_loop_invariant P body (hi - lo) lo s Hs) as [s' [H1 H2]].
  - intros j t Hj. apply Hstep. lia.
  - exists s'. split; [assumption |].
    replace hi with (lo + (hi - lo))%nat by lia. assumption.
Qed.
End LoopFacts.

Section BufferFacts.
Context {A : Type}.

Lemma length_upd (l : list A) i v : length (upd l i v) = length l.
Proof.
  revert i. induction l as [|h t IH]; intros [|i]; simpl; auto.
Qed.

Lemma nth_upd (l : list A) i k v d :
  (i < length l)%nat ->
  nth k (upd l i v) d = if (k =? i)%nat then v else nth k l d.
Proof.
  revert i k. induction l as [|h t IH]; intros i k Hi; simpl in Hi; [lia|].
  destruct i as [|i], k as [|k]; simpl; auto.
  apply IH. lia.
Qed.

Lemma rd_in (l : list A) i d :
  (i < length l)%nat -> rd l i = Ret (nth i l d).
Proof.
  intros Hi. unfold rd.
  rewrite (nth_error_nth' l d Hi). reflexivity.
Qed.

Lemma rd_out (l : list A) i :
  (length l <= i)%nat -> rd l i = Undefined.
Proof.
  intros Hi. unfold rd.
  apply nth_error_None in Hi. rewrite Hi. reflexivity.
Qed.

Lemma wr_in (l : list A) i v :
  (i < length l)%nat -> wr l i v = Ret (upd l i v).
Proof.
  intros Hi. unfold wr.
  apply Nat.ltb_lt in Hi. rewrite Hi. reflexivity.
Qed.

Lemma wr_out (l : list A) i v :
  (length l <= i)%nat -> wr l i v = Undefined.
Proof.
  intros Hi. unfold wr.
  apply Nat.ltb_ge in Hi. rewrite Hi. reflexivity.
Qed.
End BufferFacts.

Lemma memcpy_runs {A : Type} (dst src : list A) n :
  (n <= length dst)%nat -> (n <= length src)%nat ->
  memcpy dst src n = Ret (firstn n src ++ skipn n dst) /\
  length (firstn n src ++ skipn n dst) = length dst.
Proof.
  intros Hd Hs. unfold memcpy.
  apply Nat.leb_le in Hd as Hd'. apply Nat.leb_le in Hs as Hs'.
  rewrite Hd', Hs'. split; [reflexivity |].
  rewrite length_app, length_firstn, length_skipn. lia.
Qed.

(** ** 32-bit arithmetic *)

Lemma wrap_in_range z : Int32.in_range (Int32.wrap z).
Proof.
  unfold Int32.in_range, Int32.wrap.
  pose proof (Z.mod_pos_bound (z + 2 ^ 31) (2 ^ 32) ltac:(lia)). lia.
Qed.

Lemma wrap_small z : Int32.in_range z -> Int32.wrap z = z.
Proof.
  unfold Int32.in_range, Int32.wrap. intros H.
  rewrite Z.mod_small by lia. lia.
Qed.

Lemma wrap_eqm a b : (a - b) mod 2 ^ 32 = 0 -> Int32.wrap a = Int32.wrap b.
Proof.
  intros H. unfold Int32.wrap. f_equal.
  apply Z.mod_divide in H; [| lia]. destruct H as [k Hk].
  replace (a + 2 ^ 31) with (b + 2 ^ 31 + k * 2 ^ 32) by lia.
  apply Z.mod_add. lia.
Qed.

Lemma wrap_wrap_diff z : (Int32.wrap z - z) mod 2 ^ 32 = 0.
Proof.
  unfold Int32.wrap.
  rewrite (Z.mod_eq (z + 2 ^ 31) (2 ^ 32)) by lia.
  replace (z + 2 ^ 31 - 2 ^ 32 * ((z + 2 ^ 31) / 2 ^ 32) - 2 ^ 31 - z)
    with (- ((z + 2 ^ 31) / 2 ^ 32) * 2 ^ 32) by lia.
  apply Z.mod_mul. lia.
Qed.

(** Adding back what was subtracted, and conversely, modulo [2^32]. *)
Lemma sub_add_cancel x t : Int32.in_range x ->
  Int32.add (Int32.sub x t) t = x.
Proof.
  intros Hx. unfold Int32.add, Int32.sub.
  rewrite <- (wrap_small x Hx) at 2. apply wrap_eqm.
  pose proof (wrap_wrap_diff (x - t)) as H.
  replace (Int32.wrap (x - t) + t - x) with (Int32.wrap (x - t) - (x - t)) by lia.
  exact H.
Qed.

Lemma add_sub_cancel x t : Int32.in_range x ->
  Int32.sub (Int32.add x t) t = x.
Proof.
  intros Hx. unfold Int32.add, Int32.sub.
  rewrite <- (wrap_small x Hx) at 2. apply wrap_eqm.
  pose proof (wrap_wrap_diff (x + t)) as H.
  replace (Int32.wrap (x + t) - t - x) with (Int32.wrap (x + t) - (x + t)) by lia.
  exact H.
Qed.

Lemma Forall_in_range_nth (l : list Z) k :
  Forall Int32.in_range l -> Int32.in_range (nth k l 0).
Proof.
  intros H. destruct (Nat.lt_ge_cases k (length l)) as [Hk|Hk].
  - apply Forall_nth; assumption.
  - rewrite nth_overflow by assumption. unfold Int32.in_range. lia.
Qed.

Lemma list_eq_by_nth (l l' : list Z) :
  length l = length l' ->
  (forall k, (k < length l)%nat -> nth k l 0 = nth k l' 0) ->
  l = l'.
Proof.
  intros Hlen Hnth. apply (nth_ext l l' 0 0 Hlen). exact Hnth.
Qed.

(** Steps of a monadic body on accesses known to be inside the buffer. *)
Ltac step_in :=
  repeat (first
    [ rewrite (rd_in _ _ 0%Z) by (rewrite ?length_upd; lia)
    | rewrite wr_in by (rewrite ?length_upd; lia) ];
    cbn [bind]).

(** ** Round-up to a power of two *)

Import LINNEUtility.

(** C8 (as amended).  On 32-bit unsigned arithmetic the round-up utility
    maps 1 to 1, 5 to 8 and [2^31] to [2^31]; on input 0 the decrement wraps
    to [0xFFFFFFFF] and the final increment wraps to 0, so the result is 0. *)
Theorem RoundUp2PoweredSoft_samples :
  LINNEUtility_RoundUp2PoweredSoft 0 = 0 /\
  LINNEUtility_RoundUp2PoweredSoft 1 = 1 /\
  LINNEUtility_RoundUp2PoweredSoft 5 = 8 /\
  LINNEUtility_RoundUp2PoweredSoft (2 ^ 31) = 2 ^ 31.
Proof. repeat split; vm_compute; reflexivity. Qed.

(** C8 (as stated) fails: the result on input 0 is not 1. *)
Lemma RoundUp2PoweredSoft_zero_is_not_one :
  ~ (LINNEUtility_RoundUp2PoweredSoft 0 = 1 /\
     LINNEUtility_RoundUp2PoweredSoft 1 = 1 /\
     LINNEUtility_RoundUp2PoweredSoft 5 = 8 /\
     LINNEUtility_RoundUp2PoweredSoft (2 ^ 31) = 2 ^ 31).
Proof. intros [H _]. vm_compute in H. discriminate H. Qed.

(** ** Bit utilities *)

Lemma windowed_refl x : windowed x 1 x.
Proof.
  intros i Hi. split.
  - intros H. exists 0. split; [lia | rewrite Z.add_0_r; exact H].
  - intros [j [Hj H]]. replace (i + j) with i in H by lia. exact H.
Qed.

Lemma windowed_double x w y :
  0 < w -> windowed x w y ->
  windowed x (2 * w) (UInt32.or y (UInt32.shr y w)).
Proof.
  intros Hw Hy i Hi. unfold UInt32.or, UInt32.shr.
  rewrite Z.lor_spec, Z.shiftr_spec by lia. rewrite orb_true_iff.
  rewrite (Hy i Hi), (Hy (i + w)) by lia. split.
  - intros [[j [Hj H]] | [j [Hj H]]].
    + exists j. split; [lia | exact H].
    + exists (w + j). split; [lia |].
      replace (i + (w + j)) with (i + w + j) by lia. exact H.
  - intros [j [Hj H]]. destruct (Z_lt_le_dec j w) as [Hlt | Hge].
    + left. exists j. split; [lia | exact H].
    + right. exists (j - w). split; [lia |].
      replace (i + w + (j - w)) with (i + j) by lia. exact H.
Qed.

Lemma windowed_above x w y i :
  windowed x w y -> 0 <= x -> 0 <= i -> Z.log2 x < i ->
  Z.testbit y i = false.
Proof.
  intros Hy Hx Hi Hk. destruct (Z.testbit y i) eqn:Hbit; [| reflexivity].
  apply (Hy i Hi) in Hbit. destruct Hbit as [j [Hj Hbit]].
  rewrite Z.bits_above_log2 in Hbit by lia. discriminate.
Qed.

Lemma windowed_within x w y i :
  windowed x w y -> 0 < x -> 0 <= i -> Z.log2 x - w < i <= Z.log2 x ->
  Z.testbit y i = true.
Proof.
  intros Hy Hx Hi Hk. apply (Hy i Hi). exists (Z.log2 x - i). split; [lia |].
  replace (i + (Z.log2 x - i)) with (Z.log2 x) by lia.
  apply Z.bit_log2. exact Hx.
Qed.

Lemma windowed_zero w y : windowed 0 w y -> 0 <= y -> y = 0.
Proof.
  intros Hy Hpos. apply Z.bits_inj'. intros i Hi. rewrite Z.bits_0.
  destruct (Z.testbit y i) eqn:Hbit; [| reflexivity].
  apply (Hy i Hi) in Hbit. destruct Hbit as [j [_ Hbit]].
  rewrite Z.bits_0 in Hbit. discriminate.
Qed.

Lemma smear_nonneg y w : 0 <= y -> 0 <= UInt32.or y (UInt32.shr y w).
Proof.
  intros Hy. unfold UInt32.or, UInt32.shr.
  apply Z.lor_nonneg. split; [exact Hy | apply Z.shiftr_nonneg; exact Hy].
Qed.

(** The four (five) shift-and-or steps both bit utilities start with. *)
Lemma smear_16 x :
  0 <= x ->
  let x1 := UInt32.or x (UInt32.shr x 1) in
  let x2 := UInt32.or x1 (UInt32.shr x1 2) in
  let x3 := UInt32.or x2 (UInt32.shr x2 4) in
  let x4 := UInt32.or x3 (UInt32.shr x3 8) in
  windowed x 16 x4 /\ 0 <= x4.
Proof.
  intros Hx x1 x2 x3 x4. split.
  - apply (windowed_double x 8); [lia |].
    apply (windowed_double x 4); [lia |].
    apply (windowed_double x 2); [lia |].
    apply (windowed_double x 1); [lia |].
    apply windowed_refl.
  - repeat apply smear_nonneg. exact Hx.
Qed.

Lemma smear_32 x :
  0 <= x ->
  let x1 := UInt32.or x (UInt32.shr x 1) in
  let x2 := UInt32.or x1 (UInt32.shr x1 2) in
  let x3 := UInt32.or x2 (UInt32.shr x2 4) in
  let x4 := UInt32.or x3 (UInt32.shr x3 8) in
  let x5 := UInt32.or x4 (UInt32.shr x4 16) in
  windowed x 32 x5 /\ 0 <= x5.
Proof.
  intros Hx x1 x2 x3 x4 x5. destruct (smear_16 x Hx) as [Hw Hpos]. split.
  - apply (windowed_double x 16); [lia | exact Hw].
  - apply smear_nonneg. exact Hpos.
Qed.

(** A run of ones: the bits [lo .. hi-1]. *)
Lemma bits_of_run y lo hi :
  0 <= lo <= hi -> 0 <= y ->
  (forall i, 0 <= i -> Z.testbit y i = (lo <=? i) && (i <? hi)) ->
  y = 2 ^ hi - 2 ^ lo.
Proof.
  intros Hlh Hy Hbits.
  replace (2 ^ hi - 2 ^ lo) with (Z.shiftl (Z.ones (hi - lo)) lo).
  - apply Z.bits_inj'. intros i Hi. rewrite Hbits by exact Hi.
    rewrite Z.shiftl_spec by exact Hi.
    destruct (Z.leb_spec lo i) as [Hlo | Hlo]; cbn [andb].
    + destruct (Z.ltb_spec i hi) as [Hhi | Hhi].
      * rewrite Z.ones_spec_low by lia. reflexivity.
      * rewrite Z.ones_spec_high by lia. reflexivity.
    + rewrite Z.testbit_neg_r by lia. reflexivity.
  - rewrite Z.shiftl_mul_pow2, Z.ones_equiv by lia.
    replace (2 ^ hi) with (2 ^ (hi - lo) * 2 ^ lo)
      by (rewrite <- Z.pow_add_r by lia; f_equal; lia).
    lia.
Qed.

(** After the five steps a positive word is all ones up to its top bit. *)
Lemma smear_32_ones x y :
  0 < x < 2 ^ 32 -> windowed x 32 y -> 0 <= y ->
  y = 2 ^ (Z.log2 x + 1) - 1.
Proof.
  intros Hx Hw Hy.
  assert (Hk : 0 <= Z.log2 x < 32).
  { split; [apply Z.log2_nonneg | apply Z.log2_lt_pow2; lia]. }
  change 1 with (2 ^ 0) at 2. apply bits_of_run; [lia | exact Hy |].
  intros i Hi. replace (0 <=? i) with true by (symmetry; apply Z.leb_le; lia).
  cbn [andb]. destruct (Z.ltb_spec i (Z.log2 x + 1)) as [Hin | Hout].
  - apply (windowed_within x 32 y i Hw); lia.
  - apply (windowed_above x 32 y i Hw); lia.
Qed.

Lemma log2_up_pred v : 1 < v -> Z.log2_up v = Z.log2 (v - 1) + 1.
Proof.
  intros Hv. unfold Z.log2_up.
  replace (1 ?= v) with Lt by (symmetry; apply Z.compare_lt_iff; lia).
  unfold Z.succ, Z.pred. reflexivity.
Qed.

(** Between 1 and [2^31] the round-up utility returns the least power of
    two that is not below its argument. *)
Lemma RoundUp2PoweredSoft_least_power (v : Z) :
  1 <= v <= 2 ^ 31 ->
  LINNEUtility_RoundUp2PoweredSoft v = 2 ^ Z.log2_up v /\
  v <= LINNEUtility_RoundUp2PoweredSoft v /\
  (forall e, 0 <= e -> v <= 2 ^ e -> LINNEUtility_RoundUp2PoweredSoft v <= 2 ^ e).
Proof.
  intros Hv.
  assert (Hval : LINNEUtility_RoundUp2PoweredSoft v = 2 ^ Z.log2_up v).
  { unfold LINNEUtility_RoundUp2PoweredSoft.
    assert (Hsub : UInt32.sub v 1 = v - 1)
      by (unfold UInt32.sub, UInt32.wrap; apply Z.mod_small; lia).
    rewrite Hsub.
    destruct (smear_32 (v - 1) ltac:(lia)) as [Hw Hpos]. cbv zeta in Hw, Hpos.
    destruct (Z.eq_dec v 1) as [-> | Hne].
    - apply windowed_zero in Hw; [| exact Hpos].
      change (1 - 1) with 0 in *. rewrite Hw. reflexivity.
    - rewrite (smear_32_ones (v - 1) _ ltac:(lia) Hw Hpos).
      rewrite log2_up_pred by lia.
      assert (Hk : 0 <= Z.log2 (v - 1) < 31).
      { split; [apply Z.log2_nonneg | apply Z.log2_lt_pow2; lia]. }
      unfold UInt32.add, UInt32.wrap.
      replace (2 ^ (Z.log2 (v - 1) + 1) - 1 + 1) with (2 ^ (Z.log2 (v - 1) + 1))
        by lia.
      apply Z.mod_small. split; [apply Z.pow_nonneg; lia |].
      apply Z.pow_lt_mono_r; lia. }
  rewrite Hval. split; [reflexivity |]. split.
  - destruct (Z.eq_dec v 1) as [-> | Hne];
      [change (Z.log2_up 1) with 0; lia |].
    apply Z.log2_up_spec. lia.
  - intros e He Hle. apply Z.pow_le_mono_r; [lia |].
    destruct (Z.eq_dec v 1) as [-> | Hne];
      [change (Z.log2_up 1) with 0; lia |].
    apply Z.log2_up_le_pow2; lia.
Qed.

(** Above [2^31] no power of two fits 32 bits: the result wraps to 0. *)
Lemma RoundUp2PoweredSoft_wraps (v : Z) :
  2 ^ 31 < v < 2 ^ 32 -> LINNEUtility_RoundUp2PoweredSoft v = 0.
Proof.
  intros Hv. unfold LINNEUtility_RoundUp2PoweredSoft.
  assert (Hsub : UInt32.sub v 1 = v - 1)
    by (unfold UInt32.sub, UInt32.wrap; apply Z.mod_small; lia).
  rewrite Hsub.
  destruct (smear_32 (v - 1) ltac:(lia)) as [Hw Hpos]. cbv zeta in Hw, Hpos.
  rewrite (smear_32_ones (v - 1) _ ltac:(lia) Hw Hpos).
  assert (Hk : Z.log2 (v - 1) = 31).
  { apply Z.log2_unique; lia. }
  rewrite Hk. reflexivity.
Qed.

(** X18.  [LINNEUtility_RoundUp2PoweredSoft] on every argument but 0: the
    result is [2^ceil(log2 val)] cut to 32 bits.  Up to [2^31] that is the
    least power of two not below [val]; above [2^31] it is 0, where no power of
    two fits. *)
Theorem RoundUp2PoweredSoft_rounds_up (v : Z) :
  1 <= v < 2 ^ 32 ->
  LINNEUtility_RoundUp2PoweredSoft v = UInt32.wrap (2 ^ Z.log2_up v) /\
  (v <= 2 ^ 31 ->
   LINNEUtility_RoundUp2PoweredSoft v = 2 ^ Z.log2_up v /\
   v <= LINNEUtility_RoundUp2PoweredSoft v /\
   forall e, 0 <= e -> v <= 2 ^ e -> LINNEUtility_RoundUp2PoweredSoft v <= 2 ^ e) /\
  (2 ^ 31 < v -> LINNEUtility_RoundUp2PoweredSoft v = 0).
Proof.
  intros Hv. split; [| split].
  - destruct (Z_le_gt_dec v (2 ^ 31)) as [Hlow | Hhigh].
    + destruct (RoundUp2PoweredSoft_least_power v ltac:(lia)) as (Hval & Hge & _).
      rewrite Hval. symmetry. unfold UInt32.wrap. apply Z.mod_small.
      rewrite <- Hval. split; [lia |].
      rewrite Hval. apply Z.le_lt_trans with (2 ^ 31); [| lia].
      apply Z.pow_le_mono_r; [lia |].
      destruct (Z.eq_dec v 1) as [-> | Hne];
        [change (Z.log2_up 1) with 0; lia |].
      apply Z.log2_up_le_pow2; lia.
    + rewrite (RoundUp2PoweredSoft_wraps v) by lia.
      assert (Hup : Z.log2_up v = 32).
      { apply Z.log2_up_unique; lia. }
      rewrite Hup. reflexivity.
  - intros Hlow. apply RoundUp2PoweredSoft_least_power. lia.
  - intros Hhigh. apply RoundUp2PoweredSoft_wraps. lia.
Qed.

Lemma RoundUp2PoweredSoft_rounds_up_witness :
  LINNEUtility_RoundUp2PoweredSoft 1000 = UInt32.wrap (2 ^ Z.log2_up 1000) /\
  (1000 <= 2 ^ 31 ->
   LINNEUtility_RoundUp2PoweredSoft 1000 = 2 ^ Z.log2_up 1000 /\
   1000 <= LINNEUtility_RoundUp2PoweredSoft 1000 /\
   forall e, 0 <= e -> 1000 <= 2 ^ e ->
             LINNEUtility_RoundUp2PoweredSoft 1000 <= 2 ^ e) /\
  (2 ^ 31 < 1000 -> LINNEUtility_RoundUp2PoweredSoft 1000 = 0).
Proof. apply (RoundUp2PoweredSoft_rounds_up 1000). lia. Defined.

(** The word [x & ~(x >> 16)] after the four steps: the top bit of the
    argument and up to fifteen bits below it. *)
Lemma nlz_window x y :
  0 < x < 2 ^ 32 -> windowed x 16 y -> 0 <= y ->
  Z.land y (u32_not (UInt32.shr y 16))
  = 2 ^ (Z.log2 x + 1) - 2 ^ (Z.max (Z.log2 x - 15) 0).
Proof.
  intros Hx Hw Hy.
  assert (Hk : 0 <= Z.log2 x < 32).
  { split; [apply Z.log2_nonneg | apply Z.log2_lt_pow2; lia]. }
  apply bits_of_run; [lia | apply Z.land_nonneg; left; exact Hy |].
  intros i Hi. rewrite Z.land_spec.
  destruct (Z_lt_le_dec (Z.log2 x) i) as [Habove | Hbelow].
  - rewrite (windowed_above x 16 y i Hw) by lia.
    replace (i <? Z.log2 x + 1) with false by (symmetry; apply Z.ltb_ge; lia).
    rewrite andb_false_r. reflexivity.
  - replace (i <? Z.log2 x + 1) with true by (symmetry; apply Z.ltb_lt; lia).
    rewrite andb_true_r.
    unfold u32_not, UInt32.wrap, UInt32.shr.
    rewrite Z.mod_pow2_bits_low by lia.
    rewrite Z.lnot_spec, Z.shiftr_spec by lia.
    destruct (Z.leb_spec (Z.max (Z.log2 x - 15) 0) i) as [Hin | Hout].
    + rewrite (windowed_within x 16 y i Hw) by lia.
      rewrite (windowed_above x 16 y (i + 16) Hw) by lia. reflexivity.
    + rewrite (windowed_within x 16 y (i + 16) Hw) by lia.
      apply andb_false_r.
Qed.

(** The multiplications and the table, on each of the 32 such words. *)
Lemma nlz_table_lookup (n : nat) :
  (n < 32)%nat ->
  let y := 2 ^ (Z.of_nat n + 1) - 2 ^ (Z.max (Z.of_nat n - 15) 0) in
  let y := UInt32.sub (u32_shl y 9) y in
  let y := UInt32.sub (u32_shl y 11) y in
  let y := UInt32.sub (u32_shl y 14) y in
  rd st_nlz10_table (Z.to_nat (UInt32.shr y 26)) = Ret (31 - Z.of_nat n).
Proof.
  intros Hn.
  do 32 (destruct n as [|n]; [vm_compute; reflexivity |]). lia.
Qed.

(** X19.  [LINNEUtility_NLZSoft] counts the leading zeros of a 32-bit word:
    it returns the [n] with [x < 2^(32-n)] and, unless [n = 32],
    [2^(31-n) <= x]. *)
Theorem NLZSoft_counts_leading_zeros (x : Z) :
  0 <= x < 2 ^ 32 ->
  exists n, LINNEUtility_NLZSoft x = Ret n /\
            0 <= n <= 32 /\ x < 2 ^ (32 - n) /\ (n < 32 -> 2 ^ (31 - n) <= x).
Proof.
  intros Hx. unfold LINNEUtility_NLZSoft.
  destruct (smear_16 x ltac:(lia)) as [Hw Hpos]. cbv zeta in Hw, Hpos.
  destruct (Z.eq_dec x 0) as [-> | Hne].
  - apply windowed_zero in Hw; [| exact Hpos].
    cbv zeta. rewrite Hw. exists 32. split; [vm_compute; reflexivity |].
    repeat split; try lia.
  - cbv zeta. rewrite (nlz_window x _ ltac:(lia) Hw Hpos).
    assert (Hk : 0 <= Z.log2 x < 32).
    { split; [apply Z.log2_nonneg | apply Z.log2_lt_pow2; lia]. }
    pose proof (nlz_table_lookup (Z.to_nat (Z.log2 x)) ltac:(lia)) as Hlook.
    cbv zeta in Hlook. rewrite Z2Nat.id in Hlook by lia.
    exists (31 - Z.log2 x). split; [exact Hlook |].
    pose proof (Z.log2_spec x ltac:(lia)) as [Hlo Hhi].
    replace (32 - (31 - Z.log2 x)) with (Z.succ (Z.log2 x)) by lia.
    replace (31 - (31 - Z.log2 x)) with (Z.log2 x) by lia.
    repeat split; lia.
Qed.

Lemma NLZSoft_counts_leading_zeros_witness :
  exists n, LINNEUtility_NLZSoft 1000 = Ret n /\
            0 <= n <= 32 /\ 1000 < 2 ^ (32 - n) /\ (n < 32 -> 2 ^ (31 - n) <= 1000).
Proof. apply (NLZSoft_counts_leading_zeros 1000). lia. Defined.

(** ** CRC-16 *)

Lemma bits_below (a n i : Z) :
  0 <= a < 2 ^ n -> n <= i -> Z.testbit a i = false.
Proof.
  intros Ha Hi. destruct (Z_lt_le_dec n 0) as [Hn | Hn].
  - rewrite Z.pow_neg_r in Ha by lia. lia.
  - rewrite <- (Z.mod_small a (2 ^ n)) by lia.
    apply Z.mod_pow2_bits_high. lia.
Qed.

Lemma range_by_bits (a n : Z) :
  0 <= n -> 0 <= a -> (forall i, n <= i -> Z.testbit a i = false) ->
  0 <= a < 2 ^ n.
Proof.
  intros Hn Ha Hbits. split; [exact Ha |].
  replace a with (a mod 2 ^ n); [apply Z.mod_pos_bound; apply Z.pow_pos_nonneg; lia |].
  apply Z.bits_inj'. intros i Hi.
  destruct (Z_lt_le_dec i n) as [Hlt | Hge].
  - apply Z.mod_pow2_bits_low. lia.
  - rewrite Z.mod_pow2_bits_high by lia. symmetry. apply Hbits. exact Hge.
Qed.

Lemma lxor_range (a b n : Z) :
  0 <= n -> 0 <= a < 2 ^ n -> 0 <= b < 2 ^ n -> 0 <= Z.lxor a b < 2 ^ n.
Proof.
  intros Hn Ha Hb. apply range_by_bits; [exact Hn | apply Z.lxor_nonneg; lia |].
  intros i Hi. rewrite Z.lxor_spec.
  rewrite (bits_below a n i), (bits_below b n i) by lia. reflexivity.
Qed.

Lemma shiftr_range (a n s : Z) :
  0 <= s <= n -> 0 <= a < 2 ^ n -> 0 <= Z.shiftr a s < 2 ^ (n - s).
Proof.
  intros Hs Ha. rewrite Z.shiftr_div_pow2 by lia. split.
  - apply Z.div_pos; [lia | apply Z.pow_pos_nonneg; lia].
  - apply Z.div_lt_upper_bound; [apply Z.pow_pos_nonneg; lia |].
    rewrite <- Z.pow_add_r by lia. replace (s + (n - s)) with n by lia. lia.
Qed.

Lemma crc16_bit_range c : 0 <= c < 2 ^ 16 -> 0 <= crc16_bit c < 2 ^ 16.
Proof.
  intros Hc. unfold crc16_bit.
  pose proof (shiftr_range c 16 1 ltac:(lia) Hc) as Hs.
  change (2 ^ (16 - 1)) with (2 ^ 15) in Hs.
  destruct (Z.testbit c 0); [| lia].
  apply lxor_range; lia.
Qed.

Lemma crc16_iter_range n c :
  0 <= c < 2 ^ 16 -> 0 <= Nat.iter n crc16_bit c < 2 ^ 16.
Proof.
  intros Hc. induction n as [|n IH]; [exact Hc |].
  rewrite Nat.iter_succ. apply crc16_bit_range. exact IH.
Qed.

Lemma crc16_byte_range c b :
  0 <= c < 2 ^ 16 -> 0 <= b < 2 ^ 8 -> 0 <= crc16_byte c b < 2 ^ 16.
Proof.
  intros Hc Hb. apply crc16_iter_range. apply lxor_range; lia.
Qed.

(** The bit step is linear over exclusive-or, and on a register whose low
    [n] bits are clear [n] steps are [n] plain shifts. *)
Lemma crc16_bit_lxor a b :
  crc16_bit (Z.lxor a b) = Z.lxor (crc16_bit a) (crc16_bit b).
Proof.
  unfold crc16_bit. rewrite Z.lxor_spec, Z.shiftr_lxor.
  destruct (Z.testbit a 0), (Z.testbit b 0); cbn [xorb].
  - rewrite (Z.lxor_comm (Z.shiftr b 1) 0xA001), Z.lxor_assoc.
    rewrite <- (Z.lxor_assoc 0xA001 0xA001), Z.lxor_nilpotent, Z.lxor_0_l.
    reflexivity.
  - rewrite !Z.lxor_assoc. f_equal. apply Z.lxor_comm.
  - rewrite Z.lxor_assoc. reflexivity.
  - reflexivity.
Qed.

Lemma crc16_iter_lxor n a b :
  Nat.iter n crc16_bit (Z.lxor a b)
  = Z.lxor (Nat.iter n crc16_bit a) (Nat.iter n crc16_bit b).
Proof.
  induction n as [|n IH]; [reflexivity |].
  rewrite !Nat.iter_succ, IH. apply crc16_bit_lxor.
Qed.

Lemma crc16_iter_shifted n a :
  0 <= a -> Nat.iter n crc16_bit (Z.shiftl a (Z.of_nat n)) = a.
Proof.
  revert a. induction n as [|n IH]; intros a Ha.
  - apply Z.shiftl_0_r.
  - rewrite Nat.iter_succ.
    replace (Z.shiftl a (Z.of_nat (S n)))
      with (Z.shiftl (Z.shiftl a 1) (Z.of_nat n))
      by (rewrite Z.shiftl_shiftl by lia; f_equal; lia).
    rewrite IH by (apply Z.shiftl_nonneg; exact Ha).
    unfold crc16_bit. rewrite Z.shiftl_spec_low by lia.
    rewrite Z.shiftr_shiftl_l by lia. apply Z.shiftl_0_r.
Qed.

Lemma split_low_byte v :
  0 <= v -> v = Z.lxor (Z.shiftl (Z.shiftr v 8) 8) (Z.land v 0xFF).
Proof.
  intros Hv. apply Z.bits_inj'. intros i Hi.
  rewrite Z.lxor_spec, Z.land_spec. change 0xFF with (Z.ones 8).
  destruct (Z_lt_le_dec i 8) as [Hlo | Hhi].
  - rewrite Z.shiftl_spec_low, Z.ones_spec_low by lia.
    rewrite andb_true_r. reflexivity.
  - rewrite Z.shiftl_spec, Z.shiftr_spec, Z.ones_spec_high by lia.
    rewrite andb_false_r, xorb_false_r. f_equal. lia.
Qed.

(** The table holds the eight-step image of each byte. *)
Lemma crc16_table_check :
  forallb (fun n => Nat.iter 8 crc16_bit (Z.of_nat n)
                    =? nth n st_crc16_ibm_byte_table 0)
          (seq 0 256) = true.
Proof. vm_compute. reflexivity. Qed.

Lemma crc16_table_entry b :
  0 <= b < 256 ->
  nth (Z.to_nat b) st_crc16_ibm_byte_table 0 = Nat.iter 8 crc16_bit b.
Proof.
  intros Hb. pose proof crc16_table_check as Hall.
  rewrite forallb_forall in Hall.
  specialize (Hall (Z.to_nat b)). rewrite Z2Nat.id in Hall by lia.
  symmetry. apply Z.eqb_eq. apply Hall. apply in_seq. lia.
Qed.

Lemma crc16_table_step v :
  0 <= v < 2 ^ 16 ->
  Nat.iter 8 crc16_bit v
  = Z.lxor (Z.shiftr v 8)
      (nth (Z.to_nat (Z.land v 0xFF)) st_crc16_ibm_byte_table 0).
Proof.
  intros Hv.
  rewrite (split_low_byte v) at 1 by lia.
  rewrite crc16_iter_lxor.
  rewrite (crc16_iter_shifted 8) by (apply Z.shiftr_nonneg; lia).
  rewrite crc16_table_entry; [reflexivity |].
  change 0xFF with (Z.ones 8). rewrite Z.land_ones by lia.
  apply Z.mod_pos_bound. lia.
Qed.

Lemma low_byte_range v : 0 <= v -> 0 <= Z.land v 0xFF < 256.
Proof.
  intros Hv. change 0xFF with (Z.ones 8). rewrite Z.land_ones by lia.
  apply Z.mod_pos_bound. lia.
Qed.

Lemma CRC16_round_serial c b :
  0 <= c < 2 ^ 16 -> 0 <= b < 2 ^ 8 ->
  CRC16_round c b = Ret (crc16_byte c b).
Proof.
  intros Hc Hb. unfold CRC16_round, crc16_byte.
  pose proof (lxor_range c b 16 ltac:(lia) Hc ltac:(lia)) as Hv.
  pose proof (low_byte_range (Z.lxor c b) ltac:(lia)) as Hidx.
  rewrite (rd_in st_crc16_ibm_byte_table _ 0)
    by (change (length st_crc16_ibm_byte_table) with 256%nat; lia).
  cbn [bind]. f_equal.
  assert (Hhigh : Z.shiftr (Z.lxor c b) 8 = Z.shiftr c 8).
  { rewrite Z.shiftr_lxor. replace (Z.shiftr b 8) with 0;
      [rewrite Z.lxor_0_r; reflexivity |].
    symmetry. apply Z.shiftr_eq_0; [lia |].
    destruct (Z.eq_dec b 0) as [-> | Hne]; [reflexivity |].
    apply Z.log2_lt_pow2; lia. }
  pose proof (crc16_table_step _ Hv) as Hstep. rewrite Hhigh in Hstep.
  rewrite <- Hstep. unfold UInt16.wrap. apply Z.mod_small.
  apply crc16_iter_range. exact Hv.
Qed.

Lemma firstn_snoc {A : Type} (l : list A) (i : nat) (d : A) :
  (i < length l)%nat -> firstn (S i) l = firstn i l ++ [nth i l d].
Proof.
  revert i. induction l as [|h t IH]; intros i Hi; simpl in Hi; [lia |].
  destruct i as [|i]; [reflexivity |].
  cbn [firstn nth app]. f_equal. apply IH. lia.
Qed.

Lemma Forall_prefix {A : Type} (P : A -> Prop) (l : list A) (n : nat) :
  Forall P l -> Forall P (firstn n l).
Proof.
  intros H. revert n. induction H as [|h t Hh _ IH]; intros [|n];
    cbn [firstn]; constructor; auto.
Qed.

Lemma crc16_serial_range data :
  Forall UInt8.in_range data -> 0 <= crc16_serial data < 2 ^ 16.
Proof.
  unfold crc16_serial. intros Hdata.
  assert (H : forall c, 0 <= c < 2 ^ 16 ->
                        0 <= fold_left crc16_byte data c < 2 ^ 16).
  { induction Hdata as [|b t Hb _ IH]; intros c Hc; [exact Hc |].
    cbn [fold_left]. apply IH. apply crc16_byte_range; [exact Hc | exact Hb]. }
  apply H. lia.
Qed.

Lemma CalculateCRC16_runs (data : list Z) (data_size : nat) :
  Forall UInt8.in_range data -> (data_size <= length data)%nat ->
  LINNEUtility_CalculateCRC16 data data_size
  = Ret (crc16_serial (firstn data_size data)).
Proof.
  intros Hdata Hsize. unfold LINNEUtility_CalculateCRC16.
  match goal with |- for_range 0 data_size ?b 0 = _ =>
    destruct (for_range_invariant
                (fun i c => c = crc16_serial (firstn i data)) b 0 data_size 0)
      as [c [Hrun Hc]]
  end.
  - lia.
  - reflexivity.
  - intros i c Hi ->. rewrite (rd_in data i 0) by lia. cbn [bind].
    assert (Hb : UInt8.in_range (nth i data 0)).
    { rewrite Forall_forall in Hdata. apply Hdata. apply nth_In. lia. }
    rewrite CRC16_round_serial.
    + eexists. split; [reflexivity |].
      rewrite (firstn_snoc data i 0) by lia.
      unfold crc16_serial. rewrite fold_left_app. reflexivity.
    + apply crc16_serial_range. apply Forall_prefix. exact Hdata.
    + exact Hb.
  - rewrite Hrun, Hc. reflexivity.
Qed.

(** X20.  The table-driven loop computes the bit-serial CRC-16 with the
    reflected polynomial [0xA001] and initial register 0, over the first
    [data_size] bytes. *)
Theorem CalculateCRC16_is_serial_crc (data : list Z) (data_size : nat) :
  Forall UInt8.in_range data -> (data_size <= length data)%nat ->
  LINNEUtility_CalculateCRC16 data data_size
  = Ret (crc16_serial (firstn data_size data)).
Proof. apply CalculateCRC16_runs. Qed.

Lemma CalculateCRC16_is_serial_crc_witness :
  LINNEUtility_CalculateCRC16 [0x31; 0x32; 0x33; 0x34; 0x35; 0x36; 0x37; 0x38; 0x39] 9
  = Ret (crc16_serial
           (firstn 9 [0x31; 0x32; 0x33; 0x34; 0x35; 0x36; 0x37; 0x38; 0x39])).
Proof.
  apply (CalculateCRC16_is_serial_crc
           [0x31; 0x32; 0x33; 0x34; 0x35; 0x36; 0x37; 0x38; 0x39] 9).
  - repeat constructor; unfold UInt8.in_range; lia.
  - simpl. lia.
Defined.

Lemma CalculateCRC16_whole (data : list Z) :
  Forall UInt8.in_range data ->
  LINNEUtility_CalculateCRC16 data (length data) = Ret (crc16_serial data).
Proof.
  intros Hdata. rewrite CalculateCRC16_runs by (auto; lia).
  rewrite firstn_all. reflexivity.
Qed.

(** X21.  A message followed by its CRC, low byte first, has CRC 0. *)
Theorem CalculateCRC16_of_message_and_crc (data : list Z) :
  Forall UInt8.in_range data ->
  exists crc,
    LINNEUtility_CalculateCRC16 data (length data) = Ret crc /\
    UInt16.in_range crc /\
    LINNEUtility_CalculateCRC16
      (data ++ [Z.land crc 0xFF; Z.shiftr crc 8]) (length data + 2)
    = Ret 0.
Proof.
  intros Hdata. exists (crc16_serial data).
  pose proof (crc16_serial_range data Hdata) as Hc.
  split; [apply CalculateCRC16_whole; exact Hdata |].
  split; [exact Hc |].
  set (c := crc16_serial data) in *.
  pose proof (low_byte_range c ltac:(lia)) as Hlo.
  pose proof (shiftr_range c 16 8 ltac:(lia) Hc) as Hhi.
  change (2 ^ (16 - 8)) with 256 in Hhi.
  replace (length data + 2)%nat
    with (length (data ++ [Z.land c 0xFF; Z.shiftr c 8]))
    by (rewrite length_app; reflexivity).
  rewrite CalculateCRC16_whole.
  - f_equal. unfold crc16_serial. rewrite fold_left_app. cbn [fold_left].
    fold (crc16_serial data). fold c. unfold crc16_byte at 2.
    replace (Z.lxor c (Z.land c 0xFF)) with (Z.shiftl (Z.shiftr c 8) 8).
    + rewrite (crc16_iter_shifted 8) by lia.
      unfold crc16_byte. rewrite Z.lxor_nilpotent. reflexivity.
    + rewrite (split_low_byte c) at 2 by lia.
      rewrite Z.lxor_assoc, Z.lxor_nilpotent, Z.lxor_0_r. reflexivity.
  - apply Forall_app. split; [exact Hdata |].
    repeat constructor; unfold UInt8.in_range;
      change (2 ^ 8) with 256; lia.
Qed.

Lemma CalculateCRC16_of_message_and_crc_witness :
  exists crc,
    LINNEUtility_CalculateCRC16 [0x31; 0x32; 0x33] (length [0x31; 0x32; 0x33])
    = Ret crc /\
    UInt16.in_range crc /\
    LINNEUtility_CalculateCRC16
      ([0x31; 0x32; 0x33] ++ [Z.land crc 0xFF; Z.shiftr crc 8])
      (length [0x31; 0x32; 0x33] + 2)
    = Ret 0.
Proof.
  apply (CalculateCRC16_of_message_and_crc [0x31; 0x32; 0x33]).
  repeat constructor; unfold UInt8.in_range; lia.
Defined.

(** The bit step loses nothing: a 16-bit register is recovered from its
    image. *)
Lemma crc16_bit_zero z : 0 <= z < 2 ^ 16 -> crc16_bit z = 0 -> z = 0.
Proof.
  intros Hz. unfold crc16_bit.
  pose proof (shiftr_range z 16 1 ltac:(lia) Hz) as Hs.
  change (2 ^ (16 - 1)) with 32768 in Hs.
  pose proof (Z.div_mod z 2 ltac:(lia)) as Hdm.
  pose proof (Z.bit0_mod z) as Hbit.
  rewrite Z.shiftr_div_pow2 in * by lia. change (2 ^ 1) with 2 in *.
  destruct (Z.testbit z 0); cbn [Z.b2z] in Hbit.
  - intros Heq. apply Z.lxor_eq in Heq. lia.
  - lia.
Qed.

Lemma crc16_bit_inj a b :
  0 <= a < 2 ^ 16 -> 0 <= b < 2 ^ 16 -> crc16_bit a = crc16_bit b -> a = b.
Proof.
  intros Ha Hb Heq. apply Z.lxor_eq.
  apply crc16_bit_zero; [apply lxor_range; lia |].
  rewrite crc16_bit_lxor, Heq. apply Z.lxor_nilpotent.
Qed.

Lemma crc16_iter_inj n a b :
  0 <= a < 2 ^ 16 -> 0 <= b < 2 ^ 16 ->
  Nat.iter n crc16_bit a = Nat.iter n crc16_bit b -> a = b.
Proof.
  intros Ha Hb. induction n as [|n IH]; [auto |].
  rewrite !Nat.iter_succ. intros Heq. apply IH.
  apply crc16_bit_inj; [apply crc16_iter_range | apply crc16_iter_range |];
    assumption.
Qed.

Lemma crc16_fold_inj data a b :
  Forall UInt8.in_range data ->
  0 <= a < 2 ^ 16 -> 0 <= b < 2 ^ 16 ->
  fold_left crc16_byte data a = fold_left crc16_byte data b -> a = b.
Proof.
  intros Hdata. revert a b.
  induction Hdata as [|x t Hx _ IH]; intros a b Ha Hb Heq; [exact Heq |].
  cbn [fold_left] in Heq.
  apply IH in Heq; try (apply crc16_byte_range; assumption).
  unfold crc16_byte in Heq.
  apply crc16_iter_inj in Heq; try (apply lxor_range; unfold UInt8.in_range in Hx; lia).
  apply (f_equal (fun v => Z.lxor v x)) in Heq.
  rewrite !Z.lxor_assoc, Z.lxor_nilpotent, !Z.lxor_0_r in Heq. exact Heq.
Qed.

(** X22.  The CRC detects every change of one byte: two messages that differ
    in exactly one byte have different CRCs. *)
Theorem CalculateCRC16_detects_one_byte (before after : list Z) (b b' : Z) :
  Forall UInt8.in_range before -> Forall UInt8.in_range after ->
  UInt8.in_range b -> UInt8.in_range b' -> b <> b' ->
  LINNEUtility_CalculateCRC16 (before ++ b :: after)
    (length (before ++ b :: after))
  <> LINNEUtility_CalculateCRC16 (before ++ b' :: after)
       (length (before ++ b' :: after)).
Proof.
  intros Hbefore Hafter Hb Hb' Hne.
  rewrite !CalculateCRC16_whole
    by (apply Forall_app; split; [| constructor]; assumption).
  intros Heq. inversion Heq as [Hcrc]. clear Heq.
  unfold crc16_serial in Hcrc. rewrite !fold_left_app in Hcrc.
  cbn [fold_left] in Hcrc. fold (crc16_serial before) in Hcrc.
  pose proof (crc16_serial_range before Hbefore) as Hc.
  apply crc16_fold_inj in Hcrc;
    [| assumption | apply crc16_byte_range; assumption
     | apply crc16_byte_range; assumption].
  unfold crc16_byte in Hcrc.
  apply crc16_iter_inj in Hcrc;
    try (apply lxor_range; unfold UInt8.in_range in *; lia).
  apply Hne.
  apply (f_equal (Z.lxor (crc16_serial before))) in Hcrc.
  rewrite <- !Z.lxor_assoc, Z.lxor_nilpotent, !Z.lxor_0_l in Hcrc. exact Hcrc.
Qed.

Lemma CalculateCRC16_detects_one_byte_witness :
  LINNEUtility_CalculateCRC16 ([1; 2] ++ 3 :: [4; 5])
    (length ([1; 2] ++ 3 :: [4; 5]))
  <> LINNEUtility_CalculateCRC16 ([1; 2] ++ 7 :: [4; 5])
       (length ([1; 2] ++ 7 :: [4; 5])).
Proof.
  apply (CalculateCRC16_detects_one_byte [1; 2] [4; 5] 3 7);
    repeat constructor; unfold UInt8.in_range; lia.
Defined.

(** ** M/S transform *)

Section MidSide.
Variables (L R : list Z) (N : nat).
Hypothesis HlenL : length L = N.
Hypothesis HlenR : length R = N.
Hypothesis HL : Forall Int32.in_range L.
Hypothesis HR : Forall Int32.in_range R.

Let side (k : nat) : Z := Int32.sub (nth k R 0) (nth k L 0).
Let mid (k : nat) : Z := Int32.add (nth k L 0) (Int32.sar (side k) 1).

(** State of the forward loop before iteration [j]. *)
Let forward_inv (j : nat) (st : stereo) : Prop :=
  length (fst st) = N /\ length (snd st) = N /\
  forall k, nth k (fst st) 0 = (if (k <? j)%nat then mid k else nth k L 0) /\
            nth k (snd st) 0 = (if (k <? j)%nat then side k else nth k R 0).

Lemma MSConversion_runs :
  exists M S, LINNEUtility_MSConversion (L, R) N = Ret (M, S) /\
              forward_inv N (M, S).
Proof.
  destruct (for_range_invariant forward_inv MSConversion_body 0 N (L, R))
    as [[M S] [Hrun Hinv]].
  - lia.
  - repeat split; auto.
  - intros j [b0 b1] Hj (Hl0 & Hl1 & Hnth). simpl in Hl0, Hl1, Hnth.
    unfold MSConversion_body. step_in.
    rewrite nth_upd by lia. rewrite Nat.eqb_refl.
    eexists. split; [reflexivity |].
    repeat split; simpl; rewrite ?length_upd; auto.
    + rewrite nth_upd by lia.
      destruct (Hnth j) as [H0 H1]. destruct (Hnth k) as [H0k H1k].
      rewrite Nat.ltb_irrefl in H0, H1.
      destruct (Nat.eqb_spec k j) as [->|Hne].
      * replace (j <? Datatypes.S j)%nat with true
          by (symmetry; apply Nat.ltb_lt; lia).
        unfold mid, side. rewrite H0, H1. reflexivity.
      * rewrite H0k.
        destruct (Nat.ltb_spec k j), (Nat.ltb_spec k (Datatypes.S j));
          try reflexivity; lia.
    + rewrite nth_upd by lia.
      destruct (Hnth j) as [H0 H1]. destruct (Hnth k) as [H0k H1k].
      rewrite Nat.ltb_irrefl in H0, H1.
      destruct (Nat.eqb_spec k j) as [->|Hne].
      * replace (j <? Datatypes.S j)%nat with true
          by (symmetry; apply Nat.ltb_lt; lia).
        unfold side. rewrite H0, H1. reflexivity.
      * rewrite H1k.
        destruct (Nat.ltb_spec k j), (Nat.ltb_spec k (Datatypes.S j));
          try reflexivity; lia.
  - exists M, S. auto.
Qed.

Lemma LRConversion_inverts (M S : list Z) :
  forward_inv N (M, S) ->
  LINNEUtility_LRConversion (M, S) N = Ret (L, R).
Proof.
  intros (HlM & HlS & HMS). simpl in HlM, HlS, HMS.
  pose (backward_inv := fun (j : nat) (st : stereo) =>
    length (fst st) = N /\ length (snd st) = N /\
    forall k, nth k (fst st) 0 = (if (k <? j)%nat then nth k L 0 else nth k M 0) /\
              nth k (snd st) 0 = (if (k <? j)%nat then nth k R 0 else nth k S 0)).
  destruct (for_range_invariant backward_inv LRConversion_body 0 N (M, S))
    as [[b0 b1] [Hrun (Hl0 & Hl1 & Hnth)]].
  - lia.
  - repeat split; auto.
  - intros j [b0 b1] Hj (Hl0 & Hl1 & Hnth). simpl in Hl0, Hl1, Hnth.
    unfold LRConversion_body. step_in.
    rewrite nth_upd by lia. rewrite Nat.eqb_refl.
    eexists. split; [reflexivity |].
    destruct (Hnth j) as [H0 H1]. rewrite Nat.ltb_irrefl in H0, H1.
    destruct (HMS j) as [HM HS].
    replace (j <? N)%nat with true in HM, HS
      by (symmetry; apply Nat.ltb_lt; lia).
    assert (Hleft : Int32.sub (nth j b0 0) (Int32.sar (nth j b1 0) 1) = nth j L 0).
    { rewrite H0, H1, HM, HS. unfold mid.
      apply add_sub_cancel. apply Forall_in_range_nth. exact HL. }
    assert (Hright : Int32.add (nth j b1 0) (nth j L 0) = nth j R 0).
    { rewrite H1, HS. unfold side.
      apply sub_add_cancel. apply Forall_in_range_nth. exact HR. }
    repeat split; simpl; rewrite ?length_upd; auto.
    + rewrite nth_upd by lia. destruct (Hnth k) as [H0k H1k].
      destruct (Nat.eqb_spec k j) as [->|Hne].
      * replace (j <? Datatypes.S j)%nat with true
          by (symmetry; apply Nat.ltb_lt; lia).
        exact Hleft.
      * rewrite H0k.
        destruct (Nat.ltb_spec k j), (Nat.ltb_spec k (Datatypes.S j));
          try reflexivity; lia.
    + rewrite nth_upd by lia. destruct (Hnth k) as [H0k H1k].
      destruct (Nat.eqb_spec k j) as [->|Hne].
      * replace (j <? Datatypes.S j)%nat with true
          by (symmetry; apply Nat.ltb_lt; lia).
        rewrite Hleft. exact Hright.
      * rewrite H1k.
        destruct (Nat.ltb_spec k j), (Nat.ltb_spec k (Datatypes.S j));
          try reflexivity; lia.
  - unfold LINNEUtility_LRConversion. rewrite Hrun.
    simpl in Hl0, Hl1, Hnth. f_equal. f_equal.
    + apply list_eq_by_nth; [lia |]. intros k Hk.
      destruct (Hnth k) as [H0 _]. rewrite H0.
      replace (k <? N)%nat with true by (symmetry; apply Nat.ltb_lt; lia).
      reflexivity.
    + apply list_eq_by_nth; [lia |]. intros k Hk.
      destruct (Hnth k) as [_ H1]. rewrite H1.
      replace (k <? N)%nat with true by (symmetry; apply Nat.ltb_lt; lia).
      reflexivity.
Qed.
End MidSide.

(** C4.  For two channels of 32-bit samples of the same length [N], the
    forward transform [LINNEUtility_MSConversion] runs to completion and the
    inverse transform [LINNEUtility_LRConversion] applied to its result gives
    back exactly the original channels. *)
Theorem MSConversion_LRConversion_identity (L R : list Z) (N : nat) :
  length L = N -> length R = N ->
  Forall Int32.in_range L -> Forall Int32.in_range R ->
  exists M S,
    LINNEUtility_MSConversion (L, R) N = Ret (M, S) /\
    LINNEUtility_LRConversion (M, S) N = Ret (L, R).
Proof.
  intros HlL HlR HL HR.
  edestruct (MSConversion_runs L R N) as (M & S & Hrun & Hinv);
    try eassumption.
  exists M, S. split; [exact Hrun |].
  eapply LRConversion_inverts; eassumption.
Qed.

Lemma MSConversion_LRConversion_identity_witness :
  length [10; -3; 7] = 3%nat /\ length [4; -3; 9] = 3%nat /\
  exists M S,
    LINNEUtility_MSConversion ([10; -3; 7], [4; -3; 9]) 3 = Ret (M, S) /\
    LINNEUtility_LRConversion (M, S) 3 = Ret ([10; -3; 7], [4; -3; 9]).
Proof.
  split; [reflexivity | split; [reflexivity |]].
  apply (MSConversion_LRConversion_identity [10; -3; 7] [4; -3; 9] 3).
  - reflexivity.
  - reflexivity.
  - repeat constructor; unfold Int32.in_range; lia.
  - repeat constructor; unfold Int32.in_range; lia.
Defined.

(** The run of the forward transform on [L = [10; -3; 7]],
    [R = [4; -3; 9]]: the first mid sample is [10 + ((4 - 10) >> 1) = 7]. *)
Example MSConversion_run :
  LINNEUtility_MSConversion ([10; -3; 7], [4; -3; 9]) 3
  = Ret ([7; -3; 8], [-6; 0; 2]).
Proof. vm_compute. reflexivity. Qed.

Section SideMid.
Variables (M S : list Z) (N : nat).
Hypothesis HlenM : length M = N.
Hypothesis HlenS : length S = N.

Let left (k : nat) : Z := Int32.sub (nth k M 0) (Int32.sar (nth k S 0) 1).
Let right (k : nat) : Z := Int32.add (nth k S 0) (left k).

Lemma LRConversion_runs :
  exists L R, LINNEUtility_LRConversion (M, S) N = Ret (L, R) /\
              length L = N /\ length R = N /\
              forall k, (k < N)%nat -> nth k L 0 = left k /\ nth k R 0 = right k.
Proof.
  pose (inv := fun (j : nat) (st : stereo) =>
    length (fst st) = N /\ length (snd st) = N /\
    forall k, nth k (fst st) 0 = (if (k <? j)%nat then left k else nth k M 0) /\
              nth k (snd st) 0 = (if (k <? j)%nat then right k else nth k S 0)).
  destruct (for_range_invariant inv LRConversion_body 0 N (M, S))
    as [[L R] [Hrun (HlL & HlR & Hnth)]].
  - lia.
  - repeat split; auto.
  - intros j [b0 b1] Hj (Hl0 & Hl1 & Hnth). simpl in Hl0, Hl1, Hnth.
    unfold LRConversion_body. step_in.
    rewrite nth_upd by lia. rewrite Nat.eqb_refl.
    eexists. split; [reflexivity |].
    destruct (Hnth j) as [H0 H1]. rewrite Nat.ltb_irrefl in H0, H1.
    repeat split; simpl; rewrite ?length_upd; auto.
    + rewrite nth_upd by lia. destruct (Hnth k) as [H0k H1k].
      destruct (Nat.eqb_spec k j) as [->|Hne].
      * replace (j <? Datatypes.S j)%nat with true
          by (symmetry; apply Nat.ltb_lt; lia).
        unfold left. rewrite H0, H1. reflexivity.
      * rewrite H0k.
        destruct (Nat.ltb_spec k j), (Nat.ltb_spec k (Datatypes.S j));
          try reflexivity; lia.
    + rewrite nth_upd by lia. destruct (Hnth k) as [H0k H1k].
      destruct (Nat.eqb_spec k j) as [->|Hne].
      * replace (j <? Datatypes.S j)%nat with true
          by (symmetry; apply Nat.ltb_lt; lia).
        unfold right, left. rewrite H0, H1. reflexivity.
      * rewrite H1k.
        destruct (Nat.ltb_spec k j), (Nat.ltb_spec k (Datatypes.S j));
          try reflexivity; lia.
  - exists L, R. simpl in HlL, HlR, Hnth. repeat split; auto.
    + destruct (Hnth k) as [H0 _]. rewrite H0.
      replace (k <? N)%nat with true by (symmetry; apply Nat.ltb_lt; lia).
      reflexivity.
    + destruct (Hnth k) as [_ H1]. rewrite H1.
      replace (k <? N)%nat with true by (symmetry; apply Nat.ltb_lt; lia).
      reflexivity.
Qed.
End SideMid.

(** X23.  The two transforms are inverse to each other in the other order
    too: on mid/side channels of 32-bit samples, [LINNEUtility_LRConversion]
    followed by [LINNEUtility_MSConversion] gives back the channels. *)
Theorem LRConversion_MSConversion_identity (M S : list Z) (N : nat) :
  length M = N -> length S = N ->
  Forall Int32.in_range M -> Forall Int32.in_range S ->
  exists L R,
    LINNEUtility_LRConversion (M, S) N = Ret (L, R) /\
    LINNEUtility_MSConversion (L, R) N = Ret (M, S).
Proof.
  intros HlM HlS HM HS.
  destruct (LRConversion_runs M S N HlM HlS) as (L & R & Hrun & HlL & HlR & Hnth).
  exists L, R. split; [exact Hrun |].
  destruct (MSConversion_runs L R N HlL HlR) as (M' & S' & Hrun' & HlM' & HlS' & Hnth').
  simpl in HlM', HlS', Hnth'. rewrite Hrun'. f_equal. f_equal.
  - apply list_eq_by_nth; [lia |]. intros k Hk.
    destruct (Hnth' k) as [H0 _]. rewrite H0.
    replace (k <? N)%nat with true by (symmetry; apply Nat.ltb_lt; lia).
    destruct (Hnth k ltac:(lia)) as [HL HR]. rewrite HL, HR.
    rewrite add_sub_cancel by (apply Forall_in_range_nth; exact HS).
    apply sub_add_cancel. apply Forall_in_range_nth. exact HM.
  - apply list_eq_by_nth; [lia |]. intros k Hk.
    destruct (Hnth' k) as [_ H1]. rewrite H1.
    replace (k <? N)%nat with true by (symmetry; apply Nat.ltb_lt; lia).
    destruct (Hnth k ltac:(lia)) as [HL HR]. rewrite HL, HR.
    apply add_sub_cancel. apply Forall_in_range_nth. exact HS.
Qed.

Lemma LRConversion_MSConversion_identity_witness :
  exists L R,
    LINNEUtility_LRConversion ([7; -3; 8], [-6; 0; 2]) 3 = Ret (L, R) /\
    LINNEUtility_MSConversion (L, R) 3 = Ret ([7; -3; 8], [-6; 0; 2]).
Proof.
  apply (LRConversion_MSConversion_identity [7; -3; 8] [-6; 0; 2] 3);
    try reflexivity; repeat constructor; unfold Int32.in_range; lia.
Defined.

(** X24.  Where the difference of the two channels fits 32 bits, the side
    sample is that difference and the mid sample is the average of the two
    channels rounded down. *)
Theorem MSConversion_mid_side (L R : list Z) (N : nat) :
  length L = N -> length R = N ->
  Forall Int32.in_range L -> Forall Int32.in_range R ->
  exists M S,
    LINNEUtility_MSConversion (L, R) N = Ret (M, S) /\
    length M = N /\ length S = N /\
    forall k, (k < N)%nat -> Int32.in_range (nth k R 0 - nth k L 0) ->
              nth k S 0 = nth k R 0 - nth k L 0 /\
              nth k M 0 = (nth k L 0 + nth k R 0) / 2.
Proof.
  intros HlL HlR HL HR.
  destruct (MSConversion_runs L R N HlL HlR) as (M & S & Hrun & HlM & HlS & Hnth).
  simpl in HlM, HlS, Hnth. exists M, S.
  split; [exact Hrun |]. split; [exact HlM |]. split; [exact HlS |].
  intros k Hk Hfit.
  destruct (Hnth k) as [H0 H1].
  replace (k <? N)%nat with true in H0, H1 by (symmetry; apply Nat.ltb_lt; lia).
  assert (Hside : nth k S 0 = nth k R 0 - nth k L 0).
  { rewrite H1. unfold Int32.sub. apply wrap_small. exact Hfit. }
  split; [exact Hside |].
  rewrite H0. unfold Int32.add, Int32.sar.
  fold (Int32.sub (nth k R 0) (nth k L 0)). rewrite <- H1, Hside.
  pose proof (Forall_in_range_nth L k HL) as Hl.
  pose proof (Forall_in_range_nth R k HR) as Hr.
  set (l := nth k L 0) in *. set (r := nth k R 0) in *.
  rewrite Z.shiftr_div_pow2 by lia. change (2 ^ 1) with 2.
  replace ((l + r) / 2) with (l + (r - l) / 2).
  - apply wrap_small. unfold Int32.in_range in *.
    pose proof (Z.div_mod (r - l) 2 ltac:(lia)).
    pose proof (Z.mod_pos_bound (r - l) 2 ltac:(lia)). lia.
  - replace (l + r) with (r - l + l * 2) by lia.
    rewrite Z.div_add by lia. lia.
Qed.

Lemma MSConversion_mid_side_witness :
  exists M S,
    LINNEUtility_MSConversion ([10; -3; 7], [4; -3; 9]) 3 = Ret (M, S) /\
    length M = 3%nat /\ length S = 3%nat /\
    forall k, (k < 3)%nat ->
              Int32.in_range (nth k [4; -3; 9] 0 - nth k [10; -3; 7] 0) ->
              nth k S 0 = nth k [4; -3; 9] 0 - nth k [10; -3; 7] 0 /\
              nth k M 0 = (nth k [10; -3; 7] 0 + nth k [4; -3; 9] 0) / 2.
Proof.
  apply (MSConversion_mid_side [10; -3; 7] [4; -3; 9] 3);
    try reflexivity; repeat constructor; unfold Int32.in_range; lia.
Defined.

(** ** Preemphasis filter *)

Section Emphasis.
Variable SHIFT : Z.
Variables (preem : LINNEPreemphasisFilter) (x : list Z) (N : nat).
Hypothesis HN : (0 < N)%nat.
Hypothesis Hlen : (N <= length x)%nat.
Hypothesis Hu32 : Z.of_nat N < 2 ^ 32.
Hypothesis Hx : Forall Int32.in_range x.

(** The sample the forward filter holds in [prev] before iteration [k]. *)
Let carried (k : nat) : Z :=
  match k with
  | O => prev preem
  | Datatypes.S k' => nth k' x 0
  end.

Let filtered (k : nat) : Z :=
  Int32.sub (nth k x 0) (emphasis_term SHIFT (carried k) (coef preem)).

Let pre_inv (j : nat) (st : Z * list Z) : Prop :=
  fst st = carried j /\ length (snd st) = length x /\
  forall k, nth k (snd st) 0 = if (k <? j)%nat then filtered k else nth k x 0.

Lemma Preemphasis_runs :
  exists y,
    LINNEPreemphasisFilter_Preemphasis SHIFT preem x N
    = Ret ({| prev := carried N; coef := coef preem |}, y) /\
    pre_inv N (carried N, y).
Proof.
  destruct (for_range_invariant pre_inv (Preemphasis_body SHIFT (coef preem))
              0 N (prev preem, x)) as [[p y] [Hrun Hinv]].
  - lia.
  - repeat split; auto.
  - intros j [p b] Hj (Hp & Hl & Hnth). simpl in Hp, Hl, Hnth.
    unfold Preemphasis_body. step_in.
    eexists. split; [reflexivity |].
    pose proof (Hnth j) as Hjj. rewrite Nat.ltb_irrefl in Hjj.
    repeat split; simpl; rewrite ?length_upd; auto.
    intros k. rewrite nth_upd by lia.
    destruct (Nat.eqb_spec k j) as [->|Hne].
    + replace (j <? Datatypes.S j)%nat with true
        by (symmetry; apply Nat.ltb_lt; lia).
      unfold filtered. rewrite Hjj, Hp. reflexivity.
    + rewrite Hnth.
      destruct (Nat.ltb_spec k j), (Nat.ltb_spec k (Datatypes.S j));
        try reflexivity; lia.
  - exists y. unfold LINNEPreemphasisFilter_Preemphasis. rewrite Hrun.
    destruct Hinv as (Hp & Hl & Hnth). simpl in Hp, Hl, Hnth. simpl.
    rewrite Hp. repeat split; auto.
Qed.

Lemma filtered_restored k :
  Int32.add (filtered k) (emphasis_term SHIFT (carried k) (coef preem))
  = nth k x 0.
Proof.
  unfold filtered. apply sub_add_cancel. apply Forall_in_range_nth. exact Hx.
Qed.

Lemma Deemphasis_inverts (y : list Z) :
  pre_inv N (carried N, y) ->
  LINNEPreemphasisFilter_Deemphasis SHIFT preem y N
  = Ret ({| prev := carried N; coef := coef preem |}, x).
Proof.
  intros (_ & Hl & Hnth). simpl in Hl, Hnth.
  pose (de_inv := fun (j : nat) (b : list Z) =>
    length b = length x /\
    forall k, nth k b 0 = if (k <? j)%nat then nth k x 0 else nth k y 0).
  unfold LINNEPreemphasisFilter_Deemphasis. step_in.
  destruct (for_range_invariant de_inv (Deemphasis_body SHIFT (coef preem)) 1 N
              (upd y 0 (Int32.add (nth 0 y 0)
                 (emphasis_term SHIFT (prev preem) (coef preem)))))
    as [b [Hrun [Hlb Hb]]].
  - lia.
  - split; [rewrite length_upd; lia |].
    intros k. rewrite nth_upd by lia.
    destruct k as [|k]; simpl; [| reflexivity].
    rewrite Hnth. replace (0 <? N)%nat with true
      by (symmetry; apply Nat.ltb_lt; lia).
    apply (filtered_restored 0).
  - intros j b Hj [Hlb Hb]. unfold Deemphasis_body. step_in.
    eexists. split; [reflexivity |].
    split; [rewrite length_upd; lia |].
    intros k. rewrite nth_upd by lia.
    destruct (Nat.eqb_spec k j) as [->|Hne].
    + replace (j <? Datatypes.S j)%nat with true
        by (symmetry; apply Nat.ltb_lt; lia).
      rewrite (Hb j), (Hb (j - 1)%nat), Nat.ltb_irrefl.
      replace (j - 1 <? j)%nat with true by (symmetry; apply Nat.ltb_lt; lia).
      rewrite Hnth.
      replace (j <? N)%nat with true by (symmetry; apply Nat.ltb_lt; lia).
      destruct j as [|j']; [lia |].
      replace (Datatypes.S j' - 1)%nat with j' by lia.
      apply (filtered_restored (Datatypes.S j')).
    + rewrite Hb.
      destruct (Nat.ltb_spec k j), (Nat.ltb_spec k (Datatypes.S j));
        try reflexivity; lia.
  - rewrite Hrun. cbn [bind].
    assert (Hidx : UInt32.index (Z.of_nat N - 1) = (N - 1)%nat).
    { unfold UInt32.index, UInt32.wrap. rewrite Z.mod_small by lia. lia. }
    rewrite Hidx. rewrite (rd_in b (N - 1) 0) by lia. cbn [bind].
    assert (Hbx : b = x).
    { apply list_eq_by_nth; [exact Hlb |]. intros k Hk. rewrite Hb.
      destruct (Nat.ltb_spec k N); [reflexivity |].
      rewrite Hnth. destruct (Nat.ltb_spec k N); [lia | reflexivity]. }
    rewrite Hbx. destruct N as [|n]; [lia |].
    simpl. rewrite Nat.sub_0_r. reflexivity.
Qed.
End Emphasis.

(** C6.  On a block of [N > 0] 32-bit samples, [LINNEPreemphasisFilter_Preemphasis]
    runs to completion, and [LINNEPreemphasisFilter_Deemphasis] started from the
    filter state the forward pass started from (same [coef], same carried
    [prev]) turns its output back into the original block; both passes leave the
    same filter state behind. *)
Theorem Preemphasis_Deemphasis_identity
    (SHIFT : Z) (preem : LINNEPreemphasisFilter) (x : list Z) (N : nat) :
  (0 < N)%nat -> (N <= length x)%nat -> Z.of_nat N < 2 ^ 32 ->
  Forall Int32.in_range x ->
  exists preem' y,
    LINNEPreemphasisFilter_Preemphasis SHIFT preem x N = Ret (preem', y) /\
    LINNEPreemphasisFilter_Deemphasis SHIFT preem y N = Ret (preem', x).
Proof.
  intros HN Hlen Hu32 Hx.
  edestruct (Preemphasis_runs SHIFT preem x N) as (y & Hrun & Hinv);
    try eassumption.
  eexists. exists y. split; [exact Hrun |].
  eapply Deemphasis_inverts; eassumption.
Qed.

Lemma Preemphasis_Deemphasis_identity_witness :
  exists preem' y,
    LINNEPreemphasisFilter_Preemphasis 5 (mkPreem 3 12) [100; -200; 300; 2147483647] 4
    = Ret (preem', y) /\
    LINNEPreemphasisFilter_Deemphasis 5 (mkPreem 3 12) y 4
    = Ret (preem', [100; -200; 300; 2147483647]).
Proof.
  apply (Preemphasis_Deemphasis_identity 5 (mkPreem 3 12)
           [100; -200; 300; 2147483647] 4).
  - lia.
  - simpl. lia.
  - simpl. lia.
  - repeat constructor; unfold Int32.in_range; lia.
Defined.

(** ** Integer prediction and synthesis *)

Import LPC.

Section MoreLoopFacts.
Context {S : Type}.

Lemma for_loop_ext (body body' : nat -> S -> outcome S) n i s :
  (forall j t, (i <= j < i + n)%nat -> body j t = body' j t) ->
  for_loop n i body s = for_loop n i body' s.
Proof.
  revert i s. induction n as [|n IH]; intros i s H; simpl; [reflexivity |].
  rewrite H by lia. destruct (body' i s); simpl; try reflexivity.
  apply IH. intros j t Hj. apply H. lia.
Qed.

Lemma for_range_ext (body body' : nat -> S -> outcome S) lo hi s :
  (forall j t, (lo <= j < hi)%nat -> body j t = body' j t) ->
  for_range lo hi body s = for_range lo hi body' s.
Proof.
  intros H. unfold for_range. apply for_loop_ext.
  intros j t Hj. apply H. lia.
Qed.

Lemma for_loop_app (body : nat -> S -> outcome S) n m i s :
  for_loop (n + m) i body s
  = bind (for_loop n i body s) (for_loop m (i + n) body).
Proof.
  revert i s. induction n as [|n IH]; intros i s; simpl.
  - rewrite Nat.add_0_r. reflexivity.
  - destruct (body i s); simpl; try reflexivity.
    rewrite IH. replace (Datatypes.S i + n)%nat with (i + Datatypes.S n)%nat by lia.
    reflexivity.
Qed.

Lemma for_range_split (body : nat -> S -> outcome S) lo mid hi s :
  (lo <= mid <= hi)%nat ->
  for_range lo hi body s
  = bind (for_range lo mid body s) (for_range mid hi body).
Proof.
  intros H. unfold for_range.
  replace (hi - lo)%nat with ((mid - lo) + (hi - mid))%nat by lia.
  rewrite for_loop_app. replace (lo + (mid - lo))%nat with mid by lia.
  reflexivity.
Qed.

Lemma for_range_empty (body : nat -> S -> outcome S) lo hi s :
  (hi <= lo)%nat -> for_range lo hi body s = Ret s.
Proof.
  intros H. unfold for_range.
  replace (hi - lo)%nat with 0%nat by lia. reflexivity.
Qed.
End MoreLoopFacts.

(** ** The preemphasis filter, continued *)

Import LINNEUtility.

Section Deemphasis.
Variable SHIFT : Z.
Variables (preem : LINNEPreemphasisFilter) (y : list Z) (N : nat).
Hypothesis HN : (0 < N)%nat.
Hypothesis Hlen : (N <= length y)%nat.
Hypothesis Hu32 : Z.of_nat N < 2 ^ 32.

(** The samples the inverse filter has restored before round [j]: each is
    the input sample plus the term of the restored sample before it. *)
Let restored (j : nat) (b : list Z) : Prop :=
  length b = length y /\
  forall k, nth k b 0 =
            if (k <? j)%nat
            then Int32.add (nth k y 0)
                   (emphasis_term SHIFT
                      match k with
                      | O => prev preem
                      | Datatypes.S k' => nth k' b 0
                      end (coef preem))
            else nth k y 0.

Lemma Deemphasis_runs :
  exists x,
    LINNEPreemphasisFilter_Deemphasis SHIFT preem y N
    = Ret ({| prev := nth (N - 1) x 0; coef := coef preem |}, x) /\
    restored N x.
Proof.
  unfold LINNEPreemphasisFilter_Deemphasis. step_in.
  destruct (for_range_invariant restored (Deemphasis_body SHIFT (coef preem)) 1 N
              (upd y 0 (Int32.add (nth 0 y 0)
                 (emphasis_term SHIFT (prev preem) (coef preem)))))
    as [b [Hrun [Hlb Hb]]].
  - lia.
  - split; [rewrite length_upd; lia |].
    intros k. rewrite nth_upd by lia.
    destruct k as [|k]; reflexivity.
  - intros j b Hj [Hlb Hb]. unfold Deemphasis_body. step_in.
    eexists. split; [reflexivity |].
    split; [rewrite length_upd; lia |].
    intros k. rewrite nth_upd by lia.
    destruct (Nat.eqb_spec k j) as [->|Hne].
    + replace (j <? Datatypes.S j)%nat with true
        by (symmetry; apply Nat.ltb_lt; lia).
      rewrite (Hb j), Nat.ltb_irrefl.
      destruct j as [|j']; [lia |].
      replace (Datatypes.S j' - 1)%nat with j' by lia.
      rewrite nth_upd by lia.
      replace (j' =? Datatypes.S j')%nat with false
        by (symmetry; apply Nat.eqb_neq; lia).
      reflexivity.
    + rewrite Hb.
      destruct (Nat.ltb_spec k j), (Nat.ltb_spec k (Datatypes.S j));
        try reflexivity; try lia.
      destruct k as [|k']; [reflexivity |].
      rewrite nth_upd by lia.
      replace (k' =? j)%nat with false by (symmetry; apply Nat.eqb_neq; lia).
      reflexivity.
  - rewrite Hrun. cbn [bind].
    assert (Hidx : UInt32.index (Z.of_nat N - 1) = (N - 1)%nat).
    { unfold UInt32.index, UInt32.wrap. rewrite Z.mod_small by lia. lia. }
    rewrite Hidx. rewrite (rd_in b (N - 1) 0) by lia. cbn [bind].
    exists b. split; [reflexivity | split; assumption].
Qed.
End Deemphasis.

(** X25.  The filter pair is an inverse pair in the other order too: on a
    block of [N > 0] 32-bit samples, [LINNEPreemphasisFilter_Deemphasis]
    followed by [LINNEPreemphasisFilter_Preemphasis] from the same filter
    state gives back the block, and both leave the same state behind. *)
Theorem Deemphasis_Preemphasis_identity
    (SHIFT : Z) (preem : LINNEPreemphasisFilter) (y : list Z) (N : nat) :
  (0 < N)%nat -> (N <= length y)%nat -> Z.of_nat N < 2 ^ 32 ->
  Forall Int32.in_range y ->
  exists preem' x,
    LINNEPreemphasisFilter_Deemphasis SHIFT preem y N = Ret (preem', x) /\
    LINNEPreemphasisFilter_Preemphasis SHIFT preem x N = Ret (preem', y).
Proof.
  intros HN Hlen Hu32 Hy.
  destruct (Deemphasis_runs SHIFT preem y N HN Hlen Hu32) as (x & Hrun & Hlx & Hx).
  eexists. exists x. split; [exact Hrun |].
  destruct (Preemphasis_runs SHIFT preem x N HN ltac:(lia))
    as (y' & Hrun' & _ & Hly' & Hy'). simpl in Hly', Hy'.
  rewrite Hrun'. f_equal. f_equal.
  - f_equal. destruct N as [|n]; [lia |].
    replace (Datatypes.S n - 1)%nat with n by lia. reflexivity.
  - apply list_eq_by_nth; [lia |]. intros k Hk. rewrite Hy'.
    rewrite (Hx k). destruct (k <? N)%nat; [| reflexivity].
    apply add_sub_cancel. apply Forall_in_range_nth. exact Hy.
Qed.

Lemma Deemphasis_Preemphasis_identity_witness :
  exists preem' x,
    LINNEPreemphasisFilter_Deemphasis 5 (mkPreem 3 12) [100; -200; 300; 2147483647] 4
    = Ret (preem', x) /\
    LINNEPreemphasisFilter_Preemphasis 5 (mkPreem 3 12) x 4
    = Ret (preem', [100; -200; 300; 2147483647]).
Proof.
  apply (Deemphasis_Preemphasis_identity 5 (mkPreem 3 12)
           [100; -200; 300; 2147483647] 4).
  - lia.
  - simpl. lia.
  - simpl. lia.
  - repeat constructor; unfold Int32.in_range; lia.
Defined.

(** X26.  The forward filter works block by block: filtering the first [N1]
    samples and then, with the filter state that call leaves, the next [N2]
    samples gives the output and the state of one call on all [N1 + N2]. *)
Theorem Preemphasis_block_by_block
    (SHIFT : Z) (preem : LINNEPreemphasisFilter) (x : list Z) (N1 N2 : nat) :
  (0 < N1)%nat -> (0 < N2)%nat -> length x = (N1 + N2)%nat ->
  exists p1 y1 p2 y2,
    LINNEPreemphasisFilter_Preemphasis SHIFT preem (firstn N1 x) N1 = Ret (p1, y1) /\
    LINNEPreemphasisFilter_Preemphasis SHIFT p1 (skipn N1 x) N2 = Ret (p2, y2) /\
    LINNEPreemphasisFilter_Preemphasis SHIFT preem x (N1 + N2) = Ret (p2, y1 ++ y2).
Proof.
  intros H1 H2 Hlen.
  destruct (Preemphasis_runs SHIFT preem (firstn N1 x) N1 H1)
    as (y1 & Hrun1 & _ & Hl1 & Hy1);
    [rewrite length_firstn; lia |]. cbn [fst snd] in Hl1, Hy1.
  rewrite length_firstn in Hl1.
  destruct N1 as [|n1]; [lia |].
  set (p1 := {| prev := nth n1 (firstn (Datatypes.S n1) x) 0; coef := coef preem |}) in *.
  destruct (Preemphasis_runs SHIFT p1 (skipn (Datatypes.S n1) x) N2 H2)
    as (y2 & Hrun2 & _ & Hl2 & Hy2);
    [rewrite length_skipn; lia |]. cbn [fst snd] in Hl2, Hy2.
  rewrite length_skipn in Hl2.
  destruct (Preemphasis_runs SHIFT preem x (Datatypes.S n1 + N2) ltac:(lia) ltac:(lia))
    as (y & Hrun & _ & Hl & Hy). cbn [fst snd] in Hl, Hy.
  eexists. exists y1. eexists. exists y2.
  split; [exact Hrun1 |]. split; [exact Hrun2 |].
  rewrite Hrun. f_equal. f_equal.
  - cbn [coef p1]. f_equal.
    destruct N2 as [|n2]; [lia |].
    replace (Datatypes.S n1 + Datatypes.S n2)%nat
      with (Datatypes.S (Datatypes.S n1 + n2)) by lia.
    rewrite nth_skipn. reflexivity.
  - apply list_eq_by_nth; [rewrite length_app; lia |].
    intros k Hk. rewrite (Hy k).
    replace (k <? Datatypes.S n1 + N2)%nat with true
      by (symmetry; apply Nat.ltb_lt; lia).
    destruct (Nat.lt_ge_cases k (Datatypes.S n1)) as [Hlo | Hhi].
    + rewrite app_nth1 by lia. rewrite (Hy1 k).
      replace (k <? Datatypes.S n1)%nat with true
        by (symmetry; apply Nat.ltb_lt; lia).
      rewrite nth_firstn.
      replace (k <? Datatypes.S n1)%nat with true
        by (symmetry; apply Nat.ltb_lt; lia).
      destruct k as [|k']; [reflexivity |].
      rewrite nth_firstn.
      replace (k' <? Datatypes.S n1)%nat with true
        by (symmetry; apply Nat.ltb_lt; lia).
      reflexivity.
    + rewrite app_nth2 by lia. rewrite (Hy2 (k - length y1)%nat).
      replace (k - length y1 <? N2)%nat with true
        by (symmetry; apply Nat.ltb_lt; lia).
      rewrite nth_skipn.
      replace (Datatypes.S n1 + (k - length y1))%nat with k by lia.
      destruct (k - length y1)%nat as [|d] eqn:Hd.
      * assert (k = Datatypes.S n1) by lia. subst k.
        cbn [prev p1]. rewrite nth_firstn.
        replace (n1 <? Datatypes.S n1)%nat with true
          by (symmetry; apply Nat.ltb_lt; lia).
        reflexivity.
      * destruct k as [|k']; [lia |].
        rewrite nth_skipn. cbn [coef p1].
        replace (Datatypes.S n1 + d)%nat with k' by lia. reflexivity.
Qed.

Lemma Preemphasis_block_by_block_witness :
  exists p1 y1 p2 y2,
    LINNEPreemphasisFilter_Preemphasis 5 (mkPreem 3 12)
      (firstn 2 [100; -200; 300; 2147483647; 9]) 2 = Ret (p1, y1) /\
    LINNEPreemphasisFilter_Preemphasis 5 p1
      (skipn 2 [100; -200; 300; 2147483647; 9]) 3 = Ret (p2, y2) /\
    LINNEPreemphasisFilter_Preemphasis 5 (mkPreem 3 12)
      [100; -200; 300; 2147483647; 9] (2 + 3) = Ret (p2, y1 ++ y2).
Proof.
  apply (Preemphasis_block_by_block 5 (mkPreem 3 12)
           [100; -200; 300; 2147483647; 9] 2 3); try lia. reflexivity.
Defined.

(** X27.  With the coefficient 0 (the state [LINNEPreemphasisFilter_Initialize]
    sets) both filters leave a block of 32-bit samples as it is, and
    carry its last sample. *)
Theorem Preemphasis_zero_coefficient
    (SHIFT : Z) (p : Z) (x : list Z) (N : nat) :
  (0 < N)%nat -> (N <= length x)%nat -> Z.of_nat N < 2 ^ 32 ->
  Forall Int32.in_range x ->
  LINNEPreemphasisFilter_Preemphasis SHIFT (mkPreem p 0) x N
  = Ret (mkPreem (nth (N - 1) x 0) 0, x) /\
  LINNEPreemphasisFilter_Deemphasis SHIFT (mkPreem p 0) x N
  = Ret (mkPreem (nth (N - 1) x 0) 0, x).
Proof.
  intros HN Hlen Hu32 Hx.
  assert (Hterm : forall v, emphasis_term SHIFT v 0 = 0).
  { intros v. unfold emphasis_term, Int32.mul, Int32.sar.
    rewrite Z.mul_0_r. change (Int32.wrap 0) with 0. apply Z.shiftr_0_l. }
  assert (Hpre : LINNEPreemphasisFilter_Preemphasis SHIFT (mkPreem p 0) x N
                 = Ret (mkPreem (nth (N - 1) x 0) 0, x)).
  { destruct (Preemphasis_runs SHIFT (mkPreem p 0) x N HN Hlen)
      as (y & Hrun & _ & Hl & Hy). cbn [fst snd prev coef] in *.
    rewrite Hrun. f_equal. f_equal.
    - f_equal. destruct N as [|n]; [lia |].
      replace (Datatypes.S n - 1)%nat with n by lia. reflexivity.
    - apply list_eq_by_nth; [exact Hl |]. intros k Hk. rewrite Hy.
      destruct (k <? N)%nat; [| reflexivity].
      rewrite Hterm. unfold Int32.sub. rewrite Z.sub_0_r.
      apply wrap_small. apply Forall_in_range_nth. exact Hx. }
  split; [exact Hpre |].
  rewrite (Deemphasis_inverts SHIFT (mkPreem p 0) x N HN Hlen Hu32 Hx x).
  - f_equal. f_equal. cbn [coef]. f_equal. destruct N as [|n]; [lia |].
    replace (Datatypes.S n - 1)%nat with n by lia. reflexivity.
  - cbn [fst snd prev coef]. split; [reflexivity |]. split; [reflexivity |].
    intros k. destruct (k <? N)%nat; [| reflexivity].
    rewrite Hterm. unfold Int32.sub. rewrite Z.sub_0_r.
    symmetry. apply wrap_small. apply Forall_in_range_nth. exact Hx.
Qed.

Lemma Preemphasis_zero_coefficient_witness :
  LINNEPreemphasisFilter_Preemphasis 5 (mkPreem 3 0) [100; -200; 300] 3
  = Ret (mkPreem (nth (3 - 1) [100; -200; 300] 0) 0, [100; -200; 300]) /\
  LINNEPreemphasisFilter_Deemphasis 5 (mkPreem 3 0) [100; -200; 300] 3
  = Ret (mkPreem (nth (3 - 1) [100; -200; 300] 0) 0, [100; -200; 300]).
Proof.
  apply (Preemphasis_zero_coefficient 5 3 [100; -200; 300] 3).
  - lia.
  - simpl. lia.
  - simpl. lia.
  - repeat constructor; unfold Int32.in_range; lia.
Defined.

(** X28.  The empty block.  [LINNEPreemphasisFilter_Preemphasis] with
    [num_samples = 0] changes nothing; [LINNEPreemphasisFilter_Deemphasis]
    has no such case: it updates [buffer[0]] before its loop and reads
    [buffer[num_samples - 1]], that is [buffer[0xFFFFFFFF]], after it. *)
Theorem emphasis_empty_block
    (SHIFT : Z) (preem : LINNEPreemphasisFilter) (buffer : list Z) :
  Z.of_nat (length buffer) < 2 ^ 32 ->
  LINNEPreemphasisFilter_Preemphasis SHIFT preem buffer 0 = Ret (preem, buffer) /\
  LINNEPreemphasisFilter_Deemphasis SHIFT preem buffer 0 = Undefined.
Proof.
  intros Hlen. split.
  - destruct preem as [p c]. reflexivity.
  - unfold LINNEPreemphasisFilter_Deemphasis.
    destruct buffer as [|b0 rest]; [reflexivity |].
    rewrite (rd_in (b0 :: rest) 0 0) by (cbn [length]; lia). cbn [bind].
    rewrite wr_in by (cbn [length]; lia). cbn [bind].
    rewrite for_range_empty by lia. cbn [bind].
    rewrite rd_out; [reflexivity |].
    rewrite length_upd. unfold UInt32.index, UInt32.wrap.
    change ((Z.of_nat 0 - 1) mod 2 ^ 32) with (2 ^ 32 - 1). lia.
Qed.

Lemma emphasis_empty_block_witness :
  LINNEPreemphasisFilter_Preemphasis 5 (mkPreem 3 12) [100; -200] 0
  = Ret (mkPreem 3 12, [100; -200]) /\
  LINNEPreemphasisFilter_Deemphasis 5 (mkPreem 3 12) [100; -200] 0 = Undefined.
Proof.
  apply (emphasis_empty_block 5 (mkPreem 3 12) [100; -200]). simpl. lia.
Defined.

(** ** Prediction *)

Lemma bind_ret_r {A : Type} (m : outcome A) : bind m Ret = m.
Proof. destruct m; reflexivity. Qed.

Lemma rd_agree (d d' : list Z) k :
  length d = length d' -> nth k d 0 = nth k d' 0 -> rd d k = rd d' k.
Proof.
  intros Hl Hn. destruct (Nat.lt_ge_cases k (length d)) as [Hk|Hk].
  - rewrite (rd_in d k 0), (rd_in d' k 0) by lia. rewrite Hn. reflexivity.
  - rewrite !rd_out by lia. reflexivity.
Qed.

(** Shift counts from 0 to 31 are defined. *)
Lemma c_shl_in (a s : Z) : 0 <= s < 32 -> c_shl a s = Ret (Int32.shl a s).
Proof.
  intros Hs. unfold c_shl.
  replace (0 <=? s) with true by (symmetry; apply Z.leb_le; lia).
  replace (s <? 32) with true by (symmetry; apply Z.ltb_lt; lia).
  reflexivity.
Qed.

Lemma c_sar_in (a s : Z) : 0 <= s < 32 -> c_sar a s = Ret (Int32.sar a s).
Proof.
  intros Hs. unfold c_sar.
  replace (0 <=? s) with true by (symmetry; apply Z.leb_le; lia).
  replace (s <? 32) with true by (symmetry; apply Z.ltb_lt; lia).
  reflexivity.
Qed.

(** The prediction for sample [smpl] reads only the samples before it. *)
Lemma predict_sum_agree (d d' c : list Z) s smpl taps :
  (taps <= smpl)%nat -> length d = length d' ->
  (forall k, (k < smpl)%nat -> nth k d 0 = nth k d' 0) ->
  predict_sum d c s smpl taps = predict_sum d' c s smpl taps.
Proof.
  intros Ht Hl Hag. unfold predict_sum.
  destruct (c_shl 1 (s - 1)) as [half| |]; cbn [bind]; try reflexivity.
  apply for_range_ext.
  intros ord acc Hord.
  rewrite (rd_agree d d' (smpl - ord - 1) Hl) by (apply Hag; lia).
  reflexivity.
Qed.

Lemma predict_sum_runs (d c : list Z) s smpl taps :
  0 < s < 32 ->
  (taps <= smpl)%nat -> (smpl <= length d)%nat -> (taps <= length c)%nat ->
  exists v, predict_sum d c s smpl taps = Ret v.
Proof.
  intros Hs Ht Hd Hc. unfold predict_sum.
  rewrite c_shl_in by lia. cbn [bind].
  destruct (for_range_invariant (fun _ _ => True)
              (fun ord predict =>
                 c0 <- rd c ord ;;
                 d0 <- rd d (smpl - ord - 1) ;;
                 Ret (Int32.add predict (Int32.mul c0 d0)))
              0 taps (Int32.shl 1 (s - 1))) as [v [Hv _]].
  - lia.
  - exact I.
  - intros j t Hj _. step_in. eexists. split; [reflexivity | exact I].
  - exists v. exact Hv.
Qed.

Lemma firstn_eq_by_nth (l l' : list Z) n :
  (n <= length l)%nat -> (n <= length l')%nat ->
  (forall k, (k < n)%nat -> nth k l 0 = nth k l' 0) ->
  firstn n l = firstn n l'.
Proof.
  intros Hl Hl' Hnth. apply list_eq_by_nth.
  - rewrite !length_firstn. lia.
  - intros k Hk. rewrite length_firstn in Hk.
    rewrite !nth_firstn.
    destruct (Nat.ltb_spec k n); [apply Hnth; lia | reflexivity].
Qed.

Lemma nth_copied (src dst : list Z) n k :
  (k < n)%nat -> (n <= length src)%nat ->
  nth k (firstn n src ++ skipn n dst) 0 = nth k src 0.
Proof.
  intros Hk Hn. rewrite app_nth1 by (rewrite length_firstn; lia).
  rewrite nth_firstn.
  replace (k <? n)%nat with true by (symmetry; apply Nat.ltb_lt; lia).
  reflexivity.
Qed.

Section PredictSynthesize.
Variables (x c : list Z) (shift : Z) (N : nat).
Let room := length x.
Let order := length c.
Hypothesis Hshift : 0 < shift < 32.
Hypothesis Hx : Forall Int32.in_range x.
Hypothesis HN : (N <= room)%nat.
(** The accesses of the ramp-up loop stay inside the buffers. *)
Hypothesis Hroom : (order <= room \/ order <= 1)%nat.

(** First and last sample either function rewrites, and the taps used at a
    sample. *)
Let lo : nat := if (order =? 0)%nat then 0%nat else 1%nat.
Let hi : nat := Nat.max lo (Nat.max N order).
Let taps (smpl : nat) : nat := Nat.min smpl order.

(** Both loop nests are one loop over [lo .. hi-1]. *)
Lemma two_loops_as_one (body : nat -> nat -> list Z -> outcome (list Z)) b :
  bind (for_range 1 order (fun smpl => body smpl smpl) b)
       (for_range order N (fun smpl => body order smpl))
  = for_range lo hi (fun smpl => body (taps smpl) smpl) b.
Proof.
  unfold hi, lo, taps.
  destruct (Nat.eqb_spec order 0) as [H0|H0].
  - rewrite H0. rewrite for_range_empty by lia. cbn [bind].
    replace (Nat.max 0 (Nat.max N 0)) with N by lia. apply for_range_ext.
    intros j t Hj. rewrite Nat.min_r by lia. reflexivity.
  - rewrite (for_range_ext (fun smpl => body smpl smpl)
               (fun smpl => body (Nat.min smpl order) smpl) 1 order).
    2:{ intros j t Hj. rewrite Nat.min_l by lia. reflexivity. }
    destruct (Nat.le_gt_cases order N) as [Hle|Hgt].
    + replace (Nat.max 1 (Nat.max N order)) with N by lia.
      rewrite (for_range_split _ 1 order N) by lia.
      destruct (for_range 1 order _ b); cbn [bind]; try reflexivity.
      apply for_range_ext. intros j t Hj. rewrite Nat.min_r by lia. reflexivity.
    + replace (Nat.max 1 (Nat.max N order)) with order by lia.
      destruct (for_range 1 order _ b); cbn [bind]; try reflexivity.
      apply for_range_empty. lia.
Qed.

Lemma rounds_in_room j : (lo <= j < hi)%nat -> (j < room)%nat.
Proof. unfold hi, lo. destruct (Nat.eqb_spec order 0); lia. Qed.

Lemma block_within_rounds k : (k < N)%nat -> (k < hi)%nat.
Proof. unfold hi. lia. Qed.

Lemma taps_bounds smpl : (taps smpl <= smpl /\ taps smpl <= order)%nat.
Proof. unfold taps. lia. Qed.

Let residual_inv (j : nat) (r : list Z) : Prop :=
  length r = room /\
  forall k, (k < N)%nat ->
    ((lo <= k < j)%nat ->
       exists v, predict_sum x c shift k (taps k) = Ret v /\
                 nth k r 0 = Int32.add (nth k x 0) (Int32.sar v shift)) /\
    (~ (lo <= k < j)%nat -> nth k r 0 = nth k x 0).

Lemma Predict_runs (r0 : list Z) :
  length r0 = room ->
  exists r, LPC_Predict (Some x) N (Some c) order (Some r0) shift
            = Ret (LPC_APIRESULT_OK, Some r) /\
            residual_inv hi r.
Proof.
  intros Hr0. unfold LPC_Predict.
  replace (shift =? 0) with false by (symmetry; apply Z.eqb_neq; lia).
  destruct (memcpy_runs r0 x N) as [Hcopy Hlen]; [lia | exact HN |].
  rewrite Hcopy. cbn [bind].
  set (copied := firstn N x ++ skipn N r0) in *.
  pose proof (two_loops_as_one (Predict_body x c shift) copied) as Hone.
  destruct (for_range_invariant residual_inv
              (fun smpl => Predict_body x c shift (taps smpl) smpl)
              lo hi copied) as [r [Hrun Hinv]].
  - unfold hi. lia.
  - split; [rewrite Hlen; exact Hr0 |]. intros k Hk. split; [lia |].
    intros _. apply nth_copied; assumption.
  - intros j r Hj [Hlen' Hr]. unfold Predict_body.
    pose proof (rounds_in_room j Hj) as Hjr.
    destruct (taps_bounds j) as [Ht1 Ht2].
    destruct (predict_sum_runs x c shift j (taps j)) as [v Hv];
      [lia | lia | fold room; lia | fold order; lia |].
    rewrite Hv. cbn [bind]. rewrite c_sar_in by lia. cbn [bind]. step_in.
    eexists. split; [reflexivity |].
    split; [rewrite length_upd; exact Hlen' |].
    intros k Hk. rewrite nth_upd by lia.
    destruct (Nat.eqb_spec k j) as [->|Hne].
    + split; [| lia]. intros _. exists v. split; [exact Hv |].
      destruct (Hr j Hk) as [_ Hj']. rewrite Hj' by lia. reflexivity.
    + destruct (Hr k Hk) as [Hk1 Hk2]. split.
      * intros Hk'. apply Hk1. lia.
      * intros Hk'. apply Hk2. lia.
  - exists r. split; [| exact Hinv].
    destruct (for_range 1 order _ copied) as [r1| |] eqn:E1; cbn [bind] in *;
      try (rewrite Hrun in Hone; discriminate Hone).
    rewrite Hone, Hrun. reflexivity.
Qed.

Lemma Synthesize_inverts (r : list Z) :
  residual_inv hi r ->
  exists y, LPC_Synthesize (Some r) N (Some c) order shift
            = Ret (LPC_APIRESULT_OK, Some y) /\
            length y = room /\
            firstn N y = firstn N x.
Proof.
  intros [Hlen Hr]. unfold LPC_Synthesize.
  replace (shift =? 0) with false by (symmetry; apply Z.eqb_neq; lia).
  pose proof (two_loops_as_one (Synthesize_body c shift) r) as Hone.
  pose (data_inv := fun (j : nat) (d : list Z) =>
    length d = room /\
    forall k, (k < N)%nat ->
              nth k d 0 = if ((lo <=? k) && (k <? j))%nat
                          then nth k x 0 else nth k r 0).
  assert (Hbelow : forall j d, (j < N)%nat -> data_inv j d ->
            forall k, (k < j)%nat -> nth k d 0 = nth k x 0).
  { intros j d HjN [_ Hd] k Hk. rewrite Hd by lia.
    destruct (Nat.leb_spec lo k); cbn [andb].
    - replace (k <? j)%nat with true by (symmetry; apply Nat.ltb_lt; lia).
      reflexivity.
    - destruct (Hr k ltac:(lia)) as [_ Hk2]. apply Hk2. lia. }
  destruct (for_range_invariant data_inv
              (fun smpl => Synthesize_body c shift (taps smpl) smpl)
              lo hi r) as [d [Hrun [Hdl Hd]]].
  - unfold hi. lia.
  - split; [exact Hlen |]. intros k Hk.
    destruct (Nat.leb_spec lo k), (Nat.ltb_spec k lo); cbn [andb];
      try reflexivity; lia.
  - intros j d Hj Hinv. pose proof Hinv as [Hdl Hd].
    unfold Synthesize_body.
    pose proof (rounds_in_room j Hj) as Hjr.
    destruct (taps_bounds j) as [Ht1 Ht2].
    destruct (Nat.lt_ge_cases j N) as [HjN | HjN].
    + (* a sample of the block *)
      destruct (Hr j HjN) as [[v [Hv Hrj]] _]; [lia |].
      rewrite (predict_sum_agree d x c shift j (taps j) Ht1)
        by first [ exact Hdl | apply (Hbelow j d HjN Hinv) ].
      rewrite Hv. cbn [bind]. rewrite c_sar_in by lia. cbn [bind]. step_in.
      eexists. split; [reflexivity |].
      split; [rewrite length_upd; exact Hdl |].
      intros k Hk. rewrite nth_upd by lia.
      destruct (Nat.eqb_spec k j) as [->|Hne].
      * replace (lo <=? j)%nat with true by (symmetry; apply Nat.leb_le; lia).
        replace (j <? Datatypes.S j)%nat with true
          by (symmetry; apply Nat.ltb_lt; lia).
        cbn [andb]. rewrite Hd by exact Hk.
        replace (j <? j)%nat with false by (symmetry; apply Nat.ltb_ge; lia).
        rewrite andb_false_r. rewrite Hrj.
        apply add_sub_cancel. apply Forall_in_range_nth. exact Hx.
      * rewrite Hd by exact Hk. destruct (lo <=? k)%nat; cbn [andb]; [| reflexivity].
        destruct (Nat.ltb_spec k j), (Nat.ltb_spec k (Datatypes.S j));
          try reflexivity; lia.
    + (* a round of the ramp-up past the block *)
      destruct (predict_sum_runs d c shift j (taps j)) as [v Hv];
        [lia | lia | lia | fold order; lia |].
      rewrite Hv. cbn [bind]. rewrite c_sar_in by lia. cbn [bind]. step_in.
      eexists. split; [reflexivity |].
      split; [rewrite length_upd; exact Hdl |].
      intros k Hk. rewrite nth_upd by lia.
      replace (k =? j)%nat with false by (symmetry; apply Nat.eqb_neq; lia).
      rewrite Hd by exact Hk. destruct (lo <=? k)%nat; cbn [andb]; [| reflexivity].
      destruct (Nat.ltb_spec k j), (Nat.ltb_spec k (Datatypes.S j));
        try reflexivity; lia.
  - exists d. split.
    + destruct (for_range 1 order _ r) as [r1| |] eqn:E1; cbn [bind] in *;
        try (rewrite Hrun in Hone; discriminate Hone).
      rewrite Hone, Hrun. reflexivity.
    + split; [exact Hdl |].
      apply firstn_eq_by_nth; [lia | exact HN |]. intros k Hk.
      rewrite Hd by exact Hk.
      pose proof (block_within_rounds k Hk) as Hkh.
      destruct (Nat.leb_spec lo k); cbn [andb].
      * replace (k <? hi)%nat with true by (symmetry; apply Nat.ltb_lt; lia).
        reflexivity.
      * destruct (Hr k Hk) as [_ Hk2]. apply Hk2. lia.
Qed.
End PredictSynthesize.

(** C1 (as amended).  For every buffer [x] of 32-bit samples, every block
    length [N] inside it, every coefficient vector [c] whose order is at most
    the buffer length (or at most 1) and every shift from 1 to 31 (the counts
    at which [1 << (coef_rshift - 1)] and [predict >> coef_rshift] are
    defined), [LPC_Predict] returns OK with a residual buffer, and
    [LPC_Synthesize] on that residual with the same [(c, shift)] returns OK
    and restores the [N] samples of the block exactly, in 32-bit wraparound
    arithmetic.  When the block is the whole buffer, the result is [x]
    itself. *)
Theorem Predict_Synthesize_identity (x c r0 : list Z) (N : nat) (shift : Z) :
  0 < shift < 32 ->
  Forall Int32.in_range x ->
  (N <= length x)%nat ->
  (length c <= length x \/ length c <= 1)%nat ->
  length r0 = length x ->
  exists r y,
    LPC_Predict (Some x) N (Some c) (length c) (Some r0) shift
    = Ret (LPC_APIRESULT_OK, Some r) /\
    LPC_Synthesize (Some r) N (Some c) (length c) shift
    = Ret (LPC_APIRESULT_OK, Some y) /\
    firstn N y = firstn N x /\
    (N = length x -> y = x).
Proof.
  intros Hshift Hx HN Hroom Hr0.
  edestruct (Predict_runs x c shift N) as (r & Hrun & Hinv); try eassumption.
  edestruct (Synthesize_inverts x c shift N) as (y & Hsyn & Hly & Hfirst);
    try eassumption.
  exists r, y. split; [exact Hrun |]. split; [exact Hsyn |].
  split; [exact Hfirst |].
  intros HNx. subst N.
  rewrite <- Hly in Hfirst at 1. rewrite !firstn_all in Hfirst. exact Hfirst.
Qed.

(** The second end-to-end scenario of the specification. *)
Lemma Predict_Synthesize_identity_witness :
  exists r y,
    LPC_Predict (Some [100; 200; 300; 400; 500]) 5 (Some [16384; -4096]) 2
                (Some [0; 0; 0; 0; 0]) 14
    = Ret (LPC_APIRESULT_OK, Some r) /\
    LPC_Synthesize (Some r) 5 (Some [16384; -4096]) 2 14
    = Ret (LPC_APIRESULT_OK, Some y) /\
    firstn 5 y = firstn 5 [100; 200; 300; 400; 500] /\
    (5%nat = length [100; 200; 300; 400; 500] -> y = [100; 200; 300; 400; 500]).
Proof.
  apply (Predict_Synthesize_identity [100; 200; 300; 400; 500] [16384; -4096]
           [0; 0; 0; 0; 0] 5 14).
  - lia.
  - repeat constructor; unfold Int32.in_range; lia.
  - simpl. lia.
  - left. simpl. lia.
  - reflexivity.
Defined.

(** A block shorter than the order, in buffers with room for the ramp-up:
    the two samples of the block come back. *)
Example Predict_Synthesize_short_block :
  exists r y,
    LPC_Predict (Some [100; 200; 7; 7]) 2 (Some [3; -2; 1]) 3 (Some [9; 9; 9; 9]) 2
    = Ret (LPC_APIRESULT_OK, Some r) /\
    LPC_Synthesize (Some r) 2 (Some [3; -2; 1]) 3 2
    = Ret (LPC_APIRESULT_OK, Some y) /\
    firstn 2 y = [100; 200].
Proof.
  exists [100; 275; 109; 9]. eexists.
  split; [vm_compute; reflexivity |].
  split; [vm_compute; reflexivity | reflexivity].
Qed.

(** The run on [x = [100; 200; 300; 400; 500]] with the coefficients
    [0x4000; -0x1000] and shift 14: the residual, and the samples restored
    from it. *)
Example Predict_Synthesize_run :
  LPC_Predict (Some [100; 200; 300; 400; 500]) 5 (Some [0x4000; -0x1000]) 2
    (Some [0; 0; 0; 0; 0]) 14
  = Ret (LPC_APIRESULT_OK, Some [100; 300; 475; 650; 825]) /\
  LPC_Synthesize (Some [100; 300; 475; 650; 825]) 5 (Some [0x4000; -0x1000]) 2 14
  = Ret (LPC_APIRESULT_OK, Some [100; 200; 300; 400; 500]).
Proof. split; vm_compute; reflexivity. Qed.

(** A shift of 32 or more is not defined: [predict >> coef_rshift] shifts a
    32-bit value by its width or more. *)
Example Predict_Synthesize_shift_beyond_width :
  LPC_Predict (Some [100; 200; 300]) 3 (Some [1]) 1 (Some [0; 0; 0]) 33
  = Undefined /\
  LPC_Synthesize (Some [100; 200; 300]) 3 (Some [1]) 1 33 = Undefined.
Proof. split; vm_compute; reflexivity. Qed.

(** C1 (as stated) fails when the order exceeds the block length: with one
    sample and two coefficients the ramp-up loop of [LPC_Predict] updates
    [residual[1]], which lies outside the one-sample buffers. *)
Lemma Predict_order_beyond_block :
  ~ (exists r,
       LPC_Predict (Some [5]) 1 (Some [1; 1]) 2 (Some [0]) 1
       = Ret (LPC_APIRESULT_OK, Some r) /\
       LPC_Synthesize (Some r) 1 (Some [1; 1]) 2 1
       = Ret (LPC_APIRESULT_OK, Some [5])).
Proof.
  intros [r [H _]]. vm_compute in H. discriminate H.
Qed.

(** ** Windowing *)

Section LoopReturns.
Context {S : Type}.

(** What a loop that returned has preserved. *)
Lemma for_loop_returned (P : nat -> S -> Prop)
    (body : nat -> S -> outcome S) (n i : nat) (s s' : S) :
  P i s ->
  (forall j t t', (i <= j < i + n)%nat -> P j t -> body j t = Ret t' ->
                  P (Datatypes.S j) t') ->
  for_loop n i body s = Ret s' -> P (i + n)%nat s'.
Proof.
  revert i s. induction n as [|n IH]; intros i s Hs Hstep Hrun; simpl in Hrun.
  - inversion Hrun; subst. rewrite Nat.add_0_r. exact Hs.
  - destruct (body i s) as [t| |] eqn:Hb; simpl in Hrun; try discriminate.
    replace (i + Datatypes.S n)%nat with (Datatypes.S i + n)%nat by lia.
    apply (IH (Datatypes.S i) t).
    + apply (Hstep i s t); [lia | exact Hs | exact Hb].
    + intros j u u' Hj. apply Hstep. lia.
    + exact Hrun.
Qed.

Lemma for_range_returned (P : nat -> S -> Prop)
    (body : nat -> S -> outcome S) (lo hi : nat) (s s' : S) :
  (lo <= hi)%nat ->
  P lo s ->
  (forall j t t', (lo <= j < hi)%nat -> P j t -> body j t = Ret t' ->
                  P (Datatypes.S j) t') ->
  for_range lo hi body s = Ret s' -> P hi s'.
Proof.
  intros Hle Hs Hstep Hrun. unfold for_range in Hrun.
  replace hi with (lo + (hi - lo))%nat by lia.
  apply (for_loop_returned P body (hi - lo) lo s s' Hs); [| exact Hrun].
  intros j t t' Hj. apply Hstep. lia.
Qed.
End LoopReturns.

Lemma nth_error_upd_other {A : Type} (l : list A) i k v :
  i <> k -> nth_error (upd l i v) k = nth_error l k.
Proof.
  revert i k. induction l as [|h t IH]; intros i k Hne; simpl.
  - reflexivity.
  - destruct i as [|i], k as [|k]; simpl; try reflexivity; try lia.
    apply IH. lia.
Qed.

Section Windows.
Context {D : Type} {ops : DoubleOps D} {libm : Libm D}.

(** Steps of a monadic body over [D] on accesses inside the buffer. *)
Ltac step_D :=
  repeat (first
    [ rewrite (rd_in _ _ (d_of_Z 0)) by (rewrite ?length_upd; lia)
    | rewrite wr_in by (rewrite ?length_upd; lia) ];
    cbn [bind]).

(** On the three window kinds the window code runs through the block. *)
Lemma ApplyWindow_runs (window_type : LPCWindowType) (input output : list D) N :
  window_type <> LPC_WINDOWTYPE_other ->
  (N <= length input)%nat -> (N <= length output)%nat ->
  exists out, LPC_ApplyWindow window_type input N output = Ret (LPC_ERROR_OK, out)
              /\ length out = length output.
Proof.
  intros Hwt Hin Hout. unfold LPC_ApplyWindow.
  destruct window_type; [| | | congruence].
  - destruct (memcpy_runs output input N Hout Hin) as [Hrun Hlen].
    rewrite Hrun. cbn [bind]. eexists. split; [reflexivity | exact Hlen].
  - match goal with |- context [for_range 0 N ?b output] =>
      destruct (for_range_invariant (fun _ o => length o = length output) b
                  0 N output) as [out [Hrun Hlen]]
    end.
    + lia.
    + reflexivity.
    + intros j t Hj Ht. step_D. eexists. split; [reflexivity |].
      rewrite length_upd. exact Ht.
    + rewrite Hrun. cbn [bind]. exists out. split; [reflexivity | exact Hlen].
  - assert (Hhalf : (N / 2 <= N)%nat) by (apply Nat.Div0.div_le_upper_bound; lia).
    match goal with |- context [for_range 0 (N / 2) ?b output] =>
      destruct (for_range_invariant (fun _ o => length o = length output) b
                  0 (N / 2) output) as [out [Hrun Hlen]]
    end.
    + lia.
    + reflexivity.
    + intros j t Hj Ht.
      assert (j < N)%nat by lia.
      step_D. eexists. split; [reflexivity |].
      rewrite !length_upd. exact Ht.
    + rewrite Hrun. cbn [bind]. exists out. split; [reflexivity | exact Hlen].
Qed.

(** C7 (the defect).  On a block of odd length [2m+1] the Welch loop runs
    [m] rounds, each writing one sample of either half: the middle cell
    [output[m]] is not written and keeps what the output buffer held. *)
Theorem Welch_middle_sample_untouched (input output : list D) (m : nat) :
  length input = (2 * m + 1)%nat ->
  length output = (2 * m + 1)%nat ->
  exists out,
    LPC_ApplyWindow LPC_WINDOWTYPE_WELCH input (2 * m + 1) output
    = Ret (LPC_ERROR_OK, out) /\
    nth_error out m = nth_error output m.
Proof.
  intros Hin Hout. unfold LPC_ApplyWindow.
  assert (Hhalf : ((2 * m + 1) / 2 = m)%nat).
  { symmetry. apply (Nat.div_unique (2 * m + 1) 2 m 1); lia. }
  rewrite Hhalf.
  match goal with |- context [for_range 0 m ?b output] =>
    destruct (for_range_invariant
                (fun _ o => length o = length output /\
                            nth_error o m = nth_error output m) b
                0 m output) as [out [Hrun [Hlen Hmid]]]
  end.
  - lia.
  - split; reflexivity.
  - intros j t Hj [Hl Hm]. step_D. eexists. split; [reflexivity |].
    split; [rewrite !length_upd; exact Hl |].
    rewrite !nth_error_upd_other by lia. exact Hm.
  - rewrite Hrun. cbn [bind]. exists out. split; [reflexivity | exact Hmid].
Qed.
End Windows.

Lemma Welch_middle_sample_untouched_witness :
  exists out,
    LPC_ApplyWindow LPC_WINDOWTYPE_WELCH [1; 1; 1]%R (2 * 1 + 1) [7; 7; 7]%R
    = Ret (LPC_ERROR_OK, out) /\
    nth_error out 1 = nth_error [7; 7; 7]%R 1.
Proof.
  apply (Welch_middle_sample_untouched [1; 1; 1]%R [7; 7; 7]%R 1);
    reflexivity.
Defined.

(** The same run on binary64 numbers, whatever [pow] returns: the block
    [1, 1, 1] windowed into a buffer holding [7, 7, 7] leaves 7 in the middle,
    where the window formula gives [1 * 1]. *)
Lemma Welch_three_samples (libm : Libm float) :
  exists y0 y2,
    LPC_ApplyWindow LPC_WINDOWTYPE_WELCH [1; 1; 1]%float 3 [7; 7; 7]%float
    = Ret (LPC_ERROR_OK, [y0; 7%float; y2]).
Proof.
  do 2 eexists. cbv [LPC_ApplyWindow for_range for_loop Nat.div Nat.divmod fst
                     Nat.sub bind rd wr nth_error length Nat.ltb Nat.leb upd].
  reflexivity.
Qed.

(** ** Synthesis followed by prediction *)

Section SynthesizePredict.
Variables (r c : list Z) (shift : Z) (N : nat).
Let room := length r.
Let order := length c.
Hypothesis Hshift : 0 < shift < 32.
Hypothesis HN : (N <= room)%nat.
Hypothesis Hroom : (order <= room \/ order <= 1)%nat.

Let lo : nat := if (order =? 0)%nat then 0%nat else 1%nat.
Let hi : nat := Nat.max lo (Nat.max N order).
Let taps (smpl : nat) : nat := Nat.min smpl order.

(** The samples the synthesis has rewritten before round [j]: each is the
    residual minus the prediction from the rewritten samples before it. *)
Let synthesized (j : nat) (d : list Z) : Prop :=
  length d = room /\
  forall k,
    ((lo <= k < j)%nat ->
       exists v, predict_sum d c shift k (taps k) = Ret v /\
                 nth k d 0 = Int32.sub (nth k r 0) (Int32.sar v shift)) /\
    (~ (lo <= k < j)%nat -> nth k d 0 = nth k r 0).

Lemma Synthesize_runs :
  exists y, LPC_Synthesize (Some r) N (Some c) order shift
            = Ret (LPC_APIRESULT_OK, Some y) /\
            synthesized hi y.
Proof.
  unfold LPC_Synthesize.
  replace (shift =? 0) with false by (symmetry; apply Z.eqb_neq; lia).
  assert (Hone :
    bind (for_range 1 order (fun smpl => Synthesize_body c shift smpl smpl) r)
         (for_range order N (fun smpl => Synthesize_body c shift order smpl))
    = for_range lo hi (fun smpl => Synthesize_body c shift (taps smpl) smpl) r)
    by exact (two_loops_as_one r c N HN Hroom (Synthesize_body c shift) r).
  destruct (for_range_invariant synthesized
              (fun smpl => Synthesize_body c shift (taps smpl) smpl)
              lo hi r) as [d [Hrun Hinv]].
  - unfold hi. lia.
  - split; [reflexivity |]. intros k. split; [lia | reflexivity].
  - intros j d Hj [Hdl Hd]. unfold Synthesize_body.
    assert (Hjr : (j < room)%nat).
    { unfold hi, lo in Hj. destruct (Nat.eqb_spec order 0); lia. }
    assert (Ht : (taps j <= j /\ taps j <= order)%nat) by (unfold taps; lia).
    destruct (predict_sum_runs d c shift j (taps j)) as [v Hv];
      [lia | lia | lia | fold order; lia |].
    rewrite Hv. cbn [bind]. rewrite c_sar_in by lia. cbn [bind]. step_in.
    eexists. split; [reflexivity |].
    split; [rewrite length_upd; exact Hdl |].
    intros k. rewrite nth_upd by lia.
    destruct (Nat.eqb_spec k j) as [->|Hne].
    + split; [| lia]. intros _. exists v. split.
      * rewrite <- Hv. apply predict_sum_agree; [lia | apply length_upd |].
        intros i Hi. rewrite nth_upd by lia.
        replace (i =? j)%nat with false by (symmetry; apply Nat.eqb_neq; lia).
        reflexivity.
      * destruct (Hd j) as [_ Hj']. rewrite Hj' by lia. reflexivity.
    + destruct (Hd k) as [Hk1 Hk2]. split.
      * intros Hk'. destruct Hk1 as [w [Hw Hkw]]; [lia |].
        exists w. split; [| exact Hkw].
        rewrite <- Hw. apply predict_sum_agree;
          [unfold taps; lia | apply length_upd |].
        intros i Hi. rewrite nth_upd by lia.
        replace (i =? j)%nat with false by (symmetry; apply Nat.eqb_neq; lia).
        reflexivity.
      * intros Hk'. apply Hk2. lia.
  - exists d. split; [| exact Hinv].
    rewrite Hrun in Hone.
    destruct (for_range 1 order _ r) as [r1| |]; cbn [bind] in *;
      try discriminate Hone.
    rewrite Hone. reflexivity.
Qed.
End SynthesizePredict.

(** X12.  The pair is an inverse pair in the other order too: for every
    buffer [r] of 32-bit residuals and every shift from 1 to 31 (the counts
    at which the shifts of the source are defined), [LPC_Synthesize] returns
    OK with a sample buffer, and [LPC_Predict] on that buffer with the same
    [(c, shift)] returns OK and gives back the [N] residuals of the block. *)
Theorem Synthesize_Predict_identity (r c r0 : list Z) (N : nat) (shift : Z) :
  0 < shift < 32 -> Forall Int32.in_range r -> (N <= length r)%nat ->
  (length c <= length r \/ length c <= 1)%nat -> length r0 = length r ->
  exists y r',
    LPC_Synthesize (Some r) N (Some c) (length c) shift
    = Ret (LPC_APIRESULT_OK, Some y) /\
    LPC_Predict (Some y) N (Some c) (length c) (Some r0) shift
    = Ret (LPC_APIRESULT_OK, Some r') /\
    firstn N r' = firstn N r.
Proof.
  intros Hshift Hr HN Hroom Hr0.
  destruct (Synthesize_runs r c shift N Hshift HN Hroom) as (y & Hrun & Hly & Hy).
  destruct (Predict_runs y c shift N Hshift ltac:(lia) ltac:(lia) r0 ltac:(lia))
    as (r' & Hrun' & Hlr' & Hr').
  exists y, r'. split; [exact Hrun |]. split; [exact Hrun' |].
  apply firstn_eq_by_nth; [lia | lia |]. intros k Hk.
  destruct (Hr' k Hk) as [Hin Hout]. destruct (Hy k) as [Hyin Hyout].
  set (lo := if (length c =? 0)%nat then 0%nat else 1%nat) in *.
  set (hi := Nat.max lo (Nat.max N (length c))) in *.
  destruct (Nat.le_gt_cases lo k) as [Hlo | Hlo].
  - assert (Hrange : (lo <= k < hi)%nat) by (unfold hi; lia).
    destruct (Hin Hrange) as [v [Hv Hk']].
    destruct (Hyin Hrange) as [w [Hw Hk'']].
    rewrite Hv in Hw. inversion Hw. subst w.
    rewrite Hk', Hk''. apply sub_add_cancel. apply Forall_in_range_nth. exact Hr.
  - rewrite Hout by lia. apply Hyout. lia.
Qed.

Lemma Synthesize_Predict_identity_witness :
  exists y r',
    LPC_Synthesize (Some [100; 300; 475; 650; 825]) 5 (Some [0x4000; -0x1000])
      (length [0x4000; -0x1000]) 14
    = Ret (LPC_APIRESULT_OK, Some y) /\
    LPC_Predict (Some y) 5 (Some [0x4000; -0x1000]) (length [0x4000; -0x1000])
      (Some [0; 0; 0; 0; 0]) 14
    = Ret (LPC_APIRESULT_OK, Some r') /\
    firstn 5 r' = firstn 5 [100; 300; 475; 650; 825].
Proof.
  apply (Synthesize_Predict_identity [100; 300; 475; 650; 825] [0x4000; -0x1000]
           [0; 0; 0; 0; 0] 5 14).
  - lia.
  - repeat constructor; unfold Int32.in_range; lia.
  - simpl. lia.
  - simpl. lia.
  - reflexivity.
Defined.

Lemma predict_sum_zero (d : list Z) (n : nat) (s : Z) (smpl taps : nat) (v : Z) :
  predict_sum d (repeat 0 n) s smpl taps = Ret v -> v = Int32.shl 1 (s - 1).
Proof.
  unfold predict_sum, c_shl. intros Hrun.
  destruct ((0 <=? s - 1) && (s - 1 <? 32)); cbn [bind] in Hrun;
    [| discriminate Hrun].
  eapply (for_range_returned (fun _ acc => acc = Int32.shl 1 (s - 1)));
    [ | reflexivity | | exact Hrun]; [lia |].
  intros j t t' Hj -> Hstep.
  destruct (rd (repeat 0 n) j) as [c0| |] eqn:Hc; cbn [bind] in Hstep;
    try discriminate.
  destruct (rd d (smpl - j - 1)) as [d0| |]; cbn [bind] in Hstep;
    try discriminate.
  inversion Hstep. subst t'.
  assert (c0 = 0).
  { unfold rd in Hc. destruct (nth_error (repeat 0 n) j) eqn:He; [| discriminate].
    inversion Hc. subst z. apply nth_error_In in He.
    apply repeat_spec in He. exact He. }
  subst c0. unfold Int32.add, Int32.mul, Int32.shl.
  rewrite Z.mul_0_l. change (Int32.wrap 0) with 0. rewrite Z.add_0_r.
  apply wrap_small. apply wrap_in_range.
Qed.

(** X13.  With all-zero coefficients (what the quantizer emits for a block it
    treats as silent) and a shift from 1 to 31, the prediction is the rounding
    bias alone, which the shift discards: [LPC_Predict] copies the block. *)
Theorem Predict_zero_coefficients (x r0 : list Z) (N order : nat) (shift : Z) :
  0 < shift < 32 -> Forall Int32.in_range x -> (N <= length x)%nat ->
  (order <= length x \/ order <= 1)%nat -> length r0 = length x ->
  exists r,
    LPC_Predict (Some x) N (Some (repeat 0 order)) order (Some r0) shift
    = Ret (LPC_APIRESULT_OK, Some r) /\
    firstn N r = firstn N x.
Proof.
  intros Hshift Hx HN Hroom Hr0.
  pose proof (repeat_length 0 order) as Hlen.
  destruct (Predict_runs x (repeat 0 order) shift N ltac:(lia) HN
              ltac:(rewrite Hlen; exact Hroom) r0 Hr0)
    as (r & Hrun & Hlr & Hr).
  rewrite Hlen in Hrun, Hr.
  exists r. split; [exact Hrun |].
  apply firstn_eq_by_nth; [lia | lia |]. intros k Hk.
  destruct (Hr k Hk) as [Hin Hout].
  set (lo := if (order =? 0)%nat then 0%nat else 1%nat) in *.
  destruct (Nat.le_gt_cases lo k) as [Hlo | Hlo].
  - destruct Hin as [v [Hv Hk']]; [lia |].
    apply predict_sum_zero in Hv. rewrite Hk', Hv.
    unfold Int32.shl, Int32.sar, Int32.add.
    rewrite Z.shiftl_1_l.
    assert (Hpow : 0 < 2 ^ (shift - 1) < 2 ^ 31).
    { split; [apply Z.pow_pos_nonneg; lia | apply Z.pow_lt_mono_r; lia]. }
    rewrite (wrap_small (2 ^ (shift - 1))) by (unfold Int32.in_range; lia).
    rewrite Z.shiftr_div_pow2 by lia.
    rewrite Z.div_small
      by (split; [lia | apply Z.pow_lt_mono_r; lia]).
    rewrite Z.add_0_r. apply wrap_small. apply Forall_in_range_nth. exact Hx.
  - apply Hout. lia.
Qed.

Lemma Predict_zero_coefficients_witness :
  exists r,
    LPC_Predict (Some [100; -200; 300]) 3 (Some (repeat 0 2)) 2 (Some [9; 9; 9]) 8
    = Ret (LPC_APIRESULT_OK, Some r) /\
    firstn 3 r = firstn 3 [100; -200; 300].
Proof.
  apply (Predict_zero_coefficients [100; -200; 300] [9; 9; 9] 3 2 8).
  - lia.
  - repeat constructor; unfold Int32.in_range; lia.
  - simpl. lia.
  - simpl. lia.
  - reflexivity.
Defined.

(** ** The analysis entry points *)

Lemma calculator_layout_sized {D : Type} (config : LPCCalculatorConfig) (junk : D) :
  (0 < config_max_order config)%nat ->
  (0 < config_max_num_samples config)%nat ->
  calculator_sized (calculator_layout config junk).
Proof.
  intros Ho Hn. unfold calculator_sized, calculator_layout; simpl.
  rewrite !repeat_length. repeat split; try lia.
  apply Forall_forall. intros row Hrow.
  apply repeat_spec in Hrow. subst row. apply repeat_length.
Qed.

Section EntryPoints.
Context {D : Type} {ops : DoubleOps D} {libm : Libm D}.

(** C10 (the defect).  On a block shorter than the order the
    Levinson-Durbin entry point never reaches the short-block branch of
    [LPC_CalculateCoef]: the autocorrelation step, placed before it, is
    called with [order = coef_order + 1] and fails its assertion
    [num_samples >= order]. *)
Theorem short_block_fails_assertion
    (lpcc : LPCCalculator D) (data coef : list D) (N order : nat)
    (window_type : LPCWindowType) :
  calculator_sized lpcc ->
  window_type <> LPC_WINDOWTYPE_other ->
  length data = N ->
  (0 < N < order)%nat ->
  (order <= max_order lpcc)%nat ->
  (N <= max_num_buffer_samples lpcc)%nat ->
  LPCCalculator_CalculateLPCCoefficients lpcc (Some data) N (Some coef) order
    window_type = AssertFail.
Proof.
  intros Hsz Hwt Hdata HN Hord Hmax.
  destruct Hsz as (_ & _ & _ & _ & _ & _ & _ & _ & _ & _ & Hbuf).
  unfold LPCCalculator_CalculateLPCCoefficients.
  replace (max_order lpcc <? order)%nat with false
    by (symmetry; apply Nat.ltb_ge; lia).
  replace (max_num_buffer_samples lpcc <? N)%nat with false
    by (symmetry; apply Nat.ltb_ge; lia).
  unfold LPC_CalculateCoef.
  destruct (ApplyWindow_runs window_type data (buffer lpcc) N Hwt)
    as [out [Hrun _]]; [lia | lia |].
  rewrite Hrun. cbn [bind is_OK negb].
  unfold LPC_CalculateAutoCorrelation.
  replace (order + 1 <=? N)%nat with false by (symmetry; apply Nat.leb_gt; lia).
  reflexivity.
Qed.

(** C5 (as amended).  When [num_samples] exceeds the calculator's
    [max_num_buffer_samples], the Levinson-Durbin entry point, called with
    non-[NULL] buffers and an order within [max_order], returns
    [LPC_APIRESULT_EXCEED_MAX_NUM_SAMPLES] and leaves everything as it was;
    the Burg entry point has no such limit and never returns that status. *)
Theorem ExceedMaxNumSamples_entry_points
    (lpcc : LPCCalculator D) (data coef : list D) (N order : nat)
    (window_type : LPCWindowType) :
  (max_num_buffer_samples lpcc < N)%nat ->
  (order <= max_order lpcc)%nat ->
  LPCCalculator_CalculateLPCCoefficients lpcc (Some data) N (Some coef) order
    window_type
  = Ret (LPC_APIRESULT_EXCEED_MAX_NUM_SAMPLES, lpcc, Some coef)
  /\
  (forall lpcc' data' N' coef' order' res l c,
     LPCCalculator_CalculateLPCCoefficientsBurg lpcc' data' N' coef' order'
     = Ret (res, l, c) ->
     res <> LPC_APIRESULT_EXCEED_MAX_NUM_SAMPLES).
Proof.
  intros HN Hord. split.
  - unfold LPCCalculator_CalculateLPCCoefficients.
    replace (max_order lpcc <? order)%nat with false
      by (symmetry; apply Nat.ltb_ge; lia).
    replace (max_num_buffer_samples lpcc <? N)%nat with true
      by (symmetry; apply Nat.ltb_lt; lia).
    reflexivity.
  - intros lpcc' data' N' coef' order' res l c.
    unfold LPCCalculator_CalculateLPCCoefficientsBurg.
    destruct lpcc' as [lp|], data' as [d|], coef' as [cf|];
      try (intros H; inversion H; discriminate).
    destruct (max_order lp <? order')%nat;
      [intros H; inversion H; discriminate |].
    destruct (LPC_CalculateCoefBurg lp d N' order') as [[err lp']| |];
      cbn [bind]; try discriminate.
    destruct (negb (is_OK err)); [intros H; inversion H; discriminate |].
    destruct (memcpy cf (lpc_coef lp') order'); cbn [bind]; try discriminate.
    intros H; inversion H; discriminate.
Qed.
End EntryPoints.

Lemma short_block_fails_assertion_witness :
  LPCCalculator_CalculateLPCCoefficients
    (calculator_layout (mkLPCCalculatorConfig 4 16) 7%R)
    (Some [1; 1]%R) 2 (Some [0; 0; 0]%R) 3 LPC_WINDOWTYPE_RECTANGULAR
  = AssertFail.
Proof.
  apply (short_block_fails_assertion
           (calculator_layout (mkLPCCalculatorConfig 4 16) 7%R)
           [1; 1]%R [0; 0; 0]%R 2 3 LPC_WINDOWTYPE_RECTANGULAR).
  - apply calculator_layout_sized; simpl; lia.
  - discriminate.
  - reflexivity.
  - lia.
  - simpl. lia.
  - simpl. lia.
Defined.

Lemma ExceedMaxNumSamples_entry_points_witness :
  LPCCalculator_CalculateLPCCoefficients
    (calculator_layout (mkLPCCalculatorConfig 4 2) 7%R)
    (Some [1; 1; 1]%R) 3 (Some [0; 0]%R) 2 LPC_WINDOWTYPE_RECTANGULAR
  = Ret (LPC_APIRESULT_EXCEED_MAX_NUM_SAMPLES,
         calculator_layout (mkLPCCalculatorConfig 4 2) 7%R, Some [0; 0]%R)
  /\
  (forall lpcc' data' N' coef' order' res l c,
     LPCCalculator_CalculateLPCCoefficientsBurg (D := R) lpcc' data' N' coef' order'
     = Ret (res, l, c) ->
     res <> LPC_APIRESULT_EXCEED_MAX_NUM_SAMPLES).
Proof.
  apply (ExceedMaxNumSamples_entry_points
           (calculator_layout (mkLPCCalculatorConfig 4 2) 7%R)
           [1; 1; 1]%R [0; 0]%R 3 2 LPC_WINDOWTYPE_RECTANGULAR).
  - simpl. lia.
  - simpl. lia.
Defined.

(** C5 (as stated) fails.  The Burg entry point, given six samples and a
    calculator created for two, does not return ExceedMaxNumSamples (it
    returns OK with two coefficients); and on the Levinson-Durbin entry point
    the order check comes first. *)
Lemma entry_points_without_ExceedMaxNumSamples :
  ~ (exists l c,
       LPCCalculator_CalculateLPCCoefficientsBurg
         (Some (calculator_layout (mkLPCCalculatorConfig 4 2) 7%float))
         (Some [1; 0.5; 0.25; 0.125; 0.0625; 0]%float) 6 (Some [9; 9]%float) 2
       = Ret (LPC_APIRESULT_EXCEED_MAX_NUM_SAMPLES, l, c))
  /\
  LPCCalculator_CalculateLPCCoefficients
    (calculator_layout (mkLPCCalculatorConfig 4 2) 7%R)
    (Some [1; 1; 1]%R) 3 (Some [0; 0]%R) 5 LPC_WINDOWTYPE_RECTANGULAR
  = Ret (LPC_APIRESULT_EXCEED_MAX_ORDER,
         calculator_layout (mkLPCCalculatorConfig 4 2) 7%R, Some [0; 0]%R).
Proof.
  split.
  - intros [l [c H]]. vm_compute in H. discriminate H.
  - reflexivity.
Qed.

Example Burg_six_samples_run :
  exists l c,
    LPCCalculator_CalculateLPCCoefficientsBurg
      (Some (calculator_layout (mkLPCCalculatorConfig 4 2) 7%float))
      (Some [1; 0.5; 0.25; 0.125; 0.0625; 0]%float) 6 (Some [9; 9]%float) 2
    = Ret (LPC_APIRESULT_OK, l, c).
Proof. do 2 eexists. vm_compute. reflexivity. Qed.

(** ** Silent blocks *)

Lemma blocks_within lag N :
  (1 <= lag)%nat ->
  ((if (3 * lag <? N)%nat then 1 + (N - 3 * lag) / (2 * lag) else 0)
   * (2 * lag) + lag <= N \/ N < lag)%nat.
Proof.
  intros Hlag. destruct (Nat.ltb_spec (3 * lag) N) as [H|H].
  - left. pose proof (Nat.Div0.mul_div_le (N - 3 * lag) (2 * lag)) as Hd. nia.
  - destruct (Nat.le_gt_cases lag N); [left | right]; lia.
Qed.

Ltac float_arith :=
  cbn [d_of_Z d_add d_sub d_mul d_div d_opp d_abs d_ltb d_leb d_flt_epsilon
       double_ops float_of_Z] in *.

Lemma zero_square (x : float) :
  zero_sample x -> (0 + x * x)%float = 0%float.
Proof. intros [-> | ->]; reflexivity. Qed.

Lemma zero_product (x y : float) :
  zero_sample x -> zero_sample y -> (0 + x * y)%float = 0%float.
Proof. intros [-> | ->] [-> | ->]; reflexivity. Qed.

Lemma zero_product_sum (x y w : float) :
  zero_sample x -> zero_sample y -> zero_sample w ->
  (0 + x * (y + w))%float = 0%float.
Proof. intros [-> | ->] [-> | ->] [-> | ->]; reflexivity. Qed.

Lemma cleared_upd n len ac i :
  cleared n len ac -> (i < len)%nat -> cleared n len (upd ac i 0%float).
Proof.
  intros [Hlen Hz] Hi. split.
  - rewrite length_upd. exact Hlen.
  - intros j Hj. rewrite nth_upd by lia.
    destruct (j =? i)%nat; [reflexivity | apply Hz; exact Hj].
Qed.

Section SilentBlock.
Variables (data : list float) (N : nat).
Hypothesis Hdata : (N <= length data)%nat.
Hypothesis Hsilent : forall j, (j < N)%nat -> zero_sample (nth j data 0%float).

(** On a silent block every autocorrelation the code accumulates is [+0.0]:
    each product of two zeros is a zero, and [+0.0] plus a zero of either
    sign is [+0.0]. *)
Lemma CalculateAutoCorrelation_silent (ac : list float) (order : nat) :
  (1 <= order)%nat -> (order <= N)%nat -> (order <= length ac)%nat ->
  exists r, LPC_CalculateAutoCorrelation data N ac order = Ret r /\
            cleared order (length ac) r.
Proof.
  intros H1 HN Hac. unfold LPC_CalculateAutoCorrelation.
  replace (order <=? N)%nat with true by (symmetry; apply Nat.leb_le; lia).
  cbn [c_assert bind].
  (* the cells are cleared *)
  match goal with |- context [for_range 0 order ?b ac] =>
    destruct (for_range_invariant
                (fun i t => length t = length ac /\
                            forall j, (j < i)%nat -> nth j t 0%float = 0%float)
                b 0 order ac) as [ac0 [Hrun0 Hac0]]
  end.
  - lia.
  - split; [reflexivity | intros j Hj; lia].
  - intros j t Hj [Hlen Hz]. rewrite wr_in by lia. eexists. split; [reflexivity |].
    split; [rewrite length_upd; exact Hlen |].
    intros k Hk. rewrite nth_upd by lia.
    destruct (Nat.eqb_spec k j); [reflexivity | apply Hz; lia].
  - rewrite Hrun0. cbn [bind].
    change (cleared order (length ac) ac0) in Hac0.
    (* lag 0 *)
    match goal with |- context [for_range 0 N ?b ac0] =>
      destruct (for_range_invariant (fun _ t => cleared order (length ac) t)
                  b 0 N ac0) as [ac1 [Hrun1 Hac1]]
    end.
    + lia.
    + exact Hac0.
    + intros j t Hj Ht. pose proof Ht as [Hlen Hz].
      rewrite (rd_in data j 0%float) by lia. cbn [bind].
      rewrite (rd_in t 0 0%float) by lia. cbn [bind].
      rewrite wr_in by lia. eexists. split; [reflexivity |].
      rewrite Hz by lia. float_arith.
      rewrite zero_square by (apply Hsilent; lia).
      apply cleared_upd; [exact Ht | lia].
    + rewrite Hrun1. cbn [bind].
      (* the other lags *)
      match goal with |- context [for_range 1 order ?b ac1] =>
        destruct (for_range_invariant (fun _ t => cleared order (length ac) t)
                    b 1 order ac1) as [r [Hrun Hr]]
      end.
      * lia.
      * exact Hac1.
      * intros lag t Hlag Ht.
        destruct (blocks_within lag N) as [Hblocks | Hshort]; [lia | | lia].
        set (L := if (3 * lag <? N)%nat
                  then (1 + (N - 3 * lag) / (2 * lag))%nat else 0%nat) in *.
        match goal with |- context [for_range 0 lag ?b t] =>
          destruct (for_range_invariant (fun _ t => cleared order (length ac) t)
                      b 0 lag t) as [t1 [Hrun2 Ht1]]
        end.
        -- lia.
        -- exact Ht.
        -- intros i u Hi Hu.
           apply (for_range_invariant (fun _ t => cleared order (length ac) t));
             [lia | exact Hu |].
           intros b v Hb Hv. pose proof Hv as [Hlen Hz].
           assert ((b * (2 * lag) + 2 * lag <= L * (2 * lag))%nat) by nia.
           rewrite (rd_in data _ 0%float) by lia. cbn [bind].
           rewrite (rd_in data _ 0%float) by lia. cbn [bind].
           rewrite (rd_in data _ 0%float) by lia. cbn [bind].
           rewrite (rd_in v lag 0%float) by lia. cbn [bind].
           rewrite wr_in by lia. eexists. split; [reflexivity |].
           rewrite Hz by lia. float_arith.
           rewrite zero_product_sum by (apply Hsilent; lia).
           apply cleared_upd; [exact Hv | lia].
        -- rewrite Hrun2. cbn [bind].
           apply (for_range_invariant (fun _ t => cleared order (length ac) t));
             [lia | exact Ht1 |].
           intros i v Hi Hv. pose proof Hv as [Hlen Hz].
           rewrite (rd_in data _ 0%float) by lia. cbn [bind].
           rewrite (rd_in data _ 0%float) by lia. cbn [bind].
           rewrite (rd_in v lag 0%float) by lia. cbn [bind].
           rewrite wr_in by lia. eexists. split; [reflexivity |].
           rewrite Hz by lia. float_arith.
           rewrite zero_product by (apply Hsilent; lia).
           apply cleared_upd; [exact Hv | lia].
      * exists r. split; [exact Hrun | exact Hr].
Qed.
End SilentBlock.

Lemma matrix_sized_upd m cov r row :
  matrix_sized m cov -> length row = (m + 1)%nat ->
  matrix_sized m (upd cov r row).
Proof.
  intros [Hlen Hrows] Hrow. split.
  - rewrite length_upd. exact Hlen.
  - intros k Hk. destruct (Nat.le_gt_cases (length cov) r) as [Hout | Hin].
    + replace (upd cov r row) with cov; [apply Hrows; exact Hk |].
      clear - Hout. revert r Hout.
      induction cov as [|h t IH]; intros [|r] Hout; simpl in *;
        try reflexivity; try lia.
      rewrite <- IH by lia. reflexivity.
    + rewrite nth_upd by exact Hin.
      destruct (k =? r)%nat; [exact Hrow | apply Hrows; exact Hk].
Qed.

Section SilentCovariance.
Variables (data : list float) (N order m : nat).
Hypothesis Hdata : (N <= length data)%nat.
Hypothesis Hsilent : forall j, (j < N)%nat -> zero_sample (nth j data 0%float).
Hypothesis Hblock : (order + 1 <= N)%nat.
Hypothesis Horder : (order <= m)%nat.

(** The covariance loop of [LPC_CalculateCoefBurg] on a silent block: it
    runs, and leaves [+0.0] on and above the diagonal. *)
Lemma covariance_silent (cov : list (list float)) :
  matrix_sized m cov ->
  exists cov',
    for_range 0 (order + 1)
      (fun i cov =>
         row <- rd cov i ;;
         tail <- LPC_CalculateAutoCorrelation data (N - i)
                   (skipn i row) (order + 1 - i) ;;
         cov <- wr cov i (firstn i row ++ tail) ;;
         for_range (i + 1) (order + 1)
           (fun j cov => c <- rd2 cov i j ;; wr2 cov j i c)
           cov)
      cov
    = Ret cov' /\
    matrix_sized m cov' /\ upper_cleared (order + 1) order cov'.
Proof.
  intros Hcov.
  apply (for_range_invariant
           (fun i c => matrix_sized m c /\ upper_cleared i order c)).
  - lia.
  - split; [exact Hcov | intros i j Hi; lia].
  - intros i c Hi [[Hlen Hrows] Hup].
    rewrite (rd_in c i []) by lia. cbn [bind].
    set (row := nth i c []).
    assert (Hrow : length row = (m + 1)%nat) by (apply Hrows; lia).
    destruct (CalculateAutoCorrelation_silent data (N - i)) with
      (ac := skipn i row) (order := (order + 1 - i)%nat)
      as [tail [Hrun [Htl Htz]]].
    + lia.
    + intros j Hj. apply Hsilent. lia.
    + lia.
    + lia.
    + rewrite length_skipn. lia.
    + rewrite Hrun. cbn [bind]. rewrite length_skipn in Htl.
      rewrite wr_in by lia. cbn [bind].
      set (row' := firstn i row ++ tail).
      assert (Hrow' : length row' = (m + 1)%nat).
      { unfold row'. rewrite length_app, length_firstn. lia. }
      assert (Hcells : forall j, (i <= j <= order)%nat -> nth j row' 0%float = 0%float).
      { intros j Hj. unfold row'. rewrite app_nth2; rewrite length_firstn; [| lia].
        apply Htz. lia. }
      match goal with |- context [for_range (i + 1) (order + 1) ?b ?s] =>
        destruct (for_range_invariant
                    (fun _ c => matrix_sized m c /\ upper_cleared (S i) order c)
                    b (i + 1) (order + 1) s) as [c' [Hrun' Hc']]
      end.
      * lia.
      * split.
        -- apply matrix_sized_upd; [split; assumption | exact Hrow'].
        -- intros i' j Hi' Hj. rewrite nth_upd by lia.
           destruct (Nat.eqb_spec i' i) as [-> | Hne].
           ++ apply Hcells. exact Hj.
           ++ apply Hup; lia.
      * intros j d Hj [[Hlen' Hrows'] Hup'].
        unfold rd2, wr2.
        rewrite (rd_in d i []) by lia. cbn [bind].
        rewrite (rd_in (nth i d []) j 0%float) by (rewrite Hrows'; lia). cbn [bind].
        rewrite (rd_in d j []) by lia. cbn [bind].
        rewrite wr_in by (rewrite Hrows'; lia). cbn [bind].
        rewrite wr_in by lia.
        eexists. split; [reflexivity |]. split.
        -- apply matrix_sized_upd; [split; assumption |].
           rewrite length_upd. apply Hrows'. lia.
        -- intros i' j' Hi' Hj'. rewrite nth_upd by lia.
           destruct (Nat.eqb_spec i' j) as [-> | Hne]; [lia |].
           apply Hup'; lia.
      * exists c'. split; [exact Hrun' | exact Hc'].
Qed.
End SilentCovariance.

(** The first round of the order loop on such a matrix:
    [Fk + Bk = 0], [Ck = 0], so [mu = -2 * 0 / 0] is a NaN and the assertion
    [fabs(mu) <= 1.0] fails. *)
Lemma Burg_step_silent (cov : list (list float)) (a : list float) (m : nat) :
  matrix_sized m cov -> (1 <= m)%nat ->
  nth 0 (nth 0 cov []) 0%float = 0%float ->
  nth 1 (nth 0 cov []) 0%float = 0%float ->
  nth 1 (nth 1 cov []) 0%float = 0%float ->
  (2 <= length a)%nat ->
  nth 0 a 0%float = 1%float ->
  Burg_step cov 0 a = AssertFail.
Proof.
  intros [Hlen Hrows] Hm H00 H01 H11 Ha Ha0.
  pose proof (Hrows 0%nat ltac:(lia)) as Hr0.
  pose proof (Hrows 1%nat ltac:(lia)) as Hr1.
  unfold Burg_step, rd2.
  change (0 + 1)%nat with 1%nat. change (1 / 2 + 1)%nat with 1%nat.
  unfold for_range. cbn [Nat.sub for_loop bind Nat.add].
  repeat (first
    [ rewrite (rd_in a 0 0%float) by lia
    | rewrite (rd_in cov _ []) by lia
    | rewrite (rd_in (nth _ cov []) _ 0%float) by lia ];
    cbn [bind]).
  rewrite Ha0, H00, H01, H11.
  vm_compute. reflexivity.
Qed.

(** C2 (the defect).  The Burg entry point has no zero-power guard.  On
    every silent block (each sample a zero of either sign), for every order
    from 1 to [max_order], it fails an assertion instead of returning OK with
    zero coefficients: on a block of more than [order] samples the
    covariances are all zero, [mu = -2 * 0 / 0] is a NaN and
    [assert(fabs(mu) <= 1.0)] fails; on a shorter block the first
    autocorrelation already fails [assert(num_samples >= order)]. *)
Theorem Burg_silent_block_fails_assertion
    (lpcc : LPCCalculator float) (data coef : list float) (N order : nat) :
  calculator_sized lpcc ->
  (1 <= order <= max_order lpcc)%nat ->
  (N <= length data)%nat ->
  (forall j, (j < N)%nat -> zero_sample (nth j data 0%float)) ->
  LPCCalculator_CalculateLPCCoefficientsBurg (Some lpcc) (Some data) N
    (Some coef) order
  = AssertFail.
Proof.
  intros Hsz Hord Hdata Hsilent.
  destruct Hsz as (_ & _ & Ha & _ & _ & Hr & Hrows & _).
  unfold LPCCalculator_CalculateLPCCoefficientsBurg.
  replace (max_order lpcc <? order)%nat with false
    by (symmetry; apply Nat.ltb_ge; lia).
  assert (Hcov : matrix_sized (max_order lpcc) (r_mat lpcc)).
  { split; [exact Hr |]. intros r Hr'.
    rewrite Forall_forall in Hrows. apply Hrows. apply nth_In. lia. }
  unfold LPC_CalculateCoefBurg.
  destruct (Nat.le_gt_cases (order + 1) N) as [Hblock | Hshort].
  - destruct (covariance_silent data N order (max_order lpcc) Hdata Hsilent
                Hblock ltac:(lia) (r_mat lpcc) Hcov)
      as [cov [Hrun [Hcov' Hup]]].
    rewrite Hrun. cbn [bind].
    match goal with |- context [for_range 0 (order + 1) ?b (a_vec lpcc)] =>
      destruct (for_range_invariant
                  (fun _ t => length t = length (a_vec lpcc))
                  b 0 (order + 1) (a_vec lpcc)) as [a [Hrun' Hlen]]
    end.
    + lia.
    + reflexivity.
    + intros j t Hj Ht. rewrite wr_in by lia. eexists. split; [reflexivity |].
      rewrite length_upd. exact Ht.
    + rewrite Hrun'. cbn [bind]. rewrite wr_in by lia. cbn [bind].
      unfold for_range. destruct order as [|order']; [lia |].
      cbn [Nat.sub for_loop].
      rewrite (Burg_step_silent cov _ (max_order lpcc) Hcov');
        [reflexivity | lia | apply Hup; lia | apply Hup; lia | apply Hup; lia
        | rewrite length_upd; lia | ].
      rewrite nth_upd by lia. reflexivity.
  - (* too short a block: the first autocorrelation fails its assertion *)
    unfold for_range. replace (order + 1 - 0)%nat with (S order) by lia.
    cbn [for_loop].
    rewrite (rd_in (r_mat lpcc) 0 []) by lia. cbn [bind].
    unfold LPC_CalculateAutoCorrelation.
    replace (order + 1 - 0 <=? N - 0)%nat with false
      by (symmetry; apply Nat.leb_gt; lia).
    reflexivity.
Qed.

Lemma Burg_silent_block_fails_assertion_witness :
  LPCCalculator_CalculateLPCCoefficientsBurg
    (Some (calculator_layout (mkLPCCalculatorConfig 4 8) 7%float))
    (Some [0; 0; 0; 0]%float) 4 (Some [7; 7]%float) 2
  = AssertFail.
Proof.
  apply (Burg_silent_block_fails_assertion
           (calculator_layout (mkLPCCalculatorConfig 4 8) 7%float)
           [0; 0; 0; 0]%float [7; 7]%float 4 2).
  - apply calculator_layout_sized; simpl; lia.
  - simpl. lia.
  - simpl. lia.
  - intros [|[|[|[|j]]]] Hj; simpl; unfold zero_sample; auto. lia.
Defined.

(** The auxiliary-function entry point does not compare [num_samples] with
    the bound of the calculator: a block longer than the cells behind
    [lpcc->buffer] (rectangular window, an order within [max_order]) reaches
    the copy of [LPC_ApplyWindow]. *)
Lemma AF_copy_beyond_buffer {libm : Libm float}
    (lpcc : LPCCalculator float) (data coef : list float)
    (N order max_num_iteration : nat) :
  (length (buffer lpcc) < N)%nat ->
  (order <= max_order lpcc)%nat ->
  AuxiliaryFunction.LPCCalculator_CalculateLPCCoefficientsAF
    (Some lpcc) (Some data) N (Some coef) order max_num_iteration
    LPC_WINDOWTYPE_RECTANGULAR
  = Undefined.
Proof.
  intros Hbuf Hord.
  unfold AuxiliaryFunction.LPCCalculator_CalculateLPCCoefficientsAF.
  replace (max_order lpcc <? order)%nat with false
    by (symmetry; apply Nat.ltb_ge; lia).
  unfold AuxiliaryFunction.LPC_CalculateCoefAF, LPC_CalculateCoef,
    LPC_ApplyWindow, memcpy.
  replace (N <=? length (buffer lpcc))%nat with false
    by (symmetry; apply Nat.leb_gt; lia).
  reflexivity.
Qed.

Section SilentLevinson.
Context {libm : Libm float}.
Variables (lpcc : LPCCalculator float) (data : list float) (N order : nat).
Hypothesis Hsized : calculator_sized lpcc.
Hypothesis Hdata : (N <= length data)%nat.
Hypothesis Hsilent : forall j, (j < N)%nat -> zero_sample (nth j data 0%float).
Hypothesis Hblock : (order + 1 <= N)%nat.
Hypothesis Horder : (order <= max_order lpcc)%nat.
Hypothesis Hroom : (N <= max_num_buffer_samples lpcc)%nat.

(** [LPC_CalculateCoef] on a silent block of more than [order] samples,
    rectangular window: the guard of the recursion fires, and the
    coefficients [0 .. order] are cleared. *)
Lemma CalculateCoef_silent :
  exists lpcc',
    LPC_CalculateCoef lpcc data N order LPC_WINDOWTYPE_RECTANGULAR
    = Ret (LPC_ERROR_OK, lpcc') /\
    cleared (order + 1) (max_order lpcc + 1) (lpc_coef lpcc') /\
    cleared 1 (max_order lpcc + 1) (auto_corr lpcc') /\
    a_vec lpcc' = a_vec lpcc.
Proof.
  destruct Hsized as (_ & _ & Ha & _ & _ & _ & _ & Hac & Hcoef & Hparcor & Hbuf).
  unfold LPC_CalculateCoef, LPC_ApplyWindow.
  destruct (memcpy_runs (buffer lpcc) data N ltac:(lia) Hdata) as [Hcopy Hlen].
  rewrite Hcopy. cbn [bind is_OK negb buffer set_buffer auto_corr].
  destruct (CalculateAutoCorrelation_silent
              (firstn N data ++ skipn N (buffer lpcc)) N)
    with (ac := auto_corr lpcc) (order := (order + 1)%nat)
    as [ac [Hrun Hcl]].
  - lia.
  - intros j Hj. rewrite app_nth1 by (rewrite length_firstn; lia).
    rewrite nth_firstn.
    replace (j <? N)%nat with true by (symmetry; apply Nat.ltb_lt; lia).
    apply Hsilent. exact Hj.
  - lia.
  - lia.
  - lia.
  - rewrite Hrun. cbn [bind].
    replace (N <? order)%nat with false by (symmetry; apply Nat.ltb_ge; lia).
    rewrite Hac in Hcl. pose proof Hcl as [Hlac Hzac].
    unfold LPC_LevinsonDurbinRecursion.
    cbn [auto_corr set_auto_corr lpc_coef parcor_coef].
    rewrite (rd_in ac 0 0%float) by lia. cbn [bind].
    rewrite Hzac by lia.
    change (d_abs 0%float <! d_flt_epsilon)%D with true. cbv iota.
    match goal with |- context [for_range 0 (order + 1) ?b ?s] =>
      destruct (for_range_invariant
                  (fun i '(c, p) =>
                     length p = (max_order lpcc + 1)%nat /\
                     length c = (max_order lpcc + 1)%nat /\
                     forall j, (j < i)%nat -> nth j c 0%float = 0%float)
                  b 0 (order + 1) s) as [[c p] [Hrun' (Hp & Hc & Hz)]]
    end.
    + lia.
    + repeat split; [exact Hparcor | exact Hcoef | intros j Hj; lia].
    + intros j [c p] Hj (Hp & Hc & Hz).
      rewrite wr_in by lia. cbn [bind]. rewrite wr_in by lia. cbn [bind].
      eexists. split; [reflexivity |]. cbv beta iota.
      rewrite !length_upd. repeat split; [exact Hp | exact Hc |].
      intros k Hk. rewrite nth_upd by lia.
      destruct (Nat.eqb_spec k j); [reflexivity | apply Hz; lia].
    + rewrite Hrun'. cbn [bind]. eexists. split; [reflexivity |].
      cbn [lpc_coef set_parcor_coef set_lpc_coef auto_corr a_vec set_auto_corr
           set_buffer].
      repeat split; try assumption.
      intros j Hj. apply Hzac. lia.
Qed.

Lemma copied_zeros (coef src : list float) :
  (order <= length coef)%nat -> (order <= length src)%nat ->
  (forall j, (j < order)%nat -> nth j src 0%float = 0%float) ->
  exists c, memcpy coef src order = Ret c /\ zeroed order coef c.
Proof.
  intros Hc Hs Hz.
  destruct (memcpy_runs coef src order Hc Hs) as [Hrun Hlen].
  rewrite Hrun. eexists. split; [reflexivity |]. split; [exact Hlen |].
  intros j Hj. rewrite app_nth1 by (rewrite length_firstn; lia).
  rewrite nth_firstn.
  replace (j <? order)%nat with true by (symmetry; apply Nat.ltb_lt; lia).
  apply Hz. exact Hj.
Qed.

(** X2.  On a silent block the other two entry points do what the
    zero-power guard promises.  For a block of more than [order] samples that
    fits the calculator, with the rectangular window, the Levinson-Durbin and
    the auxiliary-function entry points return OK and write [order] zero
    coefficients, whatever the buffers held before and whatever [sin] and
    [pow] are. *)
Theorem silent_block_Levinson_AF (coef : list float) (max_num_iteration : nat) :
  (order <= length coef)%nat ->
  (exists l c,
     LPCCalculator_CalculateLPCCoefficients lpcc (Some data) N (Some coef)
       order LPC_WINDOWTYPE_RECTANGULAR
     = Ret (LPC_APIRESULT_OK, l, Some c) /\ zeroed order coef c) /\
  (exists l c,
     AuxiliaryFunction.LPCCalculator_CalculateLPCCoefficientsAF
       (Some lpcc) (Some data) N (Some coef) order max_num_iteration
       LPC_WINDOWTYPE_RECTANGULAR
     = Ret (LPC_APIRESULT_OK, Some l, Some c) /\ zeroed order coef c).
Proof.
  intros Hcoef.
  destruct CalculateCoef_silent as [lpcc' [Hrun [[Hlc Hzc] [[Hlac Hzac] Ha']]]].
  pose proof Hsized as (_ & _ & Ha & _).
  split.
  - unfold LPCCalculator_CalculateLPCCoefficients.
    replace (max_order lpcc <? order)%nat with false
      by (symmetry; apply Nat.ltb_ge; lia).
    replace (max_num_buffer_samples lpcc <? N)%nat with false
      by (symmetry; apply Nat.ltb_ge; lia).
    rewrite Hrun. cbn [bind is_OK negb].
    destruct (copied_zeros coef (skipn 1 (lpc_coef lpcc'))) as [c [Hc Hz]].
    + exact Hcoef.
    + rewrite length_skipn. lia.
    + intros j Hj. rewrite nth_skipn. apply Hzc. lia.
    + rewrite Hc. cbn [bind]. exists lpcc', c. split; [reflexivity | exact Hz].
  - unfold AuxiliaryFunction.LPCCalculator_CalculateLPCCoefficientsAF.
    replace (max_order lpcc <? order)%nat with false
      by (symmetry; apply Nat.ltb_ge; lia).
    unfold AuxiliaryFunction.LPC_CalculateCoefAF.
    rewrite Hrun. cbn [bind is_OK negb].
    destruct (memcpy_runs (a_vec lpcc') (skipn 1 (lpc_coef lpcc')) order)
      as [Hcopy _].
    + rewrite Ha'. lia.
    + rewrite length_skipn. lia.
    + rewrite Hcopy. cbn [bind auto_corr set_a_vec lpc_coef].
      rewrite (rd_in (auto_corr lpcc') 0 0%float) by lia. cbn [bind].
      rewrite Hzac by lia.
      change (abs 0 <? d_flt_epsilon)%float with true. cbv iota.
      match goal with |- context [for_range 0 (order + 1) ?b ?s] =>
        destruct (for_range_invariant
                    (fun i c =>
                       length c = (max_order lpcc + 1)%nat /\
                       forall j, (j < i)%nat -> nth j c 0%float = 0%float)
                    b 0 (order + 1) s) as [c0 [Hrun0 [Hl0 Hz0]]]
      end.
      * lia.
      * split; [exact Hlc | intros j Hj; lia].
      * intros j t Hj [Hl Hz]. rewrite wr_in by lia.
        eexists. split; [reflexivity |]. rewrite length_upd. split; [exact Hl |].
        intros k Hk. rewrite nth_upd by lia.
        destruct (Nat.eqb_spec k j); [reflexivity | apply Hz; lia].
      * rewrite Hrun0. cbn [bind is_OK negb lpc_coef set_lpc_coef].
        destruct (copied_zeros coef c0) as [c [Hc Hz]].
        -- exact Hcoef.
        -- lia.
        -- intros j Hj. apply Hz0. lia.
        -- rewrite Hc. cbn [bind]. eexists. exists c.
           split; [reflexivity | exact Hz].
Qed.
End SilentLevinson.

Lemma silent_block_Levinson_AF_witness :
  (exists l c,
     LPCCalculator_CalculateLPCCoefficients
       (libm := {| c_sin := fun x => x; c_pow := fun x _ => x |})
       (calculator_layout (mkLPCCalculatorConfig 4 8) 7%float)
       (Some [0; -0; 0; 0]%float) 4 (Some [7; 7; 7]%float) 2
       LPC_WINDOWTYPE_RECTANGULAR
     = Ret (LPC_APIRESULT_OK, l, Some c) /\ zeroed 2 [7; 7; 7]%float c) /\
  (exists l c,
     AuxiliaryFunction.LPCCalculator_CalculateLPCCoefficientsAF
       (libm := {| c_sin := fun x => x; c_pow := fun x _ => x |})
       (Some (calculator_layout (mkLPCCalculatorConfig 4 8) 7%float))
       (Some [0; -0; 0; 0]%float) 4 (Some [7; 7; 7]%float) 2 10
       LPC_WINDOWTYPE_RECTANGULAR
     = Ret (LPC_APIRESULT_OK, Some l, Some c) /\ zeroed 2 [7; 7; 7]%float c).
Proof.
  apply (silent_block_Levinson_AF
           (libm := {| c_sin := fun x => x; c_pow := fun x _ => x |})
           (calculator_layout (mkLPCCalculatorConfig 4 8) 7%float)
           [0; -0; 0; 0]%float 4 2).
  - apply calculator_layout_sized; simpl; lia.
  - simpl. lia.
  - intros [|[|[|[|j]]]] Hj; simpl; unfold zero_sample; auto. lia.
  - lia.
  - simpl. lia.
  - simpl. lia.
  - simpl. lia.
Defined.

(** X3.  Every estimator needs more samples than coefficients.  On a block
    of at most [coef_order] samples (also [num_samples = coef_order], which
    the short-block branch of [LPC_CalculateCoef] does not count as short),
    each of the three entry points fails the assertion
    [num_samples >= order] of its first autocorrelation. *)
Theorem block_within_order_fails_assertion {libm : Libm float}
    (lpcc : LPCCalculator float) (data coef : list float)
    (N order max_num_iteration : nat) (window_type : LPCWindowType) :
  calculator_sized lpcc ->
  window_type <> LPC_WINDOWTYPE_other ->
  (N <= length data)%nat ->
  (N <= max_num_buffer_samples lpcc)%nat ->
  (N <= order <= max_order lpcc)%nat ->
  LPCCalculator_CalculateLPCCoefficients lpcc (Some data) N (Some coef) order
    window_type = AssertFail /\
  AuxiliaryFunction.LPCCalculator_CalculateLPCCoefficientsAF (Some lpcc)
    (Some data) N (Some coef) order max_num_iteration window_type = AssertFail /\
  LPCCalculator_CalculateLPCCoefficientsBurg (Some lpcc) (Some data) N
    (Some coef) order = AssertFail.
Proof.
  intros Hsz Hwt Hdata HN Hord.
  pose proof Hsz as (_ & _ & _ & _ & _ & Hr & _ & _ & _ & _ & Hbuf).
  assert (Hcoef : LPC_CalculateCoef lpcc data N order window_type = AssertFail).
  { unfold LPC_CalculateCoef.
    destruct (ApplyWindow_runs window_type data (buffer lpcc) N Hwt)
      as [out [Hrun _]]; [lia | lia |].
    rewrite Hrun. cbn [bind is_OK negb].
    unfold LPC_CalculateAutoCorrelation.
    replace (order + 1 <=? N)%nat with false by (symmetry; apply Nat.leb_gt; lia).
    reflexivity. }
  split; [| split].
  - unfold LPCCalculator_CalculateLPCCoefficients.
    replace (max_order lpcc <? order)%nat with false
      by (symmetry; apply Nat.ltb_ge; lia).
    replace (max_num_buffer_samples lpcc <? N)%nat with false
      by (symmetry; apply Nat.ltb_ge; lia).
    rewrite Hcoef. reflexivity.
  - unfold AuxiliaryFunction.LPCCalculator_CalculateLPCCoefficientsAF.
    replace (max_order lpcc <? order)%nat with false
      by (symmetry; apply Nat.ltb_ge; lia).
    unfold AuxiliaryFunction.LPC_CalculateCoefAF.
    rewrite Hcoef. reflexivity.
  - unfold LPCCalculator_CalculateLPCCoefficientsBurg.
    replace (max_order lpcc <? order)%nat with false
      by (symmetry; apply Nat.ltb_ge; lia).
    unfold LPC_CalculateCoefBurg, for_range.
    replace (order + 1 - 0)%nat with (S order) by lia.
    cbn [for_loop].
    rewrite (rd_in (r_mat lpcc) 0 []) by lia. cbn [bind].
    unfold LPC_CalculateAutoCorrelation.
    replace (order + 1 - 0 <=? N - 0)%nat with false
      by (symmetry; apply Nat.leb_gt; lia).
    reflexivity.
Qed.

Lemma block_within_order_fails_assertion_witness :
  LPCCalculator_CalculateLPCCoefficients
    (libm := {| c_sin := fun x => x; c_pow := fun x _ => x |})
    (calculator_layout (mkLPCCalculatorConfig 4 16) 7%float)
    (Some [1; 2; 3]%float) 3 (Some [0; 0; 0]%float) 3 LPC_WINDOWTYPE_RECTANGULAR
  = AssertFail /\
  AuxiliaryFunction.LPCCalculator_CalculateLPCCoefficientsAF
    (libm := {| c_sin := fun x => x; c_pow := fun x _ => x |})
    (Some (calculator_layout (mkLPCCalculatorConfig 4 16) 7%float))
    (Some [1; 2; 3]%float) 3 (Some [0; 0; 0]%float) 3 10
    LPC_WINDOWTYPE_RECTANGULAR
  = AssertFail /\
  LPCCalculator_CalculateLPCCoefficientsBurg
    (Some (calculator_layout (mkLPCCalculatorConfig 4 16) 7%float))
    (Some [1; 2; 3]%float) 3 (Some [0; 0; 0]%float) 3
  = AssertFail.
Proof.
  apply (block_within_order_fails_assertion
           (libm := {| c_sin := fun x => x; c_pow := fun x _ => x |})
           (calculator_layout (mkLPCCalculatorConfig 4 16) 7%float)
           [1; 2; 3]%float [0; 0; 0]%float 3 3 10 LPC_WINDOWTYPE_RECTANGULAR).
  - apply calculator_layout_sized; simpl; lia.
  - discriminate.
  - simpl. lia.
  - simpl. lia.
  - simpl. lia.
Defined.

(** ** The coefficient quantizer *)

Import Quantizer.


Lemma double_to_int32_in_range (d : float) (z : Z) :
  double_to_int32 d = Ret z -> Int32.in_range z.
Proof.
  unfold double_to_int32, Int32.in_range.
  destruct (Prim2SF d) as [s| s | | s m e]; try discriminate.
  - intros H. inversion H. lia.
  - match goal with |- context [if ?b then _ else _] => destruct b eqn:Hb end;
      try discriminate.
    intros H. inversion H. subst z.
    apply andb_prop in Hb. destruct Hb as [H1 H2].
    apply Z.leb_le in H1. apply Z.ltb_lt in H2. lia.
Qed.




(** Runs of the quantizer: an ordinary vector at 8 bits, and a vector below
    the threshold. *)
Example QuantizeCoefficients_run :
  LPC_QuantizeCoefficients (Some [0.6875; 0.1875; 0.0625]%float) 3 8
    (Some [0; 0; 0]) (Some 0)
  = Ret (LPC_APIRESULT_OK, Some [88; 24; 8], Some 7).
Proof. vm_compute. reflexivity. Qed.

Example QuantizeCoefficients_small_run :
  LPC_QuantizeCoefficients (Some [0.0078125; -0.00390625]%float) 2 8
    (Some [5; 5]) (Some 0)
  = Ret (LPC_APIRESULT_OK, Some [0; 0], Some 8).
Proof. vm_compute. reflexivity. Qed.

(** The run on [c = [0.7; 0.2; 0.05]] (the binary64 numbers nearest to
    them) at 8 bits: shift 7, and the head coefficient is
    [round(0.7 * 2^7) = 90]. *)
Example QuantizeCoefficients_tail_first_run :
  LPC_QuantizeCoefficients
    (Some [0x1.6666666666666p-1; 0x1.999999999999ap-3; 0x1.999999999999ap-5]%float)
    3 8 (Some [0; 0; 0]) (Some 0)
  = Ret (LPC_APIRESULT_OK, Some [90; 26; 6], Some 7).
Proof. vm_compute. reflexivity. Qed.


(** ** The shift of the quantizer *)




(** ** The preemphasis coefficient *)

Import PreemphasisCoefficient.

(** X29.  A block that is silent up to its last sample (a silent block, a
    block of one sample) has no power to normalise by: [corr[1] / corr[0]] is
    [0/0], and the guard on [corr[0]] makes the coefficient 0. *)
Theorem CalculateCoefficient_silent_block
    (SHIFT : Z) (preem : LINNEPreemphasisFilter) (buffer : list Z) (N : nat) :
  (1 <= N <= length buffer)%nat -> Z.of_nat N < 2 ^ 32 ->
  (forall k, (k < N - 1)%nat -> nth k buffer 0 = 0) ->
  LINNEPreemphasisFilter_CalculateCoefficient SHIFT preem buffer N
  = Ret {| prev := prev preem; coef := 0 |}.
Proof.
  intros HN H32 Hzero.
  unfold LINNEPreemphasisFilter_CalculateCoefficient, correlation.
  rewrite (rd_in buffer 0 0) by lia. cbn [bind].
  assert (Hidx : UInt32.index (Z.of_nat N - 1) = (N - 1)%nat).
  { unfold UInt32.index, UInt32.wrap. rewrite Z.mod_small by lia. lia. }
  rewrite Hidx.
  match goal with |- context [for_range 0 (N - 1) ?b ?s] =>
    destruct (for_range_invariant
                (fun j '(c0, c1, cur) =>
                   c0 = 0%float /\
                   cur = float_of_Z (nth j buffer 0))
                b 0 (N - 1) s) as [[[c0 c1] cur] [Hrun [Hc0 _]]]
  end.
  - lia.
  - split; reflexivity.
  - intros j [[c0 c1] cur] Hj [Hc0 Hcur].
    rewrite (rd_in buffer (j + 1) 0) by lia. cbn [bind].
    eexists. split; [reflexivity |]. cbv beta iota.
    split; [| replace (j + 1)%nat with (Datatypes.S j) by lia; reflexivity].
    rewrite Hc0, Hcur, Hzero by lia. reflexivity.
  - rewrite Hrun. cbn [bind]. rewrite Hc0.
    change (0 <? 0x1.0c6f7a0b5ed8dp-20)%float with true. reflexivity.
Qed.

Lemma CalculateCoefficient_silent_block_witness :
  LINNEPreemphasisFilter_CalculateCoefficient 5 (mkPreem 3 12) [0; 0; 0; 77] 4
  = Ret {| prev := prev (mkPreem 3 12); coef := 0 |}.
Proof.
  apply (CalculateCoefficient_silent_block 5 (mkPreem 3 12) [0; 0; 0; 77] 4).
  - simpl. lia.
  - simpl. lia.
  - intros [|[|[|k]]] Hk; try reflexivity. simpl in Hk. lia.
Defined.

Lemma binary_round_aux_sign (mx ex : Z) (lx : SpecFloat.location) :
  not_negative (SpecFloat.binary_round_aux prec emax false mx ex lx).
Proof.
  unfold SpecFloat.binary_round_aux.
  destruct (SpecFloat.shr_fexp prec emax mx ex lx) as [mrs' e'].
  destruct (SpecFloat.shr_fexp prec emax _ e' SpecFloat.loc_Exact) as [mrs'' e''].
  destruct (SpecFloat.shr_m mrs'') as [|m|m]; [exact I | | exact I].
  destruct (e'' <=? emax - prec); reflexivity.
Qed.

Lemma binary_normalize_sign (m e : Z) :
  0 <= m -> not_negative (SpecFloat.binary_normalize prec emax m e false).
Proof.
  intros Hm. destruct m as [|m|m]; [exact I | | lia].
  unfold SpecFloat.binary_normalize, SpecFloat.binary_round.
  destruct (SpecFloat.shl_align m e _) as [mz ez]. apply binary_round_aux_sign.
Qed.

Lemma mul_sign (x y : spec_float) :
  not_negative x -> not_negative y -> not_negative (SF64mul x y).
Proof.
  unfold SF64mul, SFmul.
  destruct x as [sx|sx| |sx mx ex], y as [sy|sy| |sy my ey];
    intros Hx Hy; cbn [not_negative] in Hx, Hy; subst;
    first [ exact I | reflexivity | apply binary_round_aux_sign ].
Qed.

Lemma add_sign (x y : spec_float) :
  not_negative x -> not_negative y -> not_negative (SF64add x y).
Proof.
  unfold SF64add, SFadd.
  destruct x as [sx|sx| |sx mx ex], y as [sy|sy| |sy my ey];
    intros Hx Hy; cbn [not_negative] in Hx, Hy; subst;
    first [ exact I | reflexivity
          | destruct sx, sy; exact I
          | apply binary_normalize_sign; cbn [SpecFloat.cond_Zopp]; lia ].
Qed.

Lemma float_of_Z_sign (z : Z) : 0 <= z -> not_negative (Prim2SF (float_of_Z z)).
Proof.
  intros Hz. destruct z as [|p|p]; [exact I | | lia].
  unfold float_of_Z. rewrite of_uint63_spec. apply binary_normalize_sign.
  apply Uint63.to_Z_bounded.
Qed.

Lemma floor_sign (f : float) :
  not_negative (Prim2SF f) -> not_negative (Prim2SF (c_floor f)).
Proof.
  intros Hf. unfold c_floor.
  destruct (Prim2SF f) as [s|s| |s m e] eqn:Hsf; try (rewrite Hsf; exact Hf).
  cbn in Hf. subst s.
  destruct (0 <=? e); [rewrite Hsf; reflexivity |].
  destruct (_ =? _); [rewrite Hsf; reflexivity |].
  apply float_of_Z_sign. apply Z.shiftr_nonneg. lia.
Qed.

Lemma not_below_zero_sign (c : float) :
  PrimFloat.ltb c 0 = false -> not_negative (Prim2SF c).
Proof.
  rewrite ltb_spec. change (Prim2SF 0) with (S754_zero false).
  unfold SFltb, SFcompare.
  destruct (Prim2SF c) as [s|s| |s m e]; cbn; auto; destruct s; auto;
    discriminate.
Qed.

Lemma to_int32_of_not_negative (d : float) (z : Z) :
  not_negative (Prim2SF d) -> double_to_int32 d = Ret z -> 0 <= z.
Proof.
  unfold double_to_int32.
  destruct (Prim2SF d) as [s|s| |s m e]; cbn; intros Hd H; try discriminate.
  - inversion H. lia.
  - subst s. destruct (_ && _); [| discriminate]. inversion H.
    destruct (0 <=? e).
    + apply Z.shiftl_nonneg. lia.
    + apply Z.shiftr_nonneg. lia.
Qed.

Lemma round_to_int32_sign (d : float) (z : Z) :
  not_negative (Prim2SF d) ->
  double_to_int32 (LINNEUtility_Round d) = Ret z -> 0 <= z.
Proof.
  intros Hd. unfold LINNEUtility_Round.
  destruct (PrimFloat.leb 0 d) eqn:Hle.
  - apply to_int32_of_not_negative, floor_sign.
    rewrite add_spec. apply add_sign; [exact Hd | exact (eq_refl false)].
  - (* only a NaN is neither negative nor at least zero *)
    rewrite leb_spec in Hle. change (Prim2SF 0) with (S754_zero false) in Hle.
    unfold SFleb, SFcompare in Hle.
    destruct (Prim2SF d) as [s|s| |s m e] eqn:Hsf; cbn in Hd;
      try (subst s); try discriminate.
    intros H. exfalso. revert H. unfold double_to_int32.
    rewrite opp_spec. unfold c_floor. rewrite add_spec, opp_spec, Hsf. cbn.
    rewrite add_spec, opp_spec, Hsf. cbn. discriminate.
Qed.

Lemma pow2_sign (k : Z) : 0 <= k <= 31 -> not_negative (Prim2SF (c_pow2 k)).
Proof.
  intros Hk.
  assert (Hall : forallb (fun n => match Prim2SF (c_pow2 (Z.of_nat n)) with
                                   | S754_finite false _ _ => true
                                   | _ => false
                                   end) (seq 0 32) = true)
    by (vm_compute; reflexivity).
  rewrite forallb_forall in Hall.
  specialize (Hall (Z.to_nat k) ltac:(apply in_seq; lia)).
  rewrite Z2Nat.id in Hall by lia.
  destruct (Prim2SF (c_pow2 k)) as [s|s| |s m e]; try discriminate.
  destruct s; [discriminate | reflexivity].
Qed.

(** X30.  The coefficient the function stores is a non-negative fixed-point
    number below one half: whenever it returns, [0 <= coef < 2^(SHIFT-1)]
    (negative correlations give 0, and the saturation keeps the rest below
    [2^(SHIFT-1)]), and [prev] is left alone. *)
Theorem CalculateCoefficient_range
    (SHIFT : Z) (preem preem' : LINNEPreemphasisFilter) (buffer : list Z) (N : nat) :
  1 <= SHIFT <= 31 ->
  LINNEPreemphasisFilter_CalculateCoefficient SHIFT preem buffer N = Ret preem' ->
  prev preem' = prev preem /\ 0 <= coef preem' <= 2 ^ (SHIFT - 1) - 1.
Proof.
  intros HS. unfold LINNEPreemphasisFilter_CalculateCoefficient.
  assert (Hpow : 0 < 2 ^ (SHIFT - 1) < 2 ^ 31).
  { split; [apply Z.pow_pos_nonneg; lia | apply Z.pow_lt_mono_r; lia]. }
  destruct (correlation buffer N) as [[[c0 c1] cur]| |]; cbn [bind];
    try discriminate.
  destruct (_ || _) eqn:Hguard.
  - intros H. inversion H. cbn [prev coef]. split; [reflexivity | lia].
  - apply orb_false_elim in Hguard. destruct Hguard as [_ Hcorr].
    destruct (Quantizer.double_to_int32 _) as [z| |] eqn:Hz; cbn [bind];
      try discriminate.
    pose proof (double_to_int32_in_range _ _ Hz) as Hrange.
    unfold Int32.in_range in Hrange.
    apply round_to_int32_sign in Hz.
    2:{ rewrite mul_spec. apply mul_sign.
        - apply not_below_zero_sign. exact Hcorr.
        - apply pow2_sign. lia. }
    intros H. inversion H. cbn [prev coef]. split; [reflexivity |].
    assert (Hlimit : Int32.shl 1 (SHIFT - 1) = 2 ^ (SHIFT - 1)).
    { unfold Int32.shl. rewrite Z.shiftl_1_l. apply wrap_small.
      unfold Int32.in_range. lia. }
    rewrite Hlimit. destruct (Z.leb_spec (2 ^ (SHIFT - 1)) z).
    + unfold Int32.sub. rewrite wrap_small by (unfold Int32.in_range; lia). lia.
    + lia.
Qed.

Lemma CalculateCoefficient_range_witness :
  prev (mkPreem 3 15) = prev (mkPreem 3 12) /\
  0 <= coef (mkPreem 3 15) <= 2 ^ (5 - 1) - 1.
Proof.
  apply (CalculateCoefficient_range 5 (mkPreem 3 12) (mkPreem 3 15)
           [100; 110; 120; 130] 4).
  - lia.
  - vm_compute. reflexivity.
Defined.

(** ** The work area of a calculator *)

Import WorkArea.

Lemma rows_laid_out (base : Z) (count : nat) (size : Z) :
  exists rows,
    for_range 0 count
      (fun (ord : nat) '(rows, work_ptr) =>
         Ret (rows ++ [work_ptr], work_ptr + size))
      ([], base)
    = Ret (rows, base + size * Z.of_nat count) /\
    length rows = count /\
    forall i, (i < count)%nat -> nth i rows 0 = base + size * Z.of_nat i.
Proof.
  match goal with |- context [for_range 0 count ?b ?s] =>
    destruct (for_range_invariant
                (fun j '(rows, ptr) =>
                   ptr = base + size * Z.of_nat j /\ length rows = j /\
                   forall i, (i < j)%nat -> nth i rows 0 = base + size * Z.of_nat i)
                b 0 count s) as [[rows ptr] [Hrun (Hptr & Hlen & Hrows)]]
  end.
  - lia.
  - repeat split; [lia | intros i Hi; lia].
  - intros j [rows ptr] Hj (Hptr & Hlen & Hrows).
    eexists. split; [reflexivity |]. cbv beta iota.
    split; [lia |]. split; [rewrite length_app; cbn [length]; lia |].
    intros i Hi. destruct (Nat.eq_dec i j) as [-> | Hne].
    + rewrite app_nth2 by lia. rewrite Hlen, Nat.sub_diag. exact Hptr.
    + rewrite app_nth1 by lia. apply Hrows. lia.
  - exists rows. subst ptr. split; [exact Hrun | split; assumption].
Qed.

Section WorkAreaFacts.
Variables (S P : Z) (config : LPCCalculatorConfig).
Hypothesis HS : 0 <= S.
Hypothesis HP : 0 <= P.
Hypothesis Hfits : work_area_bytes S P config < 2 ^ 31.

Let m := Z.of_nat (config_max_order config).
Let n := Z.of_nat (config_max_num_samples config).

Lemma work_area_counts :
  UInt32.add m 2 = m + 2 /\ UInt32.add m 1 = m + 1.
Proof.
  unfold work_area_bytes in Hfits. cbv zeta in Hfits. fold m n in Hfits.
  assert (0 <= m) by (unfold m; lia). assert (0 <= n) by (unfold n; lia).
  unfold UInt32.add, UInt32.wrap. split; apply Z.mod_small; nia.
Qed.

Lemma CalculateWorkSize_value :
  LPCCalculator_CalculateWorkSize S P (Some config)
  = Ret (work_area_bytes S P config).
Proof.
  destruct work_area_counts as [H2 H1].
  unfold LPCCalculator_CalculateWorkSize. cbv zeta. fold m n.
  rewrite H2, H1.
  unfold work_area_bytes in *. cbv zeta in *. fold m n in Hfits. fold m n.
  assert (0 <= m) by (unfold m; lia). assert (0 <= n) by (unfold n; lia).
  unfold LPC_ALIGNMENT.
  assert (Hw : forall z, 0 <= z < 2 ^ 31 -> Int32.wrap z = z)
    by (intros z Hz; apply wrap_small; unfold Int32.in_range; lia).
  assert (Hadd : forall a b, 0 <= a -> 0 <= b -> a + b < 2 ^ 31 ->
                             work_size_add a b = Ret (a + b)).
  { intros a b Ha Hb Hab. unfold work_size_add.
    replace (- 2 ^ 31 <=? a + b) with true by (symmetry; apply Z.leb_le; lia).
    replace (a + b <? 2 ^ 31) with true by (symmetry; apply Z.ltb_lt; lia).
    reflexivity. }
  rewrite !Hw by nia.
  repeat (rewrite Hadd by nia; cbn [bind]).
  reflexivity.
Qed.

End WorkAreaFacts.

(** The handle [LPCCalculator_Create] builds in a block at [w] of
    [work_size] bytes, whoever allocated the block. *)
Lemma Create_layout
    (S P : Z) (config : LPCCalculatorConfig) (w work_size : Z) :
  0 <= S -> 0 <= P -> work_area_bytes S P config < 2 ^ 31 ->
  (0 < config_max_order config)%nat -> (0 < config_max_num_samples config)%nat ->
  work_area_bytes S P config <= work_size ->
  let m := Z.of_nat (config_max_order config) in
  let n := Z.of_nat (config_max_num_samples config) in
  exists area : bool -> LPCCalculatorArea,
    (forall malloc,
       LPCCalculator_Create S P (Some config) (Some w) work_size malloc
       = Ret (Some (area false), None)) /\
    (forall malloc,
       work_size = work_area_bytes S P config ->
       malloc (work_area_bytes S P config) = Some w ->
       LPCCalculator_Create S P (Some config) None 0 malloc
       = Ret (Some (area true), None)) /\
    forall own,
    area_max_order (area own) = config_max_order config /\
    area_max_num_buffer_samples (area own) = config_max_num_samples config /\
    w <= handle (area own) < w + 16 /\ handle (area own) mod 16 = 0 /\
    area_a_vec (area own) = handle (area own) + S /\
    area_u_vec (area own) = area_a_vec (area own) + 8 * (m + 2) /\
    area_v_vec (area own) = area_u_vec (area own) + 8 * (m + 2) /\
    area_auto_corr (area own) = area_v_vec (area own) + 8 * (m + 2) /\
    area_lpc_coef (area own) = area_auto_corr (area own) + 8 * (m + 1) /\
    area_parcor_coef (area own) = area_lpc_coef (area own) + 8 * (m + 1) /\
    area_r_mat (area own) = area_parcor_coef (area own) + 8 * (m + 1) /\
    length (area_rows (area own)) = Z.to_nat (m + 1) /\
    (forall i, (i < Z.to_nat (m + 1))%nat ->
       nth i (area_rows (area own)) 0
       = area_r_mat (area own) + P * (m + 1) + 8 * (m + 1) * Z.of_nat i) /\
    area_buffer (area own)
    = area_r_mat (area own) + P * (m + 1) + 8 * (m + 1) * (m + 1) /\
    area_buffer (area own) + 8 * n <= w + work_size /\
    alloced_by_own (area own) = own /\ work (area own) = w.
Proof.
  intros HS HP Hfits Hm Hn Hsize m n.
  pose proof (CalculateWorkSize_value S P config HS HP Hfits) as Hneed.
  destruct (work_area_counts S P config HS HP Hfits) as [H2 H1]. fold m in H2, H1.
  set (h := LPC_ROUNDUP w LPC_ALIGNMENT).
  assert (Hh : w <= h < w + 16 /\ h mod 16 = 0).
  { unfold h, LPC_ROUNDUP, LPC_ALIGNMENT.
    pose proof (Z.div_mod (w + (16 - 1)) 16 ltac:(lia)) as Hdm.
    pose proof (Z.mod_pos_bound (w + (16 - 1)) 16 ltac:(lia)) as Hmb.
    split; [lia | apply Z.mod_mul; lia]. }
  destruct (rows_laid_out
              (h + S + 8 * (m + 2) + 8 * (m + 2) + 8 * (m + 2)
               + 8 * (m + 1) + 8 * (m + 1) + 8 * (m + 1) + P * (m + 1))
              (Z.to_nat (m + 1)) (8 * (m + 1)))
    as (rows & Hrows & Hlen & Hnth).
  assert (Hm0 : 0 <= m) by (unfold m; lia).
  assert (Hn0 : 0 <= n) by (unfold n; lia).
  rewrite Z2Nat.id in Hrows by lia.
  assert (Hpos : 0 <= work_area_bytes S P config).
  { unfold work_area_bytes. cbv zeta. nia. }
  assert (Hend : h + S + 8 * (m + 2) + 8 * (m + 2) + 8 * (m + 2)
                 + 8 * (m + 1) + 8 * (m + 1) + 8 * (m + 1) + P * (m + 1)
                 + 8 * (m + 1) * (m + 1) + 8 * n - w
                 <= work_size).
  { unfold work_area_bytes in Hsize. cbv zeta in Hsize. fold m n in Hsize.
    nia. }
  set (base := h + S + 8 * (m + 2) + 8 * (m + 2) + 8 * (m + 2)
               + 8 * (m + 1) + 8 * (m + 1) + 8 * (m + 1) + P * (m + 1)) in *.
  exists (fun own =>
            mkArea h (config_max_order config) (config_max_num_samples config)
              (h + S) (h + S + 8 * (m + 2))
              (h + S + 8 * (m + 2) + 8 * (m + 2))
              (h + S + 8 * (m + 2) + 8 * (m + 2) + 8 * (m + 2))
              (h + S + 8 * (m + 2) + 8 * (m + 2) + 8 * (m + 2) + 8 * (m + 1))
              (h + S + 8 * (m + 2) + 8 * (m + 2) + 8 * (m + 2) + 8 * (m + 1)
               + 8 * (m + 1))
              (h + S + 8 * (m + 2) + 8 * (m + 2) + 8 * (m + 2) + 8 * (m + 1)
               + 8 * (m + 1) + 8 * (m + 1))
              rows (base + 8 * (m + 1) * (m + 1)) own w).
  assert (Hlay : forall ws, work_area_bytes S P config <= ws ->
            base + 8 * (m + 1) * (m + 1) + 8 * n - w <= ws ->
            LPCCalculator_Create S P (Some config) (Some w) ws (fun _ => None)
            = Ret (Some (mkArea h (config_max_order config)
                           (config_max_num_samples config)
                           (h + S) (h + S + 8 * (m + 2))
                           (h + S + 8 * (m + 2) + 8 * (m + 2))
                           (h + S + 8 * (m + 2) + 8 * (m + 2) + 8 * (m + 2))
                           (h + S + 8 * (m + 2) + 8 * (m + 2) + 8 * (m + 2)
                            + 8 * (m + 1))
                           (h + S + 8 * (m + 2) + 8 * (m + 2) + 8 * (m + 2)
                            + 8 * (m + 1) + 8 * (m + 1))
                           (h + S + 8 * (m + 2) + 8 * (m + 2) + 8 * (m + 2)
                            + 8 * (m + 1) + 8 * (m + 1) + 8 * (m + 1))
                           rows
                           (base + 8 * (m + 1) * (m + 1))
                           false w), None)).
  { intros ws Hws Hfit.
    unfold LPCCalculator_Create. cbn [bind negb]. rewrite Hneed. cbn [bind].
    replace (ws <? work_area_bytes S P config) with false
      by (symmetry; apply Z.ltb_ge; lia).
    replace (config_max_order config =? 0)%nat with false
      by (symmetry; apply Nat.eqb_neq; lia).
    replace (config_max_num_samples config =? 0)%nat with false
      by (symmetry; apply Nat.eqb_neq; lia).
    cbn [orb]. cbv zeta. fold m n. rewrite H2, H1. fold h. fold base.
    rewrite Hrows. cbn [bind].
    match goal with |- context [c_assert (?a <=? ?b)] =>
      replace (a <=? b) with true by (symmetry; apply Z.leb_le; lia)
    end.
    reflexivity. }
  split; [| split].
  - intros malloc. rewrite <- (Hlay work_size Hsize Hend).
    reflexivity.
  - intros malloc Hws Hok.
    unfold LPCCalculator_Create. cbn [Z.eqb bind]. rewrite Hneed. cbn [bind].
    replace (work_area_bytes S P config <? 0) with false
      by (symmetry; apply Z.ltb_ge; lia).
    replace (UInt32.wrap (work_area_bytes S P config))
      with (work_area_bytes S P config)
      by (symmetry; unfold UInt32.wrap; apply Z.mod_small; lia).
    rewrite Hok. cbn [bind negb].
    rewrite Z.ltb_irrefl.
    replace (config_max_order config =? 0)%nat with false
      by (symmetry; apply Nat.eqb_neq; lia).
    replace (config_max_num_samples config =? 0)%nat with false
      by (symmetry; apply Nat.eqb_neq; lia).
    cbn [orb]. cbv zeta. fold m n. rewrite H2, H1. fold h. fold base.
    rewrite Hrows. cbn [bind].
    match goal with |- context [c_assert (?a <=? ?b)] =>
      replace (a <=? b) with true by (symmetry; apply Z.leb_le; lia)
    end.
    reflexivity.
  - intros own.
    cbn [handle area_max_order area_max_num_buffer_samples area_a_vec
         area_u_vec area_v_vec area_auto_corr area_lpc_coef
         area_parcor_coef area_r_mat area_rows area_buffer alloced_by_own work].
    destruct Hh as [Hh1 Hh2].
    repeat (split; [first [exact Hh2 | exact Hlen | reflexivity | lia] |]).
    split.
    + intros i Hi. rewrite Hnth by exact Hi. unfold base. lia.
    + unfold base.
      repeat (split; [first [reflexivity | lia] |]). split; reflexivity.
Qed.

(** Where the block of a calculator that allocated its work area itself
    ends: behind the [max_num_samples] cells of [buffer], and before the end
    of a copy of more than [max_num_samples + 2] samples into it. *)
Lemma area_end_behind_buffer
    (S P : Z) (config : LPCCalculatorConfig) (malloc : Z -> option Z) (w : Z)
    (area : LPCCalculatorArea) (N : nat) :
  0 <= S -> 0 <= P -> work_area_bytes S P config < 2 ^ 31 ->
  (0 < config_max_order config)%nat -> (0 < config_max_num_samples config)%nat ->
  malloc (work_area_bytes S P config) = Some w ->
  LPCCalculator_Create S P (Some config) None 0 malloc = Ret (Some area, None) ->
  (config_max_num_samples config + 2 < N)%nat ->
  area_buffer area + 8 * Z.of_nat (config_max_num_samples config)
  <= w + work_area_bytes S P config
  < area_buffer area + 8 * Z.of_nat N.
Proof.
  intros HS HP Hfits Hm Hn Hok Hrun HN.
  destruct (Create_layout S P config w (work_area_bytes S P config)
              HS HP Hfits Hm Hn ltac:(lia))
    as (area' & _ & Hown & Hfields).
  rewrite (Hown malloc eq_refl Hok) in Hrun. inversion Hrun. subst area.
  destruct (Hfields true)
    as (_ & _ & Hh & _ & Ha & Hu & Hv & Hac & Hlc & Hpc & Hr & _ & _
        & Hbuf & Hend & _ & _).
  split; [exact Hend |].
  unfold work_area_bytes. cbv zeta. lia.
Qed.

(** The cells behind [buffer] in a block of exactly
    [LPCCalculator_CalculateWorkSize] bytes that the calculator allocated
    itself: the [max_num_samples] asked for and at most two more, two when
    the allocator's block is 16-byte aligned. *)
Lemma own_area_buffer
    (S P : Z) (config : LPCCalculatorConfig) (malloc : Z -> option Z) (w : Z) :
  0 <= S -> 0 <= P -> work_area_bytes S P config < 2 ^ 31 ->
  (0 < config_max_order config)%nat -> (0 < config_max_num_samples config)%nat ->
  malloc (work_area_bytes S P config) = Some w ->
  exists area,
    LPCCalculator_Create S P (Some config) None 0 malloc = Ret (Some area, None) /\
    forall (D : Type) (junk : D),
      max_order (calculator_in_area area (w + work_area_bytes S P config) junk)
      = config_max_order config /\
      (config_max_num_samples config
       <= length (buffer (calculator_in_area area
                            (w + work_area_bytes S P config) junk))
       <= config_max_num_samples config + 2)%nat /\
      (w mod 16 = 0 ->
       length (buffer (calculator_in_area area
                         (w + work_area_bytes S P config) junk))
       = (config_max_num_samples config + 2)%nat).
Proof.
  intros HS HP Hfits Hm Hn Hok.
  destruct (Create_layout S P config w (work_area_bytes S P config)
              HS HP Hfits Hm Hn ltac:(lia))
    as (area & _ & Hown & Hfields).
  exists (area true). split; [exact (Hown malloc eq_refl Hok) |].
  intros D junk.
  destruct (Hfields true)
    as (Hmax & _ & Hh & Hal & Ha & Hu & Hv & Hac & Hlc & Hpc & Hr & _ & _
        & Hbuf & _ & _ & _).
  unfold calculator_in_area.
  cbn [set_buffer buffer max_order calculator_layout config_max_order].
  rewrite repeat_length.
  split; [exact Hmax |].
  set (m := Z.of_nat (config_max_order config)) in *.
  set (n := Z.of_nat (config_max_num_samples config)) in *.
  set (h := handle (area true)) in *.
  assert (Hgap : w + work_area_bytes S P config - area_buffer (area true)
                 = 8 * n + (16 - (h - w))).
  { unfold work_area_bytes. cbv zeta. fold m n. lia. }
  rewrite Hgap.
  pose proof (Z.div_mod (8 * n + (16 - (h - w))) 8 ltac:(lia)) as Hdm.
  pose proof (Z.mod_pos_bound (8 * n + (16 - (h - w))) 8 ltac:(lia)) as Hmb.
  split; [unfold n in *; lia |].
  intros Hw.
  assert (Hhw : h = w).
  { pose proof (Z.div_mod h 16 ltac:(lia)) as Hh16.
    pose proof (Z.div_mod w 16 ltac:(lia)) as Hw16.
    rewrite Hal in Hh16. rewrite Hw in Hw16. lia. }
  unfold n in *. lia.
Qed.

(** X1.  The auxiliary-function entry point does not compare [num_samples]
    with [max_num_buffer_samples], as the Levinson-Durbin entry point does.
    For a calculator that allocated its work area itself (a block of exactly
    [LPCCalculator_CalculateWorkSize] bytes), [buffer] is the last slice of
    the block and at most two cells of alignment slack follow it (two when
    the block is 16-byte aligned); on a block of more than
    [max_num_samples + 2] samples (rectangular window, an order within
    [max_order]) the copy of [LPC_ApplyWindow] runs past the end of the
    allocated block. *)
Theorem AF_block_beyond_buffer {libm : Libm float}
    (S P : Z) (config : LPCCalculatorConfig) (malloc : Z -> option Z) (w : Z)
    (junk : float) (data coef : list float) (N order max_num_iteration : nat) :
  0 <= S -> 0 <= P -> work_area_bytes S P config < 2 ^ 31 ->
  (0 < config_max_order config)%nat -> (0 < config_max_num_samples config)%nat ->
  malloc (work_area_bytes S P config) = Some w ->
  (config_max_num_samples config + 2 < N)%nat ->
  (N <= length data)%nat ->
  (order <= config_max_order config)%nat ->
  exists area,
    LPCCalculator_Create S P (Some config) None 0 malloc = Ret (Some area, None) /\
    area_buffer area + 8 * Z.of_nat (config_max_num_samples config)
    <= w + work_area_bytes S P config
    < area_buffer area + 8 * Z.of_nat N /\
    (config_max_num_samples config
     <= length (buffer (calculator_in_area area
                          (w + work_area_bytes S P config) junk))
     <= config_max_num_samples config + 2)%nat /\
    (w mod 16 = 0 ->
     length (buffer (calculator_in_area area
                       (w + work_area_bytes S P config) junk))
     = (config_max_num_samples config + 2)%nat) /\
    AuxiliaryFunction.LPCCalculator_CalculateLPCCoefficientsAF
      (Some (calculator_in_area area (w + work_area_bytes S P config) junk))
      (Some data) N (Some coef) order max_num_iteration
      LPC_WINDOWTYPE_RECTANGULAR
    = Undefined.
Proof.
  intros HS HP Hfits Hm Hn Hok HN Hdata Hord.
  destruct (own_area_buffer S P config malloc w HS HP Hfits Hm Hn Hok)
    as (area & Hrun & Hcells).
  destruct (Hcells float junk) as (Hmax & Hlen & Haligned).
  exists area. split; [exact Hrun |].
  split; [exact (area_end_behind_buffer S P config malloc w area N
                   HS HP Hfits Hm Hn Hok Hrun HN) |].
  split; [exact Hlen | split; [exact Haligned |]].
  apply AF_copy_beyond_buffer; [lia | rewrite Hmax; exact Hord].
Qed.

(** Five samples into a calculator created for two, in a block the allocator
    placed at 4096; the run never consults [sin] or [pow], so any pair of
    functions serves. *)
Lemma AF_block_beyond_buffer_witness :
  exists area,
    LPCCalculator_Create 88 8 (Some (mkLPCCalculatorConfig 4 2)) None 0
      (fun _ => Some 4096) = Ret (Some area, None) /\
    area_buffer area
    + 8 * Z.of_nat (config_max_num_samples (mkLPCCalculatorConfig 4 2))
    <= 4096 + work_area_bytes 88 8 (mkLPCCalculatorConfig 4 2)
    < area_buffer area + 8 * Z.of_nat 5 /\
    (config_max_num_samples (mkLPCCalculatorConfig 4 2)
     <= length (buffer (calculator_in_area area
                          (4096 + work_area_bytes 88 8 (mkLPCCalculatorConfig 4 2))
                          7%float))
     <= config_max_num_samples (mkLPCCalculatorConfig 4 2) + 2)%nat /\
    (4096 mod 16 = 0 ->
     length (buffer (calculator_in_area area
                       (4096 + work_area_bytes 88 8 (mkLPCCalculatorConfig 4 2))
                       7%float))
     = (config_max_num_samples (mkLPCCalculatorConfig 4 2) + 2)%nat) /\
    AuxiliaryFunction.LPCCalculator_CalculateLPCCoefficientsAF
      (libm := {| c_sin := fun x => x; c_pow := fun x _ => x |})
      (Some (calculator_in_area area
               (4096 + work_area_bytes 88 8 (mkLPCCalculatorConfig 4 2)) 7%float))
      (Some [1; 1; 1; 1; 1]%float) 5 (Some [0; 0]%float) 2 10
      LPC_WINDOWTYPE_RECTANGULAR
    = Undefined.
Proof.
  apply (AF_block_beyond_buffer 88 8 (mkLPCCalculatorConfig 4 2)
           (fun _ => Some 4096) 4096 7%float [1; 1; 1; 1; 1]%float
           [0; 0]%float 5 2 10); try reflexivity; simpl; lia.
Defined.

(** X15.  [LPCCalculator_Create] on a work area the caller supplies, for a
    configuration with positive bounds whose byte count fits [int32_t] and a
    work area of at least [LPCCalculator_CalculateWorkSize] bytes: it
    returns a handle and frees nothing; the handle is 16-byte aligned within
    the first 16 bytes of the area, the buffers follow it one after the other
    without overlap in the order [a_vec], [u_vec], [v_vec], [auto_corr],
    [lpc_coef], [parcor_coef], the row pointers, the rows, [buffer], each as
    long as its bound asks, and the last byte lies inside the work area (the
    overflow assertion holds). *)
Theorem Create_lays_out_work_area
    (S P : Z) (config : LPCCalculatorConfig) (w work_size : Z)
    (malloc : Z -> option Z) :
  0 <= S -> 0 <= P -> work_area_bytes S P config < 2 ^ 31 ->
  (0 < config_max_order config)%nat -> (0 < config_max_num_samples config)%nat ->
  work_area_bytes S P config <= work_size ->
  let m := Z.of_nat (config_max_order config) in
  let n := Z.of_nat (config_max_num_samples config) in
  LPCCalculator_CalculateWorkSize S P (Some config)
  = Ret (work_area_bytes S P config) /\
  exists area,
    LPCCalculator_Create S P (Some config) (Some w) work_size malloc
    = Ret (Some area, None) /\
    area_max_order area = config_max_order config /\
    area_max_num_buffer_samples area = config_max_num_samples config /\
    w <= handle area < w + 16 /\ handle area mod 16 = 0 /\
    area_a_vec area = handle area + S /\
    area_u_vec area = area_a_vec area + 8 * (m + 2) /\
    area_v_vec area = area_u_vec area + 8 * (m + 2) /\
    area_auto_corr area = area_v_vec area + 8 * (m + 2) /\
    area_lpc_coef area = area_auto_corr area + 8 * (m + 1) /\
    area_parcor_coef area = area_lpc_coef area + 8 * (m + 1) /\
    area_r_mat area = area_parcor_coef area + 8 * (m + 1) /\
    length (area_rows area) = Z.to_nat (m + 1) /\
    (forall i, (i < Z.to_nat (m + 1))%nat ->
       nth i (area_rows area) 0
       = area_r_mat area + P * (m + 1) + 8 * (m + 1) * Z.of_nat i) /\
    area_buffer area = area_r_mat area + P * (m + 1) + 8 * (m + 1) * (m + 1) /\
    area_buffer area + 8 * n <= w + work_size /\
    alloced_by_own area = false /\ work area = w.
Proof.
  intros HS HP Hfits Hm Hn Hsize m n.
  split; [exact (CalculateWorkSize_value S P config HS HP Hfits) |].
  destruct (Create_layout S P config w work_size HS HP Hfits Hm Hn Hsize)
    as (area & Hrun & _ & Hfields).
  exists (area false). split; [apply Hrun | apply Hfields].
Qed.

Lemma Create_lays_out_work_area_witness :
  let m := Z.of_nat (config_max_order (mkLPCCalculatorConfig 4 16)) in
  let n := Z.of_nat (config_max_num_samples (mkLPCCalculatorConfig 4 16)) in
  LPCCalculator_CalculateWorkSize 88 8 (Some (mkLPCCalculatorConfig 4 16))
  = Ret (work_area_bytes 88 8 (mkLPCCalculatorConfig 4 16)) /\
  exists area,
    LPCCalculator_Create 88 8 (Some (mkLPCCalculatorConfig 4 16)) (Some 1000) 1000
      (fun _ => None)
    = Ret (Some area, None) /\
    area_max_order area = config_max_order (mkLPCCalculatorConfig 4 16) /\
    area_max_num_buffer_samples area
    = config_max_num_samples (mkLPCCalculatorConfig 4 16) /\
    1000 <= handle area < 1000 + 16 /\ handle area mod 16 = 0 /\
    area_a_vec area = handle area + 88 /\
    area_u_vec area = area_a_vec area + 8 * (m + 2) /\
    area_v_vec area = area_u_vec area + 8 * (m + 2) /\
    area_auto_corr area = area_v_vec area + 8 * (m + 2) /\
    area_lpc_coef area = area_auto_corr area + 8 * (m + 1) /\
    area_parcor_coef area = area_lpc_coef area + 8 * (m + 1) /\
    area_r_mat area = area_parcor_coef area + 8 * (m + 1) /\
    length (area_rows area) = Z.to_nat (m + 1) /\
    (forall i, (i < Z.to_nat (m + 1))%nat ->
       nth i (area_rows area) 0
       = area_r_mat area + 8 * (m + 1) + 8 * (m + 1) * Z.of_nat i) /\
    area_buffer area = area_r_mat area + 8 * (m + 1) + 8 * (m + 1) * (m + 1) /\
    area_buffer area + 8 * n <= 1000 + 1000 /\
    alloced_by_own area = false /\ work area = 1000.
Proof.
  apply (Create_lays_out_work_area 88 8 (mkLPCCalculatorConfig 4 16) 1000 1000
           (fun _ => None)); try lia; vm_compute; try reflexivity; try discriminate.
  all: lia.
Defined.

(** X16.  The life cycle with a work area of the calculator's own.  With
    [work = NULL] and [work_size = 0], [LPCCalculator_Create] asks the
    allocator for exactly [LPCCalculator_CalculateWorkSize] bytes; if the
    allocator fails it returns [NULL] and frees nothing; otherwise the handle
    and its last buffer lie in the allocated block and
    [LPCCalculator_Destroy] frees that block, whereas the handle of a work
    area the caller supplied is not freed. *)
Theorem Create_Destroy_own_work_area
    (S P : Z) (config : LPCCalculatorConfig) (malloc : Z -> option Z) (w : Z) :
  0 <= S -> 0 <= P -> work_area_bytes S P config < 2 ^ 31 ->
  (0 < config_max_order config)%nat -> (0 < config_max_num_samples config)%nat ->
  (malloc (work_area_bytes S P config) = None ->
   LPCCalculator_Create S P (Some config) None 0 malloc = Ret (None, None)) /\
  (malloc (work_area_bytes S P config) = Some w ->
   exists area,
     LPCCalculator_Create S P (Some config) None 0 malloc
     = Ret (Some area, None) /\
     w <= handle area < w + 16 /\
     area_buffer area + 8 * Z.of_nat (config_max_num_samples config)
     <= w + work_area_bytes S P config /\
     LPCCalculator_Destroy (Some area) = Some w) /\
  (forall area freed,
     LPCCalculator_Create S P (Some config) (Some w)
       (work_area_bytes S P config) malloc = Ret (Some area, freed) ->
     freed = None /\ LPCCalculator_Destroy (Some area) = None).
Proof.
  intros HS HP Hfits Hm Hn.
  pose proof (CalculateWorkSize_value S P config HS HP Hfits) as Hneed.
  assert (Hpos : 0 <= work_area_bytes S P config).
  { unfold work_area_bytes. cbv zeta. nia. }
  assert (Hwrap : UInt32.wrap (work_area_bytes S P config)
                  = work_area_bytes S P config)
    by (unfold UInt32.wrap; apply Z.mod_small; lia).
  destruct (Create_layout S P config w (work_area_bytes S P config)
              HS HP Hfits Hm Hn ltac:(lia))
    as (area & Hsupplied & Hown & Hfields).
  split; [| split].
  - intros Hfail. unfold LPCCalculator_Create. cbn [Z.eqb bind].
    rewrite Hneed. cbn [bind].
    replace (work_area_bytes S P config <? 0) with false
      by (symmetry; apply Z.ltb_ge; lia).
    rewrite Hwrap, Hfail. reflexivity.
  - intros Hok. exists (area true).
    split; [exact (Hown malloc eq_refl Hok) |].
    destruct (Hfields true)
      as (_ & _ & Hh & _ & _ & _ & _ & _ & _ & _ & _ & _ & _ & _ & Hend & Hflag & Hwork).
    split; [exact Hh | split; [exact Hend |]].
    unfold LPCCalculator_Destroy. rewrite Hflag, Hwork. reflexivity.
  - intros area' freed Hrun'. rewrite Hsupplied in Hrun'. inversion Hrun'.
    split; [reflexivity |].
    destruct (Hfields false)
      as (_ & _ & _ & _ & _ & _ & _ & _ & _ & _ & _ & _ & _ & _ & _ & Hflag & _).
    unfold LPCCalculator_Destroy. rewrite Hflag. reflexivity.
Qed.

Lemma Create_Destroy_own_work_area_witness :
  ((fun _ : Z => Some 4096) (work_area_bytes 88 8 (mkLPCCalculatorConfig 4 16))
   = None ->
   LPCCalculator_Create 88 8 (Some (mkLPCCalculatorConfig 4 16)) None 0
     (fun _ => Some 4096) = Ret (None, None)) /\
  ((fun _ : Z => Some 4096) (work_area_bytes 88 8 (mkLPCCalculatorConfig 4 16))
   = Some 4096 ->
   exists area,
     LPCCalculator_Create 88 8 (Some (mkLPCCalculatorConfig 4 16)) None 0
       (fun _ => Some 4096) = Ret (Some area, None) /\
     4096 <= handle area < 4096 + 16 /\
     area_buffer area
     + 8 * Z.of_nat (config_max_num_samples (mkLPCCalculatorConfig 4 16))
     <= 4096 + work_area_bytes 88 8 (mkLPCCalculatorConfig 4 16) /\
     LPCCalculator_Destroy (Some area) = Some 4096) /\
  (forall area freed,
     LPCCalculator_Create 88 8 (Some (mkLPCCalculatorConfig 4 16)) (Some 4096)
       (work_area_bytes 88 8 (mkLPCCalculatorConfig 4 16)) (fun _ => Some 4096)
     = Ret (Some area, freed) ->
     freed = None /\ LPCCalculator_Destroy (Some area) = None).
Proof.
  apply (Create_Destroy_own_work_area 88 8 (mkLPCCalculatorConfig 4 16)
           (fun _ => Some 4096) 4096); try lia.
  - vm_compute. reflexivity.
  - simpl. lia.
  - simpl. lia.
Defined.

(** X17.  What [LPCCalculator_Create] refuses, returning [NULL]: a [NULL]
    configuration, a bound of 0, a work area smaller than
    [LPCCalculator_CalculateWorkSize], and a [NULL] work area with a size other
    than 0; on a [NULL] configuration the size query answers [-1].  A block the
    function allocated itself is freed again when a bound of 0 makes it refuse,
    and a block the caller supplied never is. *)
Theorem Create_refusals
    (S P : Z) (config : LPCCalculatorConfig) (work : option Z) (work_size : Z)
    (malloc : Z -> option Z) :
  0 <= S -> 0 <= P -> work_area_bytes S P config < 2 ^ 31 ->
  LPCCalculator_CalculateWorkSize S P None = Ret (-1) /\
  LPCCalculator_Create S P None work work_size malloc = Ret (None, None) /\
  (work_size <> 0 ->
   LPCCalculator_Create S P (Some config) None work_size malloc
   = Ret (None, None)) /\
  (forall w,
     (config_max_order config = 0%nat \/ config_max_num_samples config = 0%nat
      \/ work_size < work_area_bytes S P config) ->
     LPCCalculator_Create S P (Some config) (Some w) work_size malloc
     = Ret (None, None)) /\
  ((config_max_order config = 0%nat \/ config_max_num_samples config = 0%nat) ->
   LPCCalculator_Create S P (Some config) None 0 malloc
   = Ret (None, malloc (work_area_bytes S P config))).
Proof.
  intros HS HP Hfits.
  pose proof (CalculateWorkSize_value S P config HS HP Hfits) as Hneed.
  split; [reflexivity |]. split; [| split; [| split]].
  - unfold LPCCalculator_Create. destruct work as [w|]; [reflexivity |].
    destruct (work_size =? 0); reflexivity.
  - intros Hne. unfold LPCCalculator_Create.
    replace (work_size =? 0) with false by (symmetry; apply Z.eqb_neq; lia).
    reflexivity.
  - intros w Hbad. unfold LPCCalculator_Create. cbn [bind negb].
    rewrite Hneed. cbn [bind].
    replace ((work_size <? work_area_bytes S P config)
             || (config_max_order config =? 0)%nat
             || (config_max_num_samples config =? 0)%nat) with true;
      [reflexivity |].
    symmetry. rewrite !orb_true_iff, Z.ltb_lt, !Nat.eqb_eq. tauto.
  - intros Hbad.
    assert (Hpos : 0 <= work_area_bytes S P config).
    { unfold work_area_bytes. cbv zeta. nia. }
    unfold LPCCalculator_Create. cbn [Z.eqb bind]. rewrite Hneed. cbn [bind].
    replace (work_area_bytes S P config <? 0) with false
      by (symmetry; apply Z.ltb_ge; lia).
    replace (UInt32.wrap (work_area_bytes S P config))
      with (work_area_bytes S P config)
      by (symmetry; unfold UInt32.wrap; apply Z.mod_small; lia).
    cbn [bind negb].
    destruct (malloc (work_area_bytes S P config)) as [w|]; [| reflexivity].
    cbn [bind]. rewrite Z.ltb_irrefl.
    replace ((false || (config_max_order config =? 0)%nat)
             || (config_max_num_samples config =? 0)%nat) with true;
      [reflexivity |].
    symmetry. rewrite !orb_true_iff, !Nat.eqb_eq. tauto.
Qed.

Lemma Create_refusals_witness :
  LPCCalculator_CalculateWorkSize 88 8 None = Ret (-1) /\
  LPCCalculator_Create 88 8 None (Some 1000) 1000 (fun _ => Some 4096)
  = Ret (None, None) /\
  (1000 <> 0 ->
   LPCCalculator_Create 88 8 (Some (mkLPCCalculatorConfig 0 16)) None 1000
     (fun _ => Some 4096) = Ret (None, None)) /\
  (forall w,
     (config_max_order (mkLPCCalculatorConfig 0 16) = 0%nat
      \/ config_max_num_samples (mkLPCCalculatorConfig 0 16) = 0%nat
      \/ 1000 < work_area_bytes 88 8 (mkLPCCalculatorConfig 0 16)) ->
     LPCCalculator_Create 88 8 (Some (mkLPCCalculatorConfig 0 16)) (Some w) 1000
       (fun _ => Some 4096) = Ret (None, None)) /\
  ((config_max_order (mkLPCCalculatorConfig 0 16) = 0%nat
    \/ config_max_num_samples (mkLPCCalculatorConfig 0 16) = 0%nat) ->
   LPCCalculator_Create 88 8 (Some (mkLPCCalculatorConfig 0 16)) None 0
     (fun _ => Some 4096)
   = Ret (None, (fun _ : Z => Some 4096)
                  (work_area_bytes 88 8 (mkLPCCalculatorConfig 0 16)))).
Proof.
  apply (Create_refusals 88 8 (mkLPCCalculatorConfig 0 16) (Some 1000) 1000
           (fun _ => Some 4096)); try lia.
  vm_compute. reflexivity.
Defined.

(* ------------------------------------------------------------------ *)
(** ** Exact real arithmetic: autocorrelation and Levinson-Durbin       *)
(* ------------------------------------------------------------------ *)

Local Open Scope R_scope.

(** ** Finite sums of reals *)

Section Sums.

Lemma rsum_ext n (f g : nat -> R) :
  (forall i, (i < n)%nat -> f i = g i) -> rsum n f = rsum n g.
Proof.
  induction n as [|n IH]; intros H; simpl; [reflexivity |].
  rewrite IH by (intros i Hi; apply H; lia). rewrite H by lia. reflexivity.
Qed.

Lemma rsum_zero n (f : nat -> R) :
  (forall i, (i < n)%nat -> f i = 0) -> rsum n f = 0.
Proof.
  induction n as [|n IH]; intros H; simpl; [reflexivity |].
  rewrite IH by (intros i Hi; apply H; lia). rewrite H by lia. lra.
Qed.

Lemma rsum_plus n (f g : nat -> R) :
  rsum n (fun i => f i + g i) = rsum n f + rsum n g.
Proof. induction n as [|n IH]; simpl; [lra |]. rewrite IH. lra. Qed.

Lemma rsum_scal n c (f : nat -> R) :
  rsum n (fun i => c * f i) = c * rsum n f.
Proof. induction n as [|n IH]; simpl; [lra |]. rewrite IH. lra. Qed.

Lemma rsum_scal_r n c (f : nat -> R) :
  rsum n (fun i => f i * c) = rsum n f * c.
Proof. induction n as [|n IH]; simpl; [lra |]. rewrite IH. lra. Qed.

Lemma rsum_app n m (f : nat -> R) :
  rsum (n + m) f = rsum n f + rsum m (fun i => f (n + i)%nat).
Proof.
  induction m as [|m IH]; simpl.
  - rewrite Nat.add_0_r. lra.
  - replace (n + Datatypes.S m)%nat with (Datatypes.S (n + m)) by lia.
    simpl. rewrite IH. lra.
Qed.

Lemma rsum_swap n m (f : nat -> nat -> R) :
  rsum n (fun i => rsum m (fun j => f i j))
  = rsum m (fun j => rsum n (fun i => f i j)).
Proof.
  induction n as [|n IH]; simpl.
  - symmetry. apply rsum_zero. reflexivity.
  - rewrite IH, <- rsum_plus. reflexivity.
Qed.

Lemma rsum_rev n (f : nat -> R) :
  rsum n (fun i => f (n - 1 - i)%nat) = rsum n f.
Proof.
  induction n as [|n IH]; [reflexivity |].
  change (Datatypes.S n) with (1 + n)%nat at 1.
  rewrite rsum_app.
  rewrite (rsum_ext n _ (fun i => f (n - 1 - i)%nat))
    by (intros i Hi; f_equal; lia).
  rewrite IH. simpl. replace (n - 0 - 0)%nat with n by lia. lra.
Qed.

Lemma rsum_nonneg n (f : nat -> R) :
  (forall i, (i < n)%nat -> 0 <= f i) -> 0 <= rsum n f.
Proof.
  induction n as [|n IH]; intros H; simpl; [lra |].
  specialize (IH ltac:(intros i Hi; apply H; lia)).
  specialize (H n ltac:(lia)). lra.
Qed.

Lemma rsum_nonneg_zero n (f : nat -> R) :
  (forall i, (i < n)%nat -> 0 <= f i) -> rsum n f = 0 ->
  forall i, (i < n)%nat -> f i = 0.
Proof.
  induction n as [|n IH]; intros Hpos Hsum i Hi; [lia |].
  simpl in Hsum.
  assert (H1 : 0 <= rsum n f) by (apply rsum_nonneg; intros; apply Hpos; lia).
  assert (H2 : 0 <= f n) by (apply Hpos; lia).
  destruct (Nat.eq_dec i n) as [->|Hne]; [lra |].
  apply IH; [intros; apply Hpos; lia | lra | lia].
Qed.

End Sums.

(** ** The Toeplitz form of the biased autocorrelation *)

Section Toeplitz.
Variables (data : list R) (N : nat).

(** The block, zero outside [0 .. N-1]. *)
Let xt (t : nat) : R := if (t <? N)%nat then nth t data 0 else 0.
Let rho : nat -> R := biased_autocorrelation data N.
(** The block delayed by [i] samples. *)
Let delayed (n i : nat) : R := if (i <=? n)%nat then xt (n - i) else 0.

Lemma rho_xt l : rho l = rsum (N - l) (fun t => xt t * xt (t + l)).
Proof.
  unfold rho, biased_autocorrelation. apply rsum_ext. intros t Ht. unfold xt.
  replace (t <? N)%nat with true by (symmetry; apply Nat.ltb_lt; lia).
  replace (t + l <? N)%nat with true by (symmetry; apply Nat.ltb_lt; lia).
  reflexivity.
Qed.

Lemma delayed_sum_le K i j :
  (i < K)%nat -> (j <= i)%nat ->
  rsum (N + K) (fun n => delayed n j * delayed n i) = rho (i - j).
Proof.
  intros Hi Hj.
  replace (N + K)%nat with (i + (N + K - i))%nat by lia.
  rewrite rsum_app.
  rewrite (rsum_zero i).
  2:{ intros n Hn. unfold delayed.
      replace (i <=? n)%nat with false by (symmetry; apply Nat.leb_gt; lia).
      lra. }
  rewrite (rsum_ext _ _ (fun t => xt (t + (i - j)) * xt t)).
  2:{ intros t Ht. unfold delayed.
      replace (i <=? i + t)%nat with true by (symmetry; apply Nat.leb_le; lia).
      replace (j <=? i + t)%nat with true by (symmetry; apply Nat.leb_le; lia).
      f_equal; f_equal; lia. }
  replace (N + K - i)%nat with ((N - (i - j)) + (N + K - i - (N - (i - j))))%nat
    by lia.
  rewrite rsum_app.
  rewrite (rsum_zero (N + K - i - (N - (i - j)))).
  2:{ intros t Ht. unfold xt at 1.
      replace (N - (i - j) + t + (i - j) <? N)%nat with false
        by (symmetry; apply Nat.ltb_ge; lia).
      lra. }
  rewrite rho_xt. rewrite Rplus_0_l, Rplus_0_r.
  apply rsum_ext. intros t Ht. lra.
Qed.

Lemma delayed_sum K i j :
  (i < K)%nat -> (j < K)%nat ->
  rsum (N + K) (fun n => delayed n j * delayed n i) = rho (lag_between j i).
Proof.
  intros Hi Hj. unfold lag_between.
  destruct (Nat.le_gt_cases j i) as [Hle|Hgt].
  - replace (j - i + (i - j))%nat with (i - j)%nat by lia.
    apply delayed_sum_le; assumption.
  - replace (j - i + (i - j))%nat with (j - i)%nat by lia.
    rewrite <- (delayed_sum_le K j i) by lia.
    apply rsum_ext. intros n Hn. lra.
Qed.

(** The output of the prediction-error filter with taps [a 0 .. a (K-1)]. *)
Let filtered (a : nat -> R) (K n : nat) : R :=
  rsum K (fun i => a i * delayed n i).

(** The quadratic form of the autocorrelation matrix is the energy of the
    filter output. *)
Lemma toeplitz_form_energy (a : nat -> R) K :
  rsum K (fun j => a j * rsum K (fun i => a i * rho (lag_between j i)))
  = rsum (N + K) (fun n => filtered a K n * filtered a K n).
Proof.
  rewrite (rsum_ext K _
             (fun j => rsum (N + K) (fun n =>
                rsum K (fun i => (a j * delayed n j) * (a i * delayed n i))))).
  2:{ intros j Hj. rewrite <- rsum_scal.
      rewrite (rsum_ext K _
                 (fun i => rsum (N + K)
                    (fun n => (a j * delayed n j) * (a i * delayed n i)))).
      2:{ intros i Hi. rewrite <- (delayed_sum K i j Hi Hj).
          rewrite <- !rsum_scal. apply rsum_ext. intros n Hn. lra. }
      apply rsum_swap. }
  rewrite rsum_swap. apply rsum_ext. intros n Hn.
  unfold filtered. rewrite <- rsum_scal_r. apply rsum_ext. intros j Hj.
  rewrite <- rsum_scal. reflexivity.
Qed.

Lemma filtered_first_nonzero (a : nat -> R) K n :
  a 0%nat = 1 -> (1 <= K)%nat ->
  (forall t, (t < n)%nat -> xt t = 0) ->
  filtered a K n = xt n.
Proof.
  intros Ha HK Hz. unfold filtered.
  replace K with (1 + (K - 1))%nat by lia.
  rewrite rsum_app. simpl.
  rewrite (rsum_zero (K - 1)).
  2:{ intros i Hi. unfold delayed.
      destruct (Nat.leb_spec (Datatypes.S i) n); [| lra].
      rewrite Hz by lia. lra. }
  unfold delayed. simpl. rewrite Ha, Nat.sub_0_r. lra.
Qed.

(** The form is positive as soon as the block has power. *)
Lemma toeplitz_form_positive (a : nat -> R) K :
  a 0%nat = 1 -> (1 <= K)%nat -> 0 < rho 0 ->
  0 < rsum K (fun j => a j * rsum K (fun i => a i * rho (lag_between j i))).
Proof.
  intros Ha HK Hpow. rewrite toeplitz_form_energy.
  assert (Hnn : 0 <= rsum (N + K) (fun n => filtered a K n * filtered a K n)).
  { apply rsum_nonneg. intros n _. apply Rle_0_sqr. }
  destruct Hnn as [Hlt | Heq]; [exact Hlt | exfalso].
  assert (Hy : forall n, (n < N + K)%nat -> filtered a K n * filtered a K n = 0).
  { apply rsum_nonneg_zero; [| symmetry; exact Heq].
    intros n _. apply Rle_0_sqr. }
  assert (Hx : forall n, (n < N)%nat -> forall t, (t <= n)%nat -> xt t = 0).
  { induction n as [|n IH]; intros Hn t Ht.
    - assert (t = 0%nat) by lia. subst t.
      rewrite <- (filtered_first_nonzero a K 0 Ha HK) by (intros; lia).
      specialize (Hy 0%nat ltac:(lia)). nra.
    - destruct (Nat.eq_dec t (Datatypes.S n)) as [->|Hne].
      + rewrite <- (filtered_first_nonzero a K (Datatypes.S n) Ha HK)
          by (intros u Hu; apply IH; lia).
        specialize (Hy (Datatypes.S n) ltac:(lia)). nra.
      + apply IH; lia. }
  rewrite rho_xt in Hpow. rewrite rsum_zero in Hpow; [lra |].
  intros t Ht. rewrite (Hx t) by lia. lra.
Qed.

(** *** One step of the Levinson-Durbin recursion *)


Lemma solves_error_positive a k e :
  solves_normal_equations rho a k e -> 0 < rho 0 -> 0 < e.
Proof.
  intros (Ha & Hrows & He) Hpow.
  pose proof (toeplitz_form_positive a (k + 1) Ha ltac:(lia) Hpow) as Hpos.
  replace (rsum (k + 1) (fun j => a j * rsum (k + 1) (fun i => a i * rho (lag_between j i))))
    with e in Hpos; [exact Hpos |].
  replace (k + 1)%nat with (1 + k)%nat at 1 by lia.
  rewrite rsum_app. simpl.
  rewrite (rsum_zero k).
  2:{ intros j Hj. change (rsum (k + 1) (fun i => a i * rho (lag_between (Datatypes.S j) i))) with (normal_row rho a k (Datatypes.S j)). rewrite Hrows by lia. lra. }
  change (rsum (k + 1) (fun i => a i * rho (lag_between 0 i))) with (normal_row rho a k 0). rewrite He, Ha. lra.
Qed.

Lemma levinson_step a a' k e gamma :
  solves_normal_equations rho a k e -> e <> 0 ->
  gamma = rsum (k + 1) (fun i => a i * rho (k + 1 - i)) / - e ->
  a' 0%nat = 1 + gamma * 0 ->
  (forall i, (1 <= i <= k)%nat -> a' i = a i + gamma * a (k + 1 - i)%nat) ->
  a' (k + 1)%nat = 0 + gamma * 1 ->
  solves_normal_equations rho a' (k + 1) (e * (1 - gamma * gamma)).
Proof.
  intros (Ha & Hrows & He) Hne Hgamma H0 Hmid Hlast.
  pose (A := fun i => if (i <=? k)%nat then a i else 0).
  assert (Ha' : forall i, (i < k + 2)%nat -> a' i = A i + gamma * A (k + 1 - i)%nat).
  { intros i Hi. unfold A.
    destruct (Nat.eq_dec i 0) as [->|Hi0].
    - rewrite H0. simpl. rewrite Ha.
      replace (k + 1 - 0 <=? k)%nat with false by (symmetry; apply Nat.leb_gt; lia).
      reflexivity.
    - destruct (Nat.eq_dec i (k + 1)) as [->|Hik].
      + rewrite Hlast.
        replace (k + 1 <=? k)%nat with false by (symmetry; apply Nat.leb_gt; lia).
        replace (k + 1 - (k + 1))%nat with 0%nat by lia. simpl. rewrite Ha.
        reflexivity.
      + rewrite Hmid by lia.
        replace (i <=? k)%nat with true by (symmetry; apply Nat.leb_le; lia).
        replace (k + 1 - i <=? k)%nat with true by (symmetry; apply Nat.leb_le; lia).
        reflexivity. }
  assert (HA : forall j, rsum (k + 2) (fun i => A i * rho (lag_between j i)) = normal_row rho a k j).
  { intros j. replace (k + 2)%nat with (Datatypes.S (k + 1)) by lia. simpl.
    unfold A at 2.
    replace (k + 1 <=? k)%nat with false by (symmetry; apply Nat.leb_gt; lia).
    rewrite Rmult_0_l, Rplus_0_r. apply rsum_ext. intros i Hi. unfold A.
    replace (i <=? k)%nat with true by (symmetry; apply Nat.leb_le; lia).
    reflexivity. }
  assert (Hrev : forall j, (j <= k + 1)%nat ->
            rsum (k + 2) (fun i => A (k + 1 - i)%nat * rho (lag_between j i))
            = normal_row rho a k (k + 1 - j)).
  { intros j Hj. rewrite <- HA.
    rewrite <- (rsum_rev (k + 2) (fun i => A i * rho (lag_between (k + 1 - j) i))).
    apply rsum_ext. intros i Hi.
    replace (k + 2 - 1 - i)%nat with (k + 1 - i)%nat by lia.
    f_equal. f_equal. unfold lag_between. lia. }
  assert (Hrow' : forall j, (j <= k + 1)%nat ->
            normal_row rho a' (k + 1) j = normal_row rho a k j + gamma * normal_row rho a k (k + 1 - j)).
  { intros j Hj. unfold normal_row at 1.
    replace (k + 1 + 1)%nat with (k + 2)%nat by lia.
    rewrite (rsum_ext (k + 2) _
               (fun i => A i * rho (lag_between j i)
                         + gamma * (A (k + 1 - i)%nat * rho (lag_between j i)))).
    2:{ intros i Hi. rewrite Ha' by lia. lra. }
    rewrite rsum_plus, rsum_scal, HA, Hrev by lia. reflexivity. }
  assert (Htop : normal_row rho a k (k + 1) = - gamma * e).
  { unfold normal_row. rewrite (rsum_ext (k + 1) _ (fun i => a i * rho (k + 1 - i))).
    2:{ intros i Hi. f_equal. f_equal. unfold lag_between. lia. }
    rewrite Hgamma. field. exact Hne. }
  split; [rewrite H0; lra |]. split.
  - intros j Hj. rewrite Hrow' by lia.
    destruct (Nat.eq_dec j (k + 1)) as [->|Hjk].
    + replace (k + 1 - (k + 1))%nat with 0%nat by lia. rewrite Htop, He. lra.
    + rewrite !Hrows by lia. lra.
  - rewrite Hrow' by lia. rewrite Nat.sub_0_r, Htop, He. lra.
Qed.

(** The reflection coefficient of a step is strictly inside the unit
    interval. *)
Lemma levinson_step_reflection a a' k e gamma :
  solves_normal_equations rho a k e -> 0 < rho 0 ->
  solves_normal_equations rho a' (k + 1) (e * (1 - gamma * gamma)) ->
  0 < e * (1 - gamma * gamma) /\ Rabs gamma < 1.
Proof.
  intros Hs Hpow Hs'.
  pose proof (solves_error_positive a k e Hs Hpow) as He.
  pose proof (solves_error_positive a' (k + 1) _ Hs' Hpow) as He'.
  split; [exact He' |].
  assert (Hg : gamma * gamma < 1) by nra.
  apply Rabs_def1; nra.
Qed.

End Toeplitz.

(** ** The autocorrelation code in exact arithmetic *)

Ltac real_arith :=
  cbn [d_of_Z d_add d_sub d_mul d_div d_opp d_abs d_ltb d_leb d_flt_epsilon
       real_ops] in *.

Ltac step_R :=
  repeat (first
    [ rewrite (rd_in _ _ 0%R) by (rewrite ?length_upd; lia)
    | rewrite wr_in by (rewrite ?length_upd; lia) ];
    cbn [bind]).

Lemma upd_upd {A : Type} (l : list A) i v w : upd (upd l i v) i w = upd l i w.
Proof.
  revert i. induction l as [|h t IH]; intros [|i]; simpl; auto.
  rewrite IH. reflexivity.
Qed.

Lemma upd_nth_same (l : list R) i : upd l i (nth i l 0) = l.
Proof.
  revert i. induction l as [|h t IH]; intros [|i]; simpl; auto.
  rewrite IH. reflexivity.
Qed.

Lemma nth_upd_same (l : list R) i v :
  (i < length l)%nat -> nth i (upd l i v) 0 = v.
Proof. intros Hi. rewrite nth_upd by exact Hi. rewrite Nat.eqb_refl. reflexivity. Qed.

Lemma nth_upd_other (l : list R) i k v :
  k <> i -> nth k (upd l i v) 0 = nth k l 0.
Proof.
  revert i k. induction l as [|h t IH]; intros i k Hne; simpl.
  - reflexivity.
  - destruct i as [|i], k as [|k]; simpl; try reflexivity; try lia.
    apply IH. lia.
Qed.

(** A loop that adds [f i] to one cell of a buffer. *)
Lemma accumulate_cell (body : nat -> list R -> outcome (list R))
    (cell n : nat) (f : nat -> R) (b : list R) :
  (cell < length b)%nat ->
  (forall i b', (i < n)%nat -> length b' = length b ->
                body i b' = Ret (upd b' cell (nth cell b' 0 + f i))) ->
  for_range 0 n body b = Ret (upd b cell (nth cell b 0 + rsum n f)).
Proof.
  intros Hc Hbody.
  destruct (for_range_invariant
              (fun j b' => b' = upd b cell (nth cell b 0 + rsum j f))
              body 0 n b) as [b' [Hrun Hb']].
  - lia.
  - simpl. rewrite Rplus_0_r, upd_nth_same. reflexivity.
  - intros j t Hj Ht. subst t. rewrite Hbody by (rewrite ?length_upd; lia).
    eexists. split; [reflexivity |].
    rewrite nth_upd_same by exact Hc. rewrite upd_upd. simpl.
    f_equal. lra.
  - rewrite Hrun, Hb'. reflexivity.
Qed.

Lemma rsum_blocks L b (g : nat -> R) :
  rsum (L * b) g = rsum L (fun t => rsum b (fun s => g (t * b + s)%nat)).
Proof.
  induction L as [|L IH]; simpl; [reflexivity |].
  replace (b + L * b)%nat with (L * b + b)%nat by lia.
  rewrite rsum_app, IH. reflexivity.
Qed.

Lemma rsum_double n (h : nat -> R) :
  rsum (2 * n) h = rsum n h + rsum n (fun i => h (n + i)%nat).
Proof. replace (2 * n)%nat with (n + n)%nat by lia. apply rsum_app. Qed.

(** The blocked sum of the source covers the products of the first
    [2 * lag * L] indices. *)
Lemma blocked_sum lag L (x : nat -> R) :
  rsum lag (fun i => rsum L (fun t =>
     x (t * (2 * lag) + lag + i)%nat
     * (x (t * (2 * lag) + i)%nat + x (t * (2 * lag) + 2 * lag + i)%nat)))
  = rsum (L * (2 * lag)) (fun j => x j * x (j + lag)%nat).
Proof.
  rewrite rsum_swap, rsum_blocks. apply rsum_ext. intros t Ht.
  rewrite rsum_double, <- rsum_plus. apply rsum_ext. intros i Hi.
  replace (t * (2 * lag) + 2 * lag + i)%nat
    with (t * (2 * lag) + (lag + i) + lag)%nat by lia.
  replace (t * (2 * lag) + lag + i)%nat
    with (t * (2 * lag) + i + lag)%nat by lia.
  replace (t * (2 * lag) + (lag + i))%nat
    with (t * (2 * lag) + i + lag)%nat by lia.
  lra.
Qed.

Section AutoCorrelation.
Variables (data : list R) (N : nat).
Hypothesis Hdata : (N <= length data)%nat.

Let x (j : nat) : R := nth j data 0.

(** One round of the lag loop. *)
Lemma lag_round (ac : list R) (lag : nat) :
  (1 <= lag)%nat -> (lag < N)%nat -> (lag < length ac)%nat ->
  let lag2 := (2 * lag)%nat in
  let L := if (3 * lag <? N)%nat then (1 + (N - 3 * lag) / lag2)%nat else 0%nat in
  let Llag2 := (L * lag2)%nat in
  bind
    (for_range 0 lag
       (fun i ac =>
          for_range 0 L
            (fun t ac =>
               let l := (t * lag2)%nat in
               x1 <- rd data (l + lag + i) ;;
               x0 <- rd data (l + i) ;;
               x2 <- rd data (l + lag2 + i) ;;
               r <- rd ac lag ;;
               wr ac lag (d_add r (d_mul x1 (d_add x0 x2))))
            ac)
       ac)
    (fun ac =>
       for_range 0 (N - Llag2 - lag)
         (fun i ac =>
            x1 <- rd data (Llag2 + lag + i) ;;
            x0 <- rd data (Llag2 + i) ;;
            r <- rd ac lag ;;
            wr ac lag (d_add r (d_mul x1 x0)))
         ac)
  = Ret (upd ac lag (nth lag ac 0 + biased_autocorrelation data N lag)).
Proof.
  intros Hlag HlagN Hac lag2 L Llag2.
  assert (Hfit : (Llag2 + lag <= N)%nat).
  { destruct (blocks_within lag N Hlag) as [H|H]; [exact H | lia]. }
  rewrite (accumulate_cell _ lag lag
             (fun i => rsum L (fun t =>
                x (t * lag2 + lag + i)%nat
                * (x (t * lag2 + i)%nat + x (t * lag2 + lag2 + i)%nat)))).
  2: exact Hac.
  2:{ intros i b Hi Hb.
      apply accumulate_cell; [lia |].
      intros t b' Ht Hb'.
      assert (t * lag2 + lag2 <= Llag2)%nat by (unfold Llag2; nia).
      step_R. real_arith. reflexivity. }
  cbn [bind].
  rewrite (accumulate_cell _ lag (N - Llag2 - lag)
             (fun i => x (Llag2 + lag + i)%nat * x (Llag2 + i)%nat)).
  2: rewrite length_upd; exact Hac.
  2:{ intros i b Hi Hb. rewrite length_upd in Hb.
      step_R. real_arith. reflexivity. }
  rewrite nth_upd_same by exact Hac. rewrite upd_upd. f_equal.
  unfold biased_autocorrelation. fold x.
  replace (N - lag)%nat with (Llag2 + (N - Llag2 - lag))%nat by lia.
  rewrite rsum_app. unfold lag2, Llag2. rewrite blocked_sum.
  fold lag2. fold Llag2.
  assert (Hrest : rsum (N - Llag2 - lag)
                    (fun i => x (Llag2 + lag + i)%nat * x (Llag2 + i)%nat)
                  = rsum (N - Llag2 - lag)
                      (fun i => x (Llag2 + i)%nat * x (Llag2 + i + lag)%nat)).
  { apply rsum_ext. intros i Hi.
    replace (Llag2 + i + lag)%nat with (Llag2 + lag + i)%nat by lia. lra. }
  rewrite Hrest. f_equal. unfold x. lra.
Qed.

(** [LPC_CalculateAutoCorrelation], run in exact arithmetic, returns the
    biased sample autocorrelation at the lags below [order]. *)
Lemma CalculateAutoCorrelation_exact (ac : list R) (order : nat) :
  (1 <= order)%nat -> (order <= N)%nat -> (order <= length ac)%nat ->
  exists r,
    LPC_CalculateAutoCorrelation data N ac order = Ret r /\
    length r = length ac /\
    forall lag, (lag < order)%nat -> nth lag r 0 = biased_autocorrelation data N lag.
Proof.
  intros Ho HoN Hoac. unfold LPC_CalculateAutoCorrelation.
  replace (order <=? N)%nat with true by (symmetry; apply Nat.leb_le; lia).
  cbn [c_assert bind].
  match goal with |- context [for_range 0 order ?b ac] =>
    destruct (for_range_invariant
                (fun j t => length t = length ac /\
                            forall i, (i < j)%nat -> nth i t 0 = 0)
                b 0 order ac) as [ac0 [Hrun0 [Hlen0 Hzero]]]
  end.
  { lia. }
  { split; [reflexivity | intros; lia]. }
  { intros j t Hj [Hl Hz]. step_R. eexists. split; [reflexivity |].
    split; [rewrite length_upd; exact Hl |].
    intros i Hi. real_arith.
    destruct (Nat.eq_dec i j) as [->|Hne].
    - apply nth_upd_same. lia.
    - rewrite nth_upd_other by exact Hne. apply Hz. lia. }
  rewrite Hrun0. cbn [bind].
  rewrite (accumulate_cell _ 0 N (fun i => x i * x i)).
  2: lia.
  2:{ intros i b Hi Hb. step_R. real_arith. reflexivity. }
  cbn [bind].
  match goal with |- context [for_range 1 order ?b ?s] =>
    destruct (for_range_invariant
                (fun j t => length t = length ac /\
                            (forall i, (i < j)%nat ->
                                       nth i t 0 = biased_autocorrelation data N i) /\
                            (forall i, (j <= i < order)%nat -> nth i t 0 = 0))
                b 1 order s) as [r [Hrun [Hlen [Hval _]]]]
  end.
  { lia. }
  { split; [rewrite length_upd; exact Hlen0 |]. split.
    - intros i Hi. assert (i = 0%nat) by lia. subst i.
      rewrite nth_upd_same by lia. rewrite Hzero by lia.
      unfold biased_autocorrelation. rewrite Nat.sub_0_r, Rplus_0_l.
      apply rsum_ext. intros j Hj. rewrite Nat.add_0_r. reflexivity.
    - intros i Hi. rewrite nth_upd_other by lia. apply Hzero. lia. }
  { intros lag t Hlag (Hl & Hv & Hz).
    pose proof (lag_round t lag ltac:(lia) ltac:(lia) ltac:(lia)) as Hround.
    cbv zeta in Hround. cbv zeta.
    match goal with
    | H : bind ?m ?k = Ret ?res |- exists t', bind ?m' ?k' = Ret t' /\ _ =>
        change (bind m' k') with (bind m k); rewrite H
    end.
    eexists. split; [reflexivity |].
    split; [rewrite length_upd; exact Hl |]. split.
    - intros i Hi. destruct (Nat.eq_dec i lag) as [->|Hne].
      + rewrite nth_upd_same by lia. rewrite Hz by lia. lra.
      + rewrite nth_upd_other by exact Hne. apply Hv. lia.
    - intros i Hi. rewrite nth_upd_other by lia. apply Hz. lia. }
  exists r. split; [exact Hrun |]. split; [exact Hlen | exact Hval].
Qed.
End AutoCorrelation.

(** X7.  The autocorrelation loop pairs the products that share a factor
    ([x[l+lag+i] * (x[l+i] + x[l+2 lag+i])]) and adds the rest one by one.
    In exact arithmetic, on a block of [N >= order] samples (small enough for
    [3 * lag] not to wrap), the result is the plain lagged sum at every lag
    below [order]: [auto_corr[lag] = sum_{j < N - lag} x[j] * x[j + lag]],
    whatever [auto_corr] held before. *)
Theorem CalculateAutoCorrelation_is_lagged_sum
    (data auto_corr : list R) (N order : nat) :
  (N <= length data)%nat -> (Z.of_nat (3 * N) < 2 ^ 32)%Z ->
  (1 <= order <= N)%nat -> (order <= length auto_corr)%nat ->
  exists r,
    LPC_CalculateAutoCorrelation data N auto_corr order = Ret r /\
    length r = length auto_corr /\
    forall lag, (lag < order)%nat ->
      nth lag r 0 = rsum (N - lag) (fun j => nth j data 0 * nth (j + lag) data 0).
Proof.
  intros Hdata _ [Ho HoN] Hac.
  destruct (CalculateAutoCorrelation_exact data N Hdata auto_corr order Ho HoN Hac)
    as (r & Hrun & Hlen & Hval).
  exists r. split; [exact Hrun | split; [exact Hlen |]].
  intros lag Hlag. rewrite (Hval lag Hlag). reflexivity.
Qed.

Lemma CalculateAutoCorrelation_is_lagged_sum_witness :
  exists r,
    LPC_CalculateAutoCorrelation [1; 2; 3; 4; 5; 6; 7] 7 [9; 9; 9; 9] 3 = Ret r /\
    length r = length [9; 9; 9; 9] /\
    forall lag, (lag < 3)%nat ->
      nth lag r 0
      = rsum (7 - lag)
          (fun j => nth j [1; 2; 3; 4; 5; 6; 7] 0
                    * nth (j + lag) [1; 2; 3; 4; 5; 6; 7] 0).
Proof.
  apply (CalculateAutoCorrelation_is_lagged_sum
           [1; 2; 3; 4; 5; 6; 7] [9; 9; 9; 9] 7 3); simpl; lia.
Defined.

(** ** The Levinson-Durbin code in exact arithmetic *)

Lemma accumulate_value (body : nat -> R -> outcome R) (n : nat)
    (f : nat -> R) (acc0 : R) :
  (forall i acc, (i < n)%nat -> body i acc = Ret (acc + f i)) ->
  for_range 0 n body acc0 = Ret (acc0 + rsum n f).
Proof.
  intros Hbody.
  destruct (for_range_invariant (fun j acc => acc = acc0 + rsum j f)
              body 0 n acc0) as [acc [Hrun Hacc]].
  - lia.
  - simpl. lra.
  - intros j t Hj Ht. rewrite Hbody by lia. eexists. split; [reflexivity |].
    subst t. simpl. lra.
  - rewrite Hrun, Hacc. reflexivity.
Qed.

Lemma solves_normal_equations_ext rho a b k e :
  (forall i, (i <= k)%nat -> a i = b i) ->
  solves_normal_equations rho a k e -> solves_normal_equations rho b k e.
Proof.
  intros Hab (Ha & Hrows & He).
  assert (Hrow : forall j, normal_row rho b k j = normal_row rho a k j).
  { intros j. unfold normal_row. apply rsum_ext. intros i Hi.
    rewrite Hab by lia. reflexivity. }
  split; [rewrite <- Hab by lia; exact Ha |]. split.
  - intros j Hj. rewrite Hrow. apply Hrows. exact Hj.
  - rewrite Hrow. exact He.
Qed.

Lemma Rltb_true x y : x < y -> Rltb x y = true.
Proof. intros H. unfold Rltb. destruct (Rlt_dec x y); [reflexivity | contradiction]. Qed.

Lemma Rltb_false x y : Rltb x y = false -> y <= x.
Proof. unfold Rltb. destruct (Rlt_dec x y); [discriminate | lra]. Qed.

Lemma Rleb_true x y : x <= y -> Rleb x y = true.
Proof. intros H. unfold Rleb. destruct (Rle_dec x y); [reflexivity | contradiction]. Qed.

(** The zeroing loop at the start of the recursion. *)
Lemma Levinson_zeroing (lpcc : LPCCalculator R) (n : nat) :
  calculator_sized lpcc ->
  (n <= max_order lpcc + 2)%nat ->
  exists a u v,
    for_range 0 n
      (fun i '(a, u, v) =>
         v <- wr v i (d_of_Z 0) ;;
         u <- wr u i (d_of_Z 0) ;;
         a <- wr a i (d_of_Z 0) ;;
         Ret (a, u, v))
      (a_vec lpcc, u_vec lpcc, v_vec lpcc) = Ret (a, u, v) /\
    length a = (max_order lpcc + 2)%nat /\
    length u = (max_order lpcc + 2)%nat /\
    length v = (max_order lpcc + 2)%nat.
Proof.
  intros (_ & _ & Hla & Hlu & Hlv & _) Hn.
  match goal with |- context [for_range 0 n ?b ?s] =>
    destruct (for_range_invariant
                (fun _ (t : list R * list R * list R) =>
                   length (fst (fst t)) = (max_order lpcc + 2)%nat /\
                   length (snd (fst t)) = (max_order lpcc + 2)%nat /\
                   length (snd t) = (max_order lpcc + 2)%nat)
                b 0 n s) as [[[a u] v] [Hrun Hlen]]
  end.
  - lia.
  - cbn [fst snd]. auto.
  - intros j [[a u] v] Hj (H1 & H2 & H3). cbn [fst snd] in *. step_R.
    eexists. split; [reflexivity |]. cbn [fst snd]. rewrite !length_upd. auto.
  - exists a, u, v. cbn [fst snd] in Hlen. auto.
Qed.

Section LevinsonExact.
Variables (data : list R) (N : nat).
Variables (ac : list R) (order m : nat).
Let rho : nat -> R := biased_autocorrelation data N.
Hypothesis Hm : (order <= m)%nat.
Hypothesis Hac_len : length ac = (m + 1)%nat.
Hypothesis Hac : forall l, (l <= order)%nat -> nth l ac 0 = rho l.
Hypothesis Hpower : 0 < rho 0.

(** What holds of the loop state before round [k]. *)
Let round_inv (k : nat) (st : levinson_state R) : Prop :=
  length (ls_a st) = (m + 2)%nat /\
  length (ls_u st) = (m + 2)%nat /\
  length (ls_v st) = (m + 2)%nat /\
  length (ls_parcor st) = (m + 1)%nat /\
  solves_normal_equations rho (fun i => nth i (ls_a st) 0) k (ls_ek st) /\
  forall j, (1 <= j <= k)%nat -> Rabs (nth j (ls_parcor st) 0) < 1.

Lemma Levinson_step_exact (k : nat) (st : levinson_state R) :
  (1 <= k < order)%nat -> round_inv k st ->
  exists st', Levinson_step ac k st = Ret st' /\ round_inv (Datatypes.S k) st'.
Proof.
  intros Hk (Hla & Hlu & Hlv & Hlp & Hsol & Hpar).
  destruct st as [a u v parcor ek]. cbn [ls_a ls_u ls_v ls_parcor ls_ek] in *.
  pose (af := fun i => nth i a 0).
  pose proof (solves_error_positive data N af k ek Hsol Hpower) as Hek.
  unfold Levinson_step. cbn [ls_a ls_u ls_v ls_parcor ls_ek].
  (* the reflection coefficient *)
  rewrite (accumulate_value _ (k + 1) (fun i => af i * rho (k + 1 - i))).
  2:{ intros i acc Hi. step_R. real_arith. rewrite Hac by lia. reflexivity. }
  cbn [bind]. real_arith.
  set (gamma := (0 + rsum (k + 1) (fun i => af i * rho (k + 1 - i))) / - ek).
  assert (Hgamma : gamma = rsum (k + 1) (fun i => af i * rho (k + 1 - i)) / - ek).
  { unfold gamma. rewrite Rplus_0_l. reflexivity. }
  pose (af' := fun i => if (i =? 0)%nat then 1 + gamma * 0
                        else if (i <=? k)%nat then af i + gamma * af (k + 1 - i)%nat
                        else 0 + gamma * 1).
  assert (Hsol' : solves_normal_equations rho af' (k + 1) (ek * (1 - gamma * gamma))).
  { apply (levinson_step data N af af' k ek gamma Hsol); [lra | exact Hgamma | | |].
    - reflexivity.
    - intros i Hi. unfold af'.
      replace (i =? 0)%nat with false by (symmetry; apply Nat.eqb_neq; lia).
      replace (i <=? k)%nat with true by (symmetry; apply Nat.leb_le; lia).
      reflexivity.
    - unfold af'.
      replace (k + 1 =? 0)%nat with false by (symmetry; apply Nat.eqb_neq; lia).
      replace (k + 1 <=? k)%nat with false by (symmetry; apply Nat.leb_gt; lia).
      reflexivity. }
  destruct (levinson_step_reflection data N af af' k ek gamma Hsol Hpower Hsol')
    as [Hek' Hrefl].
  rewrite Rleb_true by lra. cbn [c_assert bind].
  (* u and v *)
  match goal with |- context [for_range 0 k ?b (u, v)] =>
    destruct (for_range_invariant
                (fun j (uv : list R * list R) =>
                   length (fst uv) = (m + 2)%nat /\
                   length (snd uv) = (m + 2)%nat /\
                   (forall i, (1 <= i <= j)%nat -> nth i (fst uv) 0 = af i) /\
                   (forall i, (k - j < i <= k)%nat ->
                              nth i (snd uv) 0 = af (k + 1 - i)%nat))
                b 0 k (u, v)) as [[u1 v1] [Hrun (Hlu1 & Hlv1 & Hu1 & Hv1)]]
  end.
  { lia. }
  { repeat split; try assumption; intros; lia. }
  { intros j [uj vj] Hj (Hl1 & Hl2 & Huj & Hvj). cbn [fst snd] in *.
    step_R. eexists. split; [reflexivity |]. cbn [fst snd].
    repeat split; rewrite ?length_upd; try assumption.
    - intros i Hi. destruct (Nat.eq_dec i (j + 1)) as [->|Hne].
      + rewrite nth_upd_same by lia. reflexivity.
      + rewrite nth_upd_other by exact Hne. apply Huj. lia.
    - intros i Hi. destruct (Nat.eq_dec i (k - j)) as [->|Hne].
      + rewrite nth_upd_same by lia. unfold af. f_equal. lia.
      + rewrite nth_upd_other by exact Hne. apply Hvj. lia. }
  rewrite Hrun. cbn [bind fst snd] in *. step_R.
  set (u2 := upd (upd u1 0 1) (k + 1) 0).
  set (v2 := upd (upd v1 0 0) (k + 1) 1).
  assert (Hlu2 : length u2 = (m + 2)%nat) by (unfold u2; rewrite !length_upd; exact Hlu1).
  assert (Hlv2 : length v2 = (m + 2)%nat) by (unfold v2; rewrite !length_upd; exact Hlv1).
  (* the new taps *)
  match goal with |- context [for_range 0 (k + 2) ?b a] =>
    destruct (for_range_invariant
                (fun j t =>
                   length t = (m + 2)%nat /\
                   forall i, (i < j)%nat ->
                             nth i t 0 = nth i u2 0 + gamma * nth i v2 0)
                b 0 (k + 2) a) as [a2 [Hrun2 (Hla2 & Ha2)]]
  end.
  { lia. }
  { split; [exact Hla | intros; lia]. }
  { intros j t Hj (Hlt & Ht). step_R. eexists. split; [reflexivity |].
    split; [rewrite length_upd; exact Hlt |].
    intros i Hi. destruct (Nat.eq_dec i j) as [->|Hne].
    - rewrite nth_upd_same by lia. reflexivity.
    - rewrite nth_upd_other by exact Hne. apply Ht. lia. }
  rewrite Hrun2. cbn [bind]. step_R.
  rewrite Rltb_true by exact Hrefl. cbn [c_assert bind].
  eexists. split; [reflexivity |].
  unfold round_inv. cbn [ls_a ls_u ls_v ls_parcor ls_ek].
  refine (conj Hla2 (conj Hlu2 (conj Hlv2 (conj _ (conj _ _))))).
  - rewrite length_upd. exact Hlp.
  - (* the normal equations of order k + 1 *)
    replace (Datatypes.S k) with (k + 1)%nat by lia.
    apply (solves_normal_equations_ext rho af'); [| exact Hsol'].
    intros i Hi. rewrite Ha2 by lia. unfold af', u2, v2.
    destruct (Nat.eq_dec i 0) as [->|Hi0].
    + simpl (0 =? 0)%nat. cbv iota.
      rewrite (nth_upd_other _ (k + 1) 0) by lia.
      rewrite (nth_upd_other _ (k + 1) 0) by lia.
      rewrite !nth_upd_same by lia. reflexivity.
    + replace (i =? 0)%nat with false by (symmetry; apply Nat.eqb_neq; lia).
      destruct (Nat.leb_spec i k) as [Hik|Hik].
      * rewrite (nth_upd_other _ (k + 1) i) by lia.
        rewrite (nth_upd_other _ (k + 1) i) by lia.
        rewrite !(nth_upd_other _ 0 i) by lia.
        rewrite Hu1, Hv1 by lia. reflexivity.
      * assert (i = (k + 1)%nat) by lia. subst i.
        rewrite !nth_upd_same by (rewrite ?length_upd; lia). reflexivity.
  - (* the PARCOR coefficients *)
    intros j Hj. destruct (Nat.eq_dec j (k + 1)) as [->|Hne].
    + rewrite nth_upd_same by lia. rewrite Rabs_Ropp. exact Hrefl.
    + rewrite nth_upd_other by exact Hne. apply Hpar. lia.
Qed.


Variable lpcc : LPCCalculator R.
Hypothesis Hsized : calculator_sized lpcc.
Hypothesis Hmax : max_order lpcc = m.
Hypothesis Hauto : auto_corr lpcc = ac.

Lemma LevinsonDurbinRecursion_exact :
  (1 <= order)%nat ->
  Rltb (Rabs (nth 0 ac 0)) (/ 2 ^ 23) = false ->
  exists lpcc',
    LPC_LevinsonDurbinRecursion lpcc order = Ret lpcc' /\
    forall k, (1 <= k <= order)%nat -> Rabs (nth k (parcor_coef lpcc') 0) < 1.
Proof.
  intros Horder Hguard.
  pose proof Hsized as (_ & _ & _ & _ & _ & _ & _ & _ & Hlc & Hlp & _).
  rewrite Hmax in Hlc, Hlp.
  unfold LPC_LevinsonDurbinRecursion. rewrite Hauto. step_R. real_arith.
  rewrite Hguard.
  destruct (Levinson_zeroing lpcc (order + 2) Hsized ltac:(lia))
    as (a0 & u0 & v0 & Hzero & Hla0 & Hlu0 & Hlv0).
  rewrite Hmax in Hla0, Hlu0, Hlv0.
  real_arith. rewrite Hzero. cbn [bind]. step_R. real_arith.
  rewrite nth_upd_same by (rewrite length_upd; lia).
  set (r0 := nth 0 ac 0). set (r1 := nth 1 ac 0).
  assert (Hr0 : r0 = rho 0) by (apply Hac; lia).
  assert (Hr1 : r1 = rho 1) by (apply Hac; lia).
  (* the first step, written out in the source, is a step from order 0 *)
  pose (af0 := fun i : nat => if (i =? 0)%nat then 1 else 0).
  pose (gamma0 := rsum (0 + 1) (fun i => af0 i * rho (0 + 1 - i)) / - rho 0).
  assert (Hg0 : gamma0 = - r1 / r0).
  { unfold gamma0, af0. simpl. rewrite <- Hr0, <- Hr1. field. lra. }
  assert (Hsol0 : solves_normal_equations rho af0 0 (rho 0)).
  { split; [reflexivity |]. split; [intros j Hj; lia |].
    unfold normal_row, af0. simpl. unfold lag_between. simpl. lra. }
  set (a1 := upd (upd a0 0 1) 1 (- r1 / r0)).
  assert (Hla1 : length a1 = (m + 2)%nat) by (unfold a1; rewrite !length_upd; exact Hla0).
  assert (Hsol1 : solves_normal_equations rho (fun i => nth i a1 0) (0 + 1)
                    (rho 0 * (1 - gamma0 * gamma0))).
  { apply (levinson_step data N af0 _ 0 (rho 0) gamma0 Hsol0); [lra | reflexivity | | |].
    - unfold a1. rewrite nth_upd_other by lia. rewrite nth_upd_same by lia. lra.
    - intros i Hi. lia.
    - unfold a1. simpl (0 + 1)%nat. rewrite nth_upd_same by (rewrite length_upd; lia).
      rewrite Hg0. lra. }
  destruct (levinson_step_reflection data N af0 _ 0 (rho 0) gamma0 Hsol0 Hpower Hsol1)
    as [_ Hrefl0].
  match goal with |- context [for_range 1 order (Levinson_step ac) ?s] =>
    destruct (for_range_invariant round_inv (Levinson_step ac) 1 order s)
      as [st [Hrun Hinv]]
  end.
  { lia. }
  { unfold round_inv. cbn [ls_a ls_u ls_v ls_parcor ls_ek]. fold a1.
    refine (conj Hla1 (conj _ (conj _ (conj _ (conj _ _))))).
    - rewrite !length_upd. exact Hlu0.
    - rewrite !length_upd. exact Hlv0.
    - rewrite !length_upd. exact Hlp.
    - replace (r0 + r1 * (- r1 / r0)) with (rho 0 * (1 - gamma0 * gamma0)).
      + exact Hsol1.
      + rewrite Hg0, <- Hr0. field. lra.
    - intros j Hj. assert (j = 1%nat) by lia. subst j.
      rewrite nth_upd_same by (rewrite length_upd; lia).
      replace (r1 / r0) with (- gamma0) by (rewrite Hg0; field; lra).
      rewrite Rabs_Ropp. exact Hrefl0. }
  { intros k st Hk Hst. apply Levinson_step_exact; assumption. }
  rewrite Hrun. cbn [bind].
  destruct Hinv as (Hla & _ & _ & _ & _ & Hpar).
  destruct (memcpy_runs (lpc_coef lpcc) (ls_a st) (order + 1)) as [Hcopy _];
    [lia | lia |].
  rewrite Hcopy. cbn [bind].
  eexists. split; [reflexivity |].
  exact Hpar.
Qed.

End LevinsonExact.

Lemma biased_autocorrelation_0_nonneg (data : list R) (N : nat) :
  0 <= biased_autocorrelation data N 0.
Proof.
  unfold biased_autocorrelation. apply rsum_nonneg. intros j _.
  rewrite Nat.add_0_r. apply Rle_0_sqr.
Qed.

Lemma LevinsonDurbinRecursion_order_zero (lpcc : LPCCalculator R) :
  calculator_sized lpcc ->
  Rltb (Rabs (nth 0 (auto_corr lpcc) 0)) (/ 2 ^ 23) = false ->
  exists lpcc', LPC_LevinsonDurbinRecursion lpcc 0 = Ret lpcc'.
Proof.
  intros Hsized Hguard.
  pose proof Hsized as (Hm & _ & _ & _ & _ & _ & _ & Hlr & Hlc & Hlp & _).
  unfold LPC_LevinsonDurbinRecursion. step_R. real_arith. rewrite Hguard.
  destruct (Levinson_zeroing lpcc (0 + 2) Hsized ltac:(lia))
    as (a0 & u0 & v0 & Hzero & Hla0 & Hlu0 & Hlv0).
  real_arith. rewrite Hzero. cbn [bind]. step_R.
  rewrite for_range_empty by lia. cbn [bind ls_a].
  match goal with |- context [memcpy ?d ?s ?n] =>
    destruct (memcpy_runs d s n) as [Hcopy _];
      [| | rewrite Hcopy]
  end.
  - simpl. lia.
  - rewrite !length_upd. simpl. lia.
  - cbn [bind]. eexists. reflexivity.
Qed.

(** C9.  In exact real arithmetic, on a block of [N >= order + 1] samples
    (the assertion of the autocorrelation step), [LPC_CalculateAutoCorrelation]
    returns the autocorrelation [r], and whenever the zero-power guard does
    not fire on it ([|r[0]| < FLT_EPSILON] is false),
    [LPC_LevinsonDurbinRecursion] runs to completion: no assertion fails, in
    particular [assert(fabs(gamma) < 1.0)] holds of the reflection coefficient
    of every round, and every PARCOR coefficient it leaves has magnitude
    strictly below 1. *)
Theorem Levinson_reflection_below_one
    (lpcc : LPCCalculator R) (data : list R) (N order : nat) :
  calculator_sized lpcc ->
  (order <= max_order lpcc)%nat ->
  (order + 1 <= N)%nat ->
  (N <= length data)%nat ->
  exists r,
    LPC_CalculateAutoCorrelation data N (auto_corr lpcc) (order + 1) = Ret r /\
    (d_ltb (d_abs (nth 0 r 0)) d_flt_epsilon = false ->
     exists lpcc',
       LPC_LevinsonDurbinRecursion (set_auto_corr lpcc r) order = Ret lpcc' /\
       forall k, (1 <= k <= order)%nat ->
                 Rabs (nth k (parcor_coef lpcc') 0) < 1).
Proof.
  intros Hsized Hord HN Hdata.
  pose proof Hsized as (Hm & Hs & Hla & Hlu & Hlv & Hlm & Hrows & Hlr & Hlc & Hlp & Hlb).
  destruct (CalculateAutoCorrelation_exact data N Hdata (auto_corr lpcc) (order + 1))
    as (r & Hrun & Hlen & Hval); [lia | lia | lia |].
  exists r. split; [exact Hrun |]. real_arith. intros Hguard.
  assert (Hsized' : calculator_sized (set_auto_corr lpcc r)).
  { unfold calculator_sized, set_auto_corr. cbn.
    repeat split; try assumption. lia. }
  destruct (Nat.eq_dec order 0) as [-> | Hpos].
  - destruct (LevinsonDurbinRecursion_order_zero (set_auto_corr lpcc r) Hsized' Hguard)
      as [lpcc' Hrec].
    exists lpcc'. split; [exact Hrec | intros k Hk; lia].
  - apply (LevinsonDurbinRecursion_exact data N r order (max_order lpcc)).
    + exact Hord.
    + lia.
    + intros l Hl. apply Hval. lia.
    + apply Rltb_false in Hguard.
      rewrite Hval in Hguard by lia.
      pose proof (biased_autocorrelation_0_nonneg data N) as Hnn.
      rewrite Rabs_right in Hguard by lra.
      assert (0 < / 2 ^ 23) by (apply Rinv_0_lt_compat; lra).
      lra.
    + exact Hsized'.
    + reflexivity.
    + reflexivity.
    + lia.
    + exact Hguard.
Qed.

Lemma Levinson_reflection_below_one_witness :
  exists r,
    LPC_CalculateAutoCorrelation [1; 2; 1] 3
      (auto_corr (calculator_layout (mkLPCCalculatorConfig 2 4) 7)) (2 + 1)
    = Ret r /\
    (d_ltb (d_abs (nth 0 r 0)) d_flt_epsilon = false ->
     exists lpcc',
       LPC_LevinsonDurbinRecursion
         (set_auto_corr (calculator_layout (mkLPCCalculatorConfig 2 4) 7) r) 2
       = Ret lpcc' /\
       forall k, (1 <= k <= 2)%nat -> Rabs (nth k (parcor_coef lpcc') 0) < 1).
Proof.
  apply (Levinson_reflection_below_one
           (calculator_layout (mkLPCCalculatorConfig 2 4) 7) [1; 2; 1] 3 2).
  - apply calculator_layout_sized; simpl; lia.
  - simpl. lia.
  - lia.
  - simpl. lia.
Defined.

(** ** The Welch window in exact arithmetic *)

Lemma d_of_u32_exact (n : nat) :
  (Z.of_nat n < 2 ^ 32)%Z -> d_of_u32 (D := R) (Z.of_nat n) = INR n.
Proof.
  intros Hn. unfold d_of_u32, UInt32.wrap. rewrite Z.mod_small by lia.
  cbn [d_of_Z real_ops]. symmetry. apply INR_IZR_INZ.
Qed.

Lemma pow_minus_two (x : R) : 0 < x -> Rpower x (IZR (-2)) = / x ^ 2.
Proof.
  intros Hx. change (IZR (-2)) with (- INR 2).
  rewrite Rpower_Ropp, Rpower_pow by exact Hx. reflexivity.
Qed.

(** X4.  In exact arithmetic the Welch loop weights every sample but the
    middle one of an odd-length block by [4 n (N-1-n) / (N-1)^2]: round
    [smpl] writes the cells [smpl] and [N-1-smpl] with the one weight
    [4 (N-1)^-2 * smpl * (N-1-smpl)].  The rest of the output buffer is left as
    it was: the middle cell of an odd-length block, which no round reaches,
    and the cells from [N] on. *)
Theorem Welch_weights_exact (input output : list R) (N : nat) :
  (2 <= N)%nat -> (Z.of_nat N < 2 ^ 32)%Z ->
  (N <= length input)%nat -> (N <= length output)%nat ->
  exists out,
    LPC_ApplyWindow LPC_WINDOWTYPE_WELCH input N output = Ret (LPC_ERROR_OK, out) /\
    length out = length output /\
    (forall n, (n < N)%nat -> (2 * n + 1)%nat <> N ->
               nth n out 0 = nth n input 0 * welch_weight N n) /\
    (forall n, (N <= n)%nat \/ (2 * n + 1)%nat = N ->
               nth n out 0 = nth n output 0).
Proof.
  intros H2 H32 Hin Hout. unfold LPC_ApplyWindow.
  assert (Hhalf : (2 * (N / 2) <= N)%nat) by (apply Nat.Div0.mul_div_le).
  assert (Hhalf' : (N < 2 * (N / 2) + 2)%nat).
  { pose proof (Nat.div_mod_eq N 2). pose proof (Nat.mod_upper_bound N 2). lia. }
  replace (Z.of_nat N - 1)%Z with (Z.of_nat (N - 1)) by lia.
  rewrite d_of_u32_exact by lia.
  assert (Hpos : 0 < INR (N - 1)) by (apply lt_0_INR; lia).
  match goal with |- context [for_range 0 (N / 2) ?b output] =>
    destruct (for_range_invariant
                (fun j o => length o = length output /\
                   (forall n, (n < N)%nat -> (n < j \/ N - 1 - n < j)%nat ->
                              nth n o 0 = nth n input 0 * welch_weight N n) /\
                   forall n, (N <= n \/ (j <= n /\ n + j < N))%nat ->
                             nth n o 0 = nth n output 0)
                b 0 (N / 2) output) as [out [Hrun (Hlen & Hw & Hrest)]]
  end.
  - lia.
  - split; [reflexivity |]. split; [intros n Hn [H | H]; lia | reflexivity].
  - intros j t Hj (Hl & Hw & Hrest).
    replace (Z.of_nat (N - 1) - Z.of_nat j)%Z with (Z.of_nat (N - 1 - j)) by lia.
    rewrite !d_of_u32_exact by lia.
    rewrite (rd_in input j 0) by lia. cbn [bind].
    rewrite wr_in by lia. cbn [bind].
    rewrite (rd_in input (N - j - 1) 0) by lia. cbn [bind].
    rewrite wr_in by (rewrite length_upd; lia).
    eexists. split; [reflexivity |].
    split; [rewrite !length_upd; exact Hl |]. split.
    + intros n Hn Hcase.
      cbn [d_mul d_of_Z real_ops c_pow real_libm].
      rewrite pow_minus_two by exact Hpos.
      rewrite !nth_upd by (rewrite ?length_upd; lia).
      destruct (Nat.eqb_spec n (N - j - 1)) as [-> | Hne1].
      * unfold welch_weight.
        replace (N - 1 - (N - j - 1))%nat with j by lia.
        replace (N - 1 - j)%nat with (N - j - 1)%nat by lia.
        field. lra.
      * destruct (Nat.eqb_spec n j) as [-> | Hne2].
        -- unfold welch_weight. field. lra.
        -- apply Hw; [exact Hn | lia].
    + intros n Hn. rewrite !nth_upd_other by lia. apply Hrest. lia.
  - rewrite Hrun. cbn [bind]. exists out. split; [reflexivity |].
    split; [exact Hlen |]. split.
    + intros n Hn Hmid. apply Hw; [exact Hn | lia].
    + intros n Hn. apply Hrest. lia.
Qed.

Lemma Welch_weights_exact_witness :
  exists out,
    LPC_ApplyWindow LPC_WINDOWTYPE_WELCH [1; 2; 3] 3 [7; 7; 7; 7]
    = Ret (LPC_ERROR_OK, out) /\
    length out = length [7; 7; 7; 7] /\
    (forall n, (n < 3)%nat -> (2 * n + 1)%nat <> 3%nat ->
               nth n out 0 = nth n [1; 2; 3] 0 * welch_weight 3 n) /\
    (forall n, (3 <= n)%nat \/ (2 * n + 1)%nat = 3%nat ->
               nth n out 0 = nth n [7; 7; 7; 7] 0).
Proof.
  apply (Welch_weights_exact [1; 2; 3] [7; 7; 7; 7] 3); simpl; lia.
Defined.

(** ** The sine window in exact arithmetic *)

(** The double [LPC_PI] lies below pi. *)
Lemma LPC_PI_below_PI : 0 < LPC_PI < PI.
Proof.
  unfold LPC_PI. split; [lra |].
  pose proof (PI_2_3_7_ineq 8) as [Hlow _].
  apply Rlt_le_trans with (4 * sum_f_R0 (tg_alt PI_2_3_7_tg) (S (2 * 8)));
    [| lra].
  clear Hlow.
  unfold sum_f_R0, tg_alt, PI_2_3_7_tg, Ratan_seq.
  cbn [Nat.mul Nat.add]. simpl INR. simpl pow.
  lra.
Qed.

(** X5.  In exact arithmetic the sine window multiplies sample [n] of a
    block of [N >= 2] samples by [sin(LPC_PI n / (N-1))], where [LPC_PI] is the
    double the source multiplies by, and leaves the cells from [N] on as they
    were.  The weights lie in [0, 1]; the first sample becomes 0, but the last
    one does not: its weight is [sin(LPC_PI)], which is positive since
    [LPC_PI] is below pi. *)
Theorem Sin_window_exact (input output : list R) (N : nat) :
  (2 <= N)%nat -> (Z.of_nat N < 2 ^ 32)%Z ->
  (N <= length input)%nat -> (N <= length output)%nat ->
  exists out,
    LPC_ApplyWindow LPC_WINDOWTYPE_SIN input N output = Ret (LPC_ERROR_OK, out) /\
    length out = length output /\
    (forall n, (n < N)%nat ->
       nth n out 0 = nth n input 0 * sin_weight N n /\
       0 <= sin_weight N n <= 1) /\
    (forall n, (N <= n)%nat -> nth n out 0 = nth n output 0) /\
    nth 0 out 0 = 0 /\
    nth (N - 1) out 0 = nth (N - 1) input 0 * sin LPC_PI /\
    0 < sin LPC_PI.
Proof.
  intros H2 H32 Hin Hout. unfold LPC_ApplyWindow.
  assert (Hpos : 0 < INR (N - 1)) by (apply lt_0_INR; lia).
  destruct LPC_PI_below_PI as [Hpi0 Hpi].
  match goal with |- context [for_range 0 N ?b output] =>
    destruct (for_range_invariant
                (fun j o => length o = length output /\
                   (forall n, (n < j)%nat ->
                              nth n o 0 = nth n input 0 * sin_weight N n) /\
                   forall n, (j <= n)%nat -> nth n o 0 = nth n output 0)
                b 0 N output) as [out [Hrun (Hlen & Hw & Hrest)]]
  end.
  - lia.
  - split; [reflexivity |]. split; [intros n Hn; lia | reflexivity].
  - intros j t Hj (Hl & Hw & Hrest).
    replace (Z.of_nat N - 1)%Z with (Z.of_nat (N - 1)) by lia.
    rewrite !d_of_u32_exact by lia.
    rewrite (rd_in input j 0) by lia. cbn [bind].
    rewrite wr_in by lia.
    eexists. split; [reflexivity |].
    split; [rewrite length_upd; exact Hl |]. split.
    + intros n Hn. rewrite nth_upd by lia.
      destruct (Nat.eqb_spec n j) as [-> | Hne]; [reflexivity |].
      apply Hw. lia.
    + intros n Hn. rewrite nth_upd_other by lia. apply Hrest. lia.
  - rewrite Hrun. cbn [bind]. exists out. split; [reflexivity |].
    split; [exact Hlen |].
    assert (Hends : sin_weight N 0 = 0 /\ sin_weight N (N - 1) = sin LPC_PI).
    { unfold sin_weight. split.
      - replace (LPC_PI * INR 0 / INR (N - 1)) with 0
          by (simpl; field; lra). apply sin_0.
      - replace (LPC_PI * INR (N - 1) / INR (N - 1)) with LPC_PI
          by (field; lra).
        reflexivity. }
    split; [| split; [exact Hrest | split; [| split]]].
    + intros n Hn. split; [apply Hw; exact Hn |].
      unfold sin_weight. split; [| apply SIN_bound].
      assert (Hle : INR n <= INR (N - 1)) by (apply le_INR; lia).
      pose proof (pos_INR n) as Hn0.
      assert (Harg : 0 <= LPC_PI * INR n / INR (N - 1) <= LPC_PI).
      { split.
        - apply Rmult_le_pos; [apply Rmult_le_pos; lra |].
          apply Rlt_le, Rinv_0_lt_compat. exact Hpos.
        - apply (Rmult_le_reg_r (INR (N - 1))); [exact Hpos |].
          replace (LPC_PI * INR n / INR (N - 1) * INR (N - 1))
            with (LPC_PI * INR n) by (field; lra).
          apply Rmult_le_compat_l; lra. }
      apply sin_ge_0; lra.
    + rewrite Hw by lia. destruct Hends as [H0 _]. rewrite H0. ring.
    + rewrite Hw by lia. destruct Hends as [_ H1]. rewrite H1. reflexivity.
    + apply sin_gt_0; assumption.
Qed.

Lemma Sin_window_exact_witness :
  exists out,
    LPC_ApplyWindow LPC_WINDOWTYPE_SIN [1; 2; 3] 3 [7; 7; 7] = Ret (LPC_ERROR_OK, out) /\
    length out = length [7; 7; 7] /\
    (forall n, (n < 3)%nat ->
       nth n out 0 = nth n [1; 2; 3] 0 * sin_weight 3 n /\
       0 <= sin_weight 3 n <= 1) /\
    (forall n, (3 <= n)%nat -> nth n out 0 = nth n [7; 7; 7] 0) /\
    nth 0 out 0 = 0 /\
    nth (3 - 1) out 0 = nth (3 - 1) [1; 2; 3] 0 * sin LPC_PI /\
    0 < sin LPC_PI.
Proof.
  apply (Sin_window_exact [1; 2; 3] [7; 7; 7] 3); simpl; lia.
Defined.

(** ** The Levinson-Durbin entry point in exact arithmetic *)

Section LevinsonSolves.
Variables (data : list R) (N : nat).
Variables (ac : list R) (order m : nat).
Let rho : nat -> R := biased_autocorrelation data N.
Hypothesis Hm : (order <= m)%nat.
Hypothesis Hac_len : length ac = (m + 1)%nat.
Hypothesis Hac : forall l, (l <= order)%nat -> nth l ac 0 = rho l.
Hypothesis Hpower : 0 < rho 0.

Let round_inv (k : nat) (st : levinson_state R) : Prop :=
  length (ls_a st) = (m + 2)%nat /\
  length (ls_u st) = (m + 2)%nat /\
  length (ls_v st) = (m + 2)%nat /\
  length (ls_parcor st) = (m + 1)%nat /\
  solves_normal_equations rho (fun i => nth i (ls_a st) 0) k (ls_ek st) /\
  forall j, (1 <= j <= k)%nat -> Rabs (nth j (ls_parcor st) 0) < 1.

Variable lpcc : LPCCalculator R.
Hypothesis Hsized : calculator_sized lpcc.
Hypothesis Hmax : max_order lpcc = m.
Hypothesis Hauto : auto_corr lpcc = ac.

(** The recursion, with what it leaves in [lpc_coef]: the solution of the
    normal equations of order [order], with a positive prediction error. *)
Lemma LevinsonDurbinRecursion_solves :
  (1 <= order)%nat ->
  Rltb (Rabs (nth 0 ac 0)) (/ 2 ^ 23) = false ->
  exists lpcc' e,
    LPC_LevinsonDurbinRecursion lpcc order = Ret lpcc' /\
    length (lpc_coef lpcc') = (m + 1)%nat /\
    length (parcor_coef lpcc') = (m + 1)%nat /\
    auto_corr lpcc' = ac /\
    0 < e /\
    solves_normal_equations rho (fun i => nth i (lpc_coef lpcc') 0) order e /\
    forall k, (1 <= k <= order)%nat -> Rabs (nth k (parcor_coef lpcc') 0) < 1.
Proof.
  intros Horder Hguard.
  pose proof Hsized as (_ & _ & _ & _ & _ & _ & _ & _ & Hlc & Hlp & _).
  rewrite Hmax in Hlc, Hlp.
  unfold LPC_LevinsonDurbinRecursion. rewrite Hauto. step_R. real_arith.
  rewrite Hguard.
  destruct (Levinson_zeroing lpcc (order + 2) Hsized ltac:(lia))
    as (a0 & u0 & v0 & Hzero & Hla0 & Hlu0 & Hlv0).
  rewrite Hmax in Hla0, Hlu0, Hlv0.
  real_arith. rewrite Hzero. cbn [bind]. step_R. real_arith.
  rewrite nth_upd_same by (rewrite length_upd; lia).
  set (r0 := nth 0 ac 0). set (r1 := nth 1 ac 0).
  assert (Hr0 : r0 = rho 0) by (apply Hac; lia).
  assert (Hr1 : r1 = rho 1) by (apply Hac; lia).
  (* the first step, written out in the source, is a step from order 0 *)
  pose (af0 := fun i : nat => if (i =? 0)%nat then 1 else 0).
  pose (gamma0 := rsum (0 + 1) (fun i => af0 i * rho (0 + 1 - i)) / - rho 0).
  assert (Hg0 : gamma0 = - r1 / r0).
  { unfold gamma0, af0. simpl. rewrite <- Hr0, <- Hr1. field. lra. }
  assert (Hsol0 : solves_normal_equations rho af0 0 (rho 0)).
  { split; [reflexivity |]. split; [intros j Hj; lia |].
    unfold normal_row, af0. simpl. unfold lag_between. simpl. lra. }
  set (a1 := upd (upd a0 0 1) 1 (- r1 / r0)).
  assert (Hla1 : length a1 = (m + 2)%nat) by (unfold a1; rewrite !length_upd; exact Hla0).
  assert (Hsol1 : solves_normal_equations rho (fun i => nth i a1 0) (0 + 1)
                    (rho 0 * (1 - gamma0 * gamma0))).
  { apply (levinson_step data N af0 _ 0 (rho 0) gamma0 Hsol0); [lra | reflexivity | | |].
    - unfold a1. rewrite nth_upd_other by lia. rewrite nth_upd_same by lia. lra.
    - intros i Hi. lia.
    - unfold a1. simpl (0 + 1)%nat. rewrite nth_upd_same by (rewrite length_upd; lia).
      rewrite Hg0. lra. }
  destruct (levinson_step_reflection data N af0 _ 0 (rho 0) gamma0 Hsol0 Hpower Hsol1)
    as [_ Hrefl0].
  match goal with |- context [for_range 1 order (Levinson_step ac) ?s] =>
    destruct (for_range_invariant round_inv (Levinson_step ac) 1 order s)
      as [st [Hrun Hinv]]
  end.
  { lia. }
  { unfold round_inv. cbn [ls_a ls_u ls_v ls_parcor ls_ek]. fold a1.
    refine (conj Hla1 (conj _ (conj _ (conj _ (conj _ _))))).
    - rewrite !length_upd. exact Hlu0.
    - rewrite !length_upd. exact Hlv0.
    - rewrite !length_upd. exact Hlp.
    - replace (r0 + r1 * (- r1 / r0)) with (rho 0 * (1 - gamma0 * gamma0)).
      + exact Hsol1.
      + rewrite Hg0, <- Hr0. field. lra.
    - intros j Hj. assert (j = 1%nat) by lia. subst j.
      rewrite nth_upd_same by (rewrite length_upd; lia).
      replace (r1 / r0) with (- gamma0) by (rewrite Hg0; field; lra).
      rewrite Rabs_Ropp. exact Hrefl0. }
  { intros k st Hk Hst.
    apply (Levinson_step_exact data N ac order m Hm Hac_len Hac Hpower k st Hk Hst). }
  rewrite Hrun. cbn [bind].
  destruct Hinv as (Hla & _ & _ & Hlpar & Hsol & Hpar).
  destruct (memcpy_runs (lpc_coef lpcc) (ls_a st) (order + 1)) as [Hcopy Hlcopy];
    [lia | lia |].
  rewrite Hcopy. cbn [bind].
  eexists. exists (ls_ek st). split; [reflexivity |].
  cbn [lpc_coef parcor_coef auto_corr set_parcor_coef set_lpc_coef set_v_vec
       set_u_vec set_a_vec].
  split; [rewrite Hlcopy; exact Hlc |]. split; [exact Hlpar |].
  split; [exact Hauto |].
  split; [apply (solves_error_positive data N _ order _ Hsol Hpower) |].
  split; [| exact Hpar].
  apply (solves_normal_equations_ext rho (fun i => nth i (ls_a st) 0));
    [| exact Hsol].
  intros i Hi. rewrite app_nth1 by (rewrite length_firstn; lia).
  rewrite nth_firstn.
  replace (i <? order + 1)%nat with true by (symmetry; apply Nat.ltb_lt; lia).
  reflexivity.
Qed.

End LevinsonSolves.

Lemma biased_autocorrelation_prefix (data rest : list R) (N lag : nat) :
  (N <= length data)%nat ->
  biased_autocorrelation (firstn N data ++ rest) N lag
  = biased_autocorrelation data N lag.
Proof.
  intros HN. unfold biased_autocorrelation. apply rsum_ext. intros j Hj.
  rewrite !app_nth1 by (rewrite length_firstn; lia).
  rewrite !nth_firstn.
  replace (j <? N)%nat with true by (symmetry; apply Nat.ltb_lt; lia).
  replace (j + lag <? N)%nat with true by (symmetry; apply Nat.ltb_lt; lia).
  reflexivity.
Qed.

(** The two zeroing loops of the low-power branches. *)
Lemma coefficients_zeroing (c p : list R) (n : nat) :
  (n <= length c)%nat -> (n <= length p)%nat ->
  exists c' p',
    for_range 0 n
      (fun i '(coef, parcor) =>
         parcor <- wr parcor i (d_of_Z 0) ;;
         coef <- wr coef i (d_of_Z 0) ;;
         Ret (coef, parcor))
      (c, p) = Ret (c', p') /\
    length c' = length c /\ length p' = length p /\
    forall i, (i < n)%nat -> nth i c' 0 = 0 /\ nth i p' 0 = 0.
Proof.
  intros Hc Hp.
  match goal with |- context [for_range 0 n ?b ?s] =>
    destruct (for_range_invariant
                (fun j '(c', p') =>
                   length c' = length c /\ length p' = length p /\
                   forall i, (i < j)%nat -> nth i c' 0 = 0 /\ nth i p' 0 = 0)
                b 0 n s) as [[c' p'] [Hrun Hinv]]
  end.
  - lia.
  - repeat split; intros; lia.
  - intros j [c' p'] Hj (Hlc & Hlp & Hz). step_R.
    eexists. split; [reflexivity |]. cbv beta iota. rewrite !length_upd.
    split; [assumption |]. split; [assumption |].
    intros i Hi. real_arith. destruct (Nat.eq_dec i j) as [-> | Hne].
    + split; apply nth_upd_same; lia.
    + rewrite !nth_upd_other by exact Hne. apply Hz. lia.
  - exists c', p'. split; [exact Hrun | exact Hinv].
Qed.

Lemma Rltb_false_of_le x y : y <= x -> Rltb x y = false.
Proof. intros H. unfold Rltb. destruct (Rlt_dec x y); [lra | reflexivity]. Qed.

Section LevinsonEntry.
Variables (lpcc : LPCCalculator R) (data : list R) (N order : nat).
Hypothesis Hsized : calculator_sized lpcc.
Hypothesis Horder : (1 <= order <= max_order lpcc)%nat.
Hypothesis Hblock : (order + 1 <= N <= max_num_buffer_samples lpcc)%nat.
Hypothesis Hdata : (N <= length data)%nat.

Let rho : nat -> R := biased_autocorrelation data N.

(** [LPC_CalculateCoef] in exact arithmetic, rectangular window: it returns
    OK; below the power threshold the coefficients are cleared, and from the
    threshold on they solve the normal equations; the PARCOR coefficients
    have magnitude below 1 either way. *)
Lemma CalculateCoef_exact :
  exists lpcc',
    LPC_CalculateCoef lpcc data N order LPC_WINDOWTYPE_RECTANGULAR
    = Ret (LPC_ERROR_OK, lpcc') /\
    length (lpc_coef lpcc') = (max_order lpcc + 1)%nat /\
    length (parcor_coef lpcc') = (max_order lpcc + 1)%nat /\
    length (auto_corr lpcc') = (max_order lpcc + 1)%nat /\
    (forall l, (l <= order)%nat -> nth l (auto_corr lpcc') 0 = rho l) /\
    (rho 0 < / 2 ^ 23 ->
     forall i, (i <= order)%nat -> nth i (lpc_coef lpcc') 0 = 0) /\
    (/ 2 ^ 23 <= rho 0 ->
     exists e, 0 < e /\
        solves_normal_equations rho (fun i => nth i (lpc_coef lpcc') 0) order e) /\
    forall k, (1 <= k <= order)%nat -> Rabs (nth k (parcor_coef lpcc') 0) < 1.
Proof.
  pose proof Hsized as (Hm & Hs & Hla & Hlu & Hlv & Hlm & Hrows & Hlr & Hlc & Hlp & Hlb).
  unfold LPC_CalculateCoef, LPC_ApplyWindow.
  destruct (memcpy_runs (buffer lpcc) data N ltac:(lia) Hdata) as [Hcopy Hlen].
  rewrite Hcopy. cbn [bind is_OK negb buffer set_buffer auto_corr].
  set (windowed := firstn N data ++ skipn N (buffer lpcc)) in *.
  destruct (CalculateAutoCorrelation_exact windowed N ltac:(lia)
              (auto_corr lpcc) (order + 1))
    as (r & Hrun & Hlen_r & Hval); [lia | lia | lia |].
  rewrite Hrun. cbn [bind].
  replace (N <? order)%nat with false by (symmetry; apply Nat.ltb_ge; lia).
  assert (Hrho : forall l, (l <= order)%nat -> nth l r 0 = rho l).
  { intros l Hl. rewrite Hval by lia. unfold rho, windowed.
    apply biased_autocorrelation_prefix. exact Hdata. }
  pose proof (biased_autocorrelation_0_nonneg data N) as Hnn. fold rho in Hnn.
  set (lpcc1 := set_auto_corr (set_buffer lpcc windowed) r).
  assert (Hsized1 : calculator_sized lpcc1).
  { unfold calculator_sized, lpcc1, set_auto_corr, set_buffer. cbn.
    repeat split; try assumption; lia. }
  assert (Heps : 0 < / 2 ^ 23) by (apply Rinv_0_lt_compat; lra).
  destruct (Rlt_le_dec (rho 0) (/ 2 ^ 23)) as [Hlow | Hhigh].
  - (* the guard fires *)
    unfold LPC_LevinsonDurbinRecursion. subst lpcc1.
    cbn [auto_corr set_auto_corr].
    step_R. real_arith. rewrite (Hrho 0%nat) by lia.
    rewrite Rltb_true by (rewrite Rabs_right by lra; exact Hlow).
    cbn [lpc_coef parcor_coef set_buffer set_auto_corr].
    destruct (coefficients_zeroing (lpc_coef lpcc) (parcor_coef lpcc) (order + 1))
      as (c' & p' & Hzero & Hlc' & Hlp' & Hz); [lia | lia |].
    real_arith. rewrite Hzero. cbn [bind].
    eexists. split; [reflexivity |].
    cbn [lpc_coef parcor_coef auto_corr set_parcor_coef set_lpc_coef
         set_auto_corr set_buffer].
    split; [lia |]. split; [lia |]. split; [lia |]. split; [exact Hrho |].
    split; [intros _ i Hi; apply Hz; lia |].
    split; [intros Hcontra; lra |].
    intros k Hk. destruct (Hz k ltac:(lia)) as [_ Hp0]. rewrite Hp0, Rabs_R0. lra.
  - (* the recursion runs *)
    destruct (LevinsonDurbinRecursion_solves data N r order (max_order lpcc)
                ltac:(lia) ltac:(lia) Hrho ltac:(fold rho; lra) lpcc1 Hsized1
                eq_refl eq_refl ltac:(lia))
      as (lpcc' & e & Hrec & Hlc' & Hlp' & Hac' & He & Hsol & Hpar).
    { apply Rltb_false_of_le. rewrite (Hrho 0%nat) by lia.
      rewrite Rabs_right by lra. lra. }
    rewrite Hrec. cbn [bind]. exists lpcc'. split; [reflexivity |].
    split; [exact Hlc' |]. split; [exact Hlp' |].
    split; [rewrite Hac'; lia |].
    split; [rewrite Hac'; exact Hrho |].
    split; [intros Hcontra; lra |].
    split; [intros _; exists e; split; assumption | exact Hpar].
Qed.
End LevinsonEntry.

(** X6.  The Levinson-Durbin entry point in exact arithmetic, rectangular
    window, on a block of more than [coef_order] samples that fits the
    calculator: it always returns OK.  Below the power threshold
    ([r(0) < FLT_EPSILON]) it writes zero coefficients; from the threshold on
    the coefficients [c] it writes solve the normal equations of the biased
    autocorrelation [r] of the block,
    [sum_i a_i r(|j - i|) = 0] for [j = 1 .. order] with [a = 1 :: c], with a
    positive prediction error [e = sum_i a_i r(i)]. *)
Theorem Levinson_solves_normal_equations
    (lpcc : LPCCalculator R) (data coef : list R) (N order : nat) :
  calculator_sized lpcc ->
  (1 <= order <= max_order lpcc)%nat ->
  (order + 1 <= N <= max_num_buffer_samples lpcc)%nat ->
  (N <= length data)%nat ->
  (order <= length coef)%nat ->
  exists lpcc' c,
    LPCCalculator_CalculateLPCCoefficients lpcc (Some data) N (Some coef) order
      LPC_WINDOWTYPE_RECTANGULAR
    = Ret (LPC_APIRESULT_OK, lpcc', Some c) /\
    length c = length coef /\
    (biased_autocorrelation data N 0 < / 2 ^ 23 ->
     forall i, (i < order)%nat -> nth i c 0 = 0) /\
    (/ 2 ^ 23 <= biased_autocorrelation data N 0 ->
     exists e, 0 < e /\
       solves_normal_equations (biased_autocorrelation data N)
         (fun i => nth i (1 :: c) 0) order e).
Proof.
  intros Hsized Horder Hblock Hdata Hcoef.
  destruct (CalculateCoef_exact lpcc data N order Hsized Horder Hblock Hdata)
    as (lpcc' & Hrun & Hlc & _ & _ & _ & Hlow & Hhigh & _).
  unfold LPCCalculator_CalculateLPCCoefficients.
  replace (max_order lpcc <? order)%nat with false
    by (symmetry; apply Nat.ltb_ge; lia).
  replace (max_num_buffer_samples lpcc <? N)%nat with false
    by (symmetry; apply Nat.ltb_ge; lia).
  rewrite Hrun. cbn [bind is_OK negb].
  destruct (memcpy_runs coef (skipn 1 (lpc_coef lpcc')) order Hcoef)
    as [Hcopy Hlen]; [rewrite length_skipn; lia |].
  rewrite Hcopy. cbn [bind]. eexists. eexists. split; [reflexivity |].
  split; [exact Hlen |].
  assert (Hnth : forall i, (i < order)%nat ->
            nth i (firstn order (skipn 1 (lpc_coef lpcc')) ++ skipn order coef) 0
            = nth (Datatypes.S i) (lpc_coef lpcc') 0).
  { intros i Hi. rewrite app_nth1 by (rewrite length_firstn, length_skipn; lia).
    rewrite nth_firstn.
    replace (i <? order)%nat with true by (symmetry; apply Nat.ltb_lt; lia).
    rewrite nth_skipn. reflexivity. }
  split.
  - intros Hpow i Hi. rewrite Hnth by exact Hi. apply Hlow; [exact Hpow | lia].
  - intros Hpow. destruct (Hhigh Hpow) as [e [He Hsol]].
    exists e. split; [exact He |].
    apply (solves_normal_equations_ext _ (fun i => nth i (lpc_coef lpcc') 0));
      [| exact Hsol].
    intros i Hi. destruct i as [|i].
    + destruct Hsol as [Ha0 _]. exact Ha0.
    + cbn [nth]. symmetry. apply Hnth. lia.
Qed.

Lemma Levinson_solves_normal_equations_witness :
  exists lpcc' c,
    LPCCalculator_CalculateLPCCoefficients
      (calculator_layout (mkLPCCalculatorConfig 2 4) 7) (Some [1; 2; 1]) 3
      (Some [7; 7]) 2 LPC_WINDOWTYPE_RECTANGULAR
    = Ret (LPC_APIRESULT_OK, lpcc', Some c) /\
    length c = length [7; 7] /\
    (biased_autocorrelation [1; 2; 1] 3 0 < / 2 ^ 23 ->
     forall i, (i < 2)%nat -> nth i c 0 = 0) /\
    (/ 2 ^ 23 <= biased_autocorrelation [1; 2; 1] 3 0 ->
     exists e, 0 < e /\
       solves_normal_equations (biased_autocorrelation [1; 2; 1] 3)
         (fun i => nth i (1 :: c) 0) 2 e).
Proof.
  apply (Levinson_solves_normal_equations
           (calculator_layout (mkLPCCalculatorConfig 2 4) 7) [1; 2; 1] [7; 7] 3 2).
  - apply calculator_layout_sized; simpl; lia.
  - simpl. lia.
  - simpl. lia.
  - simpl. lia.
  - simpl. lia.
Defined.

(** ** The code-length estimate and the description length *)

Import CodeLength.

(** X9.  Neither [LPCCalculator_EstimateCodeLength] nor
    [LPCCalculator_CalculateMDL] compares its arguments with the bounds of the
    calculator, as the three coefficient entry points do.  For a calculator
    that allocated its work area itself (a block of exactly
    [LPCCalculator_CalculateWorkSize] bytes, with [buffer] as its last slice
    and at most two cells of alignment slack behind it), on a block of more
    than [max_num_samples + 2] samples (rectangular window) the copy of
    [LPC_ApplyWindow] runs past the end of the allocated block. *)
Theorem CodeLength_MDL_block_beyond_buffer
    {D : Type} {ops : DoubleOps D} {libm : Libm D} {logm : LibmLog D}
    {consts : CodeLengthConstants D}
    (S P : Z) (config : LPCCalculatorConfig) (malloc : Z -> option Z) (w : Z)
    (junk : D) (data : list D) (N order : nat)
    (bits_per_sample : Z) (cell : D) :
  (0 <= S)%Z -> (0 <= P)%Z -> (work_area_bytes S P config < 2 ^ 31)%Z ->
  (0 < config_max_order config)%nat -> (0 < config_max_num_samples config)%nat ->
  malloc (work_area_bytes S P config) = Some w ->
  (config_max_num_samples config + 2 < N)%nat ->
  (N <= length data)%nat ->
  exists area,
    LPCCalculator_Create S P (Some config) None 0 malloc = Ret (Some area, None) /\
    (area_buffer area + 8 * Z.of_nat (config_max_num_samples config)
     <= w + work_area_bytes S P config
     < area_buffer area + 8 * Z.of_nat N)%Z /\
    (config_max_num_samples config
     <= length (buffer (calculator_in_area area
                          (w + work_area_bytes S P config) junk))
     <= config_max_num_samples config + 2)%nat /\
    LPCCalculator_EstimateCodeLength
      (Some (calculator_in_area area (w + work_area_bytes S P config) junk))
      (Some data) N bits_per_sample order (Some cell)
      LPC_WINDOWTYPE_RECTANGULAR = Undefined /\
    LPCCalculator_CalculateMDL
      (Some (calculator_in_area area (w + work_area_bytes S P config) junk))
      (Some data) N order (Some cell) LPC_WINDOWTYPE_RECTANGULAR = Undefined.
Proof.
  intros HS HP Hfits Hm Hn Hok HN Hdata.
  destruct (own_area_buffer S P config malloc w HS HP Hfits Hm Hn Hok)
    as (area & Hrun & Hcells).
  destruct (Hcells D junk) as (_ & Hlen & _).
  exists area. split; [exact Hrun |].
  split; [exact (area_end_behind_buffer S P config malloc w area N
                   HS HP Hfits Hm Hn Hok Hrun HN) |].
  split; [exact Hlen |].
  set (lpcc := calculator_in_area area (w + work_area_bytes S P config) junk)
    in *.
  assert (Hcopy : memcpy (buffer lpcc) data N = Undefined).
  { unfold memcpy.
    replace (N <=? length (buffer lpcc))%nat with false
      by (symmetry; apply Nat.leb_gt; lia).
    reflexivity. }
  unfold LPCCalculator_EstimateCodeLength, LPCCalculator_CalculateMDL,
    LPC_CalculateCoef, LPC_ApplyWindow.
  rewrite Hcopy. split; reflexivity.
Qed.

(** Seven samples into a calculator created for four. *)
Lemma CodeLength_MDL_block_beyond_buffer_witness :
  exists area,
    LPCCalculator_Create 88 8 (Some (mkLPCCalculatorConfig 2 4)) None 0
      (fun _ => Some 4096%Z) = Ret (Some area, None) /\
    (area_buffer area
     + 8 * Z.of_nat (config_max_num_samples (mkLPCCalculatorConfig 2 4))
     <= 4096 + work_area_bytes 88 8 (mkLPCCalculatorConfig 2 4)
     < area_buffer area + 8 * Z.of_nat 7)%Z /\
    (config_max_num_samples (mkLPCCalculatorConfig 2 4)
     <= length (buffer (calculator_in_area area
                          (4096 + work_area_bytes 88 8 (mkLPCCalculatorConfig 2 4))
                          7%R))
     <= config_max_num_samples (mkLPCCalculatorConfig 2 4) + 2)%nat /\
    LPCCalculator_EstimateCodeLength
      (Some (calculator_in_area area
               (4096 + work_area_bytes 88 8 (mkLPCCalculatorConfig 2 4)) 7%R))
      (Some [1; 2; 3; 4; 5; 6; 7]%R) 7 16 2 (Some 0%R)
      LPC_WINDOWTYPE_RECTANGULAR
    = Undefined /\
    LPCCalculator_CalculateMDL
      (Some (calculator_in_area area
               (4096 + work_area_bytes 88 8 (mkLPCCalculatorConfig 2 4)) 7%R))
      (Some [1; 2; 3; 4; 5; 6; 7]%R) 7 2 (Some 0%R)
      LPC_WINDOWTYPE_RECTANGULAR
    = Undefined.
Proof.
  apply (CodeLength_MDL_block_beyond_buffer 88 8 (mkLPCCalculatorConfig 2 4)
           (fun _ => Some 4096%Z) 4096 7%R [1; 2; 3; 4; 5; 6; 7]%R 7 2 16 0%R);
    try reflexivity; simpl; lia.
Defined.


(** The loops over the PARCOR coefficients add one term per order. *)
Lemma parcor_terms_sum (p : list R) (order : nat) (f : R -> R) :
  (order < length p)%nat ->
  for_range 1 (order + 1)
    (fun k acc => x <- rd p k ;; Ret (acc + f (1 - x * x)))
    0
  = Ret (rsum order (fun i => f (1 - nth (i + 1) p 0 * nth (i + 1) p 0))).
Proof.
  intros Hlen.
  match goal with |- for_range 1 (order + 1) ?b ?s = _ =>
    destruct (for_range_invariant
                (fun j acc =>
                   acc = rsum (j - 1)
                           (fun i => f (1 - nth (i + 1) p 0 * nth (i + 1) p 0)))
                b 1 (order + 1) s) as [acc [Hrun Hacc]]
  end.
  - lia.
  - reflexivity.
  - intros j t Hj Ht. rewrite (rd_in p j 0) by lia. cbn [bind].
    eexists. split; [reflexivity |]. subst t.
    replace (Datatypes.S j - 1)%nat with (Datatypes.S (j - 1)) by lia.
    cbn [rsum]. replace (j - 1 + 1)%nat with j by lia. reflexivity.
  - rewrite Hrun, Hacc. replace (order + 1 - 1)%nat with order by lia.
    reflexivity.
Qed.

(** A reflection coefficient below 1 in magnitude leaves a logarithm that is
    defined and not positive. *)
Lemma log_term_nonpos (k : R) :
  Rabs k < 1 -> 0 < 1 - k * k <= 1 /\ ln (1 - k * k) <= 0.
Proof.
  intros Hk.
  assert (Hsq : 0 <= k * k < 1).
  { split; [nra |]. apply Rabs_def2 in Hk. nra. }
  split; [lra |].
  destruct (Req_dec (k * k) 0) as [H0 | Hne].
  - rewrite H0, Rminus_0_r, ln_1. lra.
  - rewrite <- ln_1. left. apply ln_increasing; lra.
Qed.

Lemma rsum_nonpos (n : nat) (f : nat -> R) :
  (forall i, (i < n)%nat -> f i <= 0) -> rsum n f <= 0.
Proof.
  induction n as [|n IH]; intros Hf; cbn [rsum]; [lra |].
  specialize (IH ltac:(intros i Hi; apply Hf; lia)).
  specialize (Hf n ltac:(lia)). lra.
Qed.

(** X10.  [LPCCalculator_CalculateMDL] in exact arithmetic, rectangular
    window, on a block of more than [coef_order] samples that fits the
    calculator: it returns OK; every logarithm is taken of a number in
    [(0, 1]]; the value is
    [N * sum_k ln(1 - parcor_k^2) + coef_order * ln N], which never exceeds
    the penalty term [coef_order * ln N]. *)
Theorem CalculateMDL_exact
    (lpcc : LPCCalculator R) (data : list R) (N order : nat) (cell : R) :
  calculator_sized lpcc ->
  (1 <= order <= max_order lpcc)%nat ->
  (order + 1 <= N <= max_num_buffer_samples lpcc)%nat ->
  (N <= length data)%nat ->
  (Z.of_nat N < 2 ^ 32)%Z ->
  exists lpcc' mdl,
    LPCCalculator_CalculateMDL (Some lpcc) (Some data) N order (Some cell)
      LPC_WINDOWTYPE_RECTANGULAR
    = Ret (LPC_APIRESULT_OK, Some lpcc', Some mdl) /\
    (forall k, (1 <= k <= order)%nat ->
       0 < 1 - nth k (parcor_coef lpcc') 0 * nth k (parcor_coef lpcc') 0 <= 1) /\
    mdl = rsum order
            (fun i => ln (1 - nth (i + 1) (parcor_coef lpcc') 0
                              * nth (i + 1) (parcor_coef lpcc') 0)) * INR N
          + INR order * ln (INR N) /\
    mdl <= INR order * ln (INR N).
Proof.
  intros Hsized Horder Hblock Hdata H32.
  destruct (CalculateCoef_exact lpcc data N order Hsized Horder Hblock Hdata)
    as (lpcc' & Hrun & _ & Hlp & _ & _ & _ & _ & Hpar).
  unfold LPCCalculator_CalculateMDL. rewrite Hrun. cbn [bind is_OK negb].
  real_arith. cbn [c_log real_log].
  rewrite (parcor_terms_sum (parcor_coef lpcc') order ln) by lia. cbn [bind].
  rewrite !d_of_u32_exact by lia.
  eexists. eexists. split; [reflexivity |].
  split; [intros k Hk; apply log_term_nonpos, Hpar, Hk |].
  split; [reflexivity |].
  assert (Hsum : rsum order
                   (fun i => ln (1 - nth (i + 1) (parcor_coef lpcc') 0
                                     * nth (i + 1) (parcor_coef lpcc') 0)) <= 0).
  { apply rsum_nonpos. intros i Hi. apply log_term_nonpos, Hpar. lia. }
  pose proof (pos_INR N) as HN. nra.
Qed.

Lemma CalculateMDL_exact_witness :
  exists lpcc' mdl,
    LPCCalculator_CalculateMDL
      (Some (calculator_layout (mkLPCCalculatorConfig 2 4) 7)) (Some [1; 2; 1])
      3 2 (Some 0) LPC_WINDOWTYPE_RECTANGULAR
    = Ret (LPC_APIRESULT_OK, Some lpcc', Some mdl) /\
    (forall k, (1 <= k <= 2)%nat ->
       0 < 1 - nth k (parcor_coef lpcc') 0 * nth k (parcor_coef lpcc') 0 <= 1) /\
    mdl = rsum 2
            (fun i => ln (1 - nth (i + 1) (parcor_coef lpcc') 0
                              * nth (i + 1) (parcor_coef lpcc') 0)) * INR 3
          + INR 2 * ln (INR 3) /\
    mdl <= INR 2 * ln (INR 3).
Proof.
  apply (CalculateMDL_exact
           (calculator_layout (mkLPCCalculatorConfig 2 4) 7) [1; 2; 1] 3 2 0).
  - apply calculator_layout_sized; simpl; lia.
  - simpl. lia.
  - simpl. lia.
  - simpl. lia.
  - simpl. lia.
Defined.

Lemma Rleb_false_of_lt x y : y < x -> Rleb x y = false.
Proof. intros H. unfold Rleb. destruct (Rle_dec x y); [lra | reflexivity]. Qed.

(** X11.  [LPCCalculator_EstimateCodeLength] in exact arithmetic, rectangular
    window, on a block of more than [coef_order] samples that fits the
    calculator: it returns OK.  With [power = r(0) * 2^(2 (bits - 1))], the
    estimate is 0 if [power <= FLT_MIN]; otherwise it is positive, it is
    [beta + (log2(power) - log2(N) + sum_k log2(1 - parcor_k^2)) / 2] where
    that is positive and 1 where it is not, and it never exceeds the larger
    of 1 and the estimate without prediction,
    [beta + (log2(power) - log2(N)) / 2]. *)
Theorem EstimateCodeLength_exact
    (lpcc : LPCCalculator R) (data : list R) (N order : nat)
    (bits_per_sample : Z) (cell : R) :
  calculator_sized lpcc ->
  (1 <= order <= max_order lpcc)%nat ->
  (order + 1 <= N <= max_num_buffer_samples lpcc)%nat ->
  (N <= length data)%nat ->
  (Z.of_nat N < 2 ^ 32)%Z ->
  (1 <= bits_per_sample < 2 ^ 32)%Z ->
  let power := biased_autocorrelation data N 0
               * Rpower 2 (2 * IZR (bits_per_sample - 1)) in
  let unpredicted :=
    d_beta_laplace
    + 1 / 2 * (ln power * d_inv_loge2 - ln (INR N) * d_inv_loge2) in
  exists lpcc' len,
    LPCCalculator_EstimateCodeLength (Some lpcc) (Some data) N bits_per_sample
      order (Some cell) LPC_WINDOWTYPE_RECTANGULAR
    = Ret (LPC_APIRESULT_OK, Some lpcc', Some len) /\
    (power <= / 2 ^ 126 -> len = 0) /\
    (/ 2 ^ 126 < power ->
     let estimate :=
       d_beta_laplace
       + 1 / 2 * (ln power * d_inv_loge2 - ln (INR N) * d_inv_loge2
                  + rsum order
                      (fun i => ln (1 - nth (i + 1) (parcor_coef lpcc') 0
                                        * nth (i + 1) (parcor_coef lpcc') 0)
                                * d_inv_loge2)) in
     (estimate <= 0 -> len = 1) /\ (0 < estimate -> len = estimate) /\
     0 < len <= Rmax 1 unpredicted).
Proof.
  intros Hsized Horder Hblock Hdata H32 Hbits power unpredicted.
  destruct (CalculateCoef_exact lpcc data N order Hsized Horder Hblock Hdata)
    as (lpcc' & Hrun & _ & Hlp & Hla & Hrho & _ & _ & Hpar).
  unfold LPCCalculator_EstimateCodeLength. rewrite Hrun. cbn [bind is_OK negb].
  rewrite (rd_in (auto_corr lpcc') 0 0) by lia. cbn [bind].
  rewrite (Hrho 0%nat) by lia.
  unfold LPC_Log2.
  replace (d_of_u32 (D := R) (bits_per_sample - 1)) with (IZR (bits_per_sample - 1))
    by (unfold d_of_u32, UInt32.wrap; rewrite Z.mod_small by lia; reflexivity).
  rewrite d_of_u32_exact by lia.
  real_arith. cbn [c_log real_log c_pow real_libm d_inv_loge2 d_beta_laplace
                   d_flt_min real_constants] in *.
  fold power.
  assert (Hpow : 0 <= power).
  { unfold power. apply Rmult_le_pos.
    - apply biased_autocorrelation_0_nonneg.
    - left. apply exp_pos. }
  rewrite (Rabs_right power) by lra.
  assert (Hc : 0 < 6497320848556798 / 2 ^ 52) by lra.
  destruct (Rle_lt_dec power (/ 2 ^ 126)) as [Hsilent | Hloud].
  - rewrite Rleb_true by exact Hsilent.
    eexists. eexists. split; [reflexivity |].
    split; [reflexivity | intros Hcontra; lra].
  - rewrite Rleb_false_of_lt by exact Hloud.
    rewrite (parcor_terms_sum (parcor_coef lpcc') order
               (fun x => ln x * (6497320848556798 / 2 ^ 52))) by lia.
    cbn [bind].
    set (terms := rsum order _).
    assert (Hterms : terms <= 0).
    { apply rsum_nonpos. intros i Hi.
      destruct (log_term_nonpos (nth (i + 1) (parcor_coef lpcc') 0)) as [_ Hln];
        [apply Hpar; lia |].
      nra. }
    set (estimate := _ + 1 / 2 * (_ + terms)).
    assert (Hbound : estimate <= unpredicted).
    { unfold estimate, unpredicted.
      generalize (ln power * (6497320848556798 / 2 ^ 52))
                 (ln (INR N) * (6497320848556798 / 2 ^ 52))
                 (8749120662242046 / 2 ^ 52).
      intros a b beta. lra. }
    destruct (Rle_lt_dec estimate 0) as [Hneg | Hposi].
    + rewrite Rleb_true by exact Hneg.
      eexists. eexists. split; [reflexivity |].
      split; [intros Hcontra; lra |]. intros _.
      split; [reflexivity |].
      split; [intros Hcontra;
              exfalso; exact (Rlt_irrefl _ (Rlt_le_trans _ _ _ Hcontra Hneg)) |].
      split; [lra | apply Rmax_l].
    + rewrite Rleb_false_of_lt by exact Hposi.
      eexists. eexists. split; [reflexivity |].
      split; [intros Hcontra; lra |]. intros _.
      split; [intros Hcontra;
              exfalso; exact (Rlt_irrefl _ (Rlt_le_trans _ _ _ Hposi Hcontra)) |].
      split; [reflexivity |].
      split; [exact Hposi |].
      apply Rle_trans with unpredicted; [exact Hbound | apply Rmax_r].
Qed.

Lemma EstimateCodeLength_exact_witness :
  let power := biased_autocorrelation [1; 2; 1] 3 0
               * Rpower 2 (2 * IZR (16 - 1)) in
  let unpredicted :=
    d_beta_laplace
    + 1 / 2 * (ln power * d_inv_loge2 - ln (INR 3) * d_inv_loge2) in
  exists lpcc' len,
    LPCCalculator_EstimateCodeLength
      (Some (calculator_layout (mkLPCCalculatorConfig 2 4) 7)) (Some [1; 2; 1])
      3 16 2 (Some 0) LPC_WINDOWTYPE_RECTANGULAR
    = Ret (LPC_APIRESULT_OK, Some lpcc', Some len) /\
    (power <= / 2 ^ 126 -> len = 0) /\
    (/ 2 ^ 126 < power ->
     let estimate :=
       d_beta_laplace
       + 1 / 2 * (ln power * d_inv_loge2 - ln (INR 3) * d_inv_loge2
                  + rsum 2
                      (fun i => ln (1 - nth (i + 1) (parcor_coef lpcc') 0
                                        * nth (i + 1) (parcor_coef lpcc') 0)
                                * d_inv_loge2)) in
     (estimate <= 0 -> len = 1) /\ (0 < estimate -> len = estimate) /\
     0 < len <= Rmax 1 unpredicted).
Proof.
  apply (EstimateCodeLength_exact
           (calculator_layout (mkLPCCalculatorConfig 2 4) 7) [1; 2; 1] 3 2 16 0).
  - apply calculator_layout_sized; simpl; lia.
  - simpl. lia.
  - simpl. lia.
  - simpl. lia.
  - simpl. lia.
  - lia.
Defined.

(** ** The Cholesky solver in exact arithmetic *)

(** On binary64 the solver written over the operations is the solver of the
    auxiliary-function estimator. *)
Lemma CholeskyDecomposition_binary64 {libm : Libm float}
    (Amat : list (list float)) (dim : nat) (xvec bvec inv_diag : list float) :
  Cholesky.LPC_CholeskyDecomposition Amat dim xvec bvec inv_diag
  = AuxiliaryFunction.LPC_CholeskyDecomposition Amat dim xvec bvec inv_diag.
Proof. reflexivity. Qed.

Lemma for_loop_exit_invariant {S X : Type} (P : nat -> S -> Prop) (Q : X -> Prop)
    (body : nat -> S -> outcome (X + S)) (n i : nat) (s : S) :
  P i s ->
  (forall j t, (i <= j < i + n)%nat -> P j t ->
     (exists x, body j t = Ret (inl x) /\ Q x) \/
     (exists t', body j t = Ret (inr t') /\ P (Datatypes.S j) t')) ->
  exists r, for_loop_exit n i body s = Ret r /\
            match r with inl x => Q x | inr s' => P (i + n)%nat s' end.
Proof.
  revert i s. induction n as [|n IH]; intros i s Hs Hstep; cbn [for_loop_exit].
  - exists (inr s). rewrite Nat.add_0_r. split; [reflexivity | exact Hs].
  - destruct (Hstep i s ltac:(lia) Hs) as [[x [Hb Hx]] | [t [Hb Ht]]];
      rewrite Hb; cbn [bind].
    + exists (inl x). split; [reflexivity | exact Hx].
    + destruct (IH (Datatypes.S i) t Ht) as [r [Hrun Hr]].
      * intros j u Hj Hu. apply Hstep; [lia | exact Hu].
      * exists r. split; [exact Hrun |].
        replace (i + Datatypes.S n)%nat with (Datatypes.S i + n)%nat by lia.
        exact Hr.
Qed.

(** Cells of a matrix. *)
Lemma rd2_entry (A : list (list R)) (i j : nat) :
  (i < length A)%nat -> (j < length (nth i A []))%nat ->
  rd2 A i j = Ret (entry A i j).
Proof.
  intros Hi Hj. unfold rd2. rewrite (rd_in A i []) by exact Hi. cbn [bind].
  rewrite (rd_in _ j 0) by exact Hj. reflexivity.
Qed.

Lemma wr2_entry (A : list (list R)) (i j : nat) (v : R) :
  (i < length A)%nat -> (j < length (nth i A []))%nat ->
  wr2 A i j v = Ret (upd A i (upd (nth i A []) j v)).
Proof.
  intros Hi Hj. unfold wr2. rewrite (rd_in A i []) by exact Hi. cbn [bind].
  rewrite wr_in by exact Hj. cbn [bind]. rewrite wr_in by exact Hi.
  reflexivity.
Qed.

Lemma entry_upd (A : list (list R)) (i j : nat) (v : R) (r c : nat) :
  (i < length A)%nat -> (j < length (nth i A []))%nat ->
  entry (upd A i (upd (nth i A []) j v)) r c
  = if ((r =? i) && (c =? j))%nat then v else entry A r c.
Proof.
  intros Hi Hj. unfold entry. rewrite nth_upd by exact Hi.
  destruct (r =? i)%nat eqn:Hr; cbn [andb]; [| reflexivity].
  apply Nat.eqb_eq in Hr. subst r. rewrite nth_upd by exact Hj.
  reflexivity.
Qed.

Lemma square_upd (n : nat) (A : list (list R)) (i j : nat) (v : R) :
  square n A -> (i < length A)%nat ->
  square n (upd A i (upd (nth i A []) j v)).
Proof.
  intros [Hrows Hcols] Hi. split; [rewrite length_upd; exact Hrows |].
  intros r Hr. rewrite nth_upd by exact Hi.
  destruct (r =? i)%nat eqn:E.
  - apply Nat.eqb_eq in E. subst r. rewrite length_upd. apply Hcols. exact Hr.
  - apply Hcols. exact Hr.
Qed.

(** The two kinds of inner loop: a sum taken from the top index down, and
    one taken from a lower bound up. *)
Lemma descending_sum (body : nat -> R -> outcome R) (n : nat)
    (f : nat -> R) (acc0 : R) :
  (forall t acc, (t < n)%nat -> body t acc = Ret (acc - f (n - 1 - t)%nat)) ->
  for_range 0 n body acc0 = Ret (acc0 - rsum n f).
Proof.
  intros Hbody.
  rewrite (accumulate_value body n (fun t => - f (n - 1 - t)%nat) acc0).
  - assert (Hneg : rsum n (fun t => - f (n - 1 - t)%nat) = - rsum n f).
    { rewrite <- (rsum_rev n f).
      replace (- rsum n (fun t => f (n - 1 - t)%nat))
        with (-1 * rsum n (fun t => f (n - 1 - t)%nat)) by lra.
      rewrite <- rsum_scal. apply rsum_ext. intros; lra. }
    rewrite Hneg. reflexivity.
  - intros t acc Ht. rewrite Hbody by exact Ht. reflexivity.
Qed.

Lemma ascending_sum (body : nat -> R -> outcome R) (lo hi : nat)
    (f : nat -> R) (acc0 : R) :
  (lo <= hi)%nat ->
  (forall j acc, (lo <= j < hi)%nat -> body j acc = Ret (acc - f j)) ->
  for_range lo hi body acc0
  = Ret (acc0 - rsum (hi - lo) (fun u => f (lo + u)%nat)).
Proof.
  intros Hle Hbody.
  destruct (for_range_invariant
              (fun j acc => acc = acc0 - rsum (j - lo) (fun u => f (lo + u)%nat))
              body lo hi acc0) as [acc [Hrun Hacc]].
  - exact Hle.
  - rewrite Nat.sub_diag. cbn [rsum]. lra.
  - intros j t Hj Ht. rewrite Hbody by exact Hj. eexists. split; [reflexivity |].
    subst t. replace (Datatypes.S j - lo)%nat with (Datatypes.S (j - lo)) by lia.
    cbn [rsum]. replace (lo + (j - lo))%nat with j by lia. lra.
  - rewrite Hrun, Hacc. reflexivity.
Qed.

(** Sums against a row and against a column of a lower-triangular matrix. *)
Lemma rsum_lower (r n : nat) (f : nat -> R) (g : R) :
  (r < n)%nat ->
  rsum n (fun t => if (t <? r)%nat then f t
                   else if (t =? r)%nat then g else 0)
  = rsum r f + g.
Proof.
  intros Hr. replace n with (r + (1 + (n - r - 1)))%nat by lia.
  rewrite rsum_app, rsum_app. cbn [rsum].
  rewrite Nat.add_0_r, Nat.ltb_irrefl, Nat.eqb_refl.
  rewrite (rsum_ext r _ f).
  2:{ intros i Hi. replace (i <? r)%nat with true
        by (symmetry; apply Nat.ltb_lt; lia). reflexivity. }
  rewrite (rsum_zero (n - r - 1)).
  2:{ intros i Hi.
      replace (r + (1 + i) <? r)%nat with false
        by (symmetry; apply Nat.ltb_ge; lia).
      replace (r + (1 + i) =? r)%nat with false
        by (symmetry; apply Nat.eqb_neq; lia).
      reflexivity. }
  lra.
Qed.

Lemma rsum_upper (t n : nat) (f : nat -> R) (g : R) :
  (t < n)%nat ->
  rsum n (fun c => if (c <? t)%nat then 0
                   else if (c =? t)%nat then g else f c)
  = g + rsum (n - t - 1) (fun u => f (t + 1 + u)%nat).
Proof.
  intros Ht. replace n with (t + (1 + (n - t - 1)))%nat at 1 by lia.
  rewrite rsum_app, rsum_app. cbn [rsum].
  rewrite Nat.add_0_r, Nat.ltb_irrefl, Nat.eqb_refl.
  rewrite (rsum_zero t).
  2:{ intros i Hi. replace (i <? t)%nat with true
        by (symmetry; apply Nat.ltb_lt; lia). reflexivity. }
  rewrite (rsum_ext (n - t - 1) _ (fun u => f (t + 1 + u)%nat)).
  2:{ intros i Hi.
      replace (t + (1 + i) <? t)%nat with false
        by (symmetry; apply Nat.ltb_ge; lia).
      replace (t + (1 + i) =? t)%nat with false
        by (symmetry; apply Nat.eqb_neq; lia).
      f_equal. lia. }
  lra.
Qed.

(** [pow(s, -0.5)] is the reciprocal of a square root. *)
Lemma inverse_root (s : R) :
  0 < s -> 0 < Rpower s (- (1 / 2)) /\
           s * (Rpower s (- (1 / 2)) * Rpower s (- (1 / 2))) = 1.
Proof.
  intros Hs. split; [apply exp_pos |].
  rewrite <- Rpower_plus.
  replace (- (1 / 2) + - (1 / 2)) with (Ropp 1) by lra.
  rewrite Rpower_Ropp, Rpower_1 by exact Hs. field. lra.
Qed.

(** *** The algebra of the factorisation

    [a] is the upper triangle of the matrix, [l] the strict lower triangle
    the factorisation leaves, [d] the inverted diagonal of the factor, [y]
    the result of the forward and [x] that of the backward substitution. *)
Section CholeskyAlgebra.
Variables (n : nat) (a l : nat -> nat -> R) (d b y x : nat -> R).

Hypothesis Hdiag : forall k, (k < n)%nat ->
  0 < d k /\ (a k k - rsum k (fun t => l k t * l k t)) * (d k * d k) = 1.
Hypothesis Hlow : forall k j, (k < j < n)%nat ->
  l j k = (a k j - rsum k (fun t => l k t * l j t)) * d k.
Hypothesis Hfwd : forall r, (r < n)%nat ->
  y r = (b r - rsum r (fun j => l r j * y j)) * d r.
Hypothesis Hbwd : forall r, (r < n)%nat ->
  x r = (y r - rsum (n - r - 1)
                 (fun u => l (r + 1 + u)%nat r * x (r + 1 + u)%nat)) * d r.

(** The factor, diagonal included. *)
Let factor (r t : nat) : R :=
  if (t <? r)%nat then l r t else if (t =? r)%nat then / d r else 0.

Lemma factor_row_sum (r : nat) (v : nat -> R) :
  (r < n)%nat ->
  rsum n (fun t => factor r t * v t) = rsum r (fun t => l r t * v t) + / d r * v r.
Proof.
  intros Hr. rewrite <- (rsum_lower r n (fun t => l r t * v t) (/ d r * v r) Hr).
  apply rsum_ext. intros t Ht. unfold factor.
  destruct (t <? r)%nat; [reflexivity |].
  destruct (t =? r)%nat eqn:E; [| lra].
  apply Nat.eqb_eq in E. subst t. reflexivity.
Qed.

Lemma factor_product_upper (r c : nat) :
  (r <= c)%nat -> (c < n)%nat ->
  rsum n (fun t => factor r t * factor c t) = a r c.
Proof.
  intros Hrc Hc. rewrite factor_row_sum by lia.
  rewrite (rsum_ext r _ (fun t => l r t * l c t)).
  2:{ intros t Ht. unfold factor.
      replace (t <? c)%nat with true by (symmetry; apply Nat.ltb_lt; lia).
      reflexivity. }
  destruct (Hdiag r ltac:(lia)) as [Hd Hpivot].
  unfold factor. destruct (Nat.eq_dec r c) as [-> | Hne].
  - rewrite Nat.ltb_irrefl, Nat.eqb_refl.
    set (s := rsum c (fun t => l c t * l c t)) in *.
    assert (Hs : a c c - s = / d c * / d c).
    { apply (Rmult_eq_reg_r (d c * d c)); [| nra].
      rewrite Hpivot. field. lra. }
    lra.
  - replace (r <? c)%nat with true by (symmetry; apply Nat.ltb_lt; lia).
    rewrite (Hlow r c) by lia.
    set (s := rsum r (fun t => l r t * l c t)).
    field. lra.
Qed.

Lemma factor_product (r c : nat) :
  (r < n)%nat -> (c < n)%nat ->
  rsum n (fun t => factor r t * factor c t)
  = if (r <=? c)%nat then a r c else a c r.
Proof.
  intros Hr Hc. destruct (r <=? c)%nat eqn:E.
  - apply Nat.leb_le in E. apply factor_product_upper; assumption.
  - apply Nat.leb_gt in E. rewrite <- (factor_product_upper c r) by lia.
    apply rsum_ext. intros; lra.
Qed.

Lemma forward_row (r : nat) :
  (r < n)%nat -> rsum n (fun t => factor r t * y t) = b r.
Proof.
  intros Hr. rewrite factor_row_sum by exact Hr.
  destruct (Hdiag r Hr) as [Hd _].
  rewrite (Hfwd r Hr).
  set (s := rsum r (fun j => l r j * y j)). field. lra.
Qed.

Lemma backward_column (t : nat) :
  (t < n)%nat -> rsum n (fun c => factor c t * x c) = y t.
Proof.
  intros Ht.
  rewrite (rsum_ext n _
             (fun c => if (c <? t)%nat then 0
                       else if (c =? t)%nat then / d t * x t
                       else l c t * x c)).
  2:{ intros c Hc. unfold factor.
      destruct (Nat.lt_trichotomy c t) as [Hlt | [-> | Hgt]].
      - replace (t <? c)%nat with false by (symmetry; apply Nat.ltb_ge; lia).
        replace (t =? c)%nat with false by (symmetry; apply Nat.eqb_neq; lia).
        replace (c <? t)%nat with true by (symmetry; apply Nat.ltb_lt; lia).
        lra.
      - rewrite Nat.ltb_irrefl, Nat.eqb_refl. reflexivity.
      - replace (t <? c)%nat with true by (symmetry; apply Nat.ltb_lt; lia).
        replace (c <? t)%nat with false by (symmetry; apply Nat.ltb_ge; lia).
        replace (c =? t)%nat with false by (symmetry; apply Nat.eqb_neq; lia).
        reflexivity. }
  rewrite rsum_upper by exact Ht.
  destruct (Hdiag t Ht) as [Hd _].
  rewrite (Hbwd t Ht).
  set (s := rsum (n - t - 1) _). field. lra.
Qed.

(** The substitutions solve the system of the mirrored matrix. *)
Lemma substitutions_solve (r : nat) :
  (r < n)%nat ->
  rsum n (fun c => (if (r <=? c)%nat then a r c else a c r) * x c) = b r.
Proof.
  intros Hr.
  rewrite (rsum_ext n _
             (fun c => rsum n (fun t => factor r t * (factor c t * x c)))).
  2:{ intros c Hc. rewrite <- (factor_product r c Hr Hc).
      rewrite <- rsum_scal_r. apply rsum_ext. intros; lra. }
  rewrite rsum_swap.
  rewrite (rsum_ext n _ (fun t => factor r t * y t)).
  2:{ intros t Ht. rewrite rsum_scal. rewrite backward_column by exact Ht.
      reflexivity. }
  apply forward_row. exact Hr.
Qed.

End CholeskyAlgebra.

Lemma rsum_cut (n m : nat) (f : nat -> R) :
  (m <= n)%nat -> (forall r, (m <= r < n)%nat -> f r = 0) ->
  rsum n f = rsum m f.
Proof.
  intros Hle Hz. replace n with (m + (n - m))%nat by lia.
  rewrite rsum_app. rewrite (rsum_zero (n - m)); [lra |].
  intros r Hr. apply Hz. lia.
Qed.

(** An upper-triangular system with a diagonal free of zeros has a
    solution. *)
Lemma upper_triangular_solvable (i : nat) (U : nat -> nat -> R) :
  (forall k, (k < i)%nat -> U k k <> 0) ->
  (forall k c, (c < k)%nat -> U k c = 0) ->
  forall rhs : nat -> R,
  exists w : nat -> R,
    forall k, (k < i)%nat -> rsum i (fun c => U k c * w c) = rhs k.
Proof.
  intros Hdiag. induction i as [|i IH]; intros Hzero rhs.
  - exists (fun _ => 0). intros k Hk. lia.
  - destruct (IH ltac:(intros k Hk; apply Hdiag; lia) Hzero
                (fun k => rhs k - U k i * (rhs i / U i i))) as [w Hw].
    exists (fun c => if (c =? i)%nat then rhs i / U i i else w c).
    intros k Hk. cbn [rsum]. rewrite Nat.eqb_refl.
    rewrite (rsum_ext i _ (fun c => U k c * w c)).
    2:{ intros c Hc.
        replace (c =? i)%nat with false by (symmetry; apply Nat.eqb_neq; lia).
        reflexivity. }
    destruct (Nat.eq_dec k i) as [-> | Hne].
    + rewrite (rsum_zero i).
      2:{ intros c Hc. rewrite Hzero by lia. lra. }
      field. apply Hdiag. lia.
    + rewrite Hw by lia. lra.
Qed.

(** *** The pivots of a positive definite matrix *)
Section PivotPositive.
Variables (n i : nat) (a l : nat -> nat -> R) (d : nat -> R).
Hypothesis Hi : (i < n)%nat.
Hypothesis Hdiag : forall k, (k < i)%nat ->
  0 < d k /\ (a k k - rsum k (fun t => l k t * l k t)) * (d k * d k) = 1.
Hypothesis Hlow : forall k j, (k < j <= i)%nat ->
  l j k = (a k j - rsum k (fun t => l k t * l j t)) * d k.
Hypothesis Hpd :
  positive_definite n (fun r c => if (r <=? c)%nat then a r c else a c r).

Let F (r t : nat) : R :=
  if (t <? r)%nat then l r t else if (t =? r)%nat then / d r else 0.
Let s : R := a i i - rsum i (fun t => l i t * l i t).
Let m (r c : nat) : R := if (r <=? c)%nat then a r c else a c r.

Lemma last_row_of_factor (t : nat) : (t < i)%nat -> F i t = l i t.
Proof.
  intros Ht. unfold F.
  replace (t <? i)%nat with true by (symmetry; apply Nat.ltb_lt; lia).
  reflexivity.
Qed.

Lemma gram_column (r : nat) :
  (r < i)%nat -> rsum i (fun t => F r t * F i t) = a r i.
Proof.
  intros Hr.
  rewrite (rsum_ext i _ (fun t => F r t * l i t))
    by (intros t Ht; rewrite last_row_of_factor by exact Ht; reflexivity).
  unfold F. rewrite (factor_row_sum i l d r (fun t => l i t) Hr).
  destruct (Hdiag r Hr) as [Hd _].
  rewrite (Hlow r i) by lia.
  set (q := rsum r (fun t => l r t * l i t)). field. lra.
Qed.

Lemma gram (r c : nat) :
  (r <= i)%nat -> (c <= i)%nat ->
  m r c = rsum i (fun t => F r t * F c t)
          + (if ((r =? i) && (c =? i))%nat then s else 0).
Proof.
  intros Hr Hc. unfold m.
  destruct (Nat.eq_dec r i) as [-> | Hri], (Nat.eq_dec c i) as [-> | Hci].
  - rewrite Nat.leb_refl, Nat.eqb_refl. cbn [andb].
    rewrite (rsum_ext i _ (fun t => l i t * l i t))
      by (intros t Ht; rewrite last_row_of_factor by exact Ht; reflexivity).
    unfold s. lra.
  - replace (i <=? c)%nat with false by (symmetry; apply Nat.leb_gt; lia).
    replace (c =? i)%nat with false by (symmetry; apply Nat.eqb_neq; lia).
    rewrite andb_false_r.
    rewrite (rsum_ext i _ (fun t => F c t * F i t)) by (intros; lra).
    rewrite gram_column by lia. lra.
  - replace (r <=? i)%nat with true by (symmetry; apply Nat.leb_le; lia).
    replace (r =? i)%nat with false by (symmetry; apply Nat.eqb_neq; lia).
    cbn [andb]. rewrite gram_column by lia. lra.
  - replace (r =? i)%nat with false by (symmetry; apply Nat.eqb_neq; lia).
    cbn [andb]. unfold F.
    rewrite (factor_product i a l d) by (try lia; intros; try apply Hdiag;
                                          try apply Hlow; lia).
    lra.
Qed.

Lemma pivot_positive : 0 < s.
Proof.
  destruct (upper_triangular_solvable i (fun t c => F c t)) with (rhs := l i)
    as [w Hw].
  { intros k Hk. unfold F. rewrite Nat.ltb_irrefl, Nat.eqb_refl.
    destruct (Hdiag k Hk) as [Hd _]. apply Rinv_neq_0_compat. lra. }
  { intros k c Hc. unfold F.
    replace (k <? c)%nat with false by (symmetry; apply Nat.ltb_ge; lia).
    replace (k =? c)%nat with false by (symmetry; apply Nat.eqb_neq; lia).
    reflexivity. }
  set (v := fun r => if (r <? i)%nat then w r
                     else if (r =? i)%nat then -1 else 0).
  assert (Hvi : v i = -1)
    by (unfold v; rewrite Nat.ltb_irrefl, Nat.eqb_refl; reflexivity).
  assert (Hvlow : forall r, (r < i)%nat -> v r = w r).
  { intros r Hr. unfold v.
    replace (r <? i)%nat with true by (symmetry; apply Nat.ltb_lt; lia).
    reflexivity. }
  assert (Hvhigh : forall r, (i < r)%nat -> v r = 0).
  { intros r Hr. unfold v.
    replace (r <? i)%nat with false by (symmetry; apply Nat.ltb_ge; lia).
    replace (r =? i)%nat with false by (symmetry; apply Nat.eqb_neq; lia).
    reflexivity. }
  (* every column of the factor is orthogonal to [v] *)
  assert (Horth : forall t, (t < i)%nat ->
            rsum (Datatypes.S i) (fun c => F c t * v c) = 0).
  { intros t Ht. cbn [rsum]. rewrite Hvi, last_row_of_factor by exact Ht.
    rewrite (rsum_ext i _ (fun c => F c t * w c))
      by (intros c Hc; rewrite Hvlow by exact Hc; reflexivity).
    rewrite (Hw t Ht). lra. }
  assert (Hrow : forall r, (r <= i)%nat ->
            rsum (Datatypes.S i) (fun c => v r * m r c * v c)
            = if (r =? i)%nat then s else 0).
  { intros r Hr.
    rewrite (rsum_ext (Datatypes.S i) _
               (fun c => v r * rsum i (fun t => F r t * (F c t * v c))
                         + v r * (if ((r =? i) && (c =? i))%nat then s else 0)
                           * v c)).
    2:{ intros c Hc. rewrite (gram r c) by lia.
        assert (E : rsum i (fun t => F r t * (F c t * v c))
                    = rsum i (fun t => F r t * F c t) * v c).
        { rewrite <- rsum_scal_r. apply rsum_ext. intros; lra. }
        rewrite E. ring. }
    rewrite rsum_plus.
    rewrite rsum_scal. rewrite rsum_swap.
    rewrite (rsum_zero i).
    2:{ intros t Ht. rewrite rsum_scal. rewrite (Horth t Ht). lra. }
    cbn [rsum]. rewrite Nat.eqb_refl, andb_true_r.
    rewrite (rsum_zero i).
    2:{ intros c Hc.
        replace (c =? i)%nat with false by (symmetry; apply Nat.eqb_neq; lia).
        rewrite andb_false_r. lra. }
    rewrite Hvi. destruct (r =? i)%nat eqn:E.
    - apply Nat.eqb_eq in E. subst r. rewrite Hvi. lra.
    - lra. }
  assert (Hform : quadratic_form n m v = s).
  { unfold quadratic_form.
    rewrite (rsum_cut n (Datatypes.S i)); [| lia |].
    2:{ intros r Hr. apply rsum_zero. intros c Hc.
        rewrite (Hvhigh r) by lia. lra. }
    rewrite (rsum_ext (Datatypes.S i) _
               (fun r => if (r =? i)%nat then s else 0)).
    2:{ intros r Hr. rewrite <- (Hrow r) by lia.
        apply rsum_cut; [lia |]. intros c Hc.
        rewrite (Hvhigh c) by lia. lra. }
    cbn [rsum]. rewrite Nat.eqb_refl.
    rewrite (rsum_zero i); [lra |].
    intros r Hr.
    replace (r =? i)%nat with false by (symmetry; apply Nat.eqb_neq; lia).
    reflexivity. }
  rewrite <- Hform. apply Hpd. exists i. split; [exact Hi |].
  rewrite Hvi. lra.
Qed.

End PivotPositive.

(** *** The loops of the solver *)

Section CholeskyRuns.
Variables (A0 : list (list R)) (n : nat).

(** One round of the factorisation: on a pivot that is not positive it
    leaves with the state as it is, otherwise it adds a column to the
    factor. *)
Lemma factor_round (i : nat) (A : list (list R)) (d : list R) :
  (i < n)%nat -> factored A0 n i A d ->
  Cholesky.Cholesky_factor_round n i (A, d) = Ret (inl (A, d)) /\
  entry A0 i i - rsum i (fun k => entry A i k * entry A i k) <= 0 \/
  exists A' d',
    Cholesky.Cholesky_factor_round n i (A, d) = Ret (inr (A', d')) /\
    factored A0 n (Datatypes.S i) A' d'.
Proof.
  intros Hi (Hsq & Hd & Hup & Hcols).
  pose proof Hsq as [Hrows Hrowlen].
  pose proof (Hrowlen i Hi) as Hrowi.
  unfold Cholesky.Cholesky_factor_round.
  rewrite rd2_entry by lia. cbn [bind].
  rewrite (descending_sum _ i (fun k => entry A i k * entry A i k)).
  2:{ intros t acc Ht. cbv zeta. rewrite rd2_entry by lia. reflexivity. }
  cbn [bind]. real_arith. cbn [c_pow real_libm].
  rewrite (Hup i i) by lia.
  set (s := entry A0 i i - rsum i (fun k => entry A i k * entry A i k)).
  destruct (Rle_lt_dec s 0) as [Hsing | Hpos].
  { left. rewrite Rleb_true by exact Hsing. split; [reflexivity | exact Hsing]. }
  right. rewrite Rleb_false_of_lt by exact Hpos.
  rewrite wr_in by lia. cbn [bind].
  set (v := Rpower s (- (1 / 2))).
  destruct (inverse_root s Hpos) as [Hv Hvv]. fold v in Hv, Hvv.
  match goal with |- context [for_range (i + 1) n ?body A] =>
    destruct (for_range_invariant
                (fun j A' =>
                   square n A' /\
                   (forall r c, ~ (c = i /\ (i < r < j)%nat) ->
                                entry A' r c = entry A r c) /\
                   forall j', (i < j' < j)%nat ->
                     entry A' j' i
                     = (entry A0 i j'
                        - rsum i (fun t => entry A i t * entry A j' t)) * v)
                body (i + 1)%nat n A)
      as [A' [Hrun (Hsq' & Hsame & Hcol)]]
  end.
  - lia.
  - split; [exact Hsq |]. split; [reflexivity |]. intros j' Hj'. lia.
  - intros j A1 Hj (Hsq1 & Hsame1 & Hcol1).
    pose proof Hsq1 as [Hrows1 Hrowlen1].
    pose proof (Hrowlen1 i Hi) as Hri. pose proof (Hrowlen1 j ltac:(lia)) as Hrj.
    rewrite rd2_entry by lia. cbn [bind].
    rewrite (descending_sum _ i (fun t => entry A1 i t * entry A1 j t)).
    2:{ intros t acc Ht. cbv zeta. rewrite !rd2_entry by lia. reflexivity. }
    cbn [bind]. rewrite (rd_in _ i 0) by (rewrite length_upd; lia). cbn [bind].
    rewrite nth_upd_same by lia.
    rewrite wr2_entry by lia.
    eexists. split; [reflexivity |].
    split; [apply square_upd; [exact Hsq1 | lia] |]. split.
    + intros r c Hrc. rewrite entry_upd by lia.
      destruct ((r =? j) && (c =? i))%nat eqn:E.
      * apply andb_prop in E. destruct E as [E1 E2].
        apply Nat.eqb_eq in E1, E2. exfalso. apply Hrc. lia.
      * apply Hsame1. intros [Hc Hr].
        apply andb_false_iff in E. rewrite !Nat.eqb_neq in E.
        apply Hrc. lia.
    + intros j' Hj'. rewrite entry_upd by lia.
      destruct (Nat.eq_dec j' j) as [-> | Hne].
      * rewrite !Nat.eqb_refl. cbn [andb].
        rewrite (Hsame1 i j) by lia. rewrite (Hup i j) by lia.
        f_equal. f_equal. apply rsum_ext. intros t Ht.
        rewrite (Hsame1 i t), (Hsame1 j t) by lia. reflexivity.
      * replace (j' =? j)%nat with false by (symmetry; apply Nat.eqb_neq; lia).
        cbn [andb]. apply Hcol1. lia.
  - rewrite Hrun. cbn [bind]. eexists. eexists. split; [reflexivity |].
    split; [exact Hsq' |]. split; [rewrite length_upd; exact Hd |]. split.
    + intros r c Hrc Hc. rewrite Hsame by lia. apply Hup; assumption.
    + intros k Hk. destruct (Nat.eq_dec k i) as [-> | Hne].
      * rewrite nth_upd_same by lia. split; [exact Hv |]. split.
        -- rewrite (rsum_ext i _ (fun t => entry A i t * entry A i t)).
           2:{ intros t Ht. rewrite (Hsame i t) by lia. reflexivity. }
           exact Hvv.
        -- intros j Hj. rewrite (Hcol j) by lia. f_equal. f_equal.
           apply rsum_ext. intros t Ht.
           rewrite (Hsame i t), (Hsame j t) by lia. reflexivity.
      * rewrite nth_upd_other by exact Hne.
        destruct (Hcols k ltac:(lia)) as (Hdk & Hpk & Hlk).
        split; [exact Hdk |]. split.
        -- rewrite (rsum_ext k _ (fun t => entry A k t * entry A k t)).
           2:{ intros t Ht. rewrite (Hsame k t) by lia. reflexivity. }
           exact Hpk.
        -- intros j Hj. rewrite (Hsame j k) by lia. rewrite (Hlk j Hj).
           f_equal. f_equal. apply rsum_ext. intros t Ht.
           rewrite (Hsame k t), (Hsame j t) by lia. reflexivity.
Qed.

(** The factorisation loop. *)
Lemma factorisation (d : list R) :
  square n A0 -> (n <= length d)%nat ->
  exists r,
    for_loop_exit n 0 (Cholesky.Cholesky_factor_round n) (A0, d) = Ret r /\
    match r with
    | inl _ => ~ positive_definite n (mirrored A0)
    | inr (A, d') => factored A0 n n A d'
    end.
Proof.
  intros Hsq Hd.
  destruct (for_loop_exit_invariant
              (fun i (st : list (list R) * list R) =>
                 factored A0 n i (fst st) (snd st))
              (fun _ : list (list R) * list R =>
                 ~ positive_definite n (mirrored A0))
              (Cholesky.Cholesky_factor_round n) n 0 (A0, d))
    as [r [Hrun Hr]].
  - cbn [fst snd]. split; [exact Hsq |]. split; [exact Hd |].
    split; [reflexivity | intros k Hk; lia].
  - intros j [A d1] Hj Hinv. cbn [fst snd] in Hinv.
    destruct (factor_round j A d1 ltac:(lia) Hinv)
      as [[Hout Hpivot] | (A' & d' & Hstep & Hinv')].
    + left. eexists. split; [exact Hout |].
      intros Hpd. destruct Hinv as (_ & _ & _ & Hcols).
      pose proof (pivot_positive n j (entry A0) (entry A) (fun k => nth k d1 0)
                    ltac:(lia)) as Hpos.
      apply Rle_not_lt in Hpivot. apply Hpivot, Hpos.
      * intros k Hk. destruct (Hcols k Hk) as (H1 & H2 & _). split; assumption.
      * intros k i Hki. destruct (Hcols k ltac:(lia)) as (_ & _ & H3).
        apply H3. lia.
      * exact Hpd.
    + right. exists (A', d'). split; [exact Hstep | exact Hinv'].
  - exists r. split; [exact Hrun |].
    destruct r as [x | [A d']]; exact Hr.
Qed.

End CholeskyRuns.

(** The forward substitution. *)
Lemma forward_substitution (A : list (list R)) (n : nat) (b d x : list R) :
  square n A -> (n <= length b)%nat -> (n <= length d)%nat ->
  (n <= length x)%nat ->
  exists y,
    for_range 0 n
      (fun i xvec =>
         sum <- rd b i ;;
         sum <- for_range 0 i
           (fun t sum =>
              let j := (i - 1 - t)%nat in
              aij <- rd2 A i j ;;
              xj <- rd xvec j ;;
              Ret (sum -! aij *! xj)%D)
           sum ;;
         dd <- rd d i ;;
         wr xvec i (sum *! dd)%D)
      x = Ret y /\
    length y = length x /\
    forall r, (r < n)%nat ->
      nth r y 0 = (nth r b 0 - rsum r (fun j => entry A r j * nth j y 0))
                  * nth r d 0.
Proof.
  intros [Hrows Hrowlen] Hb Hd Hx. real_arith.
  match goal with |- context [for_range 0 n ?body x] =>
    destruct (for_range_invariant
                (fun i y =>
                   length y = length x /\
                   forall r, (r < i)%nat ->
                     nth r y 0
                     = (nth r b 0 - rsum r (fun j => entry A r j * nth j y 0))
                       * nth r d 0)
                body 0%nat n x) as [y [Hrun Hinv]]
  end.
  - lia.
  - split; [reflexivity | intros r Hr; lia].
  - intros i y Hi [Hlen Hdone].
    pose proof (Hrowlen i ltac:(lia)) as Hri.
    rewrite (rd_in b i 0) by lia. cbn [bind].
    rewrite (descending_sum _ i (fun j => entry A i j * nth j y 0)).
    2:{ intros t acc Ht. cbv zeta. rewrite rd2_entry by lia. cbn [bind].
        rewrite (rd_in y _ 0) by lia. reflexivity. }
    cbn [bind]. rewrite (rd_in d i 0) by lia. cbn [bind].
    rewrite wr_in by lia. eexists. split; [reflexivity |].
    split; [rewrite length_upd; exact Hlen |].
    intros r Hr. destruct (Nat.eq_dec r i) as [-> | Hne].
    + rewrite nth_upd_same by lia. f_equal. f_equal. apply rsum_ext.
      intros j Hj. rewrite nth_upd_other by lia. reflexivity.
    + rewrite nth_upd_other by exact Hne. rewrite Hdone by lia.
      f_equal. f_equal. apply rsum_ext.
      intros j Hj. rewrite nth_upd_other by lia. reflexivity.
  - exists y. split; [exact Hrun | exact Hinv].
Qed.

(** The backward substitution, in place on the result of the forward one. *)
Lemma backward_substitution (A : list (list R)) (n : nat) (d y : list R) :
  square n A -> (n <= length d)%nat -> (n <= length y)%nat ->
  exists x,
    for_range 0 n
      (fun t xvec =>
         let i := (n - 1 - t)%nat in
         sum <- rd xvec i ;;
         sum <- for_range (i + 1) n
           (fun j sum =>
              aji <- rd2 A j i ;;
              xj <- rd xvec j ;;
              Ret (sum -! aji *! xj)%D)
           sum ;;
         dd <- rd d i ;;
         wr xvec i (sum *! dd)%D)
      y = Ret x /\
    length x = length y /\
    forall r, (r < n)%nat ->
      nth r x 0
      = (nth r y 0
         - rsum (n - r - 1)
             (fun u => entry A (r + 1 + u) r * nth (r + 1 + u) x 0))
        * nth r d 0.
Proof.
  intros [Hrows Hrowlen] Hd Hy. real_arith.
  match goal with |- context [for_range 0 n ?body y] =>
    destruct (for_range_invariant
                (fun t x =>
                   length x = length y /\
                   (forall r, (r < n - t)%nat -> nth r x 0 = nth r y 0) /\
                   forall r, (n - t <= r < n)%nat ->
                     nth r x 0
                     = (nth r y 0
                        - rsum (n - r - 1)
                            (fun u => entry A (r + 1 + u) r
                                      * nth (r + 1 + u) x 0))
                       * nth r d 0)
                body 0%nat n y) as [x [Hrun (Hlen & _ & Hdone)]]
  end.
  - lia.
  - split; [reflexivity |]. split; [reflexivity | intros r Hr; lia].
  - intros t x Ht (Hlen & Hkeep & Hdone). cbv zeta.
    set (i := (n - 1 - t)%nat).
    rewrite (rd_in x i 0) by lia. cbn [bind].
    rewrite (ascending_sum _ (i + 1) n (fun j => entry A j i * nth j x 0)).
    2:{ lia. }
    2:{ intros j acc Hj. pose proof (Hrowlen j ltac:(lia)) as Hrj.
        rewrite rd2_entry by lia. cbn [bind].
        rewrite (rd_in x j 0) by lia. reflexivity. }
    cbn [bind]. rewrite (rd_in d i 0) by lia. cbn [bind].
    rewrite wr_in by lia. eexists. split; [reflexivity |].
    split; [rewrite length_upd; exact Hlen |]. split.
    + intros r Hr. rewrite nth_upd_other by lia. apply Hkeep. lia.
    + intros r Hr. destruct (Nat.eq_dec r i) as [-> | Hne].
      * rewrite nth_upd_same by lia. rewrite (Hkeep i) by lia.
        replace (n - (i + 1))%nat with (n - i - 1)%nat by lia.
        f_equal. f_equal. apply rsum_ext. intros u Hu.
        rewrite nth_upd_other by lia. reflexivity.
      * rewrite nth_upd_other by exact Hne. rewrite Hdone by lia.
        f_equal. f_equal. apply rsum_ext. intros u Hu.
        rewrite nth_upd_other by lia. reflexivity.
  - exists x. split; [exact Hrun |]. split; [exact Hlen |].
    intros r Hr. apply Hdone. lia.
Qed.

(** X8.  [LPC_CholeskyDecomposition] in exact arithmetic, on buffers of at
    least [dim] cells, with [M] the symmetric matrix whose upper triangle is
    that of [Amat] (the only part of [Amat] the function reads before writing
    it).  It returns [LPC_ERROR_SINGULAR_MATRIX], leaving [xvec] as it is, only
    if [M] is not positive definite; otherwise it returns [LPC_ERROR_OK] and
    [xvec] solves the system [M x = bvec]. *)
Theorem CholeskyDecomposition_solves
    (Amat : list (list R)) (dim : nat) (xvec bvec inv_diag : list R) :
  square dim Amat -> (dim <= length xvec)%nat -> (dim <= length bvec)%nat ->
  (dim <= length inv_diag)%nat ->
  exists err A x d,
    Cholesky.LPC_CholeskyDecomposition Amat dim xvec bvec inv_diag
    = Ret (err, A, x, d) /\
    (err = LPC_ERROR_SINGULAR_MATRIX /\ x = xvec /\
     ~ positive_definite dim (mirrored Amat) \/
     err = LPC_ERROR_OK /\ length x = length xvec /\
     forall r, (r < dim)%nat ->
       rsum dim (fun c => mirrored Amat r c * nth c x 0) = nth r bvec 0).
Proof.
  intros Hsq Hx Hb Hd. unfold Cholesky.LPC_CholeskyDecomposition.
  destruct (factorisation Amat dim inv_diag Hsq Hd) as [r [Hrun Hr]].
  rewrite Hrun. cbn [bind].
  destruct r as [[A d] | [A d]].
  { eexists. eexists. eexists. eexists. split; [reflexivity |].
    left. split; [reflexivity |]. split; [reflexivity | exact Hr]. }
  destruct Hr as (HsqA & HdA & Hup & Hcols). cbv beta iota zeta.
  destruct (forward_substitution A dim bvec d xvec HsqA Hb HdA Hx)
    as (y & Hfwd & Hleny & Hy).
  cbv zeta in Hfwd. rewrite Hfwd. cbn [bind].
  destruct (backward_substitution A dim d y HsqA HdA ltac:(lia))
    as (x & Hbwd & Hlenx & Hxs).
  cbv zeta in Hbwd. rewrite Hbwd. cbn [bind].
  eexists. eexists. eexists. eexists. split; [reflexivity |].
  right. split; [reflexivity |]. split; [lia |].
  intros r Hr.
  rewrite (rsum_ext dim _
             (fun c => (if (r <=? c)%nat then entry Amat r c
                        else entry Amat c r) * nth c x 0))
    by (intros c Hc; reflexivity).
  apply (substitutions_solve dim (entry Amat) (entry A)
           (fun k => nth k d 0) (fun k => nth k bvec 0)
           (fun k => nth k y 0) (fun k => nth k x 0)).
  - intros k Hk. destruct (Hcols k Hk) as (H1 & H2 & _). split; assumption.
  - intros k j Hkj. destruct (Hcols k ltac:(lia)) as (_ & _ & H3).
    apply H3. exact Hkj.
  - exact Hy.
  - exact Hxs.
  - exact Hr.
Qed.

Lemma CholeskyDecomposition_solves_witness :
  exists err A x d,
    Cholesky.LPC_CholeskyDecomposition [[4; 2]; [7; 3]] 2 [0; 0] [2; 1] [0; 0]
    = Ret (err, A, x, d) /\
    (err = LPC_ERROR_SINGULAR_MATRIX /\ x = [0; 0] /\
     ~ positive_definite 2 (mirrored [[4; 2]; [7; 3]]) \/
     err = LPC_ERROR_OK /\ length x = length [0; 0] /\
     forall r, (r < 2)%nat ->
       rsum 2 (fun c => mirrored [[4; 2]; [7; 3]] r c * nth c x 0)
       = nth r [2; 1] 0).
Proof.
  apply (CholeskyDecomposition_solves [[4; 2]; [7; 3]] 2 [0; 0] [2; 1] [0; 0]).
  - split; [simpl; lia |]. intros [|[|i]] Hi; simpl; lia.
  - simpl. lia.
  - simpl. lia.
  - simpl. lia.
Defined.
